(** * react-profiler-optimize: analysis core

    A shallow embedding of the profile analyzer ([scripts/analyze-profile.mjs])
    and of the report comparator ([scripts/compare-profiles.mjs]), with the
    properties of the edit-log decoder, the commit flamegraph, the render
    reason classifier, the cadence detector, the hotspot ranking and the
    comparison verdict.

    Conventions of the embedding.
    - A finite JavaScript number is a rational [Q] with exact arithmetic;
      [NaN] is kept apart ([jsnum]) because reading past the end of an array
      and [Number(undefined)] produce it.  Numbers are compared with [Qeq]
      (one JavaScript number has several representations in [Q]).  The
      statements over [Q] are about order, membership and counting.
    - Where the rounding of the arithmetic decides the result, in the
      cadence detector, the numbers are the binary64 values of the source
      (module [Binary64], over the primitive [float]).
    - A JavaScript [Map] or [Set] is an association list or a list in
      insertion order, since the source iterates over them.
    - An object that the source mutates in place through a [Map] is the
      entry of the association list: reading a field of a reference obtained
      earlier is a lookup in the current list.
    - A template string that interpolates a number keeps the number apart
      (a constructor carrying it); where such strings are compared, the
      conversion of the number to a string is a parameter. *)

From Stdlib Require Import String Ascii.
From Stdlib Require Import ZArith QArith Qround Qabs Qminmax List Bool Lia Lqa.
From Stdlib Require Import Sorting.Sorted Sorting.Permutation.
From Stdlib Require PrimFloat FloatOps FloatAxioms SpecFloat.
Import ListNotations.
Open Scope Q_scope.

(** ** JavaScript values shared by the scripts *)

Module JS.

(** [Number(x)]: a finite number or [NaN]. *)
Inductive jsnum : Type :=
| Fin (q : Q)
| NaN.

(** [a + b] on numbers. *)
Definition nadd (a b : jsnum) : jsnum :=
  match a, b with
  | Fin x, Fin y => Fin (x + y)
  | _, _ => NaN
  end.

(** [a * b] on numbers. *)
Definition nmul (a b : jsnum) : jsnum :=
  match a, b with
  | Fin x, Fin y => Fin (x * y)
  | _, _ => NaN
  end.

(** [a === b] on numbers: [NaN] is different from everything. *)
Definition nseq (a b : jsnum) : bool :=
  match a, b with
  | Fin x, Fin y => Qeq_bool x y
  | _, _ => false
  end.

(** SameValueZero, the equality of [Map] keys, [Set] members and
    [Array.prototype.includes]: [NaN] equals [NaN]. *)
Definition sameValueZero (a b : jsnum) : bool :=
  match a, b with
  | Fin x, Fin y => Qeq_bool x y
  | NaN, NaN => true
  | _, _ => false
  end.

(** [Math.max(a, b)]. *)
Definition nmax (a b : jsnum) : jsnum :=
  match a, b with
  | Fin x, Fin y => Fin (Qmax x y)
  | _, _ => NaN
  end.

(** [x < y] on finite numbers. *)
Definition Qlt_bool (x y : Q) : bool := negb (Qle_bool y x).

(** [Math.round(x)]: the nearest integer, a half rounding up. *)
Definition mathRound (x : Q) : Z := Qfloor (x + (1 # 2)).

(** [round(num, digits)] for a finite [num]:
    [Math.round(num * 10 ** digits) / 10 ** digits]. *)
Definition round (num : Q) (digits : nat) : Q :=
  let factor := inject_Z (10 ^ Z.of_nat digits) in
  inject_Z (mathRound (num * factor)) / factor.

(** [Array.prototype.sort(cmp)]: a stable sort; [cmp a b <= 0] keeps [a]
    before [b].  Written as a stable insertion sort. *)
Section Sort.
Context {A : Type} (cmp : A -> A -> Q).

Fixpoint insertSorted (x : A) (l : list A) : list A :=
  match l with
  | [] => [x]
  | y :: l' =>
      if Qle_bool (cmp x y) 0 then x :: y :: l' else y :: insertSorted x l'
  end.

Fixpoint jsSort (l : list A) : list A :=
  match l with
  | [] => []
  | x :: l' => insertSorted x (jsSort l')
  end.
End Sort.

(** The comparator [(a, b) => a - b]. *)
Definition ascending (a b : Q) : Q := a - b.

(** [array.slice(0, n)]. *)
Definition slice0 {A : Type} (n : nat) (l : list A) : list A := firstn n l.

(** [median(values)]; [None] is [null]. *)
Definition median (values : list Q) : option Q :=
  match values with
  | [] => None
  | _ =>
      let sorted := jsSort ascending values in
      let mid := Nat.div (length sorted) 2 in
      if Nat.eqb (Nat.modulo (length sorted) 2) 0
      then Some ((nth (mid - 1) sorted 0 + nth mid sorted 0) / 2)
      else Some (nth mid sorted 0)
  end.

(** [percentile(values, p)]; [None] is [null]. *)
Definition percentile (values : list Q) (p : Q) : option Q :=
  match values with
  | [] => None
  | _ =>
      let sorted := jsSort ascending values in
      let len := Z.of_nat (length sorted) in
      let idx :=
        Z.min (len - 1)
              (Z.max 0 (Qceiling ((p / 100) * inject_Z len) - 1)) in
      Some (nth (Z.to_nat idx) sorted 0)
  end.

End JS.

(** ** Cadence detector ([summarizeCadence]) *)

(** The detector with exact arithmetic, as the analysis embeds it in its
    report; the statements about it are about counts and ranges.  The
    detector with the arithmetic of the source is in module [Binary64]. *)
Module Cadence.
Import JS.

Record CadenceSummary : Type := mkCadence {
  samples : nat;
  medianDeltaMs : option Q;       (* [None] is [null] *)
  regularity : option Q;          (* [None] is [null] *)
  likelyIntervalChurn : bool
}.

(** The loop [for (i = 1; i < sorted.length; i++)
    deltas.push(sorted[i] - sorted[i - 1])]. *)
Fixpoint consecutiveDeltas (sorted : list Q) : list Q :=
  match sorted with
  | a :: (b :: _) as rest => (b - a) :: consecutiveDeltas rest
  | _ => []
  end.

(** [medianDeltaMs || 0]. *)
Definition orZero (m : option Q) : Q :=
  match m with Some q => q | None => 0 end.

(** [Boolean(medianDeltaMs)]: neither [null] nor zero. *)
Definition truthy (m : option Q) : bool :=
  match m with Some q => negb (Qeq_bool q 0) | None => false end.

Definition tolerance (m : option Q) : Q := Qmax 40 (orZero m * (2 # 10)).

Definition isRegular (m : option Q) (d : Q) : bool :=
  Qle_bool (Qabs (d - orZero m)) (tolerance m).

Definition regularityOf (deltas : list Q) (m : option Q) : Q :=
  match deltas with
  | [] => 0
  | _ =>
      inject_Z (Z.of_nat (length (filter (isRegular m) deltas)))
      / inject_Z (Z.of_nat (length deltas))
  end.

Definition summarizeCadence (timestampsMs : list Q) : CadenceSummary :=
  if Nat.ltb (length timestampsMs) 4 then
    {| samples := length timestampsMs;
       medianDeltaMs := None;
       regularity := None;
       likelyIntervalChurn := false |}
  else
    let sorted := jsSort ascending timestampsMs in
    let deltas := consecutiveDeltas sorted in
    let medianDelta := median deltas in
    let reg := regularityOf deltas medianDelta in
    let likely :=
      truthy medianDelta
      && Qle_bool 700 (orZero medianDelta)
      && Qle_bool (orZero medianDelta) 1300
      && Qle_bool (1 # 2) reg
      && Nat.leb 3 (length deltas) in
    {| samples := length sorted;
       medianDeltaMs := Some (round (orZero medianDelta) 2);
       regularity := Some (round reg 3);
       likelyIntervalChurn := likely |}.

End Cadence.

(** ** [Map] and [Set] in insertion order *)

Module Coll.

Section Keyed.
Context {K V : Type} (keq : K -> K -> bool).

(** [map.get(k)]. *)
Fixpoint mapGet (k : K) (m : list (K * V)) : option V :=
  match m with
  | [] => None
  | (k', v) :: m' => if keq k' k then Some v else mapGet k m'
  end.

(** [map.has(k)]. *)
Definition mapHas (k : K) (m : list (K * V)) : bool :=
  match mapGet k m with Some _ => true | None => false end.

(** [map.set(k, v)]: an existing key keeps its place, a new one goes last. *)
Fixpoint mapSet (k : K) (v : V) (m : list (K * V)) : list (K * V) :=
  match m with
  | [] => [(k, v)]
  | (k', v') :: m' =>
      if keq k' k then (k', v) :: m' else (k', v') :: mapSet k v m'
  end.

(** [map.delete(k)]. *)
Definition mapDelete (k : K) (m : list (K * V)) : list (K * V) :=
  filter (fun kv => negb (keq (fst kv) k)) m.

(** [new Map(pairs)]. *)
Definition mapOfPairs (pairs : list (K * V)) : list (K * V) :=
  fold_left (fun m kv => mapSet (fst kv) (snd kv) m) pairs [].

(** [set.has(x)] and [array.includes(x)]. *)
Definition setHas (x : K) (s : list K) : bool := existsb (keq x) s.

(** [set.add(x)]. *)
Definition setAdd (x : K) (s : list K) : list K :=
  if setHas x s then s else s ++ [x].

(** [new Set(items)]. *)
Definition setOfList (items : list K) : list K :=
  fold_left (fun s x => setAdd x s) items [].
End Keyed.

End Coll.

(** ** Report comparator ([compareReports]) *)

Module Compare.
Import JS Coll.

(** The fields of an analysis report that the comparator reads.  A numeric
    field that is absent is [None] (the source reads it with [?? 0]). *)
Record Totals : Type := mkTotals {
  reactTimeMs : option Q;
  commits : option Q;
  reactComponentTrackEvents : option Q;
  reactSchedulerTrackEvents : option Q
}.

Record Hotspot : Type := mkHotspot {
  name : string;
  totalMs : option Q;
  count : option Q
}.

Record Report : Type := mkReport {
  totals : Totals;
  (* [cadence.likelyIntervalChurn], [None] when absent *)
  cadenceLikelyIntervalChurn : option bool;
  hotspots : list Hotspot
}.

Inductive Verdict : Type := improved | regressed | mixed.

Inductive Metric : Type := reactTimeMetric | componentTrackEventsMetric.

Record HotspotDiff : Type := mkDiff {
  diffName : string;
  beforeTotalMs : Q;
  afterTotalMs : Q;
  deltaMs : Q;
  deltaPct : Q;
  beforeCount : Q;
  afterCount : Q;
  countDelta : Q
}.

Record Comparison : Type := mkComparison {
  comparedUsing : Metric;
  topImprovements : list HotspotDiff;
  topRegressions : list HotspotDiff;
  verdict : Verdict
}.

(** [Number(x ?? 0)] for a numeric or absent field. *)
Definition num0 (x : option Q) : Q :=
  match x with Some q => q | None => 0 end.

(** [x === true] for a boolean or absent field. *)
Definition isTrue (x : option bool) : bool :=
  match x with Some b => b | None => false end.

Definition pctDelta (before after : Q) : Q :=
  if Qeq_bool before 0 then 0 else ((after - before) / before) * 100.

Definition hotspotMap (report : Report) : list (string * Hotspot) :=
  fold_left (fun m h => mapSet String.eqb (name h) h m) (hotspots report) [].

Definition hotspotDiffs (before after : Report) : list HotspotDiff :=
  let beforeMap := hotspotMap before in
  let afterMap := hotspotMap after in
  let names :=
    setOfList String.eqb (map fst beforeMap ++ map fst afterMap) in
  map (fun nm =>
         let bTotal := match mapGet String.eqb nm beforeMap with
                       | Some b => num0 (totalMs b) | None => 0 end in
         let aTotal := match mapGet String.eqb nm afterMap with
                       | Some a => num0 (totalMs a) | None => 0 end in
         let bCount := match mapGet String.eqb nm beforeMap with
                       | Some b => num0 (count b) | None => 0 end in
         let aCount := match mapGet String.eqb nm afterMap with
                       | Some a => num0 (count a) | None => 0 end in
         {| diffName := nm;
            beforeTotalMs := round bTotal 2;
            afterTotalMs := round aTotal 2;
            deltaMs := round (aTotal - bTotal) 2;
            deltaPct := round (pctDelta bTotal aTotal) 2;
            beforeCount := bCount;
            afterCount := aCount;
            countDelta := aCount - bCount |})
      names.

Definition hasDurationSignal (before after : Report) : bool :=
  Qlt_bool 0 (num0 (reactTimeMs (totals before)))
  || Qlt_bool 0 (num0 (reactTimeMs (totals after))).

(** [beforePrimary] and [afterPrimary]. *)
Definition primary (before after report : Report) : Q :=
  if hasDurationSignal before after
  then num0 (reactTimeMs (totals report))
  else num0 (reactComponentTrackEvents (totals report)).

Definition compareReports (before after : Report) : Comparison :=
  let diffs := hotspotDiffs before after in
  let cadenceBefore := isTrue (cadenceLikelyIntervalChurn before) in
  let cadenceAfter := isTrue (cadenceLikelyIntervalChurn after) in
  let beforePrimary := primary before after before in
  let afterPrimary := primary before after after in
  let primaryImproved := Qlt_bool afterPrimary beforePrimary in
  let primaryRegressed := Qlt_bool beforePrimary afterPrimary in
  let cadenceImproved :=
    negb cadenceBefore || (cadenceBefore && negb cadenceAfter) in
  let cadenceRegressed := negb cadenceBefore && cadenceAfter in
  let v :=
    if primaryImproved && cadenceImproved then improved
    else if primaryRegressed || cadenceRegressed then regressed
    else mixed in
  let byDuration := hasDurationSignal before after in
  {| comparedUsing :=
       if byDuration then reactTimeMetric else componentTrackEventsMetric;
     topImprovements :=
       if byDuration
       then slice0 10 (jsSort (fun a b => deltaMs a - deltaMs b)
                         (filter (fun d => Qlt_bool (deltaMs d) 0) diffs))
       else slice0 10 (jsSort (fun a b => countDelta a - countDelta b)
                         (filter (fun d => Qlt_bool (countDelta d) 0) diffs));
     topRegressions :=
       if byDuration
       then slice0 10 (jsSort (fun a b => deltaMs b - deltaMs a)
                         (filter (fun d => Qlt_bool 0 (deltaMs d)) diffs))
       else slice0 10 (jsSort (fun a b => countDelta b - countDelta a)
                         (filter (fun d => Qlt_bool 0 (countDelta d)) diffs));
     verdict := v |}.

(** *** The verdict as the specification words it *)

Definition primaryDecreased (before after : Report) : bool :=
  Qlt_bool (primary before after after) (primary before after before).

Definition primaryIncreased (before after : Report) : bool :=
  Qlt_bool (primary before after before) (primary before after after).

(** Churn is flagged in the after report and was not in the before report. *)
Definition churnNewlyAppeared (before after : Report) : bool :=
  negb (isTrue (cadenceLikelyIntervalChurn before))
  && isTrue (cadenceLikelyIntervalChurn after).

(** Churn was flagged in the before report and is not in the after report. *)
Definition churnResolved (before after : Report) : bool :=
  isTrue (cadenceLikelyIntervalChurn before)
  && negb (isTrue (cadenceLikelyIntervalChurn after)).

(** "improved iff the primary metric decreased and churn did not newly appear
    or got resolved; regressed iff the primary metric increased or churn
    newly appeared; otherwise mixed". *)
Definition specVerdict (before after : Report) : Verdict :=
  if primaryDecreased before after
     && (negb (churnNewlyAppeared before after) || churnResolved before after)
  then improved
  else if primaryIncreased before after || churnNewlyAppeared before after
  then regressed
  else mixed.

End Compare.

(** ** Render-cause classifier ([summarizeChangeDescription]) *)

Module Reason.
Import JS.

(** A changed key: a prop or state name, or a hook index. *)
Inductive ChangedKey : Type :=
| KeyName (s : string)
| KeyIndex (n : Q).

(** A change description of the export.  A changed-set that is not an array
    (absent, [null]) is [None]; a flag is [true] only when the field is the
    boolean [true]. *)
Record ChangeDescription : Type := mkChange {
  isFirstMount : bool;
  props : option (list ChangedKey);
  state : option (list ChangedKey);
  context : option (list ChangedKey);
  hooks : option (list ChangedKey);
  didHooksChange : bool
}.

(** [Array.isArray(x) && x.length > 0]. *)
Definition nonEmptyArray (x : option (list ChangedKey)) : bool :=
  match x with
  | Some (_ :: _) => true
  | _ => false
  end.

(** [if (c) reasons.push(r)]. *)
Definition pushIf (c : bool) (r : string) (reasons : list string) : list string :=
  if c then reasons ++ [r] else reasons.

(** [reasons.includes(r)]. *)
Definition includes (r : string) (reasons : list string) : bool :=
  existsb (String.eqb r) reasons.

(** [reasons.join("+")]. *)
Definition joinPlus (reasons : list string) : string :=
  String.concat "+" reasons.

(** The list [reasons] at the end of the function. *)
Definition reasonsOf (cd : ChangeDescription) : list string :=
  let r0 := [] in
  let r1 := pushIf (isFirstMount cd) "mount" r0 in
  let r2 := pushIf (nonEmptyArray (props cd)) "props" r1 in
  let r3 := pushIf (nonEmptyArray (state cd)) "state" r2 in
  let r4 := pushIf (nonEmptyArray (context cd)) "context" r3 in
  let r5 := pushIf (nonEmptyArray (hooks cd)) "hooks" r4 in
  pushIf (didHooksChange cd && negb (includes "hooks" r5)) "hooks" r5.

(** [summarizeChangeDescription]; the argument [None] is a change
    description that is absent or not an object, the result [None] is
    [null]. *)
Definition summarizeChangeDescription
    (changeDescription : option ChangeDescription) : option string :=
  match changeDescription with
  | None => None
  | Some cd =>
      match reasonsOf cd with
      | [] => Some "unknown"%string
      | reasons => Some (joinPlus reasons)
      end
  end.

(** *** The classifier as the specification words it *)

(** "first mount -> mount; else accumulate any of props, state, context,
    hooks for which the changed-set is non-empty; concatenate with +; if
    none apply, unknown". *)
Definition specSummary (cd : ChangeDescription) : string :=
  if isFirstMount cd then "mount"%string
  else
    let picked :=
      (if nonEmptyArray (props cd) then ["props"%string] else [])
      ++ (if nonEmptyArray (state cd) then ["state"%string] else [])
      ++ (if nonEmptyArray (context cd) then ["context"%string] else [])
      ++ (if nonEmptyArray (hooks cd) then ["hooks"%string] else []) in
    match picked with
    | [] => "unknown"%string
    | _ => joinPlus picked
    end.

End Reason.

(** ** Commit tree and edit-log decoder ([applyOperationsToCommitTree]) *)

Module CommitTree.
Import JS Coll.

(** A JavaScript string, as its UTF-16 code units. *)
Definition jsstring : Type := list Z.

Definition ELEMENT_TYPE_ROOT : Q := 11.

Definition TREE_OPERATION_ADD : Q := 1.
Definition TREE_OPERATION_REMOVE : Q := 2.
Definition TREE_OPERATION_REORDER_CHILDREN : Q := 3.
Definition TREE_OPERATION_UPDATE_TREE_BASE_DURATION : Q := 4.
Definition TREE_OPERATION_UPDATE_ERRORS_OR_WARNINGS : Q := 5.
Definition TREE_OPERATION_SET_SUBTREE_MODE : Q := 7.
Definition SUSPENSE_TREE_OPERATION_ADD : Q := 8.
Definition SUSPENSE_TREE_OPERATION_REMOVE : Q := 9.
Definition SUSPENSE_TREE_OPERATION_REORDER_CHILDREN : Q := 10.
Definition SUSPENSE_TREE_OPERATION_RESIZE : Q := 11.
Definition SUSPENSE_TREE_OPERATION_SUSPENDERS : Q := 12.
Definition TREE_OPERATION_APPLIED_ACTIVITY_SLICE_CHANGE : Q := 13.

(** A node of the commit tree.  Every number stored in a node is finite:
    ids and children come from finite array elements, [parentID] is stored
    as [Number.isFinite(parentID) ? parentID : 0] or as a key of the map. *)
Record Node : Type := mkNode {
  id : Q;
  children : list Q;
  displayName : option jsstring;
  hocDisplayNames : option (list jsstring);
  key : option jsstring;
  parentID : Q;
  treeBaseDuration : Q;
  type : option Q;
  compiledWithForget : bool
}.

(** [commitTree]: the map [nodes] in insertion order and [rootID]. *)
Record Tree : Type := mkTree {
  rootID : Q;
  nodes : list (Q * Node)
}.

(** The diagnostics of the decoder.  The one for an unknown operation
    carries the code that the message interpolates. *)
Inductive Warning : Type :=
| InvalidStringTable
| MalformedStringPayload
| AddInvalidFiberId
| RemoveInvalidLength
| ReorderInvalidChildCount
| UnknownOperation (code : jsnum).

(** Equality of the warning messages. *)
Definition warningEqb (a b : Warning) : bool :=
  match a, b with
  | InvalidStringTable, InvalidStringTable => true
  | MalformedStringPayload, MalformedStringPayload => true
  | AddInvalidFiberId, AddInvalidFiberId => true
  | RemoveInvalidLength, RemoveInvalidLength => true
  | ReorderInvalidChildCount, ReorderInvalidChildCount => true
  | UnknownOperation x, UnknownOperation y => sameValueZero x y
  | _, _ => false
  end.

(** [addWarningOnce(warningSet, warning)] for a non-empty message. *)
Definition addWarningOnce (warningSet : list Warning) (warning : Warning)
  : list Warning :=
  setAdd warningEqb warning warningSet.

(** The array index that a number denotes, if any. *)
Definition arrayIndex (q : Q) : option nat :=
  let r := Qred q in
  if Pos.eqb (Qden r) 1 && Z.leb 0 (Qnum r)
  then Some (Z.to_nat (Qnum r))
  else None.

(** [Number(operations[i])]: [NaN] when [i] is not an index of the array. *)
Definition opAt (operations : list Q) (i : jsnum) : jsnum :=
  match i with
  | Fin q =>
      match arrayIndex q with
      | Some n =>
          match nth_error operations n with
          | Some v => Fin v
          | None => NaN
          end
      | None => NaN
      end
  | NaN => NaN
  end.

(** [table[i]] for the string table; [None] is [undefined] or [null]. *)
Definition tableAt (table : list (option jsstring)) (i : jsnum)
  : option jsstring :=
  match i with
  | Fin q =>
      match arrayIndex q with
      | Some n =>
          match nth_error table n with
          | Some s => s
          | None => None
          end
      | None => None
      end
  | NaN => None
  end.

(** [String.fromCodePoint(cp)]: [None] is the [RangeError] raised for a
    number that is not an integer in [0, 0x10FFFF]. *)
Definition fromCodePoint (cp : Q) : option jsstring :=
  let r := Qred cp in
  let n := Qnum r in
  if Pos.eqb (Qden r) 1 && Z.leb 0 n && Z.leb n 1114111 then
    if Z.leb n 65535 then Some [n]
    else Some [(55296 + Z.shiftr (n - 65536) 10)%Z;
               (56320 + Z.land (n - 65536) 1023)%Z]
  else None.

(** The loop of [decodeStringFromOperations], [count] iterations from
    offset [k]; [None] is a [RangeError]. *)
Fixpoint decodeChars (operations : list Q) (startIndex : Q)
    (k : Z) (count : nat) : option jsstring :=
  match count with
  | O => Some []
  | S count' =>
      match opAt operations (Fin (startIndex + inject_Z k)) with
      | NaN => decodeChars operations startIndex (k + 1) count'
      | Fin codePoint =>
          match fromCodePoint codePoint with
          | None => None
          | Some c =>
              match decodeChars operations startIndex (k + 1) count' with
              | None => None
              | Some rest => Some (c ++ rest)
              end
          end
      end
  end.

(** [decodeStringFromOperations(operations, startIndex, length)] for finite
    arguments; the loop [for (i = 0; i < length; i++)] runs
    [ceil(length)] times. *)
Definition decodeStringFromOperations (operations : list Q)
    (startIndex length : Q) : option jsstring :=
  if Qle_bool length 0 then Some []
  else decodeChars operations startIndex 0 (Z.to_nat (Qceiling length)).

(** [node.children = f(node.children)] on the node stored under [k]. *)
Fixpoint updateNode (k : Q) (f : Node -> Node) (m : list (Q * Node))
  : list (Q * Node) :=
  match m with
  | [] => []
  | (k', n) :: m' =>
      if Qeq_bool k' k then (k', f n) :: m' else (k', n) :: updateNode k f m'
  end.

Definition setChildren (c : list Q) (n : Node) : Node :=
  {| id := id n; children := c; displayName := displayName n;
     hocDisplayNames := hocDisplayNames n; key := key n;
     parentID := parentID n; treeBaseDuration := treeBaseDuration n;
     type := type n; compiledWithForget := compiledWithForget n |}.

Definition setParentID (p : Q) (n : Node) : Node :=
  {| id := id n; children := children n; displayName := displayName n;
     hocDisplayNames := hocDisplayNames n; key := key n;
     parentID := p; treeBaseDuration := treeBaseDuration n;
     type := type n; compiledWithForget := compiledWithForget n |}.

Definition setTreeBaseDuration (d : Q) (n : Node) : Node :=
  {| id := id n; children := children n; displayName := displayName n;
     hocDisplayNames := hocDisplayNames n; key := key n;
     parentID := parentID n; treeBaseDuration := d;
     type := type n; compiledWithForget := compiledWithForget n |}.

(** [children.filter((childID) => childID !== id)]. *)
Definition withoutChild (x : Q) (c : list Q) : list Q :=
  filter (fun childID => negb (Qeq_bool childID x)) c.

(** [parent.children = parent.children.filter(...)] when the parent is in
    the map. *)
Definition detachFrom (parent x : Q) (m : list (Q * Node))
  : list (Q * Node) :=
  updateNode parent (fun n => setChildren (withoutChild x (children n)) n) m.

(** [nodes.get(k)] for a number [k]; no key of the map is [NaN]. *)
Definition getNode (k : jsnum) (m : list (Q * Node)) : option Node :=
  match k with
  | Fin q => mapGet Qeq_bool q m
  | NaN => None
  end.

(** The state of the decoder inside one operations record. *)
Record State : Type := mkState {
  cursor : jsnum;
  tree : Tree;
  warnings : list Warning
}.

(** [x] when it is finite and positive, else [0]. *)
Definition positiveOrZero (x : jsnum) : Q :=
  match x with
  | Fin q => if Qlt_bool 0 q then q else 0
  | NaN => 0
  end.

(** [numRects === -1 ? 0 : Math.max(0, numRects) * 4]. *)
Definition rectsWidth (numRects : jsnum) : jsnum :=
  if nseq numRects (Fin (-1)) then Fin 0
  else nmul (nmax (Fin 0) numRects) (Fin 4).

(** The case [TREE_OPERATION_ADD]; [i] is the cursor at the operation. *)
Definition applyAdd (operations : list Q) (table : list (option jsstring))
    (i : Q) (t : Tree) (ws : list Warning) : State :=
  let idN := opAt operations (Fin (i + 1)) in
  let typeN := opAt operations (Fin (i + 2)) in
  let i := i + 3 in
  match idN with
  | NaN =>
      {| cursor := Fin i; tree := t;
         warnings := addWarningOnce ws AddInvalidFiberId |}
  | Fin id0 =>
      if nseq typeN (Fin ELEMENT_TYPE_ROOT) then
        let i := i + 4 in
        {| cursor := Fin i;
           tree :=
             {| rootID := id0;
                nodes :=
                  mapSet Qeq_bool id0
                    {| id := id0; children := []; displayName := None;
                       hocDisplayNames := None; key := None; parentID := 0;
                       treeBaseDuration := 0; type := Some ELEMENT_TYPE_ROOT;
                       compiledWithForget := false |}
                    (nodes t) |};
           warnings := ws |}
      else
        let parentN := opAt operations (Fin i) in
        let i := i + 1 in
        let i := i + 1 in (* ownerID *)
        let displayNameStringID := opAt operations (Fin i) in
        let i := i + 1 in
        let keyStringID := opAt operations (Fin i) in
        let i := i + 1 in
        let i := i + 1 in (* name prop string ID *)
        let nodes0 := nodes t in
        let nodes1 :=
          match mapGet Qeq_bool id0 nodes0 with
          | Some existing => detachFrom (parentID existing) id0 nodes0
          | None => nodes0
          end in
        let nodes2 :=
          match getNode parentN nodes1, parentN with
          | Some parentNode, Fin p =>
              if setHas Qeq_bool id0 (children parentNode) then nodes1
              else updateNode p
                     (fun n => setChildren (children n ++ [id0]) n) nodes1
          | _, _ => nodes1
          end in
        (* [existing] is the object still stored under [id] *)
        let existing := mapGet Qeq_bool id0 nodes2 in
        let node :=
          {| id := id0;
             children :=
               match existing with Some e => children e | None => [] end;
             displayName := tableAt table displayNameStringID;
             hocDisplayNames :=
               match existing with
               | Some e => hocDisplayNames e | None => None end;
             key := tableAt table keyStringID;
             parentID := match parentN with Fin p => p | NaN => 0 end;
             treeBaseDuration :=
               match existing with
               | Some e => treeBaseDuration e | None => 0 end;
             type :=
               match typeN with
               | Fin ty => Some ty
               | NaN => match existing with
                        | Some e => type e | None => None end
               end;
             compiledWithForget :=
               match existing with
               | Some e => compiledWithForget e | None => false end |} in
        {| cursor := Fin i;
           tree := {| rootID := rootID t;
                      nodes := mapSet Qeq_bool id0 node nodes2 |};
           warnings := ws |}
  end.

(** The loop of [TREE_OPERATION_REMOVE]:
    [for (k = 0; k < removeLength && i < operations.length; k++)], at most
    [count = ceil(removeLength)] iterations. *)
Fixpoint removeLoop (operations : list Q) (count : nat) (i : Q)
    (m : list (Q * Node)) : Q * list (Q * Node) :=
  match count with
  | O => (i, m)
  | S count' =>
      if Qlt_bool i (inject_Z (Z.of_nat (length operations))) then
        let idN := opAt operations (Fin i) in
        let i := i + 1 in
        match idN with
        | NaN => removeLoop operations count' i m
        | Fin id0 =>
            match mapGet Qeq_bool id0 m with
            | None => removeLoop operations count' i m
            | Some node =>
                let m1 := detachFrom (parentID node) id0 m in
                removeLoop operations count' i (mapDelete Qeq_bool id0 m1)
            end
        end
      else (i, m)
  end.

(** The case [TREE_OPERATION_REMOVE]. *)
Definition applyRemove (operations : list Q) (i : Q) (t : Tree)
    (ws : list Warning) : State :=
  let removeLength := opAt operations (Fin (i + 1)) in
  let i := i + 2 in
  match removeLength with
  | NaN =>
      {| cursor := Fin i; tree := t;
         warnings := addWarningOnce ws RemoveInvalidLength |}
  | Fin len =>
      if Qlt_bool len 0 then
        {| cursor := Fin i; tree := t;
           warnings := addWarningOnce ws RemoveInvalidLength |}
      else
        let '(i, m) :=
          removeLoop operations (Z.to_nat (Qceiling len)) i (nodes t) in
        {| cursor := Fin i;
           tree := {| rootID := rootID t; nodes := m |};
           warnings := ws |}
  end.

(** The reading loop of [TREE_OPERATION_REORDER_CHILDREN]. *)
Fixpoint reorderRead (operations : list Q) (count : nat) (i : Q)
    (acc : list Q) : Q * list Q :=
  match count with
  | O => (i, acc)
  | S count' =>
      if Qlt_bool i (inject_Z (Z.of_nat (length operations))) then
        let childN := opAt operations (Fin i) in
        let i := i + 1 in
        match childN with
        | Fin c => reorderRead operations count' i (acc ++ [c])
        | NaN => reorderRead operations count' i acc
        end
      else (i, acc)
  end.

(** The case [TREE_OPERATION_REORDER_CHILDREN]. *)
Definition applyReorder (operations : list Q) (i : Q) (t : Tree)
    (ws : list Warning) : State :=
  let idN := opAt operations (Fin (i + 1)) in
  let numChildren := opAt operations (Fin (i + 2)) in
  let i := i + 3 in
  match numChildren with
  | NaN =>
      {| cursor := Fin i; tree := t;
         warnings := addWarningOnce ws ReorderInvalidChildCount |}
  | Fin num =>
      if Qlt_bool num 0 then
        {| cursor := Fin i; tree := t;
           warnings := addWarningOnce ws ReorderInvalidChildCount |}
      else
        let '(i, newChildren) :=
          reorderRead operations (Z.to_nat (Qceiling num)) i [] in
        let m :=
          match idN, getNode idN (nodes t) with
          | Fin id0, Some _ =>
              fold_left
                (fun m childID => updateNode childID (setParentID id0) m)
                newChildren
                (updateNode id0 (setChildren newChildren) (nodes t))
          | _, _ => nodes t
          end in
        {| cursor := Fin i;
           tree := {| rootID := rootID t; nodes := m |};
           warnings := ws |}
  end.

(** The case [TREE_OPERATION_UPDATE_TREE_BASE_DURATION]. *)
Definition applyUpdateTreeBaseDuration (operations : list Q) (i : Q)
    (t : Tree) (ws : list Warning) : State :=
  let idN := opAt operations (Fin (i + 1)) in
  let durationUs := opAt operations (Fin (i + 2)) in
  let i := i + 3 in
  let m :=
    match idN, durationUs with
    | Fin id0, Fin us =>
        updateNode id0 (setTreeBaseDuration (us / 1000)) (nodes t)
    | _, _ => nodes t
    end in
  {| cursor := Fin i;
     tree := {| rootID := rootID t; nodes := m |};
     warnings := ws |}.

(** The loop of [SUSPENSE_TREE_OPERATION_SUSPENDERS]. *)
Fixpoint suspendersLoop (operations : list Q) (count : nat) (i : Q) : Q :=
  match count with
  | O => i
  | S count' =>
      if Qlt_bool i (inject_Z (Z.of_nat (length operations))) then
        let i := i + 1 in (* suspenseNodeId *)
        let i := i + 1 in (* hasUniqueSuspenders *)
        let i := i + 1 in (* endTime *)
        let i := i + 1 in (* isSuspended *)
        let environmentNamesLength := opAt operations (Fin i) in
        let i := i + 1 in
        let i := i + positiveOrZero environmentNamesLength in
        suspendersLoop operations count' i
      else i
  end.

(** One iteration of the main loop [while (i < operations.length)], at a
    finite cursor [i]. *)
Definition step (operations : list Q) (table : list (option jsstring))
    (i : Q) (t : Tree) (ws : list Warning) : State :=
  let operation := opAt operations (Fin i) in
  let skip (next : jsnum) :=
    {| cursor := next; tree := t; warnings := ws |} in
  if nseq operation (Fin TREE_OPERATION_ADD) then
    applyAdd operations table i t ws
  else if nseq operation (Fin TREE_OPERATION_REMOVE) then
    applyRemove operations i t ws
  else if nseq operation (Fin TREE_OPERATION_REORDER_CHILDREN) then
    applyReorder operations i t ws
  else if nseq operation (Fin TREE_OPERATION_SET_SUBTREE_MODE) then
    skip (Fin (i + 3))
  else if nseq operation (Fin TREE_OPERATION_UPDATE_TREE_BASE_DURATION) then
    applyUpdateTreeBaseDuration operations i t ws
  else if nseq operation (Fin TREE_OPERATION_UPDATE_ERRORS_OR_WARNINGS) then
    skip (Fin (i + 4))
  else if nseq operation (Fin SUSPENSE_TREE_OPERATION_ADD) then
    let numRects := opAt operations (Fin (i + 5)) in
    skip (nadd (Fin i) (nadd (Fin 6) (rectsWidth numRects)))
  else if nseq operation (Fin SUSPENSE_TREE_OPERATION_REMOVE) then
    let removeLength := opAt operations (Fin (i + 1)) in
    skip (Fin (i + (2 + positiveOrZero removeLength)))
  else if nseq operation (Fin SUSPENSE_TREE_OPERATION_REORDER_CHILDREN) then
    let numChildren := opAt operations (Fin (i + 2)) in
    skip (Fin (i + (3 + positiveOrZero numChildren)))
  else if nseq operation (Fin SUSPENSE_TREE_OPERATION_RESIZE) then
    let numRects := opAt operations (Fin (i + 2)) in
    skip (nadd (Fin i) (nadd (Fin 3) (rectsWidth numRects)))
  else if nseq operation (Fin SUSPENSE_TREE_OPERATION_SUSPENDERS) then
    let i := i + 1 in
    let changeLength := opAt operations (Fin i) in
    let i := i + 1 in
    let safeChangeLength := positiveOrZero changeLength in
    skip (Fin (suspendersLoop operations
                 (Z.to_nat (Qceiling safeChangeLength)) i))
  else if nseq operation (Fin TREE_OPERATION_APPLIED_ACTIVITY_SLICE_CHANGE) then
    skip (Fin (i + 2))
  else
    {| cursor := Fin (i + 1); tree := t;
       warnings := addWarningOnce ws (UnknownOperation operation) |}.

(** How a call of [applyOperationsToCommitTree] ends. *)
Inductive Outcome : Type :=
| Returned (t : Tree) (ws : list Warning)
| RangeError                       (* raised by [String.fromCodePoint] *)
| OutOfFuel.                       (* the model ran out of iterations *)

(** The main loop, with a bound on the number of iterations. *)
Fixpoint mainLoop (fuel : nat) (operations : list Q)
    (table : list (option jsstring)) (st : State) : Outcome :=
  match cursor st with
  | NaN => Returned (tree st) (warnings st)
  | Fin i =>
      if Qlt_bool i (inject_Z (Z.of_nat (length operations))) then
        match fuel with
        | O => OutOfFuel
        | S fuel' =>
            mainLoop fuel' operations table
              (step operations table i (tree st) (warnings st))
        end
      else Returned (tree st) (warnings st)
  end.

(** How the string-table loop ends. *)
Inductive TableOutcome : Type :=
| TableRead (i : Q) (table : list (option jsstring))
| TableMalformed
| TableRangeError
| TableOutOfFuel.

(** The loop [while (i < stringTableEnd)]. *)
Fixpoint readStringTable (fuel : nat) (operations : list Q)
    (stringTableEnd : Q) (i : Q) (table : list (option jsstring))
  : TableOutcome :=
  if Qlt_bool i stringTableEnd then
    match fuel with
    | O => TableOutOfFuel
    | S fuel' =>
        let nextLength := opAt operations (Fin i) in
        let i := i + 1 in
        match nextLength with
        | NaN => TableMalformed
        | Fin len =>
            if Qlt_bool len 0
               || Qlt_bool (inject_Z (Z.of_nat (length operations))) (i + len)
            then TableMalformed
            else
              match decodeStringFromOperations operations i len with
              | None => TableRangeError
              | Some decoded =>
                  readStringTable fuel' operations stringTableEnd (i + len)
                    (table ++ [Some decoded])
              end
        end
    end
  else TableRead i table.

(** [applyOperationsToCommitTree(commitTree, operations, warningSet)] for an
    array of numbers.  Each loop gets [operations.length] iterations. *)
Definition applyOperationsToCommitTree (commitTree : Tree)
    (operations : list Q) (warningSet : list Warning) : Outcome :=
  if Nat.ltb (length operations) 3 then Returned commitTree warningSet
  else
    match opAt operations (Fin 2) with
    | NaN =>
        Returned commitTree (addWarningOnce warningSet InvalidStringTable)
    | Fin stringTableSize =>
        if Qlt_bool stringTableSize 0 then
          Returned commitTree (addWarningOnce warningSet InvalidStringTable)
        else
          let i := 3 in
          let stringTableEnd :=
            Qmin (inject_Z (Z.of_nat (length operations)))
                 (i + stringTableSize) in
          match readStringTable (length operations) operations
                  stringTableEnd i [None] with
          | TableMalformed =>
              Returned commitTree
                (addWarningOnce warningSet MalformedStringPayload)
          | TableRangeError => RangeError
          | TableOutOfFuel => OutOfFuel
          | TableRead i table =>
              mainLoop (length operations) operations table
                {| cursor := Fin i; tree := commitTree;
                   warnings := warningSet |}
          end
    end.

End CommitTree.

Arguments CommitTree.opAt : simpl never.
Arguments CommitTree.arrayIndex : simpl never.

(** ** Commit flamegraph ([buildCommitFlamegraph]) *)

Module Flamegraph.
Import JS Coll CommitTree.

(** A component name: a display name, or the fallback
    [`${rootName}::Fiber#${fiberId}`], whose number is kept apart. *)
Inductive Name : Type :=
| DisplayName (s : jsstring)
| FiberFallback (rootName : jsstring) (fiberId : Q).

Definition jsstringEqb (a b : jsstring) : bool :=
  if list_eq_dec Z.eq_dec a b then true else false.

(** The code units of ["::Fiber#"]. *)
Definition fiberMark : jsstring := [58; 58; 70; 105; 98; 101; 114; 35]%Z.

(** The string that a name is.  The template string of the fallback
    converts the fiber id to a string; this conversion of a number,
    [String(fiberId)], is the parameter [numberToString]. *)
Definition nameString (numberToString : Q -> jsstring) (n : Name)
  : jsstring :=
  match n with
  | DisplayName s => s
  | FiberFallback rootName fiberId =>
      rootName ++ fiberMark ++ numberToString fiberId
  end.

(** Equality of names as strings, the equality of the keys of
    [hotspotMap]: a display name that spells a fallback name is equal to
    it. *)
Definition nameEqb (numberToString : Q -> jsstring) (a b : Name) : bool :=
  jsstringEqb (nameString numberToString a) (nameString numberToString b).

(** White space and line terminators, as [String.prototype.trim] sees
    them. *)
Definition isWhiteSpace (c : Z) : bool :=
  existsb (Z.eqb c)
    [9; 10; 11; 12; 13; 32; 160; 5760; 8192; 8193; 8194; 8195; 8196; 8197;
     8198; 8199; 8200; 8201; 8202; 8232; 8233; 8239; 8287; 12288; 65279]%Z.

Fixpoint trimStart (s : jsstring) : jsstring :=
  match s with
  | c :: s' => if isWhiteSpace c then trimStart s' else s
  | [] => []
  end.

(** [s.trim()]. *)
Definition trim (s : jsstring) : jsstring :=
  rev (trimStart (rev (trimStart s))).

(** A string that is not empty, else [None]: the truthiness test. *)
Definition nonEmpty (s : jsstring) : option jsstring :=
  match s with [] => None | _ => Some s end.

(** [getSnapshotDisplayName] on the two fields it reads; the result may be
    the empty string (a first higher-order name that is empty). *)
Definition getSnapshotDisplayName (displayName0 : option jsstring)
    (hocDisplayNames0 : option (list jsstring)) : option jsstring :=
  match
    match displayName0 with
    | Some s => nonEmpty (trim s)
    | None => None
    end
  with
  | Some trimmed => Some trimmed
  | None =>
      match hocDisplayNames0 with
      | Some (first :: _) => Some first
      | _ => None
      end
  end.

(** [resolveFiberName]: the name and [usedFallback]. *)
Definition resolveFiberName (fiberId : Q) (node : option Node)
    (fallbackFiberNameMap : list (Q * jsstring)) (rootName : jsstring)
  : Name * bool :=
  match
    match node with
    | Some n =>
        match getSnapshotDisplayName (displayName n) (hocDisplayNames n) with
        | Some s => nonEmpty s
        | None => None
        end
    | None => None
    end
  with
  | Some s => (DisplayName s, false)
  | None =>
      match
        match mapGet Qeq_bool fiberId fallbackFiberNameMap with
        | Some fallbackName => nonEmpty (trim fallbackName)
        | None => None
        end
      with
      | Some s => (DisplayName s, false)
      | None => (FiberFallback rootName fiberId, true)
      end
  end.

(** The three sparse maps of one commit, after [toPairMap]. *)
Record CommitMaps : Type := mkMaps {
  actualByFiber : list (Q * Q);
  selfByFiber : list (Q * Q);
  reasonsByFiber : list (Q * option Reason.ChangeDescription)
}.

(** [new Set([...actual.keys(), ...self.keys(), ...reasons.keys()])]. *)
Definition renderedFibersOf (maps : CommitMaps) : list Q :=
  setOfList Qeq_bool
    (map fst (actualByFiber maps) ++ map fst (selfByFiber maps)
     ++ map fst (reasonsByFiber maps)).

(** [Number(map.get(fiberId) ?? 0)] for a map of numbers. *)
Definition msOf (m : list (Q * Q)) (fiberId : Q) : Q :=
  match mapGet Qeq_bool fiberId m with Some v => v | None => 0 end.

(** The summary of [parseRenderReasonDetails(reasonsByFiber.get(fiberId))];
    [None] is [null]. *)
Definition whyRenderedOf (maps : CommitMaps) (fiberId : Q) : option string :=
  match mapGet Qeq_bool fiberId (reasonsByFiber maps) with
  | Some cd => Reason.summarizeChangeDescription cd
  | None => None
  end.

(** The root of the flamegraph: the tree's [rootID], or the first key of
    the map when the map is not empty and has no node under [rootID]. *)
Definition rootFiberIdOf (t : Tree) : Q :=
  match nodes t with
  | (firstKey, _) :: _ =>
      if mapHas Qeq_bool (rootID t) (nodes t) then rootID t else firstKey
  | [] => rootID t
  end.

(** The loop [while (true)] that walks from a rendered fiber to its
    ancestors; [None] when the bound on iterations is reached. *)
Fixpoint ancestorsLoop (fuel : nat) (nodesByID : list (Q * Node))
    (cursor0 : Q) (seen included : list Q) : option (list Q) :=
  match fuel with
  | O => None
  | S fuel' =>
      match mapGet Qeq_bool cursor0 nodesByID with
      | None => Some included
      | Some node =>
          let parent := parentID node in
          if Qeq_bool parent 0 || setHas Qeq_bool parent seen
          then Some included
          else ancestorsLoop fuel' nodesByID parent
                 (setAdd Qeq_bool parent seen)
                 (setAdd Qeq_bool parent included)
      end
  end.

(** The loop over [renderedFibers] that fills [includedFiberIDs]. *)
Fixpoint includeRendered (nodesByID : list (Q * Node))
    (renderedFibers included : list Q) : option (list Q) :=
  match renderedFibers with
  | [] => Some included
  | fiberId :: rest =>
      match ancestorsLoop (S (S (length nodesByID))) nodesByID fiberId
              [fiberId] (setAdd Qeq_bool fiberId included) with
      | Some included' => includeRendered nodesByID rest included'
      | None => None
      end
  end.

(** The second loop: the parent of each included fiber and the children
    lists collected from the parents. *)
Definition parentOf (nodesByID : list (Q * Node)) (rootFiberId : Q)
    (included : list Q) (fiberId : Q) : Q :=
  if Qeq_bool fiberId rootFiberId then 0
  else
    match mapGet Qeq_bool fiberId nodesByID with
    | Some node =>
        if setHas Qeq_bool (parentID node) included then parentID node
        else rootFiberId
    | None => rootFiberId
    end.

Definition linkParents (nodesByID : list (Q * Node)) (rootFiberId : Q)
    (included : list Q) (children0 : list (Q * list Q))
  : list (Q * Q) * list (Q * list Q) :=
  fold_left
    (fun '(parentBy, childrenBy) fiberId =>
       let parentFiberId := parentOf nodesByID rootFiberId included fiberId in
       let parentBy' := mapSet Qeq_bool fiberId parentFiberId parentBy in
       if Qeq_bool parentFiberId 0 then (parentBy', childrenBy)
       else
         let known :=
           match mapGet Qeq_bool parentFiberId childrenBy with
           | Some c => c | None => [] end in
         if setHas Qeq_bool fiberId known then (parentBy', childrenBy)
         else (parentBy',
               mapSet Qeq_bool parentFiberId (known ++ [fiberId]) childrenBy))
    included ([], children0).

(** The third loop: the children in tree order, then the others sorted. *)
Definition orderChildren (nodesByID : list (Q * Node)) (included : list Q)
    (childrenBy : list (Q * list Q)) : list (Q * list Q) :=
  fold_left
    (fun childrenBy fiberId =>
       match mapGet Qeq_bool fiberId nodesByID with
       | None => childrenBy
       | Some node =>
           let knownChildren :=
             match mapGet Qeq_bool fiberId childrenBy with
             | Some c => c | None => [] end in
           let orderedFromTree :=
             filter (fun childID => setHas Qeq_bool childID included)
                    (children node) in
           let extras :=
             jsSort ascending
               (filter (fun childID =>
                          negb (setHas Qeq_bool childID orderedFromTree))
                       knownChildren) in
           mapSet Qeq_bool fiberId (orderedFromTree ++ extras) childrenBy
       end)
    included childrenBy.

(** [childrenByFiberID.get(fiberId) ?? []]. *)
Definition childrenIn (childrenBy : list (Q * list Q)) (fiberId : Q)
  : list Q :=
  match mapGet Qeq_bool fiberId childrenBy with Some c => c | None => [] end.

(** The inner loop of the breadth-first walk, over the children of the
    fiber taken from the queue. *)
Fixpoint visitChildren (parentDepth : nat) (childIDs queue : list Q)
    (depthBy : list (Q * nat)) : list Q * list (Q * nat) :=
  match childIDs with
  | [] => (queue, depthBy)
  | childID :: rest =>
      if mapHas Qeq_bool childID depthBy
      then visitChildren parentDepth rest queue depthBy
      else visitChildren parentDepth rest (queue ++ [childID])
             (mapSet Qeq_bool childID (S parentDepth) depthBy)
  end.

(** The loop [while (queue.length > 0)]; [None] when the bound on
    iterations is reached. *)
Fixpoint depthLoop (fuel : nat) (childrenBy : list (Q * list Q))
    (queue : list Q) (depthBy : list (Q * nat)) : option (list (Q * nat)) :=
  match queue with
  | [] => Some depthBy
  | parent :: queue' =>
      match fuel with
      | O => None
      | S fuel' =>
          let parentDepth :=
            match mapGet Qeq_bool parent depthBy with
            | Some d => d | None => O end in
          let '(queue'', depthBy') :=
            visitChildren parentDepth (childrenIn childrenBy parent)
              queue' depthBy in
          depthLoop fuel' childrenBy queue'' depthBy'
      end
  end.

(** The depth of the fibers that the walk did not reach. *)
Definition fillDepths (rootFiberId : Q) (included : list Q)
    (depthBy : list (Q * nat)) : list (Q * nat) :=
  fold_left
    (fun depthBy fiberId =>
       if mapHas Qeq_bool fiberId depthBy then depthBy
       else mapSet Qeq_bool fiberId
              (if Qeq_bool fiberId rootFiberId then O else 1%nat) depthBy)
    included depthBy.

(** The loop [for (const childID of children) total += visit(childID)],
    with the memo table threaded through the visits. *)
Fixpoint sumOverChildren
    (visit : Q -> list (Q * Q) -> option (Q * list (Q * Q)))
    (childIDs : list Q) (total : Q) (memo : list (Q * Q))
  : option (Q * list (Q * Q)) :=
  match childIDs with
  | [] => Some (total, memo)
  | childID :: rest =>
      match visit childID memo with
      | Some (v, memo') => sumOverChildren visit rest (total + v) memo'
      | None => None
      end
  end.

(** [computeSubtreeMs(fiberId, lineage)] with the memo table
    [computedSubtreeMsByFiberID] threaded through; [None] when the bound on
    the recursion depth is reached.  The source adds [fiberId] to the shared
    [lineage] set before the children and deletes it after them, so the set
    on return is the set on entry: the lineage is passed down as a value. *)
Fixpoint computeSubtreeMs (fuel : nat) (selfBy : list (Q * Q))
    (childrenBy : list (Q * list Q)) (fiberId : Q) (lineage : list Q)
    (memo : list (Q * Q)) : option (Q * list (Q * Q)) :=
  match fuel with
  | O => None
  | S fuel' =>
      match mapGet Qeq_bool fiberId memo with
      | Some v => Some (v, memo)
      | None =>
          if setHas Qeq_bool fiberId lineage
          then Some (msOf selfBy fiberId, memo)
          else
            match
              sumOverChildren
                (fun childID memo0 =>
                   computeSubtreeMs fuel' selfBy childrenBy childID
                     (fiberId :: lineage) memo0)
                (childrenIn childrenBy fiberId) (msOf selfBy fiberId) memo
            with
            | Some (total, memo') =>
                Some (total, mapSet Qeq_bool fiberId total memo')
            | None => None
            end
      end
  end.

(** The loop [for (const fiberId of includedFiberIDs)
    computeSubtreeMs(fiberId)]. *)
Fixpoint computeAll (selfBy : list (Q * Q)) (childrenBy : list (Q * list Q))
    (fiberIds : list Q) (memo : list (Q * Q)) : option (list (Q * Q)) :=
  match fiberIds with
  | [] => Some memo
  | fiberId :: rest =>
      match computeSubtreeMs (S (length childrenBy)) selfBy childrenBy
              fiberId [] memo with
      | Some (_, memo') => computeAll selfBy childrenBy rest memo'
      | None => None
      end
  end.

(** A node of [flamegraph.nodes], with the fields that the analysis
    derives (the fields [key], [type], [hocDisplayNames],
    [compiledWithForget], [inspectedSource] and [inspectedOwners] are
    copied from the tree node or from the runtime inspection data). *)
Record FlamegraphNode : Type := mkFlameNode {
  fiberId : Q;
  parentFiberId : Q;
  childrenFiberIds : list Q;
  depth : nat;
  name : Name;
  didRender : bool;
  usedFallbackName : bool;
  selfMs : Q;
  subtreeMs : Q;
  computedSubtreeMs : Q;
  treeBaseDurationMs : Q;
  whyRendered : option string
}.

(** An entry of [flamegraph.renderedComponents]. *)
Record RenderedComponent : Type := mkRendered {
  rcFiberId : Q;
  rcName : Name;
  rcUsedFallbackName : bool;
  rcSelfMs : Q;
  rcSubtreeMs : Q;
  rcComputedSubtreeMs : Q;
  rcWhyRendered : option string
}.

Record FlamegraphResult : Type := mkFlamegraph {
  rootFiberId : Q;
  totalNodesInCommitTree : nat;
  flameNodes : list FlamegraphNode;
  renderedComponents : list RenderedComponent
}.

Section Build.
(** [a.localeCompare(b)] on names, which depends on the host's locale. *)
Variable localeCompare : Name -> Name -> Q.

Definition makeNode (t : Tree) (fallbackFiberNameMap : list (Q * jsstring))
    (rootName : jsstring) (maps : CommitMaps) (renderedFibers : list Q)
    (parentBy : list (Q * Q)) (childrenBy : list (Q * list Q))
    (depthBy : list (Q * nat)) (memo : list (Q * Q)) (f : Q)
  : FlamegraphNode :=
  let node := mapGet Qeq_bool f (nodes t) in
  let nameMeta := resolveFiberName f node fallbackFiberNameMap rootName in
  let self := msOf (selfByFiber maps) f in
  let subtree := msOf (actualByFiber maps) f in
  let why := whyRenderedOf maps f in
  {| fiberId := f;
     parentFiberId :=
       match mapGet Qeq_bool f parentBy with Some p => p | None => 0 end;
     childrenFiberIds := childrenIn childrenBy f;
     depth := match mapGet Qeq_bool f depthBy with
              | Some d => d | None => O end;
     name := fst nameMeta;
     didRender :=
       setHas Qeq_bool f renderedFibers
       || Qlt_bool 0 self || Qlt_bool 0 subtree
       || match why with Some _ => true | None => false end;
     usedFallbackName := snd nameMeta;
     selfMs := round self 2;
     subtreeMs := round subtree 2;
     computedSubtreeMs := round (msOf memo f) 2;
     treeBaseDurationMs :=
       round (match node with
              | Some n => treeBaseDuration n | None => 0 end) 2;
     whyRendered := why |}.

(** The comparator of [nodes]: by depth, then by fiber id. *)
Definition byDepthThenId (a b : FlamegraphNode) : Q :=
  if Nat.eqb (depth a) (depth b) then fiberId a - fiberId b
  else inject_Z (Z.of_nat (depth a)) - inject_Z (Z.of_nat (depth b)).

(** The comparator of [renderedComponents]. *)
Definition bySubtreeThenSelf (a b : RenderedComponent) : Q :=
  if negb (Qeq_bool (rcSubtreeMs b) (rcSubtreeMs a))
  then rcSubtreeMs b - rcSubtreeMs a
  else if negb (Qeq_bool (rcSelfMs b) (rcSelfMs a))
  then rcSelfMs b - rcSelfMs a
  else localeCompare (rcName a) (rcName b).

Definition makeRendered (fallbackFiberNameMap : list (Q * jsstring))
    (rootName : jsstring) (maps : CommitMaps)
    (nodeList : list FlamegraphNode) (f : Q) : RenderedComponent :=
  match find (fun n => Qeq_bool (fiberId n) f) (rev nodeList) with
  | Some n =>
      {| rcFiberId := fiberId n; rcName := name n;
         rcUsedFallbackName := usedFallbackName n;
         rcSelfMs := selfMs n; rcSubtreeMs := subtreeMs n;
         rcComputedSubtreeMs := computedSubtreeMs n;
         rcWhyRendered := whyRendered n |}
  | None =>
      let nameMeta := resolveFiberName f None fallbackFiberNameMap rootName in
      {| rcFiberId := f; rcName := fst nameMeta;
         rcUsedFallbackName := snd nameMeta;
         rcSelfMs := round (msOf (selfByFiber maps) f) 2;
         rcSubtreeMs := round (msOf (actualByFiber maps) f) 2;
         rcComputedSubtreeMs := round (msOf (selfByFiber maps) f) 2;
         rcWhyRendered := whyRenderedOf maps f |}
  end.

(** [buildCommitFlamegraph]; [None] when one of its loops reaches the bound
    on its iterations. *)
Definition buildCommitFlamegraph (commitTree : Tree)
    (rootName : jsstring) (fallbackFiberNameMap : list (Q * jsstring))
    (maps : CommitMaps) : option FlamegraphResult :=
  let nodesByID := nodes commitTree in
  let renderedFibers := renderedFibersOf maps in
  let rootFiberId0 := rootFiberIdOf commitTree in
  match includeRendered nodesByID renderedFibers [rootFiberId0] with
  | None => None
  | Some included =>
      let children0 := map (fun f => (f, @nil Q)) included in
      let '(parentBy, children1) :=
        linkParents nodesByID rootFiberId0 included
          (mapOfPairs Qeq_bool children0) in
      let childrenBy := orderChildren nodesByID included children1 in
      match depthLoop (S (length (concat (map snd childrenBy)))) childrenBy
              [rootFiberId0] [(rootFiberId0, O)] with
      | None => None
      | Some depth0 =>
          let depthBy := fillDepths rootFiberId0 included depth0 in
          match computeAll (selfByFiber maps) childrenBy included [] with
          | None => None
          | Some memo =>
              let nodeList :=
                map (makeNode commitTree fallbackFiberNameMap rootName maps
                       renderedFibers parentBy childrenBy depthBy memo)
                    included in
              let sortedNodes := jsSort byDepthThenId nodeList in
              Some {| rootFiberId := rootFiberId0;
                      totalNodesInCommitTree := length nodesByID;
                      flameNodes := sortedNodes;
                      renderedComponents :=
                        jsSort bySubtreeThenSelf
                          (map (makeRendered fallbackFiberNameMap rootName
                                  maps sortedNodes)
                               renderedFibers) |}
          end
      end
  end.

End Build.

End Flamegraph.

(** ** Export analysis ([analyzeReactDevtoolsExport]) *)

Module Analyze.
Import JS Coll CommitTree Flamegraph.

(** An element of one of the sparse maps of the export: a pair
    [[key, value]] with a finite key, or a bare number (the flat encoding
    [key, value, key, value, ...]). *)
Inductive Entry (V : Type) : Type :=
| PairEntry (key : Q) (value : V)
| NumberEntry (n : Q).
Arguments PairEntry {V} key value.
Arguments NumberEntry {V} n.

(** [normalizePairEntries(value)].  [ofNumber] is the value that a number
    of the flat encoding stands for.  After a bare number, the next element
    is consumed with it only when it is a number too. *)
Fixpoint normalizePairEntries {V : Type} (ofNumber : Q -> V)
    (value : list (Entry V)) : list (Q * V) :=
  match value with
  | [] => []
  | PairEntry k v :: rest => (k, v) :: normalizePairEntries ofNumber rest
  | NumberEntry n :: rest =>
      match rest with
      | NumberEntry m :: rest' =>
          (n, ofNumber m) :: normalizePairEntries ofNumber rest'
      | _ => normalizePairEntries ofNumber rest
      end
  end.

(** [toPairMap(value)]. *)
Definition toPairMap {V : Type} (ofNumber : Q -> V) (value : list (Entry V))
  : list (Q * V) :=
  mapOfPairs Qeq_bool (normalizePairEntries ofNumber value).

(** [sumNumericArray(values)]: the sum of the elements that are numbers. *)
Definition sumNumericArray {V : Type} (values : list (Entry V)) : Q :=
  fold_left
    (fun total value =>
       match value with
       | NumberEntry n => total + n
       | PairEntry _ _ => total
       end)
    values 0.

(** [pickNumber(obj, keys)] on the fields already read in the order of
    [keys]; a field that is not a finite number is [None]. *)
Fixpoint pickNumber (fields : list (option Q)) : option Q :=
  match fields with
  | [] => None
  | Some v :: _ => Some v
  | None :: rest => pickNumber rest
  end.

(** One entry of [commitData]. *)
Record Commit : Type := mkCommit {
  duration : option Q;
  actualDuration : option Q;
  commitDuration : option Q;
  timestamp : option Q;
  commitTime : option Q;
  startTime : option Q;
  fiberActualDurations : list (Entry Q);
  fiberSelfDurations : list (Entry Q);
  changeDescriptions : list (Entry (option Reason.ChangeDescription))
}.

(** A node of [snapshots]. *)
Record SnapshotNode : Type := mkSnapshot {
  snDisplayName : option jsstring;
  snHocDisplayNames : option (list jsstring);
  snChildren : option (list Q);
  snKey : option jsstring;
  snType : option Q;
  snCompiledWithForget : bool
}.

(** One entry of [dataForRoots].  An element of [operations] that is not
    an array and an element of [commitData] that is not an object are
    [None]. *)
Record Root : Type := mkRoot {
  rootDisplayName : option jsstring;
  exportRootID : option Q;
  snapshots : list (Q * SnapshotNode);
  initialTreeBaseDurations : list (Entry Q);
  operations : list (option (list Q));
  commitData : list (option Commit)
}.

(** The string ["root"]. *)
Definition rootLiteral : jsstring := [114; 111; 111; 116]%Z.

Definition rootNameOf (root : Root) : jsstring :=
  match rootDisplayName root with
  | Some s => match nonEmpty (trim s) with Some t => t | None => rootLiteral end
  | None => rootLiteral
  end.

(** [buildFiberNameMap(root, rootName)]. *)
Definition buildFiberNameMap (root : Root) (rootName : jsstring)
  : list (Q * jsstring) :=
  let m :=
    fold_left
      (fun m '(fiberId, node) =>
         match getSnapshotDisplayName (snDisplayName node)
                 (snHocDisplayNames node) with
         | Some (c :: s) => mapSet Qeq_bool fiberId (c :: s) m
         | _ => m
         end)
      (snapshots root) [] in
  match m with
  | [] => [(-1, rootName)]
  | _ => m
  end.

(** [buildInitialCommitTree(root)]. *)
Definition buildInitialCommitTree (root : Root) : Tree :=
  let baseDurations := toPairMap (fun n => n) (initialTreeBaseDurations root) in
  let nodes0 :=
    fold_left
      (fun m '(fiberId, sn) =>
         mapSet Qeq_bool fiberId
           {| id := fiberId;
              parentID := 0;
              children := match snChildren sn with Some c => c | None => [] end;
              displayName :=
                getSnapshotDisplayName (snDisplayName sn) (snHocDisplayNames sn);
              hocDisplayNames := snHocDisplayNames sn;
              key := snKey sn;
              type := snType sn;
              compiledWithForget := snCompiledWithForget sn;
              treeBaseDuration := msOf baseDurations fiberId |}
           m)
      (snapshots root) [] in
  let nodes1 :=
    fold_left
      (fun m fiberId =>
         match mapGet Qeq_bool fiberId m with
         | Some node =>
             fold_left
               (fun m childID => updateNode childID (setParentID fiberId) m)
               (children node) m
         | None => m
         end)
      (map fst nodes0) nodes0 in
  let rootID0 :=
    match
      match exportRootID root with
      | Some r => if mapHas Qeq_bool r nodes1 then Some r else None
      | None => None
      end
    with
    | Some r => Some r
    | None =>
        match find (fun kv =>
                      match type (snd kv) with
                      | Some ty => Qeq_bool ty ELEMENT_TYPE_ROOT
                      | None => false
                      end) nodes1 with
        | Some kv => Some (id (snd kv))
        | None =>
            match find (fun kv => Qeq_bool (parentID (snd kv)) 0) nodes1 with
            | Some kv => Some (id (snd kv))
            | None => None
            end
        end
    end in
  {| rootID :=
       match rootID0, nodes1 with
       | Some r, _ => r
       | None, (firstKey, _) :: _ => firstKey
       | None, [] => 0
       end;
     nodes := nodes1 |}.

(** The duration of a commit: the explicit field, else the total of
    [fiberSelfDurations] when positive, else [sumNumericArray] of
    [fiberActualDurations] when positive; [None] is [null]. *)
Definition commitDurationOf (commit : Commit) : option Q :=
  match pickNumber [duration commit; actualDuration commit;
                    commitDuration commit] with
  | Some d => Some d
  | None =>
      let fiberSelfTotal :=
        fold_left (fun sum pair => sum + snd pair)
          (normalizePairEntries (fun n => n) (fiberSelfDurations commit)) 0 in
      if Qlt_bool 0 fiberSelfTotal then Some fiberSelfTotal
      else
        let fiberActual := sumNumericArray (fiberActualDurations commit) in
        if Qlt_bool 0 fiberActual then Some fiberActual else None
  end.

(** [round(Number.isFinite(durationMs) ? durationMs : 0)]. *)
Definition reportedDurationMs (commit : Commit) : Q :=
  round (match commitDurationOf commit with Some d => d | None => 0 end) 2.

Definition commitMaps (commit : Commit) : CommitMaps :=
  {| actualByFiber := toPairMap (fun n => n) (fiberActualDurations commit);
     selfByFiber := toPairMap (fun n => n) (fiberSelfDurations commit);
     reasonsByFiber := toPairMap (fun _ => None) (changeDescriptions commit) |}.

(** An entry of [hotspotMap]. *)
Record Aggregate : Type := mkAggregate {
  aggName : Name;
  aggCount : nat;
  aggTotalMs : Q;
  aggTotalSelfMs : Q;
  aggTotalSubtreeMs : Q;
  aggMaxSelfMs : Q;
  aggMaxSubtreeMs : Q;
  aggReasonCounts : list (string * nat)
}.

(** An entry of the report's [hotspots]. *)
Record Hotspot : Type := mkHotspot {
  hsName : Name;
  hsCount : nat;
  hsTotalMs : Q;
  hsAvgMs : Q;
  hsSelfMs : Q;
  hsAvgSelfMs : Q;
  hsSubtreeMs : Q;
  hsAvgSubtreeMs : Q;
  hsTopReasons : list (string * nat)
}.

(** An entry of the report's [commits]. *)
Record CommitEntry : Type := mkCommitEntry {
  ceRootID : Q;
  ceCommitIndex : nat;
  ceTimestampMs : Q;
  ceDurationMs : Q;
  ceFlamegraph : FlamegraphResult
}.

(** The accumulators of the analysis. *)
Record Acc : Type := mkAcc {
  hotspotMap : list (Name * Aggregate);
  commitDurationsMs : list Q;
  commitTimestampsMs : list Q;
  componentTimestampsByName : list (Name * list Q);
  commitFlamegraphs : list CommitEntry;
  warningSet : list Warning;
  commitCount : nat;
  componentRenderSamples : nat
}.

Definition emptyAcc : Acc :=
  {| hotspotMap := []; commitDurationsMs := []; commitTimestampsMs := [];
     componentTimestampsByName := []; commitFlamegraphs := [];
     warningSet := []; commitCount := O; componentRenderSamples := O |}.

(** [map.set(k, (map.get(k) ?? 0) + 1)]. *)
Definition bump (k : string) (m : list (string * nat)) : list (string * nat) :=
  mapSet String.eqb k
    (S match mapGet String.eqb k m with Some c => c | None => O end) m.

(** The body of the loop over [flamegraph.renderedComponents]. *)
Definition addSample (numberToString : Q -> jsstring)
    (commitTimestampMs : Q) (acc : Acc) (rc : RenderedComponent) : Acc :=
  let subtreeMs0 := rcSubtreeMs rc in
  let selfMs0 := rcSelfMs rc in
  let primaryMs := if Qlt_bool 0 selfMs0 then selfMs0 else subtreeMs0 in
  let nm := rcName rc in
  let sameName := nameEqb numberToString in
  let aggregate :=
    match mapGet sameName nm (hotspotMap acc) with
    | Some a => a
    | None =>
        {| aggName := nm; aggCount := O; aggTotalMs := 0;
           aggTotalSelfMs := 0; aggTotalSubtreeMs := 0; aggMaxSelfMs := 0;
           aggMaxSubtreeMs := 0; aggReasonCounts := [] |}
    end in
  let aggregate' :=
    {| aggName := aggName aggregate;
       aggCount := S (aggCount aggregate);
       aggTotalMs := aggTotalMs aggregate + primaryMs;
       aggTotalSelfMs := aggTotalSelfMs aggregate + selfMs0;
       aggTotalSubtreeMs := aggTotalSubtreeMs aggregate + subtreeMs0;
       aggMaxSelfMs := Qmax (aggMaxSelfMs aggregate) selfMs0;
       aggMaxSubtreeMs := Qmax (aggMaxSubtreeMs aggregate) subtreeMs0;
       aggReasonCounts :=
         match rcWhyRendered rc with
         | Some reasonSummary => bump reasonSummary (aggReasonCounts aggregate)
         | None => aggReasonCounts aggregate
         end |} in
  let timestamps :=
    match mapGet sameName nm (componentTimestampsByName acc) with
    | Some ts => ts | None => [] end in
  {| hotspotMap := mapSet sameName nm aggregate' (hotspotMap acc);
     commitDurationsMs := commitDurationsMs acc;
     commitTimestampsMs := commitTimestampsMs acc;
     componentTimestampsByName :=
       mapSet sameName nm (timestamps ++ [commitTimestampMs])
         (componentTimestampsByName acc);
     commitFlamegraphs := commitFlamegraphs acc;
     warningSet := warningSet acc;
     commitCount := commitCount acc;
     componentRenderSamples := S (componentRenderSamples acc) |}.

(** How the analysis of an export ends. *)
Inductive Result (A : Type) : Type :=
| Finished (a : A)
| Raised            (* the [RangeError] of the decoder *)
| BoundReached.     (* a loop of the model reached its bound *)
Arguments Finished {A} a.
Arguments Raised {A}.
Arguments BoundReached {A}.

Section Run.
Variable localeCompare : Name -> Name -> Q.
Variable numberToString : Q -> jsstring.

(** The body of the loop over [commits], for a commit that is an object. *)
Definition analyzeCommit (rootName : jsstring)
    (fallbackFiberNameMap : list (Q * jsstring))
    (ops : option (list Q)) (commitIndex : nat) (commit : Commit)
    (commitTree : Tree) (acc : Acc) : Result (Tree * Acc) :=
  match
    match ops with
    | Some operations0 =>
        applyOperationsToCommitTree commitTree operations0 (warningSet acc)
    | None => Returned commitTree (warningSet acc)
    end
  with
  | RangeError => Raised
  | OutOfFuel => BoundReached
  | Returned commitTree' warnings' =>
      let durationMs := commitDurationOf commit in
      let durations' :=
        match durationMs with
        | Some d =>
            if Qlt_bool 0 d then commitDurationsMs acc ++ [d]
            else commitDurationsMs acc
        | None => commitDurationsMs acc
        end in
      let commitTimestampMs :=
        match pickNumber [timestamp commit; commitTime commit;
                          startTime commit] with
        | Some ts => ts
        | None => inject_Z (Z.of_nat commitIndex)
        end in
      match buildCommitFlamegraph localeCompare commitTree' rootName
              fallbackFiberNameMap (commitMaps commit) with
      | None => BoundReached
      | Some flamegraph =>
          let acc1 :=
            {| hotspotMap := hotspotMap acc;
               commitDurationsMs := durations';
               commitTimestampsMs :=
                 commitTimestampsMs acc ++ [commitTimestampMs];
               componentTimestampsByName := componentTimestampsByName acc;
               commitFlamegraphs :=
                 commitFlamegraphs acc
                 ++ [{| ceRootID := rootID commitTree';
                        ceCommitIndex := commitIndex;
                        ceTimestampMs := round commitTimestampMs 2;
                        ceDurationMs := reportedDurationMs commit;
                        ceFlamegraph := flamegraph |}];
               warningSet := warnings';
               commitCount := S (commitCount acc);
               componentRenderSamples := componentRenderSamples acc |} in
          Finished (commitTree',
                    fold_left (addSample numberToString commitTimestampMs)
                      (renderedComponents flamegraph) acc1)
      end
  end.

(** The loop over the commits of one root, from [commitIndex]. *)
Fixpoint analyzeCommits (rootName : jsstring)
    (fallbackFiberNameMap : list (Q * jsstring))
    (operationsByCommit : list (option (list Q))) (commitIndex : nat)
    (commits : list (option Commit)) (commitTree : Tree) (acc : Acc)
  : Result Acc :=
  match commits with
  | [] => Finished acc
  | None :: rest =>
      analyzeCommits rootName fallbackFiberNameMap operationsByCommit
        (S commitIndex) rest commitTree acc
  | Some commit :: rest =>
      let ops :=
        match nth_error operationsByCommit commitIndex with
        | Some o => o
        | None => None
        end in
      match analyzeCommit rootName fallbackFiberNameMap ops commitIndex
              commit commitTree acc with
      | Finished (commitTree', acc') =>
          analyzeCommits rootName fallbackFiberNameMap operationsByCommit
            (S commitIndex) rest commitTree' acc'
      | Raised => Raised
      | BoundReached => BoundReached
      end
  end.

(** The loop over [roots]. *)
Fixpoint analyzeRoots (roots : list Root) (acc : Acc) : Result Acc :=
  match roots with
  | [] => Finished acc
  | root :: rest =>
      let rootName := rootNameOf root in
      match analyzeCommits rootName (buildFiberNameMap root rootName)
              (operations root) O (commitData root)
              (buildInitialCommitTree root) acc with
      | Finished acc' => analyzeRoots rest acc'
      | Raised => Raised
      | BoundReached => BoundReached
      end
  end.

(** The comparator of [hotspots]: by [totalMs] descending, then by
    [count] descending. *)
Definition byTotalThenCount (a b : Hotspot) : Q :=
  if negb (Qeq_bool (hsTotalMs b) (hsTotalMs a))
  then hsTotalMs b - hsTotalMs a
  else inject_Z (Z.of_nat (hsCount b)) - inject_Z (Z.of_nat (hsCount a)).

(** The comparator [(a, b) => b.count - a.count]. *)
Definition byCountDescending {K : Type} (a b : K * nat) : Q :=
  inject_Z (Z.of_nat (snd b)) - inject_Z (Z.of_nat (snd a)).

Definition toHotspot (h : Aggregate) : Hotspot :=
  let n := inject_Z (Z.of_nat (Nat.max 1 (aggCount h))) in
  {| hsName := aggName h;
     hsCount := aggCount h;
     hsTotalMs := round (aggTotalMs h) 2;
     hsAvgMs := round (aggTotalMs h / n) 2;
     hsSelfMs := round (aggTotalSelfMs h) 2;
     hsAvgSelfMs := round (aggTotalSelfMs h / n) 2;
     hsSubtreeMs := round (aggTotalSubtreeMs h) 2;
     hsAvgSubtreeMs := round (aggTotalSubtreeMs h / n) 2;
     hsTopReasons :=
       slice0 3 (jsSort byCountDescending (aggReasonCounts h)) |}.

(** [hotspots]. *)
Definition hotspotsOf (acc : Acc) : list Hotspot :=
  slice0 25
    (jsSort byTotalThenCount (map (fun kv => toHotspot (snd kv))
                                  (hotspotMap acc))).

(** The fields of the report that the analysis computes from the commits. *)
Record Report : Type := mkReport {
  reactEvents : nat;
  reactComponentTrackEvents : nat;
  reactTimeMs : Q;
  commits : nat;
  avgCommitMs : Q;
  p95CommitMs : Q;
  cadence : Cadence.CadenceSummary;
  commitList : list CommitEntry;
  decoderWarnings : list Warning;
  hotspots : list Hotspot
}.

(** [topComponentCadence]: name, count and cadence. *)
Definition topComponentCadence (acc : Acc)
  : list (Name * nat * Cadence.CadenceSummary) :=
  slice0 10
    (jsSort (fun a b => inject_Z (Z.of_nat (snd (fst b)))
                        - inject_Z (Z.of_nat (snd (fst a))))
       (filter (fun item => Nat.leb 4 (Cadence.samples (snd item)))
          (map (fun '(nm, ts) =>
                  (nm, length ts, Cadence.summarizeCadence ts))
               (componentTimestampsByName acc)))).

(** [cadence], with the fallback to a component cadence. *)
Definition cadenceOf (acc : Acc) : Cadence.CadenceSummary :=
  let c := Cadence.summarizeCadence (commitTimestampsMs acc) in
  match Cadence.samples c, topComponentCadence acc with
  | O, first :: others =>
      let candidates := first :: others in
      let fallback :=
        match find (fun item => Cadence.likelyIntervalChurn (snd item))
                candidates with
        | Some item => item
        | None =>
            match find (fun item =>
                          match Cadence.medianDeltaMs (snd item) with
                          | Some m => Qle_bool 100 m
                          | None => false
                          end) candidates with
            | Some item => item
            | None => first
            end
        end in
      {| Cadence.samples := snd (fst fallback);
         Cadence.medianDeltaMs := Cadence.medianDeltaMs (snd fallback);
         Cadence.regularity := Cadence.regularity (snd fallback);
         Cadence.likelyIntervalChurn :=
           Cadence.likelyIntervalChurn (snd fallback) |}
  | _, _ => c
  end.

Definition reportOf (acc : Acc) : Report :=
  {| reactEvents :=
       match componentRenderSamples acc with
       | O => commitCount acc
       | n => n
       end;
     reactComponentTrackEvents := componentRenderSamples acc;
     reactTimeMs :=
       round (match commitDurationsMs acc with
              | [] => fold_left (fun sum kv => sum + aggTotalMs (snd kv))
                        (hotspotMap acc) 0
              | ds => fold_left Qplus ds 0
              end) 2;
     commits :=
       match commitCount acc with
       | O => length (commitDurationsMs acc)
       | n => n
       end;
     avgCommitMs :=
       round (match median (commitDurationsMs acc) with
              | Some m => m | None => 0 end) 2;
     p95CommitMs :=
       round (match percentile (commitDurationsMs acc) 95 with
              | Some m => m | None => 0 end) 2;
     cadence := cadenceOf acc;
     commitList := commitFlamegraphs acc;
     decoderWarnings := warningSet acc;
     hotspots := hotspotsOf acc |}.

(** [analyzeReactDevtoolsExport(inputPath, data)] on [data.dataForRoots]. *)
Definition analyzeReactDevtoolsExport (dataForRoots : list Root)
  : Result Report :=
  match analyzeRoots dataForRoots emptyAcc with
  | Finished acc => Finished (reportOf acc)
  | Raised => Raised
  | BoundReached => BoundReached
  end.

End Run.

End Analyze.

(** ** Brace matching in component sources ([findMatchingBrace]) *)

Module Braces.
Import CommitTree.

(** The variables of the scanning loop. *)
Record Scanner : Type := mkScanner {
  depth : Z;
  inSingle : bool;
  inDouble : bool;
  inTemplate : bool;
  inLineComment : bool;
  inBlockComment : bool;
  escaped : bool
}.

Definition initial : Scanner :=
  {| depth := 0; inSingle := false; inDouble := false; inTemplate := false;
     inLineComment := false; inBlockComment := false; escaped := false |}.

Definition setDepth (d : Z) (st : Scanner) : Scanner :=
  {| depth := d; inSingle := inSingle st; inDouble := inDouble st;
     inTemplate := inTemplate st; inLineComment := inLineComment st;
     inBlockComment := inBlockComment st; escaped := escaped st |}.

Definition setInSingle (b : bool) (st : Scanner) : Scanner :=
  {| depth := depth st; inSingle := b; inDouble := inDouble st;
     inTemplate := inTemplate st; inLineComment := inLineComment st;
     inBlockComment := inBlockComment st; escaped := escaped st |}.

Definition setInDouble (b : bool) (st : Scanner) : Scanner :=
  {| depth := depth st; inSingle := inSingle st; inDouble := b;
     inTemplate := inTemplate st; inLineComment := inLineComment st;
     inBlockComment := inBlockComment st; escaped := escaped st |}.

Definition setInTemplate (b : bool) (st : Scanner) : Scanner :=
  {| depth := depth st; inSingle := inSingle st; inDouble := inDouble st;
     inTemplate := b; inLineComment := inLineComment st;
     inBlockComment := inBlockComment st; escaped := escaped st |}.

Definition setInLineComment (b : bool) (st : Scanner) : Scanner :=
  {| depth := depth st; inSingle := inSingle st; inDouble := inDouble st;
     inTemplate := inTemplate st; inLineComment := b;
     inBlockComment := inBlockComment st; escaped := escaped st |}.

Definition setInBlockComment (b : bool) (st : Scanner) : Scanner :=
  {| depth := depth st; inSingle := inSingle st; inDouble := inDouble st;
     inTemplate := inTemplate st; inLineComment := inLineComment st;
     inBlockComment := b; escaped := escaped st |}.

Definition setEscaped (b : bool) (st : Scanner) : Scanner :=
  {| depth := depth st; inSingle := inSingle st; inDouble := inDouble st;
     inTemplate := inTemplate st; inLineComment := inLineComment st;
     inBlockComment := inBlockComment st; escaped := b |}.

(** The code units that the loop tests for. *)
Definition newline : Z := 10.
Definition doubleQuote : Z := 34.
Definition singleQuote : Z := 39.
Definition star : Z := 42.
Definition slash : Z := 47.
Definition backslash : Z := 92.
Definition backtick : Z := 96.
Definition openBrace : Z := 123.
Definition closeBrace : Z := 125.

(** [next === c], where [next] is [undefined] past the end. *)
Definition nextIs (next : option Z) (c : Z) : bool :=
  match next with
  | Some n => Z.eqb n c
  | None => false
  end.

(** How one iteration of the loop ends: [return i], or [continue] with or
    without the extra [i += 1]. *)
Inductive Action : Type :=
| Return
| Continue (skip : bool) (st : Scanner).

(** The body of the loop for [char = source[i]] and
    [next = source[i + 1]]. *)
Definition stepChar (char : Z) (next : option Z) (st : Scanner) : Action :=
  if inLineComment st then
    Continue false
      (if Z.eqb char newline then setInLineComment false st else st)
  else if inBlockComment st then
    if Z.eqb char star && nextIs next slash
    then Continue true (setInBlockComment false st)
    else Continue false st
  else if inSingle st then
    Continue false
      (setEscaped (negb (escaped st) && Z.eqb char backslash)
         (if negb (escaped st) && Z.eqb char singleQuote
          then setInSingle false st else st))
  else if inDouble st then
    Continue false
      (setEscaped (negb (escaped st) && Z.eqb char backslash)
         (if negb (escaped st) && Z.eqb char doubleQuote
          then setInDouble false st else st))
  else if inTemplate st then
    Continue false
      (setEscaped (negb (escaped st) && Z.eqb char backslash)
         (if negb (escaped st) && Z.eqb char backtick
          then setInTemplate false st else st))
  else if Z.eqb char slash && nextIs next slash then
    Continue true (setInLineComment true st)
  else if Z.eqb char slash && nextIs next star then
    Continue true (setInBlockComment true st)
  else if Z.eqb char singleQuote then
    Continue false (setEscaped false (setInSingle true st))
  else if Z.eqb char doubleQuote then
    Continue false (setEscaped false (setInDouble true st))
  else if Z.eqb char backtick then
    Continue false (setEscaped false (setInTemplate true st))
  else if Z.eqb char openBrace then
    Continue false (setDepth (depth st + 1) st)
  else if Z.eqb char closeBrace then
    let st' := setDepth (depth st - 1) st in
    if Z.eqb (depth st') 0 then Return else Continue false st'
  else Continue false st.

(** The loop [for (let i = openBraceIndex; i < source.length; i++)], on
    the part of the source from [i] on; [-1] when the loop ends. *)
Fixpoint scan (source : jsstring) (i : nat) (st : Scanner) : Z :=
  match source with
  | [] => (-1)%Z
  | char :: rest =>
      match stepChar char (hd_error rest) st with
      | Return => Z.of_nat i
      | Continue false st' => scan rest (S i) st'
      | Continue true st' =>
          match rest with
          | [] => (-1)%Z
          | _ :: rest' => scan rest' (S (S i)) st'
          end
      end
  end.

(** [findMatchingBrace(source, openBraceIndex)] for an integer index. *)
Definition findMatchingBrace (source : jsstring) (openBraceIndex : Z) : Z :=
  if Z.ltb openBraceIndex 0
     || Z.leb (Z.of_nat (length source)) openBraceIndex
  then (-1)%Z
  else scan (skipn (Z.to_nat openBraceIndex) source)
         (Z.to_nat openBraceIndex) initial.

(** [source.slice(from, to)] for indices [0 <= from]. *)
Definition slice (source : jsstring) (from to : Z) : jsstring :=
  firstn (Z.to_nat (to - from)) (skipn (Z.to_nat from) source).

(** The end of the loop body of [extractComponentBody], for an index
    [openBraceIndex >= 0]: the text between the brace and its match;
    [None] is [continue]. *)
Definition bracedBody (source : jsstring) (openBraceIndex : Z)
  : option jsstring :=
  let closeBraceIndex := findMatchingBrace source openBraceIndex in
  if Z.leb closeBraceIndex openBraceIndex then None
  else Some (slice source (openBraceIndex + 1) closeBraceIndex).

End Braces.

(** ** The cadence detector in binary64 ([summarizeCadence]) *)

(** The classification of [summarizeCadence] compares a median and a
    quotient with constants, and its report rounds them: both depend on
    the rounding of the arithmetic.  This module has the numbers of the
    source as they are, IEEE 754 binary64 values (the primitive [float],
    rounding to nearest, ties to even), with [NaN], the infinities and the
    two zeros. *)
Module Binary64.
Import PrimFloat SpecFloat FloatOps.

(** The number that an integer is, rounded to nearest: exact up to
    [2 ^ 53]. *)
Definition ofZ (z : Z) : float :=
  SF2Prim (binary_normalize prec emax z 0%Z false).

(** The number literal [0.2]: the binary64 value nearest to one fifth. *)
Definition oneFifth : float := 0x1.999999999999ap-3%float.

(** [Number.isFinite(x)] for a number [x]. *)
Definition isFinite (x : float) : bool := is_finite x.

(** [Math.max(a, b)]: [NaN] if one of the two is [NaN]; [+0] is larger
    than [-0]. *)
Definition mathMax (a b : float) : float :=
  if is_nan a || is_nan b then nan
  else if (a <? b)%float then b
  else if (b <? a)%float then a
  else if get_sign a then b else a.

(** [Math.round(x)]: the integer nearest to [x], the larger one on a tie,
    computed on the exact value of [x]; [-0] for [-0.5 <= x < 0]. *)
Definition mathRound (x : float) : float :=
  match Prim2SF x with
  | S754_finite s m e =>
      if (0 <=? e)%Z then x
      else
        let value2 := ((if s then Z.neg m else Z.pos m) * 2)%Z in
        let n := Z.shiftr (value2 + 2 ^ (- e))%Z (- e + 1) in
        if (n =? 0)%Z then (if s then neg_zero else zero) else ofZ n
  | _ => x
  end.

(** [round(num, digits)]; [10 ** digits] is exact for the digits 2 and 3
    that the source uses. *)
Definition round (num : float) (digits : nat) : float :=
  if isFinite num then
    let factor := ofZ (10 ^ Z.of_nat digits) in
    (mathRound (num * factor) / factor)%float
  else zero.

(** [Array.prototype.sort(cmp)]: a stable sort; [after a b] says that
    [cmp(a, b)] is positive, so that [a] goes after [b].  Written as a
    stable insertion sort. *)
Section Sort.
Context {A : Type} (after : A -> A -> bool).

Fixpoint insertSorted (x : A) (l : list A) : list A :=
  match l with
  | [] => [x]
  | y :: l' => if after x y then y :: insertSorted x l' else x :: y :: l'
  end.

Fixpoint jsSort (l : list A) : list A :=
  match l with
  | [] => []
  | x :: l' => insertSorted x (jsSort l')
  end.
End Sort.

(** The comparator [(a, b) => a - b]: positive or not ([sort] takes a
    result that is [NaN] for 0). *)
Definition ascending (a b : float) : bool := (0 <? a - b)%float.

(** [median(values)]; [None] is [null]. *)
Definition median (values : list float) : option float :=
  match values with
  | [] => None
  | _ =>
      let sorted := jsSort ascending values in
      let mid := Nat.div (length sorted) 2 in
      if Nat.eqb (Nat.modulo (length sorted) 2) 0
      then Some ((nth (mid - 1) sorted nan + nth mid sorted nan) / 2)%float
      else Some (nth mid sorted nan)
  end.

Record CadenceSummary : Type := mkCadence {
  samples : nat;
  medianDeltaMs : option float;   (* [None] is [null] *)
  regularity : option float;      (* [None] is [null] *)
  likelyIntervalChurn : bool
}.

(** The loop [for (i = 1; i < sorted.length; i++)
    deltas.push(sorted[i] - sorted[i - 1])]. *)
Fixpoint consecutiveDeltas (sorted : list float) : list float :=
  match sorted with
  | a :: (b :: _) as rest => (b - a)%float :: consecutiveDeltas rest
  | _ => []
  end.

(** [Boolean(x)] for a number or [null]: neither [null], nor [NaN], nor a
    zero. *)
Definition truthy (m : option float) : bool :=
  match m with
  | Some x => negb (is_nan x) && negb (x =? 0)%float
  | None => false
  end.

(** [x || 0]. *)
Definition orZero (m : option float) : float :=
  match m with
  | Some x => if truthy m then x else 0%float
  | None => 0%float
  end.

(** [x ?? 0]. *)
Definition orZeroIfNull (m : option float) : float :=
  match m with Some x => x | None => 0%float end.

Definition tolerance (m : option float) : float :=
  mathMax 40 (orZero m * oneFifth)%float.

Definition isRegular (m : option float) (d : float) : bool :=
  (abs (d - orZero m) <=? tolerance m)%float.

Definition regularityOf (deltas : list float) (m : option float) : float :=
  match deltas with
  | [] => 0%float
  | _ =>
      (ofZ (Z.of_nat (length (filter (isRegular m) deltas)))
       / ofZ (Z.of_nat (length deltas)))%float
  end.

Definition summarizeCadence (timestampsMs : list float) : CadenceSummary :=
  if Nat.ltb (length timestampsMs) 4 then
    {| samples := length timestampsMs;
       medianDeltaMs := None;
       regularity := None;
       likelyIntervalChurn := false |}
  else
    let sorted := jsSort ascending timestampsMs in
    let deltas := consecutiveDeltas sorted in
    let medianDelta := median deltas in
    let reg := regularityOf deltas medianDelta in
    let likely :=
      truthy medianDelta
      && (700 <=? orZeroIfNull medianDelta)%float
      && (orZeroIfNull medianDelta <=? 1300)%float
      && (0.5 <=? reg)%float
      && Nat.leb 3 (length deltas) in
    {| samples := length sorted;
       medianDeltaMs := Some (round (orZeroIfNull medianDelta) 2);
       regularity := Some (round reg 3);
       likelyIntervalChurn := likely |}.

End Binary64.

(** ** Predicates and sample data of the statements *)

Module Statements.
Import JS Coll.

(** The relation that [jsSort cmp] establishes between neighbours. *)
Definition before {A : Type} (cmp : A -> A -> Q) (a b : A) : Prop :=
  cmp a b <= 0.

Section CompareData.
Import Compare.
Definition slowChurning : Report :=
  {| totals := {| reactTimeMs := Some 100; commits := Some 10;
                  reactComponentTrackEvents := Some 40;
                  reactSchedulerTrackEvents := Some 0 |};
     cadenceLikelyIntervalChurn := Some true;
     hotspots := [] |}.

Definition fastChurning : Report :=
  {| totals := {| reactTimeMs := Some 50; commits := Some 10;
                  reactComponentTrackEvents := Some 40;
                  reactSchedulerTrackEvents := Some 0 |};
     cadenceLikelyIntervalChurn := Some true;
     hotspots := [] |}.

Definition slowQuiet : Report :=
  {| totals := {| reactTimeMs := Some 100; commits := Some 10;
                  reactComponentTrackEvents := Some 40;
                  reactSchedulerTrackEvents := Some 0 |};
     cadenceLikelyIntervalChurn := Some false;
     hotspots := [] |}.

End CompareData.

Section ReasonData.
Import Reason.
Open Scope string_scope.
(** The reasons in the order the source tests them, with the condition of
    each. *)
Definition reasonTable (cd : ChangeDescription) : list (string * bool) :=
  [ ("mount", isFirstMount cd);
    ("props", nonEmptyArray (props cd));
    ("state", nonEmptyArray (state cd));
    ("context", nonEmptyArray (context cd));
    ("hooks", nonEmptyArray (hooks cd) || didHooksChange cd) ].

Definition selectedReasons (cd : ChangeDescription) : list string :=
  map fst (filter snd (reasonTable cd)).

Definition mountWithProps : ChangeDescription :=
  {| isFirstMount := true;
     props := Some [KeyName "title"];
     state := None; context := None; hooks := None;
     didHooksChange := false |}.

End ReasonData.

Section DecoderData.
Import CommitTree.
(** The cursor after an iteration: advanced by at least one, or [NaN]. *)
Definition advanced (i : Q) (next : jsnum) : Prop :=
  match next with
  | Fin i' => i + 1 <= i'
  | NaN => True
  end.

(** The distance that a state still has to cover is at most [n]. *)
Definition within (operations : list Q) (n : nat) (c : jsnum) : Prop :=
  match c with
  | Fin i => inject_Z (Z.of_nat (length operations)) - i <= inject_Z (Z.of_nat n)
  | NaN => True
  end.




(** How many times a warning occurs in a warning set. *)
Definition countWarning (w : Warning) (ws : list Warning) : nat :=
  length (filter (warningEqb w) ws).

(** No warning occurs twice in a warning set. *)
Definition deduplicated (ws : list Warning) : Prop :=
  forall w, (countWarning w ws <= 1)%nat.

Definition emptyTree : Tree := {| rootID := 0; nodes := [] |}.



(** The children list of the node stored under [p], if there is one. *)
Definition childrenOf (p : Q) (t : Tree) : option (list Q) :=
  match mapGet Qeq_bool p (nodes t) with
  | Some n => Some (children n)
  | None => None
  end.

Definition plainNode (id0 parent : Q) (c : list Q) : Node :=
  {| id := id0; children := c; displayName := None; hocDisplayNames := None;
     key := None; parentID := parent; treeBaseDuration := 0;
     type := Some 5; compiledWithForget := false |}.

(** Node 1 with the single child 2. *)
Definition parentWithChild : Tree :=
  {| rootID := 1;
     nodes := [(1, plainNode 1 0 [2]); (2, plainNode 2 1 [])] |}.

(** Node 1 without children. *)
Definition parentAlone : Tree :=
  {| rootID := 1; nodes := [(1, plainNode 1 0 [])] |}.

(** An empty string table, then [AddNode(2, parent 1)] and
    [RemoveNodes([2])]. *)
Definition addThenRemoveRecord : list Q :=
  [1; 1; 0; 1; 2; 5; 1; 0; 0; 0; 0; 2; 1; 2].
End DecoderData.

Section FlamegraphMeasures.
(** The entries of a keyed list whose key is not in [seen]. *)
Definition unseen {V : Type} (seen : list Q) (m : list (Q * V)) : nat :=
  length (filter (fun kv => negb (setHas Qeq_bool (fst kv) seen)) m).

(** The ids of a list that have no depth yet. *)
Definition undiscovered (depthBy : list (Q * nat)) (ids : list Q) : nat :=
  length (filter (fun c => negb (mapHas Qeq_bool c depthBy)) ids).

End FlamegraphMeasures.

Section FlamegraphStatements.
Import CommitTree Flamegraph Analyze.



(** [a] leads to [b] along the children lists of the fibers of [included]:
    [b] is [a], or a child of [a] leads to [b]. *)
Inductive reaches (included : list Q) (childrenBy : list (Q * list Q))
  : Q -> Q -> Prop :=
| reaches_here (a b : Q) : a == b -> reaches included childrenBy a b
| reaches_down (a c b : Q) :
    setHas Qeq_bool a included = true ->
    In c (childrenIn childrenBy a) ->
    reaches included childrenBy c b ->
    reaches included childrenBy a b.

(** What the child [childID] adds to the recomputed value of [parentID]:
    its own recomputed value; its self time alone only if it leads back to
    the parent, that is on a cycle. *)
Definition contribution (included : list Q) (selfBy : list (Q * Q))
    (childrenBy : list (Q * list Q)) (memo : list (Q * Q))
    (parentID childID w : Q) : Prop :=
  mapGet Qeq_bool childID memo = Some w \/
  (w = msOf selfBy childID /\ reaches included childrenBy childID parentID).

(** Every recomputed value is the self time of its fiber plus the
    contributions of its children, added in order. *)
Definition recomputed (included : list Q) (selfBy : list (Q * Q))
    (childrenBy : list (Q * list Q)) (memo : list (Q * Q)) : Prop :=
  forall k v, mapGet Qeq_bool k memo = Some v ->
    exists ws,
      Forall2 (contribution included selfBy childrenBy memo k)
        (childrenIn childrenBy k) ws /\
      v = fold_left Qplus ws (msOf selfBy k).


(** Every id of [cs] is in the set [included]. *)
Definition allWithin (included : list Q) (cs : list Q) : Prop :=
  Forall (fun c => setHas Qeq_bool c included = true) cs.




(** The node of a flamegraph with a given fiber id. *)
Definition nodeOf (fg : option FlamegraphResult) (f : Q)
  : option FlamegraphNode :=
  match fg with
  | Some r => find (fun n => Qeq_bool (fiberId n) f) (flameNodes r)
  | None => None
  end.




(** A locale comparison that ties all names. *)
Definition tieAll (a b : Name) : Q := 0.

(** The decimal digits of a natural number, most significant first. *)
Fixpoint digitsOf (fuel : nat) (n : Z) (acc : jsstring) : jsstring :=
  match fuel with
  | O => acc
  | S fuel' =>
      let acc' := (48 + n mod 10)%Z :: acc in
      if (n <? 10)%Z then acc' else digitsOf fuel' (n / 10)%Z acc'
  end.

(** [String(n)] for an integer [n], the conversion that the examples use
    for fiber ids; a number that is not an integer is cut to one. *)
Definition decimalString (q : Q) : jsstring :=
  let n := Qfloor q in
  let digits := digitsOf (S (Z.to_nat (Z.log2 (Z.abs n)))) (Z.abs n) [] in
  if (n <? 0)%Z then 45%Z :: digits else digits.

Definition snapshotNode (name0 : option jsstring) (c : list Q)
    (ty : Q) : SnapshotNode :=
  {| snDisplayName := name0; snHocDisplayNames := None;
     snChildren := Some c; snKey := None; snType := Some ty;
     snCompiledWithForget := false |}.

Definition commitWith (self actual : list (Entry Q)) : Commit :=
  {| duration := None; actualDuration := None; commitDuration := None;
     timestamp := None; commitTime := None; startTime := None;
     fiberActualDurations := actual; fiberSelfDurations := self;
     changeDescriptions := [] |}.


(** An operations record with the string table [A], [B], [C] that adds the
    root 1 and the children 2, 3 and 4 named after the three strings. *)
Definition threeChildrenRecord : list Q :=
  [1; 1; 6; 1; 65; 1; 66; 1; 67;
   1; 1; 11; 0; 0; 0; 0;
   1; 2; 5; 1; 0; 1; 0; 0;
   1; 3; 5; 1; 0; 2; 0; 0;
   1; 4; 5; 1; 0; 3; 0; 0].

(** One render pass over that record, with self times [{2: 5, 3: 0}] and
    actual durations [{2: 5, 3: 7}]. *)
Definition threeChildrenExport : list Root :=
  [ {| rootDisplayName := None; exportRootID := Some 1; snapshots := [];
       initialTreeBaseDurations := [];
       operations := [Some threeChildrenRecord];
       commitData :=
         [Some (commitWith [PairEntry 2 5; PairEntry 3 0]
                           [PairEntry 2 5; PairEntry 3 7])] |} ].

(** A root 1 with the children 2 and 3: the display name of fiber 2 spells
    [root::Fiber#3], the fallback name of fiber 3, which has no name of
    its own.  One commit reports self time for both. *)
Definition sharedNameExport : list Root :=
  [ {| rootDisplayName := None; exportRootID := Some 1;
       snapshots :=
         [(1, snapshotNode None [2; 3] 11);
          (2, snapshotNode (Some (rootLiteral ++ fiberMark ++ [51%Z])) [] 5);
          (3, snapshotNode None [] 5)];
       initialTreeBaseDurations := [];
       operations := [];
       commitData :=
         [Some (commitWith [PairEntry 2 5; PairEntry 3 4] [])] |} ].



(** The chain 1 > 2 > 3 with the self times 1, 2 and 4. *)
Definition chainTree : Tree :=
  {| rootID := 1;
     nodes := [(1, plainNode 1 0 [2]); (2, plainNode 2 1 [3]);
               (3, plainNode 3 2 [])] |}.

Definition chainMaps : CommitMaps :=
  {| actualByFiber := []; selfByFiber := [(1, 1); (2, 2); (3, 4)];
     reasonsByFiber := [] |}.

(** The same chain, damaged: fiber 3 lists its parent 2 as a child. *)
Definition loopTree : Tree :=
  {| rootID := 1;
     nodes := [(1, plainNode 1 0 [2]); (2, plainNode 2 1 [3]);
               (3, plainNode 3 2 [2])] |}.

(** The pair encoding [[k1, v1], [k2, v2], ...] of a list of pairs. *)
Definition pairEntries (pairs : list (Q * Q)) : list (Entry Q) :=
  map (fun kv => PairEntry (fst kv) (snd kv)) pairs.

(** A commit without self durations whose actual durations are the pair
    [[2, 5]]. *)
Definition actualOnlyCommit : Commit := commitWith [] [PairEntry 2 5].

(** The same durations in the flat encoding [2, 5]. *)
Definition actualOnlyFlatCommit : Commit :=
  commitWith [] [NumberEntry 2; NumberEntry 5].
End FlamegraphStatements.

End Statements.
Import Statements.

(** ** Predicates of the further properties *)

Module Further.
Import JS Coll.

Section StringTableStatements.
Import CommitTree.

(** A Unicode scalar value: a code point that is not a surrogate. *)
Definition scalarValue (c : Z) : Prop :=
  (0 <= c <= 1114111)%Z /\ ~ (55296 <= c <= 57343)%Z.

Definition isHighSurrogate (u : Z) : bool :=
  Z.leb 55296 u && Z.leb u 56319.

Definition isLowSurrogate (u : Z) : bool :=
  Z.leb 56320 u && Z.leb u 57343.

(** The code points of a string, as the string iterator reads them: a high
    surrogate followed by a low surrogate is one code point. *)
Fixpoint codePointsOf (s : jsstring) : list Z :=
  match s with
  | [] => []
  | hi :: rest =>
      if isHighSurrogate hi then
        match rest with
        | lo :: rest' =>
            if isLowSurrogate lo
            then (65536 + (hi - 55296) * 1024 + (lo - 56320))%Z
                 :: codePointsOf rest'
            else hi :: codePointsOf rest
        | [] => [hi]
        end
      else hi :: codePointsOf rest
  end.

(** A string of the string table: its length, then its code points. *)
Definition encodeString (cps : list Z) : list Q :=
  inject_Z (Z.of_nat (length cps)) :: map inject_Z cps.

(** The string table of an operations record. *)
Definition encodeTable (strs : list (list Z)) : list Q :=
  concat (map encodeString strs).

(** The string that a string id denotes: [0] is [null], [k] is the [k]-th
    string of the table. *)
Definition stringOf (strs : list (list Z)) (k : nat) : option (list Z) :=
  match k with
  | O => None
  | S j => nth_error strs j
  end.

(** An integer in [0, 0x10FFFF]. *)
Definition codePoint (q : Q) : Prop :=
  exists z, q == inject_Z z /\ (0 <= z <= 1114111)%Z.

(** The operation codes whose case only moves the cursor. *)
Definition ignoredOperations : list Q :=
  [ TREE_OPERATION_SET_SUBTREE_MODE;
    TREE_OPERATION_UPDATE_ERRORS_OR_WARNINGS;
    SUSPENSE_TREE_OPERATION_ADD; SUSPENSE_TREE_OPERATION_REMOVE;
    SUSPENSE_TREE_OPERATION_REORDER_CHILDREN; SUSPENSE_TREE_OPERATION_RESIZE;
    SUSPENSE_TREE_OPERATION_SUSPENDERS;
    TREE_OPERATION_APPLIED_ACTIVITY_SLICE_CHANGE ].

(** The record holds, at some index, the add of a root with the id [r]. *)
Definition rootAddIn (operations : list Q) (r : Q) : Prop :=
  exists i,
    nseq (opAt operations (Fin i)) (Fin TREE_OPERATION_ADD) = true /\
    opAt operations (Fin (i + 1)) = Fin r /\
    nseq (opAt operations (Fin (i + 2))) (Fin ELEMENT_TYPE_ROOT) = true.

(** The ids that the loop
    [for (k = 0; k < count && i < operations.length; k++)] reads from the
    index [i] on: the finite elements, in order. *)
Fixpoint idsRead (operations : list Q) (count : nat) (i : Q) : list Q :=
  match count with
  | O => []
  | S count' =>
      if Qlt_bool i (inject_Z (Z.of_nat (length operations))) then
        match opAt operations (Fin i) with
        | Fin x => x :: idsRead operations count' (i + 1)
        | NaN => idsRead operations count' (i + 1)
        end
      else []
  end.

(** A root 1 with the children 2 and 3; 4 is the child of 2. *)
Definition smallTree : Tree :=
  {| rootID := 1;
     nodes := [(1, plainNode 1 0 [2; 3]); (2, plainNode 2 1 [4]);
               (3, plainNode 3 1 []); (4, plainNode 4 2 [])] |}.

(** [RemoveNodes([2])], [ReorderChildren(1, [3, 2])] and
    [AddNode(4, parent 3)], each at index 3 of a record with an empty
    string table. *)
Definition removeRecord : list Q := [1; 1; 0; 2; 1; 2].
Definition reorderRecord : list Q := [1; 1; 0; 3; 1; 2; 3; 2].
Definition moveRecord : list Q := [1; 1; 0; 1; 4; 5; 3; 0; 0; 0; 0].

(** A record with the string table [A] and one skipped operation. *)
Definition recordWithString : list Q := [1; 1; 2; 1; 65; 13; 0].

End StringTableStatements.

Section FlamegraphStructure.
Import CommitTree Flamegraph.

(** No number occurs twice in a list. *)
Definition atMostOnce (l : list Q) : Prop :=
  forall x, (length (filter (Qeq_bool x) l) <= 1)%nat.

(** The flamegraph has a node for the fiber [f]. *)
Definition hasNode (fg : FlamegraphResult) (f : Q) : Prop :=
  exists n, In n (flameNodes fg) /\ fiberId n == f.

(** The order of [nodes]: by depth, then by fiber id. *)
Definition depthThenId (a b : FlamegraphNode) : Prop :=
  (depth a < depth b)%nat \/ (depth a = depth b /\ fiberId a <= fiberId b).

(** [parentByFiberID] and [childrenByFiberID] for a set of included
    fibers. *)
Definition parentTable (t : Tree) (included : list Q) : list (Q * Q) :=
  fst (linkParents (nodes t) (rootFiberIdOf t) included
         (mapOfPairs Qeq_bool (map (fun f => (f, @nil Q)) included))).

Definition childrenTable (t : Tree) (included : list Q)
  : list (Q * list Q) :=
  orderChildren (nodes t) included
    (snd (linkParents (nodes t) (rootFiberIdOf t) included
            (mapOfPairs Qeq_bool (map (fun f => (f, @nil Q)) included)))).

(** The fiber has an entry in one of the three maps of the commit. *)
Definition reported (maps : CommitMaps) (f : Q) : bool :=
  mapHas Qeq_bool f (actualByFiber maps)
  || mapHas Qeq_bool f (selfByFiber maps)
  || mapHas Qeq_bool f (reasonsByFiber maps).

(** Self time for the fibers 4 and 3 of [smallTree]. *)
Definition smallMaps : CommitMaps :=
  {| actualByFiber := [(4, 2)]; selfByFiber := [(4, 2); (3, 1)];
     reasonsByFiber := [] |}.

(** The flamegraph of [smallTree] for these maps. *)
Definition smallFlamegraph : option FlamegraphResult :=
  buildCommitFlamegraph tieAll smallTree Analyze.rootLiteral [] smallMaps.

(** The order of [renderedComponents]: by subtree time, descending. *)
Definition bySubtreeDescending (a b : RenderedComponent) : Prop :=
  rcSubtreeMs b <= rcSubtreeMs a.

End FlamegraphStructure.

Section AnalysisStatements.
Import CommitTree Flamegraph Analyze.

(** The flat encoding [k1, v1, k2, v2, ...] of a list of pairs. *)
Definition flatEntries (pairs : list (Q * Q)) : list (Entry Q) :=
  concat (map (fun kv => [NumberEntry (fst kv); NumberEntry (snd kv)])
            pairs).



(** The rendered components of the commits of a report, in the order in
    which the analysis samples them. *)
Definition samplesOf (entries : list CommitEntry)
  : list RenderedComponent :=
  flat_map (fun ce => renderedComponents (ceFlamegraph ce)) entries.





(** A root 1 with [n] children, the fibers 2 to [n + 1]: the child [i] is
    named by the one code unit [64 + i], and one commit reports [i] ms of
    self time for it. *)
Definition manyNamesExport (n : nat) : list Root :=
  let ids := map Z.of_nat (seq 2 n) in
  [ {| rootDisplayName := None; exportRootID := Some 1;
       snapshots :=
         (1, snapshotNode None (map inject_Z ids) 11)
         :: map (fun i => (inject_Z i,
                           snapshotNode (Some [(64 + i)%Z]) [] 5)) ids;
       initialTreeBaseDurations := [];
       operations := [];
       commitData :=
         [Some (commitWith
                  (map (fun i => PairEntry (inject_Z i) (inject_Z i)) ids)
                  [])] |} ].

(** The name of a hotspot, as a string. *)
Definition hotspotName (numberToString : Q -> jsstring) (h : Hotspot)
  : jsstring :=
  nameString numberToString (hsName h).

(** No name occurs twice in a list, names being compared as strings. *)
Definition namesOnce (numberToString : Q -> jsstring) (names : list Name)
  : Prop :=
  forall x,
    (length (filter (nameEqb numberToString x) names) <= 1)%nat.

End AnalysisStatements.

Section CompareStatements.
Import Compare.

(** The delta that the top lists are ranked by: the duration delta when
    the comparison uses React time, else the count delta. *)
Definition metricOf (c : Comparison) (d : HotspotDiff) : Q :=
  match comparedUsing c with
  | reactTimeMetric => deltaMs d
  | componentTrackEventsMetric => countDelta d
  end.

(** The names of the hotspots of two reports. *)
Definition hotspotNames (before after : Report) : list string :=
  map name (hotspots before) ++ map name (hotspots after).

End CompareStatements.

Section BraceStatements.
Import CommitTree Braces.

(** A code unit that the scanner passes over outside strings and
    comments. *)
Definition plain (c : Z) : Prop :=
  c <> openBrace /\ c <> closeBrace /\ c <> singleQuote /\
  c <> doubleQuote /\ c <> backtick /\ c <> slash.

Definition quote (q : Z) : Prop :=
  q = singleQuote \/ q = doubleQuote \/ q = backtick.

(** The inside of a string literal with the delimiter [q]: any code units,
    the delimiter and the backslash only after a backslash. *)
Inductive StringBody (q : Z) : jsstring -> Prop :=
| SB_nil : StringBody q []
| SB_char (c : Z) (s : jsstring) :
    c <> q -> c <> backslash -> StringBody q s -> StringBody q (c :: s)
| SB_escape (c : Z) (s : jsstring) :
    StringBody q s -> StringBody q (backslash :: c :: s).

(** A text whose braces match, with string literals, line comments and
    block comments; the braces inside literals and comments do not
    count. *)
Inductive Balanced : jsstring -> Prop :=
| B_nil : Balanced []
| B_plain (c : Z) (rest : jsstring) :
    plain c -> Balanced rest -> Balanced (c :: rest)
| B_braces (inner rest : jsstring) :
    Balanced inner -> Balanced rest ->
    Balanced (openBrace :: inner ++ closeBrace :: rest)
| B_string (q : Z) (s rest : jsstring) :
    quote q -> StringBody q s -> Balanced rest ->
    Balanced (q :: s ++ q :: rest)
| B_lineComment (s rest : jsstring) :
    Forall (fun c => c <> newline) s -> Balanced rest ->
    Balanced (slash :: slash :: s ++ newline :: rest)
| B_blockComment (s rest : jsstring) :
    Forall (fun c => c <> star) s -> Balanced rest ->
    Balanced (slash :: star :: s ++ star :: slash :: rest).

(** The scanner outside literals and comments, at a depth. *)
Definition codeAt (d : Z) : Scanner := setDepth d initial.

(** The scanner inside a literal with the delimiter [q]. *)
Definition inString (q : Z) (d : Z) (esc : bool) : Scanner :=
  setEscaped esc
    (if Z.eqb q singleQuote then setInSingle true (codeAt d)
     else if Z.eqb q doubleQuote then setInDouble true (codeAt d)
     else setInTemplate true (codeAt d)).

(** The source [f(){ if (x) { return "}" } // {\n }] and the text between
    its outer braces. *)
Definition sampleBody : jsstring :=
  [32; 105; 102; 32; 40; 120; 41; 32; 123; 32; 114; 101; 116; 117; 114;
   110; 32; 34; 125; 34; 32; 125; 32; 47; 47; 32; 123; 10; 32]%Z.

Definition sampleSource : jsstring :=
  ([102; 40; 41] ++ openBrace :: sampleBody ++ [closeBrace])%Z.

End BraceStatements.

(** *** The cadence detector in binary64 *)

Section CadenceStatements.
Import PrimFloat SpecFloat FloatOps Binary64.

(** The result of a rounding: a zero, an infinity or a finite number of
    the sign [s], never [NaN]. *)
Definition signed (s : bool) (x : spec_float) : Prop :=
  x = S754_zero s \/ x = S754_infinity s \/
  exists m e, x = S754_finite s m e.

(** The same without the zero. *)
Definition signedNonzero (s : bool) (x : spec_float) : Prop :=
  x = S754_infinity s \/ exists m e, x = S754_finite s m e.

(** The value of a finite number as a multiple of [2 ^ ez]. *)
Definition alignedValue (s : bool) (m : positive) (e ez : Z) : Z :=
  cond_Zopp s (Z.pos m * 2 ^ (e - ez)).

(** The place of a number in the order of the numbers, as an integer: a
    finite number counts in units of [2 ^ -1074], the least positive
    number, and the infinities lie beyond all of them. *)
Definition rank (x : spec_float) : Z :=
  match x with
  | S754_zero _ => 0
  | S754_infinity s => cond_Zopp s (2 ^ 2100)
  | S754_nan => 0
  | S754_finite s m e => cond_Zopp s (Z.pos m * 2 ^ (e + 1074))
  end.

(** [n <= x + 1/2 < n + 1]: the integer [n] is the nearest to the number
    [x], the larger of the two on a tie. *)
Definition nearestInteger (x : float) (n : Z) : Prop :=
  (2 * n * 2 ^ 1074 <= 2 * rank (Prim2SF x) + 2 ^ 1074)%Z /\
  (2 * rank (Prim2SF x) + 2 ^ 1074 < 2 * (n + 1) * 2 ^ 1074)%Z.

(** The finite number [x] is the integer [n]. *)
Definition integerValue (x : float) (n : Z) : Prop :=
  isFinite x = true /\ rank (Prim2SF x) = (n * 2 ^ 1074)%Z.

(** A number, that is not [NaN]. *)
Definition number (x : float) : Prop := is_nan x = false.

(** [a <= b] on numbers. *)
Definition le64 (a b : float) : Prop := (a <=? b)%float = true.

(** [m] is the median of the numbers [l]: the middle one in ascending
    order, the mean of the two middle ones when their count is even. *)
Definition medianOf (l : list float) (m : float) : Prop :=
  exists s,
    Permutation l s /\ Sorted le64 s /\
    ((exists k, length s = (2 * k + 1)%nat /\ m = nth k s nan) \/
     (exists k, length s = (2 * k + 2)%nat /\
                m = ((nth k s nan + nth (S k) s nan) / 2)%float)).

(** "within max(40ms, 0.2 x median) of the median": within the larger of
    the two, that is within 40 or within [0.2 * m] of it. *)
Definition withinTolerance (m d : float) : bool :=
  (abs (d - m) <=? 40)%float || (abs (d - m) <=? m * oneFifth)%float.

(** "regularity = fraction of deltas within max(40ms, 0.2 x median) of the
    median". *)
Definition specRegularity (deltas : list float) (m : float) : float :=
  (ofZ (Z.of_nat (length (filter (withinTolerance m) deltas)))
   / ofZ (Z.of_nat (length deltas)))%float.

(** Ten timestamps 1000 ms apart, not in order. *)
Definition tenTicks : list float :=
  [5000; 0; 1000; 9000; 2000; 3000; 8000; 4000; 6000; 7000]%float.

(** The same in ascending order. *)
Definition tenTicksAscending : list float :=
  [0; 1000; 2000; 3000; 4000; 5000; 6000; 7000; 8000; 9000]%float.

End CadenceStatements.

End Further.
Import Further.

(** ** Proof steps shared by the properties *)

(** The small indices of a record, as numbers. *)
Ltac nat_lits :=
  cbn [length];
  change (inject_Z (Z.of_nat 0)) with 0;
  change (inject_Z (Z.of_nat 1)) with 1;
  change (inject_Z (Z.of_nat 2)) with 2;
  change (inject_Z (Z.of_nat 3)) with 3;
  change (inject_Z (Z.of_nat 4)) with 4;
  change (inject_Z (Z.of_nat 5)) with 5;
  change (inject_Z (Z.of_nat 6)) with 6;
  change (inject_Z (Z.of_nat 7)) with 7;
  change (inject_Z (Z.of_nat 8)) with 8.
(** * Properties *)

(** ** Sorting *)

Section SortFacts.
Import JS.
Context {A : Type} (cmp : A -> A -> Q).

Lemma insertSorted_perm (x : A) (l : list A) :
  Permutation (x :: l) (insertSorted cmp x l).
Proof.
  induction l as [|y l IH]; simpl.
  - apply Permutation_refl.
  - destruct (Qle_bool (cmp x y) 0).
    + apply Permutation_refl.
    + eapply perm_trans; [apply perm_swap|].
      now constructor.
Qed.

Lemma jsSort_perm (l : list A) : Permutation l (jsSort cmp l).
Proof.
  induction l as [|x l IH]; simpl.
  - constructor.
  - eapply perm_trans; [|apply insertSorted_perm].
    now constructor.
Qed.

Lemma jsSort_length (l : list A) : length (jsSort cmp l) = length l.
Proof. symmetry. apply Permutation_length, jsSort_perm. Qed.

Hypothesis cmp_total : forall a b, cmp a b <= 0 \/ cmp b a <= 0.

Lemma insertSorted_sorted (x : A) (l : list A) :
  Sorted (before cmp) l -> Sorted (before cmp) (insertSorted cmp x l).
Proof.
  induction l as [|y l IH]; simpl; intros Hs.
  - repeat constructor.
  - destruct (Qle_bool (cmp x y) 0) eqn:E.
    + constructor; [assumption|]. constructor.
      now apply Qle_bool_iff.
    + inversion Hs as [|? ? Hl Hhd]; subst.
      constructor; [now apply IH|].
      assert (Hyx : before cmp y x).
      { destruct (cmp_total x y) as [H|H]; [|exact H].
        apply Qle_bool_iff in H. congruence. }
      destruct l as [|z l']; simpl.
      * now constructor.
      * destruct (Qle_bool (cmp x z) 0); constructor; [exact Hyx|].
        now inversion Hhd.
Qed.

Lemma jsSort_sorted (l : list A) : Sorted (before cmp) (jsSort cmp l).
Proof.
  induction l as [|x l IH]; simpl.
  - constructor.
  - now apply insertSorted_sorted.
Qed.

Lemma jsSort_Forall (P : A -> Prop) (l : list A) :
  Forall P l -> Forall P (jsSort cmp l).
Proof.
  intros H. eapply Permutation_Forall; [apply jsSort_perm|exact H].
Qed.
End SortFacts.

Lemma ascending_total (a b : Q) :
  JS.ascending a b <= 0 \/ JS.ascending b a <= 0.
Proof.
  unfold JS.ascending. destruct (Qlt_le_dec a b); [left|right]; lra.
Qed.

Lemma ascending_before (a b : Q) : before JS.ascending a b <-> a <= b.
Proof. unfold before, JS.ascending. split; intro; lra. Qed.

Lemma jsSort_ascending_sorted (l : list Q) :
  Sorted Qle (JS.jsSort JS.ascending l).
Proof.
  assert (H := jsSort_sorted JS.ascending ascending_total l).
  induction H as [|a l' Hs IH Hhd]; constructor; [assumption|].
  destruct Hhd; constructor. now apply ascending_before.
Qed.

(** ** Cadence detector *)

Section CadenceFacts.
Import JS Cadence.

Lemma consecutiveDeltas_length (l : list Q) :
  length (consecutiveDeltas l) = pred (length l).
Proof.
  induction l as [|a [|b l] IH]; try reflexivity.
  change (consecutiveDeltas (a :: b :: l))
    with ((b - a) :: consecutiveDeltas (b :: l)).
  simpl length in *. now rewrite IH.
Qed.

Lemma round_integer (z : Z) (digits : nat) (q : Q) :
  q == inject_Z z -> round q digits == inject_Z z.
Proof.
  intros Hq. unfold round, mathRound.
  set (f := (10 ^ Z.of_nat digits)%Z).
  assert (Hf : (0 < f)%Z) by (apply Z.pow_pos_nonneg; lia).
  assert (E : Qfloor (q * inject_Z f + (1 # 2)) = (z * f)%Z).
  { rewrite Hq.
    assert (Hlo : inject_Z (z * f) <= inject_Z z * inject_Z f + (1 # 2)).
    { rewrite inject_Z_mult.
      generalize (inject_Z z * inject_Z f). intros p. lra. }
    assert (Hhi : inject_Z z * inject_Z f + (1 # 2) < inject_Z (z * f + 1)).
    { rewrite inject_Z_plus, inject_Z_mult.
      generalize (inject_Z z * inject_Z f). intros p.
      change (inject_Z 1) with 1. lra. }
    apply Qfloor_resp_le in Hlo. rewrite Qfloor_Z in Hlo.
    assert (Hup : (Qfloor (inject_Z z * inject_Z f + (1 # 2)) < z * f + 1)%Z).
    { rewrite Zlt_Qlt. eapply Qle_lt_trans; [apply Qfloor_le|exact Hhi]. }
    lia. }
  rewrite E, inject_Z_mult.
  assert (Hnz : ~ inject_Z f == 0).
  { intro H0. unfold Qeq in H0. simpl in H0. lia. }
  field. exact Hnz.
Qed.

End CadenceFacts.

(** ** Comparator verdict *)

Section CompareFacts.
Import JS Compare.

Lemma Qlt_bool_iff (x y : Q) : Qlt_bool x y = true <-> x < y.
Proof.
  unfold Qlt_bool. rewrite negb_true_iff. split.
  - intros H. apply Qnot_le_lt. intro Hle.
    apply Qle_bool_iff in Hle. congruence.
  - intros H. destruct (Qle_bool y x) eqn:E; [|reflexivity].
    apply Qle_bool_iff in E. lra.
Qed.

Lemma Qlt_bool_asym (x y : Q) : Qlt_bool x y = true -> Qlt_bool y x = false.
Proof.
  intros H. apply Qlt_bool_iff in H.
  destruct (Qlt_bool y x) eqn:E; [|reflexivity].
  apply Qlt_bool_iff in E. lra.
Qed.

Lemma Qlt_bool_eq_false (x y : Q) : x == y -> Qlt_bool x y = false.
Proof.
  intros H. destruct (Qlt_bool x y) eqn:E; [|reflexivity].
  apply Qlt_bool_iff in E. lra.
Qed.

(** The verdict in terms of the four signals the source computes. *)
Lemma verdict_unfold (before after : Report) :
  verdict (compareReports before after) =
    let cb := isTrue (cadenceLikelyIntervalChurn before) in
    let ca := isTrue (cadenceLikelyIntervalChurn after) in
    if primaryDecreased before after && (negb cb || (cb && negb ca))
    then improved
    else if primaryIncreased before after || (negb cb && ca)
    then regressed
    else mixed.
Proof. reflexivity. Qed.

(** Churn flagged in both reports and a lower total: the primary metric
    decreased and churn did not newly appear, yet the verdict is [mixed]. *)
Lemma C2_counterexample_persisting_churn :
  primaryDecreased slowChurning fastChurning = true /\
  churnNewlyAppeared slowChurning fastChurning = false /\
  specVerdict slowChurning fastChurning = improved /\
  verdict (compareReports slowChurning fastChurning) = mixed.
Proof. repeat split. Qed.

(** Churn newly flagged and a lower total: the source answers [improved]
    because [cadenceImproved] holds as soon as the before report is not
    flagged, although [cadenceRegressed] holds as well. *)
Example verdict_faster_with_new_churn :
  primaryDecreased slowQuiet fastChurning = true /\
  churnNewlyAppeared slowQuiet fastChurning = true /\
  specVerdict slowQuiet fastChurning = regressed /\
  verdict (compareReports slowQuiet fastChurning) = improved.
Proof. repeat split. Qed.

(** C2 (amended).  Apart from the case of a lower primary metric together
    with newly flagged churn, the verdict is [improved] exactly when the
    primary metric decreased and the after report is not flagged as churn,
    [regressed] exactly when the primary metric increased or churn newly
    appeared, and [mixed] in every other case; equal primary totals with the
    same churn flag give [mixed]. *)
Theorem C2_verdict (before after : Report) :
  primaryDecreased before after && churnNewlyAppeared before after = false ->
  let v := verdict (compareReports before after) in
  (v = improved <->
     primaryDecreased before after = true /\
     isTrue (cadenceLikelyIntervalChurn after) = false) /\
  (v = regressed <->
     primaryIncreased before after = true \/
     churnNewlyAppeared before after = true) /\
  (v = mixed <->
     ~ (primaryDecreased before after = true /\
        isTrue (cadenceLikelyIntervalChurn after) = false) /\
     ~ (primaryIncreased before after = true \/
        churnNewlyAppeared before after = true)) /\
  (primary before after before == primary before after after ->
   isTrue (cadenceLikelyIntervalChurn before)
   = isTrue (cadenceLikelyIntervalChurn after) ->
   v = mixed).
Proof.
  intros H v. subst v. rewrite verdict_unfold. cbv zeta.
  unfold churnNewlyAppeared in *.
  assert (Hexcl : primaryDecreased before after = true ->
                  primaryIncreased before after = false).
  { unfold primaryDecreased, primaryIncreased. apply Qlt_bool_asym. }
  split; [|split; [|split]].
  - destruct (primaryDecreased before after),
             (isTrue (cadenceLikelyIntervalChurn before)),
             (isTrue (cadenceLikelyIntervalChurn after)),
             (primaryIncreased before after);
      simpl in *; split; intros; try tauto; try discriminate;
      try (destruct H0; discriminate).
  - destruct (primaryDecreased before after) eqn:Ed;
      [rewrite (Hexcl eq_refl)|];
      destruct (isTrue (cadenceLikelyIntervalChurn before)),
               (isTrue (cadenceLikelyIntervalChurn after));
      try destruct (primaryIncreased before after);
      simpl in *; split; intros; try tauto; try discriminate;
      try (destruct H0; discriminate).
  - destruct (primaryDecreased before after) eqn:Ed;
      [rewrite (Hexcl eq_refl)|];
      destruct (isTrue (cadenceLikelyIntervalChurn before)),
               (isTrue (cadenceLikelyIntervalChurn after));
      try destruct (primaryIncreased before after);
      simpl in *; split; intros; try discriminate;
      try (split; intros [? ?]; discriminate);
      try (split; [intros [? ?]|intros [?|?]]; discriminate);
      try (exfalso; intuition congruence); try reflexivity.
  - intros Heq Hc.
    unfold primaryDecreased, primaryIncreased.
    rewrite (Qlt_bool_eq_false _ _ Heq).
    rewrite (Qlt_bool_eq_false _ _ (Qeq_sym _ _ Heq)).
    rewrite Hc.
    now destruct (isTrue (cadenceLikelyIntervalChurn after)).
Qed.

Lemma C2_verdict_witness :
  verdict (compareReports slowChurning slowChurning) = mixed.
Proof.
  apply (C2_verdict slowChurning slowChurning); reflexivity.
Defined.

End CompareFacts.

(** ** Render-cause classifier *)

Section ReasonFacts.
Import Reason.
Open Scope string_scope.

Lemma reasonsOf_selected (cd : ChangeDescription) :
  reasonsOf cd = selectedReasons cd.
Proof.
  unfold reasonsOf, selectedReasons, reasonTable.
  destruct (isFirstMount cd), (nonEmptyArray (props cd)),
    (nonEmptyArray (state cd)), (nonEmptyArray (context cd)),
    (nonEmptyArray (hooks cd)), (didHooksChange cd); reflexivity.
Qed.

(** A first mount that also lists a changed prop is summarized as
    [mount+props], not as [mount]. *)
Lemma C5_counterexample_mount_with_props :
  isFirstMount mountWithProps = true /\
  specSummary mountWithProps = "mount" /\
  summarizeChangeDescription (Some mountWithProps) = Some "mount+props".
Proof. repeat split. Qed.

(** C5 (amended).  The classifier collects, in this order, [mount] when the
    record is a first mount, then [props], [state], [context] and [hooks]
    for each changed-set that is non-empty ([hooks] also when the
    [didHooksChange] flag is set), joins them with [+], and answers
    [unknown] when none applies.  A first-mount record's summary starts with
    [mount] and is exactly [mount] when nothing else applies; a record that
    is not a first mount and has no [didHooksChange] flag is summarized as
    the specification says. *)
Theorem C5_reason_summary (cd : ChangeDescription) :
  summarizeChangeDescription (Some cd)
  = Some (match selectedReasons cd with
          | [] => "unknown"
          | reasons => joinPlus reasons
          end) /\
  (if isFirstMount cd then
     (exists rest, summarizeChangeDescription (Some cd) = Some ("mount" ++ rest)) /\
     (summarizeChangeDescription (Some cd) = Some "mount" <->
      nonEmptyArray (props cd) = false /\ nonEmptyArray (state cd) = false /\
      nonEmptyArray (context cd) = false /\ nonEmptyArray (hooks cd) = false /\
      didHooksChange cd = false)
   else
     if didHooksChange cd then
       exists first, summarizeChangeDescription (Some cd) = Some (first ++ "hooks")
     else summarizeChangeDescription (Some cd) = Some (specSummary cd)).
Proof.
  split.
  - unfold summarizeChangeDescription. rewrite reasonsOf_selected.
    now destruct (selectedReasons cd).
  - unfold summarizeChangeDescription, specSummary.
    rewrite reasonsOf_selected. unfold selectedReasons, reasonTable.
    destruct (isFirstMount cd), (nonEmptyArray (props cd)),
      (nonEmptyArray (state cd)), (nonEmptyArray (context cd)),
      (nonEmptyArray (hooks cd)), (didHooksChange cd); cbn;
      try reflexivity;
      try (split; [eexists; reflexivity|
                   split; [discriminate|intros (?&?&?&?&?); discriminate]]);
      try (split; [exists ""; reflexivity|split; [now repeat split|reflexivity]]);
      try (eexists; reflexivity).
    all: try (exists "props+state+context+"; reflexivity).
    all: try (exists "props+state+"; reflexivity).
    all: try (exists "props+context+"; reflexivity).
    all: try (exists "props+"; reflexivity).
    all: try (exists "state+context+"; reflexivity).
    all: try (exists "state+"; reflexivity).
    all: try (exists "context+"; reflexivity).
    all: try (exists ""; reflexivity).
Qed.

End ReasonFacts.

(** ** Edit-log decoder: progress and termination *)

Section DecoderProgress.
Import JS Coll CommitTree.

Lemma positiveOrZero_nonneg (x : jsnum) : 0 <= positiveOrZero x.
Proof.
  destruct x as [q|]; simpl; [|lra].
  destruct (Qlt_bool 0 q) eqn:E; [|lra].
  apply Qlt_bool_iff in E. lra.
Qed.

Lemma removeLoop_cursor (operations : list Q) (count : nat) :
  forall i m, i <= fst (removeLoop operations count i m).
Proof.
  induction count as [|count IH]; intros i m; simpl; [lra|].
  destruct (Qlt_bool i _); [|simpl; lra].
  destruct (opAt operations (Fin i)) as [id0|].
  - destruct (mapGet Qeq_bool id0 m);
      (eapply Qle_trans; [|apply IH]); lra.
  - eapply Qle_trans; [|apply IH]. lra.
Qed.

Lemma reorderRead_cursor (operations : list Q) (count : nat) :
  forall i acc, i <= fst (reorderRead operations count i acc).
Proof.
  induction count as [|count IH]; intros i acc; simpl; [lra|].
  destruct (Qlt_bool i _); [|simpl; lra].
  destruct (opAt operations (Fin i));
    (eapply Qle_trans; [|apply IH]); lra.
Qed.

Lemma suspendersLoop_cursor (operations : list Q) (count : nat) :
  forall i, i <= suspendersLoop operations count i.
Proof.
  induction count as [|count IH]; intros i; simpl; [lra|].
  destruct (Qlt_bool i _); [|lra].
  eapply Qle_trans; [|apply IH].
  assert (H := positiveOrZero_nonneg
                 (opAt operations (Fin (i + 1 + 1 + 1 + 1)))). lra.
Qed.

Lemma rectsWidth_nonneg (numRects : jsnum) :
  match rectsWidth numRects with Fin w => 0 <= w | NaN => True end.
Proof.
  unfold rectsWidth. destruct (nseq numRects (Fin (-1))); [simpl; lra|].
  destruct numRects as [q|]; simpl; [|exact I].
  assert (H := Q.le_max_l 0 q). lra.
Qed.

Lemma applyAdd_advanced operations table i t ws :
  advanced i (cursor (applyAdd operations table i t ws)).
Proof.
  unfold applyAdd.
  destruct (opAt operations (Fin (i + 1))) as [id0|]; [|simpl; lra].
  destruct (nseq _ _); simpl; lra.
Qed.

Lemma applyRemove_advanced operations i t ws :
  advanced i (cursor (applyRemove operations i t ws)).
Proof.
  unfold applyRemove.
  destruct (opAt operations (Fin (i + 1))) as [len|]; [|simpl; lra].
  destruct (Qlt_bool len 0); [simpl; lra|].
  assert (H := removeLoop_cursor operations (Z.to_nat (Qceiling len))
                 (i + 2) (nodes t)).
  destruct (removeLoop _ _ _ _) as [i' m]. simpl in *. lra.
Qed.

Lemma applyReorder_advanced operations i t ws :
  advanced i (cursor (applyReorder operations i t ws)).
Proof.
  unfold applyReorder.
  destruct (opAt operations (Fin (i + 2))) as [num|]; [|simpl; lra].
  destruct (Qlt_bool num 0); [simpl; lra|].
  assert (H := reorderRead_cursor operations (Z.to_nat (Qceiling num))
                 (i + 3) []).
  destruct (reorderRead _ _ _ _) as [i' c]. simpl in *. lra.
Qed.

Lemma step_advanced operations table i t ws :
  advanced i (cursor (step operations table i t ws)).
Proof.
  unfold step.
  repeat match goal with
         | |- context [if ?b then _ else _] => destruct b
         end;
    try apply applyAdd_advanced;
    try apply applyRemove_advanced;
    try apply applyReorder_advanced;
    try (simpl; lra).
  - assert (H := rectsWidth_nonneg (opAt operations (Fin (i + 5)))).
    destruct (rectsWidth _); simpl in *; [lra|exact I].
  - assert (H := positiveOrZero_nonneg (opAt operations (Fin (i + 1)))).
    simpl. lra.
  - assert (H := positiveOrZero_nonneg (opAt operations (Fin (i + 2)))).
    simpl. lra.
  - assert (H := rectsWidth_nonneg (opAt operations (Fin (i + 2)))).
    destruct (rectsWidth _); simpl in *; [lra|exact I].
  - simpl.
    match goal with
    | |- _ <= suspendersLoop ?o ?c ?j =>
        assert (H := suspendersLoop_cursor o c j)
    end. lra.
Qed.

Lemma inject_nat_succ (n : nat) :
  inject_Z (Z.of_nat (S n)) == inject_Z (Z.of_nat n) + 1.
Proof. rewrite Nat2Z.inj_succ, <- Z.add_1_r, inject_Z_plus. reflexivity. Qed.

Lemma inject_nat_le (n m : nat) :
  (n <= m)%nat -> inject_Z (Z.of_nat n) <= inject_Z (Z.of_nat m).
Proof. intros H. rewrite <- Zle_Qle. lia. Qed.

Lemma mainLoop_returns (operations : list Q) (table : list (option jsstring))
    (n : nat) :
  forall st, within operations n (cursor st) ->
  exists t' ws', forall fuel, (n <= fuel)%nat ->
    mainLoop fuel operations table st = Returned t' ws'.
Proof.
  induction n as [|n IH]; intros [c t ws] Hw;
    unfold within in Hw; cbn [cursor] in Hw.
  - exists t, ws. intros fuel _.
    destruct c as [i|]; [|destruct fuel; reflexivity].
    assert (E : Qlt_bool i (inject_Z (Z.of_nat (length operations))) = false).
    { destruct (Qlt_bool i _) eqn:E; [|reflexivity].
      apply Qlt_bool_iff in E. change (inject_Z (Z.of_nat 0)) with 0 in Hw.
      lra. }
    destruct fuel; simpl; now rewrite E.
  - destruct c as [i|].
    + destruct (Qlt_bool i (inject_Z (Z.of_nat (length operations)))) eqn:E.
      * destruct (IH (step operations table i t ws)) as [t' [ws' H]].
        { assert (Ha := step_advanced operations table i t ws).
          unfold within, advanced in *.
          destruct (cursor (step operations table i t ws)) as [i'|];
            [|exact I].
          rewrite inject_nat_succ in Hw. lra. }
        exists t', ws'. intros fuel Hf.
        destruct fuel as [|fuel]; [lia|]. simpl. rewrite E.
        apply H. lia.
      * exists t, ws. intros fuel _. destruct fuel; simpl; now rewrite E.
    + exists t, ws. intros fuel _. destruct fuel; reflexivity.
Qed.

Lemma readStringTable_no_fuel_end (operations : list Q) (stringTableEnd : Q)
    (n : nat) :
  forall fuel i table,
    stringTableEnd - i <= inject_Z (Z.of_nat n) -> (n <= fuel)%nat ->
    readStringTable fuel operations stringTableEnd i table <> TableOutOfFuel.
Proof.
  induction n as [|n IH]; intros fuel i table Hd Hf.
  - assert (E : Qlt_bool i stringTableEnd = false).
    { destruct (Qlt_bool i stringTableEnd) eqn:E; [|reflexivity].
      apply Qlt_bool_iff in E. change (inject_Z (Z.of_nat 0)) with 0 in Hd.
      lra. }
    destruct fuel; simpl; rewrite E; discriminate.
  - destruct fuel as [|fuel]; [lia|]. simpl.
    destruct (Qlt_bool i stringTableEnd); [|discriminate].
    destruct (opAt operations (Fin i)) as [len|]; [|discriminate].
    destruct (Qlt_bool len 0) eqn:Elen; simpl; [discriminate|].
    destruct (Qlt_bool _ (i + 1 + len)); [discriminate|].
    destruct (decodeStringFromOperations _ _ _); [|discriminate].
    apply IH; [|lia].
    assert (0 <= len).
    { destruct (Qlt_le_dec len 0) as [Hl|Hl]; [|exact Hl].
      apply Qlt_bool_iff in Hl. congruence. }
    rewrite inject_nat_succ in Hd. lra.
Qed.

Lemma readStringTable_cursor (operations : list Q) (stringTableEnd : Q) :
  forall fuel i table i' table',
    readStringTable fuel operations stringTableEnd i table
    = TableRead i' table' -> i <= i'.
Proof.
  induction fuel as [|fuel IH]; intros i table i' table'; simpl.
  - destruct (Qlt_bool i stringTableEnd); [discriminate|].
    intros H. injection H as <- _. lra.
  - destruct (Qlt_bool i stringTableEnd).
    + destruct (opAt operations (Fin i)) as [len|]; [|discriminate].
      destruct (Qlt_bool len 0) eqn:Elen; simpl; [discriminate|].
      destruct (Qlt_bool _ (i + 1 + len)); [discriminate|].
      destruct (decodeStringFromOperations _ _ _); [|discriminate].
      intros H. apply IH in H.
      assert (0 <= len).
      { destruct (Qlt_le_dec len 0) as [Hl|Hl]; [|exact Hl].
        apply Qlt_bool_iff in Hl. congruence. }
      lra.
    + intros H. injection H as <- _. lra.
Qed.

(** The decoder ends, by returning or by the [RangeError] of a string-table
    entry, for every array and every tree. *)
Lemma applyOperations_ends (commitTree : Tree) (operations : list Q)
    (warningSet : list Warning) :
  applyOperationsToCommitTree commitTree operations warningSet = RangeError \/
  exists t' ws',
    applyOperationsToCommitTree commitTree operations warningSet
    = Returned t' ws'.
Proof.
  unfold applyOperationsToCommitTree.
  destruct (Nat.ltb _ 3); [right; eauto|].
  destruct (opAt operations (Fin 2)) as [size|]; [|right; eauto].
  destruct (Qlt_bool size 0) eqn:Esize; [right; eauto|].
  set (len := inject_Z (Z.of_nat (length operations))).
  destruct (readStringTable _ _ _ _ _) as [i table| | |] eqn:Et.
  - right.
    apply readStringTable_cursor in Et.
    destruct (mainLoop_returns operations table (length operations)
                {| cursor := Fin i; tree := commitTree;
                   warnings := warningSet |}) as [t' [ws' H]].
    { simpl. fold len. lra. }
    exists t', ws'. apply H. lia.
  - right; eauto.
  - now left.
  - exfalso. revert Et.
    apply (readStringTable_no_fuel_end operations _ (length operations));
      [|lia].
    fold len. assert (H := Q.le_min_l len (3 + size)). lra.
Qed.

End DecoderProgress.

Section DecoderProperties.
Import JS Coll CommitTree.








(** *** Unknown operation codes *)


Lemma countWarning_absent (w : Warning) (ws : list Warning) :
  setHas warningEqb w ws = false -> countWarning w ws = 0%nat.
Proof.
  unfold countWarning, setHas.
  induction ws as [|x ws IH]; simpl; [reflexivity|].
  destruct (warningEqb w x); simpl; [discriminate|exact IH].
Qed.

Lemma countWarning_app (w : Warning) (a b : list Warning) :
  countWarning w (a ++ b) = (countWarning w a + countWarning w b)%nat.
Proof. unfold countWarning. now rewrite filter_app, length_app. Qed.



Lemma sameValueZero_compat (a b x : jsnum) :
  sameValueZero a b = true -> sameValueZero a x = sameValueZero b x.
Proof.
  destruct a as [p|], b as [q|], x as [r|]; simpl; try discriminate;
    try reflexivity.
  intros H. apply Qeq_bool_iff in H. now rewrite H.
Qed.

Lemma warningEqb_compat (w w' x : Warning) :
  warningEqb w w' = true -> warningEqb w x = warningEqb w' x.
Proof.
  destruct w, w'; simpl; try discriminate; try reflexivity.
  intros H. destruct x; try reflexivity. simpl.
  now apply sameValueZero_compat.
Qed.

Lemma addWarningOnce_deduplicated (ws : list Warning) (w' : Warning) :
  deduplicated ws -> deduplicated (addWarningOnce ws w').
Proof.
  intros Hws w. unfold addWarningOnce, setAdd.
  destruct (setHas warningEqb w' ws) eqn:E; [apply Hws|].
  rewrite countWarning_app. unfold countWarning at 2. simpl.
  destruct (warningEqb w w') eqn:Eww; simpl.
  - assert (H0 : countWarning w ws = 0%nat).
    { unfold countWarning.
      rewrite (filter_ext _ _ (fun x => warningEqb_compat w w' x Eww)).
      apply (countWarning_absent w' ws E). }
    lia.
  - specialize (Hws w). lia.
Qed.

Lemma step_warnings operations table i t ws :
  warnings (step operations table i t ws) = ws \/
  exists w, warnings (step operations table i t ws) = addWarningOnce ws w.
Proof.
  unfold step.
  repeat match goal with
         | |- context [if ?b then _ else _] => destruct b
         end; try (left; reflexivity); try (right; eexists; reflexivity).
  - unfold applyAdd.
    destruct (opAt operations (Fin (i + 1)));
      [|right; eexists; reflexivity].
    destruct (nseq _ _); left; reflexivity.
  - unfold applyRemove.
    destruct (opAt operations (Fin (i + 1))) as [len|];
      [|right; eexists; reflexivity].
    destruct (Qlt_bool len 0); [right; eexists; reflexivity|].
    destruct (removeLoop _ _ _ _). left; reflexivity.
  - unfold applyReorder.
    destruct (opAt operations (Fin (i + 2))) as [num|];
      [|right; eexists; reflexivity].
    destruct (Qlt_bool num 0); [right; eexists; reflexivity|].
    destruct (reorderRead _ _ _ _). left; reflexivity.
Qed.

Lemma mainLoop_deduplicated operations table :
  forall fuel st t' ws',
    mainLoop fuel operations table st = Returned t' ws' ->
    deduplicated (warnings st) -> deduplicated ws'.
Proof.
  induction fuel as [|fuel IH]; intros [c t ws] t' ws'; simpl.
  - destruct c as [i|].
    + destruct (Qlt_bool i _); [discriminate|].
      intros H. injection H as _ <-. auto.
    + intros H. injection H as _ <-. auto.
  - destruct c as [i|].
    + destruct (Qlt_bool i _).
      * intros H Hd. apply (IH _ _ _ H).
        destruct (step_warnings operations table i t ws) as [->|[w ->]];
          [exact Hd|now apply addWarningOnce_deduplicated].
      * intros H. injection H as _ <-. auto.
    + intros H. injection H as _ <-. auto.
Qed.

(** The decoder keeps the warning set free of duplicates. *)
Lemma applyOperations_deduplicated commitTree operations warningSet t' ws' :
  applyOperationsToCommitTree commitTree operations warningSet
  = Returned t' ws' ->
  deduplicated warningSet -> deduplicated ws'.
Proof.
  unfold applyOperationsToCommitTree.
  destruct (Nat.ltb _ 3).
  { intros H. injection H as _ <-. auto. }
  destruct (opAt operations (Fin 2)) as [size|].
  2:{ intros H Hd. injection H as _ <-.
      now apply addWarningOnce_deduplicated. }
  destruct (Qlt_bool size 0).
  { intros H Hd. injection H as _ <-.
    now apply addWarningOnce_deduplicated. }
  destruct (readStringTable _ _ _ _ _) as [i table| | |];
    try discriminate.
  - intros H Hd. exact (mainLoop_deduplicated _ _ _ _ _ _ H Hd).
  - intros H Hd. injection H as _ <-.
    now apply addWarningOnce_deduplicated.
Qed.




End DecoderProperties.

(** ** Tree model: add followed by remove *)

Section TreeFacts.
Import JS Coll CommitTree.

Lemma Qeq_bool_trans_false (x y z : Q) :
  Qeq_bool x y = true -> Qeq_bool y z = false -> Qeq_bool x z = false.
Proof.
  intros Hxy Hyz. destruct (Qeq_bool x z) eqn:E; [|reflexivity].
  apply Qeq_bool_iff in Hxy, E.
  assert (H : y == z) by (rewrite <- Hxy; exact E).
  apply Qeq_bool_iff in H. congruence.
Qed.

Lemma Qeq_bool_proper_r (x y z : Q) :
  y == z -> Qeq_bool x y = Qeq_bool x z.
Proof. intros H. now rewrite H. Qed.

Lemma mapGet_proper {V : Type} (x x' : Q) (m : list (Q * V)) :
  x == x' -> mapGet Qeq_bool x m = mapGet Qeq_bool x' m.
Proof.
  intros H. induction m as [|[e v] m IH]; simpl; [reflexivity|].
  now rewrite (Qeq_bool_proper_r e x x' H), IH.
Qed.

Lemma mapGet_updateNode (x k : Q) (f : Node -> Node) (m : list (Q * Node)) :
  mapGet Qeq_bool x (updateNode k f m)
  = if Qeq_bool x k
    then match mapGet Qeq_bool x m with Some n => Some (f n) | None => None end
    else mapGet Qeq_bool x m.
Proof.
  induction m as [|[e n] m IH]; simpl.
  - now destruct (Qeq_bool x k).
  - destruct (Qeq_bool e k) eqn:Eek; simpl.
    + destruct (Qeq_bool e x) eqn:Eex.
      * assert (E : Qeq_bool x k = true).
        { apply Qeq_bool_iff in Eek, Eex. apply Qeq_bool_iff.
          now rewrite <- Eex. }
        now rewrite E.
      * assert (E : Qeq_bool x k = false).
        { destruct (Qeq_bool x k) eqn:E; [|reflexivity].
          apply Qeq_bool_iff in Eek, E.
          assert (H : e == x) by (rewrite Eek, E; reflexivity).
          apply Qeq_bool_iff in H. congruence. }
        now rewrite E.
    + destruct (Qeq_bool e x) eqn:Eex.
      * now rewrite (Qeq_bool_trans_false x e k
                       (Qeq_bool_sym _ _ Eex) Eek).
      * exact IH.
Qed.

Lemma mapGet_mapSet {V : Type} (x k : Q) (v : V) (m : list (Q * V)) :
  mapGet Qeq_bool x (mapSet Qeq_bool k v m)
  = if Qeq_bool x k then Some v else mapGet Qeq_bool x m.
Proof.
  induction m as [|[e n] m IH]; simpl.
  - now rewrite Qeq_bool_comm.
  - destruct (Qeq_bool e k) eqn:Eek; simpl.
    + destruct (Qeq_bool e x) eqn:Eex.
      * assert (E : Qeq_bool x k = true).
        { apply Qeq_bool_iff in Eek, Eex. apply Qeq_bool_iff.
          now rewrite <- Eex. }
        now rewrite E.
      * assert (E : Qeq_bool x k = false).
        { destruct (Qeq_bool x k) eqn:E; [|reflexivity].
          apply Qeq_bool_iff in Eek, E.
          assert (H : e == x) by (rewrite Eek, E; reflexivity).
          apply Qeq_bool_iff in H. congruence. }
        now rewrite E.
    + destruct (Qeq_bool e x) eqn:Eex.
      * now rewrite (Qeq_bool_trans_false x e k
                       (Qeq_bool_sym _ _ Eex) Eek).
      * exact IH.
Qed.

Lemma mapGet_mapDelete {V : Type} (x k : Q) (m : list (Q * V)) :
  mapGet Qeq_bool x (mapDelete Qeq_bool k m)
  = if Qeq_bool x k then None else mapGet Qeq_bool x m.
Proof.
  unfold mapDelete.
  induction m as [|[e n] m IH]; simpl.
  - now destruct (Qeq_bool x k).
  - destruct (Qeq_bool e k) eqn:Eek; simpl.
    + rewrite IH. destruct (Qeq_bool x k) eqn:Exk; [reflexivity|].
      assert (E : Qeq_bool e x = false).
      { destruct (Qeq_bool e x) eqn:E; [|reflexivity].
        apply Qeq_bool_iff in Eek, E.
        assert (H : x == k) by (rewrite <- E; exact Eek).
        apply Qeq_bool_iff in H. congruence. }
      now rewrite E.
    + destruct (Qeq_bool e x) eqn:Eex.
      * now rewrite (Qeq_bool_trans_false x e k
                       (Qeq_bool_sym _ _ Eex) Eek).
      * exact IH.
Qed.

Lemma withoutChild_idem (x : Q) (c : list Q) :
  withoutChild x (withoutChild x c) = withoutChild x c.
Proof.
  unfold withoutChild. induction c as [|y c IH]; simpl; [reflexivity|].
  destruct (Qeq_bool y x) eqn:E; simpl; [exact IH|].
  now rewrite E, IH.
Qed.

Lemma withoutChild_snoc (x : Q) (c : list Q) :
  withoutChild x (c ++ [x]) = withoutChild x c.
Proof.
  unfold withoutChild. rewrite filter_app. simpl.
  rewrite Qeq_bool_refl. simpl. apply app_nil_r.
Qed.

Lemma withoutChild_proper (x x' : Q) (c : list Q) :
  x == x' -> withoutChild x c = withoutChild x' c.
Proof.
  intros H. unfold withoutChild. apply filter_ext.
  intros y. now rewrite (Qeq_bool_proper_r y x x' H).
Qed.

Lemma withoutChild_absent (x : Q) (c : list Q) :
  setHas Qeq_bool x c = false -> withoutChild x c = c.
Proof.
  unfold setHas, withoutChild.
  induction c as [|y c IH]; simpl; [reflexivity|].
  rewrite orb_false_iff. intros [Hxy Hc].
  rewrite Qeq_bool_comm, Hxy. simpl. now rewrite IH.
Qed.

Lemma withoutChild_present (x : Q) (c : list Q) :
  setHas Qeq_bool x c = true -> withoutChild x c <> c.
Proof.
  unfold setHas, withoutChild. intros H E.
  apply existsb_exists in H. destruct H as [y [Hin Hy]].
  rewrite <- E in Hin. apply filter_In in Hin. destruct Hin as [_ Hn].
  rewrite Qeq_bool_comm, Hy in Hn. discriminate.
Qed.

Lemma Qred_inject_Z (z : Z) : Qred (inject_Z z) = inject_Z z.
Proof.
  unfold Qred, inject_Z.
  generalize (Z.ggcd_gcd z 1) (Z.ggcd_correct_divisors z 1).
  destruct (Z.ggcd z 1) as [g [a b]]. simpl.
  rewrite Z.gcd_1_r. intros -> [Ha Hb].
  rewrite Z.mul_1_l in Ha, Hb. subst. reflexivity.
Qed.

Lemma arrayIndex_spec (q : Q) (n : nat) :
  arrayIndex q = Some n -> q == inject_Z (Z.of_nat n).
Proof.
  unfold arrayIndex.
  destruct (Pos.eqb (Qden (Qred q)) 1) eqn:Ed; [|discriminate].
  destruct (Z.leb 0 (Qnum (Qred q))) eqn:En; [|discriminate].
  simpl. intros H. injection H as <-.
  apply Pos.eqb_eq in Ed. apply Z.leb_le in En.
  rewrite Z2Nat.id by exact En.
  rewrite <- (Qred_correct q) at 1.
  destruct (Qred q) as [a d]. simpl in *. subst d. reflexivity.
Qed.

Lemma arrayIndex_proper (q q' : Q) : q == q' -> arrayIndex q = arrayIndex q'.
Proof. intros H. unfold arrayIndex. now rewrite (Qred_complete _ _ H). Qed.

Lemma opAt_proper (operations : list Q) (q q' : Q) :
  q == q' -> opAt operations (Fin q) = opAt operations (Fin q').
Proof. intros H. unfold opAt. now rewrite (arrayIndex_proper _ _ H). Qed.

Lemma opAt_in_range (operations : list Q) (q v : Q) :
  opAt operations (Fin q) = Fin v ->
  Qlt_bool q (inject_Z (Z.of_nat (length operations))) = true.
Proof.
  unfold opAt. destruct (arrayIndex q) as [n|] eqn:En; [|discriminate].
  destruct (nth_error operations n) eqn:Eth; [|discriminate].
  intros _. apply Qlt_bool_iff.
  rewrite (arrayIndex_spec _ _ En). rewrite <- Zlt_Qlt.
  assert (n < length operations)%nat
    by (apply nth_error_Some; congruence).
  lia.
Qed.

End TreeFacts.

Section AddRemove.
Import JS Coll CommitTree.

(** What [TREE_OPERATION_ADD] of a non-root node leaves under the parent
    and under the new id. *)
Lemma applyAdd_parent operations table i t ws id0 ty parent c0 :
  opAt operations (Fin (i + 1)) = Fin id0 ->
  opAt operations (Fin (i + 2)) = Fin ty ->
  Qeq_bool ty ELEMENT_TYPE_ROOT = false ->
  opAt operations (Fin (i + 3)) = Fin parent ->
  Qeq_bool parent id0 = false ->
  childrenOf parent t = Some c0 ->
  let st := applyAdd operations table i t ws in
  cursor st = Fin (i + 3 + 1 + 1 + 1 + 1 + 1) /\
  warnings st = ws /\
  (exists c1, childrenOf parent (tree st) = Some c1 /\
              withoutChild id0 c1 = withoutChild id0 c0 /\
              setHas Qeq_bool id0 c1 = true) /\
  (exists n, mapGet Qeq_bool id0 (nodes (tree st)) = Some n /\
             parentID n = parent).
Proof.
  intros Hid Hty Hroot Hparent Hne Hc0 st. subst st.
  unfold applyAdd. rewrite Hid, Hty. cbn [nseq]. rewrite Hroot, Hparent.
  cbn [cursor warnings tree nodes getNode].
  split; [reflexivity|]. split; [reflexivity|].
  unfold childrenOf in *. cbn [nodes].
  destruct (mapGet Qeq_bool parent (nodes t)) as [n0|] eqn:Ep0;
    [|discriminate].
  injection Hc0 as Hc0.
  set (nodes1 := match mapGet Qeq_bool id0 (nodes t) with
                 | Some existing => detachFrom (parentID existing) id0 (nodes t)
                 | None => nodes t
                 end).
  assert (H1 : exists n1, mapGet Qeq_bool parent nodes1 = Some n1 /\
                          withoutChild id0 (children n1) = withoutChild id0 c0).
  { unfold nodes1. destruct (mapGet Qeq_bool id0 (nodes t)) as [existing|].
    - unfold detachFrom. rewrite mapGet_updateNode, Ep0.
      destruct (Qeq_bool parent (parentID existing)).
      + eexists. split; [reflexivity|]. simpl.
        now rewrite withoutChild_idem, Hc0.
      + exists n0. now rewrite Hc0.
    - exists n0. now rewrite Hc0. }
  destruct H1 as [n1 [En1 Hw1]]. rewrite En1.
  set (nodes2 := if setHas Qeq_bool id0 (children n1) then nodes1
                 else updateNode parent
                        (fun n => setChildren (children n ++ [id0]) n) nodes1).
  assert (H2 : exists n2, mapGet Qeq_bool parent nodes2 = Some n2 /\
                          withoutChild id0 (children n2) = withoutChild id0 c0 /\
                          setHas Qeq_bool id0 (children n2) = true).
  { unfold nodes2. destruct (setHas Qeq_bool id0 (children n1)) eqn:Ehas.
    - exists n1. now repeat split.
    - rewrite mapGet_updateNode, Qeq_bool_refl, En1.
      eexists. split; [reflexivity|]. simpl.
      rewrite withoutChild_snoc. split; [exact Hw1|].
      unfold setHas. rewrite existsb_app. simpl.
      rewrite Qeq_bool_refl. now rewrite orb_true_r. }
  destruct H2 as [n2 [En2 [Hw2 Hhas2]]].
  split.
  - rewrite mapGet_mapSet, Hne, En2. exists (children n2). now repeat split.
  - rewrite mapGet_mapSet, Qeq_bool_refl. eexists. split; reflexivity.
Qed.

(** What [TREE_OPERATION_REMOVE] of one id leaves under its parent. *)
Lemma applyRemove_single operations i t ws len id1 n parent c1 :
  opAt operations (Fin (i + 1)) = Fin len -> len == 1 ->
  opAt operations (Fin (i + 2)) = Fin id1 ->
  mapGet Qeq_bool id1 (nodes t) = Some n -> parentID n = parent ->
  Qeq_bool parent id1 = false ->
  childrenOf parent t = Some c1 ->
  let st := applyRemove operations i t ws in
  cursor st = Fin (i + 2 + 1) /\
  warnings st = ws /\
  childrenOf parent (tree st) = Some (withoutChild id1 c1) /\
  mapGet Qeq_bool id1 (nodes (tree st)) = None.
Proof.
  intros Hlen Hone Hid Hn Hp Hne Hc1 st. subst st.
  unfold applyRemove. rewrite Hlen.
  assert (E0 : Qlt_bool len 0 = false).
  { destruct (Qlt_bool len 0) eqn:E; [|reflexivity].
    apply Qlt_bool_iff in E. lra. }
  rewrite E0.
  assert (Ec : Z.to_nat (Qceiling len) = 1%nat).
  { rewrite (Qceiling_comp _ _ Hone). reflexivity. }
  rewrite Ec. cbn [removeLoop].
  rewrite (opAt_in_range _ _ _ Hid), Hid, Hn, Hp.
  cbn [cursor warnings tree nodes].
  split; [reflexivity|]. split; [reflexivity|].
  unfold childrenOf in *. cbn [nodes].
  destruct (mapGet Qeq_bool parent (nodes t)) as [n0|] eqn:Ep0;
    [|discriminate].
  injection Hc1 as Hc1.
  rewrite !mapGet_mapDelete, Hne, Qeq_bool_refl.
  unfold detachFrom. rewrite mapGet_updateNode, Qeq_bool_refl, Ep0.
  simpl. now rewrite Hc1.
Qed.

Lemma nseq_other (v a b : Q) :
  ~ a == b -> nseq (Fin v) (Fin a) = true -> nseq (Fin v) (Fin b) = false.
Proof.
  simpl. intros Hab Ha. destruct (Qeq_bool v b) eqn:Eb; [|reflexivity].
  apply Qeq_bool_iff in Ha, Eb. exfalso. apply Hab.
  now rewrite <- Ha, <- Eb.
Qed.

Lemma step_add operations table i t ws :
  nseq (opAt operations (Fin i)) (Fin TREE_OPERATION_ADD) = true ->
  step operations table i t ws = applyAdd operations table i t ws.
Proof. intros H. unfold step. now rewrite H. Qed.

Lemma step_remove operations table i t ws :
  nseq (opAt operations (Fin i)) (Fin TREE_OPERATION_REMOVE) = true ->
  step operations table i t ws = applyRemove operations i t ws.
Proof.
  intros H. unfold step.
  destruct (opAt operations (Fin i)) as [v|]; [|discriminate].
  rewrite (nseq_other v TREE_OPERATION_REMOVE TREE_OPERATION_ADD);
    [now rewrite H|discriminate|exact H].
Qed.

(** Node 2 is already a child of node 1: after the add and the remove the
    children list of node 1 is empty, not [[2]]. *)
Lemma C6_counterexample_already_child :
  childrenOf 1 parentWithChild = Some [2] /\
  exists t' ws',
    applyOperationsToCommitTree parentWithChild addThenRemoveRecord []
    = Returned t' ws' /\
    childrenOf 1 t' = Some [].
Proof.
  split; [reflexivity|]. eexists. eexists. split; reflexivity.
Qed.

(** C6 (amended).  An [AddNode] of [id] under a parent that is in the tree
    and is not [id] itself, followed at once by a [RemoveNodes] of that id,
    leaves the parent with its former children list without [id]: the list
    is restored exactly when [id] was not in it before the add, and has lost
    [id] when it was. *)
Theorem C6_add_then_remove operations table i t ws id0 ty parent len id1 c0 :
  nseq (opAt operations (Fin i)) (Fin TREE_OPERATION_ADD) = true ->
  opAt operations (Fin (i + 1)) = Fin id0 ->
  opAt operations (Fin (i + 2)) = Fin ty ->
  Qeq_bool ty ELEMENT_TYPE_ROOT = false ->
  opAt operations (Fin (i + 3)) = Fin parent ->
  nseq (opAt operations (Fin (i + 8))) (Fin TREE_OPERATION_REMOVE) = true ->
  opAt operations (Fin (i + 9)) = Fin len -> len == 1 ->
  opAt operations (Fin (i + 10)) = Fin id1 -> id1 == id0 ->
  Qeq_bool parent id0 = false ->
  childrenOf parent t = Some c0 ->
  exists i1 i2,
    let st1 := step operations table i t ws in
    let st2 := step operations table i1 (tree st1) (warnings st1) in
    cursor st1 = Fin i1 /\ i1 == i + 8 /\
    cursor st2 = Fin i2 /\ i2 == i + 11 /\
    warnings st2 = ws /\
    getNode (Fin id0) (nodes (tree st2)) = None /\
    childrenOf parent (tree st2) = Some (withoutChild id0 c0) /\
    (if setHas Qeq_bool id0 c0
     then childrenOf parent (tree st2) <> Some c0
     else childrenOf parent (tree st2) = Some c0).
Proof.
  intros Hadd Hid Hty Hroot Hparent Hrem Hlen Hone Hid1 Heq Hne Hc0.
  destruct (applyAdd_parent operations table i t ws id0 ty parent c0
              Hid Hty Hroot Hparent Hne Hc0)
    as (Hcur1 & Hws1 & (c1 & Hc1 & Hw1 & _) & (n & Hn & Hpn)).
  rewrite <- (step_add _ _ _ _ _ Hadd) in Hcur1, Hws1, Hc1, Hn.
  set (i1 := i + 3 + 1 + 1 + 1 + 1 + 1) in *.
  assert (Ei1 : i1 == i + 8) by (unfold i1; ring).
  assert (Hne1 : Qeq_bool parent id1 = false)
    by now rewrite (Qeq_bool_proper_r parent id1 id0 Heq).
  assert (Hrem1 : nseq (opAt operations (Fin i1)) (Fin TREE_OPERATION_REMOVE)
                  = true) by now rewrite (opAt_proper _ _ _ Ei1).
  assert (Hlen1 : opAt operations (Fin (i1 + 1)) = Fin len).
  { rewrite <- Hlen. apply opAt_proper. rewrite Ei1. ring. }
  assert (Hid1' : opAt operations (Fin (i1 + 2)) = Fin id1).
  { rewrite <- Hid1. apply opAt_proper. rewrite Ei1. ring. }
  set (st1 := step operations table i t ws) in *.
  rewrite (mapGet_proper id0 id1) in Hn by now symmetry.
  destruct (applyRemove_single operations i1 (tree st1) (warnings st1)
              len id1 n parent c1 Hlen1 Hone Hid1' Hn Hpn Hne1 Hc1)
    as (Hcur2 & Hws2 & Hc2 & Hgone).
  rewrite <- (step_remove _ table _ _ _ Hrem1) in Hcur2, Hws2, Hc2, Hgone.
  exists i1, (i1 + 2 + 1). cbv zeta. fold st1.
  split; [exact Hcur1|]. split; [exact Ei1|].
  split; [exact Hcur2|]. split; [rewrite Ei1; ring|].
  split; [now rewrite Hws2|].
  split; [cbn [getNode]; now rewrite (mapGet_proper id0 id1) by now symmetry|].
  assert (Hfinal : childrenOf parent
                     (tree (step operations table i1 (tree st1) (warnings st1)))
                   = Some (withoutChild id0 c0)).
  { rewrite Hc2, (withoutChild_proper id1 id0 c1 Heq). now rewrite Hw1. }
  split; [exact Hfinal|].
  rewrite Hfinal.
  destruct (setHas Qeq_bool id0 c0) eqn:Ehas.
  - intros E. injection E as E. now apply withoutChild_present in E.
  - now rewrite withoutChild_absent.
Qed.

Lemma C6_add_then_remove_witness :
  exists i1 i2,
    let st1 := step addThenRemoveRecord [None] 3 parentAlone [] in
    let st2 :=
      step addThenRemoveRecord [None] i1 (tree st1) (warnings st1) in
    cursor st1 = Fin i1 /\ i1 == 3 + 8 /\
    cursor st2 = Fin i2 /\ i2 == 3 + 11 /\
    warnings st2 = [] /\
    getNode (Fin 2) (nodes (tree st2)) = None /\
    childrenOf 1 (tree st2) = Some [] /\
    childrenOf 1 (tree st2) = Some [].
Proof.
  apply (C6_add_then_remove addThenRemoveRecord [None] 3 parentAlone []
           2 5 1 1 2 []); reflexivity.
Defined.

End AddRemove.

(** ** Commit flamegraph: the loops end *)

Section FlamegraphTotal.
Import JS Coll CommitTree Flamegraph.

Lemma filter_length_mono {A : Type} (f g : A -> bool) (l : list A) :
  (forall x, g x = true -> f x = true) ->
  (length (filter g l) <= length (filter f l))%nat.
Proof.
  intros Himp. induction l as [|x l IH]; simpl; [lia|].
  destruct (g x) eqn:Eg.
  - rewrite (Himp x Eg). simpl. lia.
  - destruct (f x); simpl; lia.
Qed.

Lemma filter_length_lt {A : Type} (f g : A -> bool) (l : list A) (x : A) :
  (forall y, g y = true -> f y = true) ->
  In x l -> f x = true -> g x = false ->
  (length (filter g l) < length (filter f l))%nat.
Proof.
  intros Himp Hin Hf Hg. induction l as [|y l IH]; [contradiction|].
  simpl. destruct Hin as [->|Hin].
  - rewrite Hf, Hg. simpl.
    assert (H := filter_length_mono f g l Himp). lia.
  - specialize (IH Hin). destruct (g y) eqn:Eg.
    + rewrite (Himp y Eg). simpl. lia.
    + destruct (f y); simpl; lia.
Qed.

Lemma mapGet_in {V : Type} (k : Q) (m : list (Q * V)) (v : V) :
  mapGet Qeq_bool k m = Some v ->
  exists e, In (e, v) m /\ Qeq_bool e k = true.
Proof.
  induction m as [|[e w] m IH]; simpl; [discriminate|].
  destruct (Qeq_bool e k) eqn:E.
  - intros H. injection H as ->. exists e. auto.
  - intros H. destruct (IH H) as [e' [Hin He]]. exists e'. auto.
Qed.

Lemma setHas_proper (x y : Q) (s : list Q) :
  Qeq_bool x y = true -> setHas Qeq_bool x s = setHas Qeq_bool y s.
Proof.
  intros H. apply Qeq_bool_iff in H. unfold setHas.
  induction s as [|z s IH]; simpl; [reflexivity|].
  now rewrite IH, H.
Qed.

Lemma setHas_setAdd (x y : Q) (s : list Q) :
  setHas Qeq_bool x (setAdd Qeq_bool y s)
  = setHas Qeq_bool x s || Qeq_bool x y.
Proof.
  unfold setAdd. destruct (setHas Qeq_bool y s) eqn:E.
  - destruct (Qeq_bool x y) eqn:Exy; [|now rewrite orb_false_r].
    now rewrite (setHas_proper x y s Exy), E.
  - unfold setHas. rewrite existsb_app. simpl. now rewrite orb_false_r.
Qed.

Lemma unseen_le {V : Type} (seen : list Q) (m : list (Q * V)) :
  (unseen seen m <= length m)%nat.
Proof. unfold unseen. apply filter_length_le. Qed.

Lemma unseen_add {V : Type} (p : Q) (seen : list Q) (m : list (Q * V)) (v : V) :
  mapGet Qeq_bool p m = Some v -> setHas Qeq_bool p seen = false ->
  forall seen', (forall x, setHas Qeq_bool x seen'
                           = setHas Qeq_bool x seen || Qeq_bool x p) ->
  (unseen seen' m < unseen seen m)%nat.
Proof.
  intros Hget Hnot seen' Hseen'.
  destruct (mapGet_in p m v Hget) as [e [Hin He]].
  unfold unseen. apply (filter_length_lt _ _ m (e, v)).
  - intros [y w]. simpl. rewrite Hseen'.
    destruct (setHas Qeq_bool y seen); simpl; [discriminate|reflexivity].
  - exact Hin.
  - simpl. now rewrite (setHas_proper e p seen He), Hnot.
  - simpl. now rewrite Hseen', He, orb_true_r.
Qed.

Lemma ancestorsLoop_total (nodesByID : list (Q * Node)) :
  forall fuel cursor0 seen included,
    (unseen seen nodesByID + 2 <= fuel)%nat ->
    exists r, ancestorsLoop fuel nodesByID cursor0 seen included = Some r.
Proof.
  induction fuel as [|fuel IH]; intros cursor0 seen included Hf; [lia|].
  simpl. destruct (mapGet Qeq_bool cursor0 nodesByID) as [node|];
    [|eauto].
  destruct (Qeq_bool (parentID node) 0); simpl; [eauto|].
  destruct (setHas Qeq_bool (parentID node) seen) eqn:Eseen; [eauto|].
  destruct (mapGet Qeq_bool (parentID node) nodesByID) as [pnode|] eqn:Ep.
  - apply IH.
    assert (H := unseen_add (parentID node) seen nodesByID pnode Ep Eseen
                   (setAdd Qeq_bool (parentID node) seen)
                   (fun x => setHas_setAdd x (parentID node) seen)).
    lia.
  - destruct fuel as [|fuel']; [lia|]. simpl. rewrite Ep. eauto.
Qed.

Lemma includeRendered_total (nodesByID : list (Q * Node)) :
  forall renderedFibers included,
    exists r, includeRendered nodesByID renderedFibers included = Some r.
Proof.
  induction renderedFibers as [|f rest IH]; intros included;
    [simpl; eauto|].
  destruct (ancestorsLoop_total nodesByID (S (S (length nodesByID))) f [f]
              (setAdd Qeq_bool f included)) as [r Hr].
  { assert (H := unseen_le [f] nodesByID). lia. }
  cbn [includeRendered]. rewrite Hr. apply IH.
Qed.

(** The breadth-first walk. *)

Lemma mapHas_mapSet {V : Type} (x k : Q) (v : V) (m : list (Q * V)) :
  mapHas Qeq_bool x (mapSet Qeq_bool k v m)
  = Qeq_bool x k || mapHas Qeq_bool x m.
Proof.
  unfold mapHas. rewrite mapGet_mapSet.
  now destruct (Qeq_bool x k).
Qed.

Lemma visitChildren_measure (ids : list Q) (parentDepth : nat) :
  forall childIDs queue depthBy,
    incl childIDs ids ->
    let r := visitChildren parentDepth childIDs queue depthBy in
    (length (fst r) + undiscovered (snd r) ids
     <= length queue + undiscovered depthBy ids)%nat.
Proof.
  induction childIDs as [|c rest IH]; intros queue depthBy Hincl; simpl;
    [lia|].
  assert (Hrest : incl rest ids) by (intros x Hx; apply Hincl; now right).
  destruct (mapHas Qeq_bool c depthBy) eqn:Ehas.
  - now apply IH.
  - eapply Nat.le_trans; [apply IH; exact Hrest|].
    rewrite length_app. simpl.
    assert (undiscovered (mapSet Qeq_bool c (S parentDepth) depthBy) ids
            < undiscovered depthBy ids)%nat; [|lia].
    unfold undiscovered. apply (filter_length_lt _ _ ids c).
    + intros y. rewrite mapHas_mapSet.
      destruct (Qeq_bool y c); simpl; [discriminate|auto].
    + apply Hincl. now left.
    + now rewrite Ehas.
    + now rewrite mapHas_mapSet, Qeq_bool_refl.
Qed.

Lemma childrenIn_incl (childrenBy : list (Q * list Q)) (f : Q) :
  incl (childrenIn childrenBy f) (concat (map snd childrenBy)).
Proof.
  unfold childrenIn.
  destruct (mapGet Qeq_bool f childrenBy) as [c|] eqn:E;
    [|intros x []].
  destruct (mapGet_in f childrenBy c E) as [e [Hin _]].
  intros x Hx. apply in_concat. exists c. split; [|exact Hx].
  apply in_map_iff. exists (e, c). auto.
Qed.

Lemma depthLoop_total (childrenBy : list (Q * list Q)) :
  forall fuel queue depthBy,
    (length queue
     + undiscovered depthBy (concat (map snd childrenBy)) <= fuel)%nat ->
    exists r, depthLoop fuel childrenBy queue depthBy = Some r.
Proof.
  induction fuel as [|fuel IH]; intros queue depthBy Hf.
  - destruct queue; simpl in *; [eauto|lia].
  - destruct queue as [|parent queue']; simpl; [eauto|].
    set (d := match mapGet Qeq_bool parent depthBy with
              | Some d => d | None => O end).
    assert (Hm := visitChildren_measure (concat (map snd childrenBy)) d
                    (childrenIn childrenBy parent) queue' depthBy
                    (childrenIn_incl childrenBy parent)).
    destruct (visitChildren d (childrenIn childrenBy parent) queue' depthBy)
      as [queue'' depthBy'].
    simpl in Hm, Hf. apply IH. lia.
Qed.

(** The recomputation of the subtree time. *)

Lemma setHas_cons (x y : Q) (s : list Q) :
  setHas Qeq_bool x (y :: s) = Qeq_bool x y || setHas Qeq_bool x s.
Proof. reflexivity. Qed.

Lemma sumOverChildren_total
    (visit : Q -> list (Q * Q) -> option (Q * list (Q * Q))) :
  (forall c memo, exists r, visit c memo = Some r) ->
  forall cs total memo, exists r, sumOverChildren visit cs total memo = Some r.
Proof.
  intros Hv. induction cs as [|c cs IH]; intros total memo; simpl; [eauto|].
  destruct (Hv c memo) as [[v memo'] E]. rewrite E. apply IH.
Qed.

Lemma computeSubtreeMs_total (selfBy : list (Q * Q))
    (childrenBy : list (Q * list Q)) :
  forall fuel f lineage memo,
    (unseen lineage childrenBy + 1 <= fuel)%nat ->
    exists r,
      computeSubtreeMs fuel selfBy childrenBy f lineage memo = Some r.
Proof.
  induction fuel as [|fuel IH]; intros f lineage memo Hf; [lia|].
  simpl. destruct (mapGet Qeq_bool f memo); [eauto|].
  destruct (setHas Qeq_bool f lineage) eqn:Elin; [eauto|].
  unfold childrenIn.
  destruct (mapGet Qeq_bool f childrenBy) as [cs|] eqn:Ecs.
  - assert (Hlt : (unseen (f :: lineage) childrenBy
                   < unseen lineage childrenBy)%nat).
    { apply (unseen_add f lineage childrenBy cs Ecs Elin).
      intros x. rewrite setHas_cons. apply orb_comm. }
    destruct (sumOverChildren_total
                (fun childID memo0 =>
                   computeSubtreeMs fuel selfBy childrenBy childID
                     (f :: lineage) memo0)) with
      (cs := cs) (total := msOf selfBy f) (memo := memo) as [[t m] E].
    { intros c memo0. apply IH. lia. }
    rewrite E. eauto.
  - simpl. eauto.
Qed.

Lemma computeAll_total (selfBy : list (Q * Q))
    (childrenBy : list (Q * list Q)) :
  forall fiberIds memo,
    exists r, computeAll selfBy childrenBy fiberIds memo = Some r.
Proof.
  induction fiberIds as [|f rest IH]; intros memo; [simpl; eauto|].
  destruct (computeSubtreeMs_total selfBy childrenBy
              (S (length childrenBy)) f [] memo) as [[v memo'] E].
  { assert (H := unseen_le [] childrenBy). lia. }
  cbn [computeAll]. rewrite E. apply IH.
Qed.

(** [buildCommitFlamegraph] never reaches the bound of one of its loops. *)
Lemma buildCommitFlamegraph_total localeCompare commitTree rootName
    fallbackFiberNameMap maps :
  exists fg,
    buildCommitFlamegraph localeCompare commitTree rootName
      fallbackFiberNameMap maps = Some fg.
Proof.
  unfold buildCommitFlamegraph.
  destruct (includeRendered_total (nodes commitTree) (renderedFibersOf maps)
              [rootFiberIdOf commitTree]) as [included ->].
  destruct (linkParents _ _ _ _) as [parentBy children1].
  set (childrenBy := orderChildren (nodes commitTree) included children1).
  destruct (depthLoop_total childrenBy
              (S (length (concat (map snd childrenBy))))
              [rootFiberIdOf commitTree] [(rootFiberIdOf commitTree, O)])
    as [depth0 Hd].
  { simpl.
    assert (H := filter_length_le
                   (fun c => negb (mapHas Qeq_bool c
                                     [(rootFiberIdOf commitTree, O)]))
                   (concat (map snd childrenBy))).
    unfold undiscovered. lia. }
  rewrite Hd.
  destruct (computeAll_total (selfByFiber maps) childrenBy included [])
    as [memo ->].
  eauto.
Qed.

End FlamegraphTotal.

(** ** Commit flamegraph: the recomputed subtree time *)

Section Recomputation.
Import JS Coll CommitTree Flamegraph.
Variable selfBy : list (Q * Q).
Variable childrenBy : list (Q * list Q).








(** *** Recomputed values are at least the self time *)

Hypothesis self_nonneg : forall k, 0 <= msOf selfBy k.




End Recomputation.
Section RecomputationEquation.
Import JS Coll CommitTree Flamegraph.
Variable included : list Q.
Variable selfBy : list (Q * Q).
Variable childrenBy : list (Q * list Q).
Hypothesis children_in :
  forall k, allWithin included (childrenIn childrenBy k).

Local Abbreviation leads := (reaches included childrenBy).
Local Abbreviation adds := (contribution included selfBy childrenBy).
Local Abbreviation sums := (recomputed included selfBy childrenBy).











End RecomputationEquation.

(** ** Commit flamegraph: the reported nodes *)

Section FlamegraphNodes.
Import JS Coll CommitTree Flamegraph.

Lemma round_monotone (x y : Q) (digits : nat) :
  x <= y -> round x digits <= round y digits.
Proof.
  intros Hxy. unfold round, mathRound.
  set (f := (10 ^ Z.of_nat digits)%Z).
  assert (Hf : (0 < f)%Z) by (apply Z.pow_pos_nonneg; lia).
  assert (Hq : 0 < inject_Z f).
  { change 0 with (inject_Z 0). now rewrite <- Zlt_Qlt. }
  assert (Hfl : (Qfloor (x * inject_Z f + (1 # 2))
                 <= Qfloor (y * inject_Z f + (1 # 2)))%Z).
  { apply Qfloor_resp_le.
    assert (x * inject_Z f <= y * inject_Z f)
      by (apply Qmult_le_compat_r; [exact Hxy|apply Qlt_le_weak, Hq]).
    lra. }
  unfold Qdiv. apply Qmult_le_compat_r.
  - now rewrite <- Zle_Qle.
  - apply Qlt_le_weak, Qinv_lt_0_compat, Hq.
Qed.

Lemma round_zero (digits : nat) : round 0 digits == 0.
Proof. apply (round_integer 0). reflexivity. Qed.

Lemma round_nonneg (x : Q) (digits : nat) : 0 <= x -> 0 <= round x digits.
Proof.
  intros H. rewrite <- (round_zero digits). now apply round_monotone.
Qed.


(** *** The children lists stay within the included set *)

(** Every value of a keyed list satisfies [P]. *)
Lemma mapSet_values {V : Type} (P : V -> Prop) (k : Q) (v : V)
    (m : list (Q * V)) :
  Forall (fun kv => P (snd kv)) m -> P v ->
  Forall (fun kv => P (snd kv)) (mapSet Qeq_bool k v m).
Proof.
  intros Hm Hv. induction Hm as [|[e w] m Hw Hm IH]; simpl.
  - now repeat constructor.
  - destruct (Qeq_bool e k); constructor; auto.
Qed.

Lemma mapGet_value {V : Type} (P : V -> Prop) (k : Q) (m : list (Q * V))
    (v : V) :
  Forall (fun kv => P (snd kv)) m -> mapGet Qeq_bool k m = Some v -> P v.
Proof.
  intros Hm Hget. destruct (mapGet_in k m v Hget) as [e [Hin _]].
  rewrite Forall_forall in Hm. exact (Hm (e, v) Hin).
Qed.

Lemma mapOfPairs_values {V : Type} (P : V -> Prop) (pairs : list (Q * V)) :
  Forall (fun kv => P (snd kv)) pairs ->
  Forall (fun kv => P (snd kv)) (mapOfPairs Qeq_bool pairs).
Proof.
  unfold mapOfPairs. intros Hp.
  assert (G : forall acc, Forall (fun kv => P (snd kv)) acc ->
            Forall (fun kv => P (snd kv))
              (fold_left (fun m kv => mapSet Qeq_bool (fst kv) (snd kv) m)
                 pairs acc)).
  { induction Hp as [|kv pairs Hkv Hp IH]; intros acc Hacc; simpl;
      [exact Hacc|].
    apply IH. now apply mapSet_values. }
  apply G. constructor.
Qed.

Lemma setHas_in (x : Q) (s : list Q) : In x s -> setHas Qeq_bool x s = true.
Proof.
  intros H. unfold setHas. apply existsb_exists. exists x.
  split; [exact H|apply Qeq_bool_refl].
Qed.

Lemma linkParents_within nodesByID root included :
  forall l children0,
    incl l included ->
    Forall (fun kv => allWithin included (snd kv)) children0 ->
    Forall (fun kv => allWithin included (snd kv))
      (snd (fold_left
              (fun '(parentBy, childrenBy) fiberId =>
                 let parentFiberId :=
                   parentOf nodesByID root included fiberId in
                 let parentBy' :=
                   mapSet Qeq_bool fiberId parentFiberId parentBy in
                 if Qeq_bool parentFiberId 0 then (parentBy', childrenBy)
                 else
                   let known :=
                     match mapGet Qeq_bool parentFiberId childrenBy with
                     | Some c => c | None => [] end in
                   if setHas Qeq_bool fiberId known
                   then (parentBy', childrenBy)
                   else (parentBy',
                         mapSet Qeq_bool parentFiberId (known ++ [fiberId])
                           childrenBy))
              l (@nil (Q * Q), children0))).
Proof.
  intros l children0 Hl. generalize (@nil (Q * Q)) as parentBy.
  revert children0.
  induction l as [|f l IH]; intros children0 parentBy H0; simpl;
    [exact H0|].
  assert (Hl' : incl l included) by (intros x Hx; apply Hl; now right).
  destruct (Qeq_bool (parentOf nodesByID root included f) 0);
    [now apply IH|].
  match goal with
  | |- context [setHas Qeq_bool f ?k] => set (known := k)
  end.
  destruct (setHas Qeq_bool f known); [now apply IH|].
  apply IH; [exact Hl'|].
  apply mapSet_values; [exact H0|].
  apply Forall_app. split.
  - unfold known.
    destruct (mapGet Qeq_bool _ children0) as [c|] eqn:E; [|constructor].
    exact (mapGet_value (allWithin included) _ _ _ H0 E).
  - constructor; [|constructor]. apply setHas_in, Hl. now left.
Qed.

Lemma orderChildren_within nodesByID included :
  forall l childrenBy,
    Forall (fun kv => allWithin included (snd kv)) childrenBy ->
    Forall (fun kv => allWithin included (snd kv))
      (fold_left
         (fun childrenBy fiberId =>
            match mapGet Qeq_bool fiberId nodesByID with
            | None => childrenBy
            | Some node =>
                let knownChildren :=
                  match mapGet Qeq_bool fiberId childrenBy with
                  | Some c => c | None => [] end in
                let orderedFromTree :=
                  filter (fun childID => setHas Qeq_bool childID included)
                         (children node) in
                let extras :=
                  jsSort ascending
                    (filter (fun childID =>
                               negb (setHas Qeq_bool childID orderedFromTree))
                            knownChildren) in
                mapSet Qeq_bool fiberId (orderedFromTree ++ extras) childrenBy
            end)
         l childrenBy).
Proof.
  induction l as [|f l IH]; intros childrenBy H0; simpl; [exact H0|].
  destruct (mapGet Qeq_bool f nodesByID) as [node|]; [|now apply IH].
  apply IH. apply mapSet_values; [exact H0|].
  apply Forall_app. split.
  - apply Forall_forall. intros c Hc. apply filter_In in Hc. tauto.
  - apply jsSort_Forall. apply Forall_forall. intros c Hc.
    apply filter_In in Hc. destruct Hc as [Hc _].
    destruct (mapGet Qeq_bool f childrenBy) as [known|] eqn:E;
      [|contradiction].
    assert (Hk := mapGet_value (allWithin included) _ _ _ H0 E).
    unfold allWithin in Hk. rewrite Forall_forall in Hk. now apply Hk.
Qed.

Lemma children_within nodesByID root included f :
  allWithin included
    (childrenIn
       (orderChildren nodesByID included
          (snd (linkParents nodesByID root included
                  (mapOfPairs Qeq_bool
                     (map (fun f => (f, @nil Q)) included)))))
       f).
Proof.
  unfold childrenIn.
  destruct (mapGet Qeq_bool f _) as [cs|] eqn:E; [|constructor].
  refine (mapGet_value (allWithin included) _ _ _ _ E).
  apply orderChildren_within. apply linkParents_within.
  - intros x Hx. exact Hx.
  - apply mapOfPairs_values. apply Forall_forall.
    intros kv Hkv. apply in_map_iff in Hkv. destruct Hkv as [x [<- _]].
    constructor.
Qed.

End FlamegraphNodes.
Section FlamegraphProperties.
Import JS Coll CommitTree Flamegraph Analyze.





(** On the chain 1 > 2 > 3 with the self times 1, 2 and 4 the recomputed
    values are 7, 6 and 4: each node adds the recomputed value of its
    child, not the child's self time. *)
Example chain_recomputed_values :
  match buildCommitFlamegraph tieAll chainTree rootLiteral [] chainMaps with
  | Some fg =>
      map (fun n => (fiberId n, childrenFiberIds n, Qred (selfMs n),
                     Qred (computedSubtreeMs n))) (flameNodes fg)
      = [(1, [2], 1, 7); (2, [3], 2, 6); (3, [], 4, 4)]
  | None => False
  end.
Proof. vm_compute. reflexivity. Qed.

(** On the damaged chain fiber 3 lists fiber 2, which is being recomputed
    when fiber 3 is reached: fiber 2 adds its self time alone, so fiber 3
    has 4 + 2, fiber 2 has 2 + 6 and the root 1 + 8. *)
Example loop_recomputed_values :
  match buildCommitFlamegraph tieAll loopTree rootLiteral [] chainMaps with
  | Some fg =>
      map (fun n => (fiberId n, childrenFiberIds n, Qred (selfMs n),
                     Qred (computedSubtreeMs n))) (flameNodes fg)
      = [(1, [2], 1, 9); (2, [3], 2, 8); (3, [2], 4, 6)]
  | None => False
  end.
Proof. vm_compute. reflexivity. Qed.

End FlamegraphProperties.

(** ** Export analysis *)

Section AnalysisFacts.
Import JS Coll CommitTree Flamegraph Analyze.
Variable localeCompare : Name -> Name -> Q.
Variable numberToString : Q -> jsstring.

Lemma addSample_entries ts acc rc :
  commitFlamegraphs (addSample numberToString ts acc rc)
  = commitFlamegraphs acc.
Proof. reflexivity. Qed.





Lemma analyze_report dataForRoots report :
  analyzeReactDevtoolsExport localeCompare numberToString dataForRoots
  = Finished report ->
  exists acc,
    analyzeRoots localeCompare numberToString dataForRoots emptyAcc
    = Finished acc /\
    report = reportOf acc.
Proof.
  unfold analyzeReactDevtoolsExport.
  destruct (analyzeRoots _ _ _ _) as [acc| |]; try discriminate.
  intros H. injection H as <-. eauto.
Qed.


Lemma analyzeCommit_ends rootName fallback ops commitIndex commit
    commitTree acc :
  analyzeCommit localeCompare numberToString rootName fallback ops
    commitIndex commit commitTree acc <> BoundReached.
Proof.
  unfold analyzeCommit.
  destruct ops as [operations0|].
  - destruct (applyOperations_ends commitTree operations0 (warningSet acc))
      as [->|(t' & ws' & ->)]; [discriminate|].
    destruct (buildCommitFlamegraph_total localeCompare t' rootName fallback
                (commitMaps commit)) as [fg ->].
    discriminate.
  - destruct (buildCommitFlamegraph_total localeCompare commitTree rootName
                fallback (commitMaps commit)) as [fg ->].
    discriminate.
Qed.

Lemma analyzeCommits_ends rootName fallback operationsByCommit :
  forall cs commitIndex commitTree acc,
    analyzeCommits localeCompare numberToString rootName fallback
      operationsByCommit commitIndex cs commitTree acc <> BoundReached.
Proof.
  induction cs as [|c rest IH]; intros commitIndex commitTree acc;
    [|destruct c as [commit|]]; cbn [analyzeCommits];
    [discriminate| |apply IH].
  assert (H := analyzeCommit_ends rootName fallback
                 match nth_error operationsByCommit commitIndex with
                 | Some o => o | None => None end
                 commitIndex commit commitTree acc).
  destruct (analyzeCommit _ _ _ _ _ _ _ _ _) as [[t1 acc1]| |];
    [apply IH|discriminate|congruence].
Qed.

(** The analysis of an export produces a report, unless the decoder raises
    the [RangeError] of an invalid code point. *)
Lemma analyze_ends dataForRoots :
  analyzeReactDevtoolsExport localeCompare numberToString dataForRoots
  = Raised \/
  exists report,
    analyzeReactDevtoolsExport localeCompare numberToString dataForRoots
    = Finished report.
Proof.
  unfold analyzeReactDevtoolsExport.
  assert (H : forall roots acc,
            analyzeRoots localeCompare numberToString roots acc
            <> BoundReached).
  { induction roots as [|root rest IH]; intros acc; cbn [analyzeRoots];
      [discriminate|].
    assert (Hc := analyzeCommits_ends (rootNameOf root)
                    (buildFiberNameMap root (rootNameOf root))
                    (operations root) (commitData root) O
                    (buildInitialCommitTree root) acc).
    destruct (analyzeCommits _ _ _ _ _ _ _ _ _) as [acc1| |];
      [apply IH|discriminate|congruence]. }
  specialize (H dataForRoots emptyAcc).
  destruct (analyzeRoots _ _ _ _) as [acc| |];
    [right; eauto|now left|congruence].
Qed.


End AnalysisFacts.

Section AnalysisProperties.
Import JS Coll CommitTree Flamegraph Analyze.




(** The end-to-end scenario: [A] is a hotspot with count 1 and 5 ms, [B]
    with count 1 and 7 ms (its subtree time, the self time being 0), and
    [C], which did not render, is not a hotspot. *)
Example end_to_end_three_children :
  match analyzeReactDevtoolsExport tieAll decimalString threeChildrenExport with
  | Finished report =>
      map (fun h => (hsName h, hsCount h)) (hotspots report)
      = [(DisplayName [66%Z], 1%nat); (DisplayName [65%Z], 1%nat)] /\
      Forall2 (fun h total => hsTotalMs h == total) (hotspots report) [7; 5]
  | _ => False
  end.
Proof. vm_compute. split; [reflexivity|]. repeat constructor. Qed.

(** *** Hotspot ranking *)



Lemma Sorted_weaken {A : Type} (R R' : A -> A -> Prop) (l : list A) :
  (forall a b, R a b -> R' a b) -> Sorted R l -> Sorted R' l.
Proof.
  intros Himp H. induction H as [|a l Hs IH Hhd]; constructor; [exact IH|].
  destruct Hhd; constructor. now apply Himp.
Qed.

(** *** Duration of a render pass *)

(** The first two stages of the chain: the explicit field, then the total
    of the self durations when it is positive. *)
Lemma commitDurationOf_first_stages (commit : Commit) :
  let explicit := pickNumber [duration commit; actualDuration commit;
                              commitDuration commit] in
  let selfTotal :=
    fold_left (fun sum pair => sum + snd pair)
      (normalizePairEntries (fun n => n) (fiberSelfDurations commit)) 0 in
  match explicit with
  | Some d => commitDurationOf commit = Some d
  | None =>
      if Qlt_bool 0 selfTotal
      then commitDurationOf commit = Some selfTotal
      else commitDurationOf commit
           = (if Qlt_bool 0 (sumNumericArray (fiberActualDurations commit))
              then Some (sumNumericArray (fiberActualDurations commit))
              else None)
  end.
Proof.
  cbv zeta. unfold commitDurationOf.
  destruct (pickNumber _); [reflexivity|].
  destruct (Qlt_bool 0 _); reflexivity.
Qed.

Lemma sumNumericArray_pairs (pairs : list (Q * Q)) :
  sumNumericArray (pairEntries pairs) = 0.
Proof.
  unfold sumNumericArray, pairEntries.
  induction pairs as [|kv pairs IH]; simpl; [reflexivity|exact IH].
Qed.

Lemma normalizePairEntries_pairs (pairs : list (Q * Q)) :
  normalizePairEntries (fun n => n) (pairEntries pairs) = pairs.
Proof.
  unfold pairEntries.
  induction pairs as [|[k v] pairs IH]; simpl; [reflexivity|].
  now rewrite IH.
Qed.

(** C7.  A commit without explicit duration and without self durations,
    whose actual durations are the pair [[2, 5]]: they total 5, but the
    third stage adds up only the elements that are numbers, finds none and
    the pass is reported with duration 0.  In the flat encoding [2, 5] the
    same stage adds the fiber id to the duration and reports 7. *)
Theorem C7_actual_durations_not_summed :
  (forall pairs : list (Q * Q),
     normalizePairEntries (fun n => n)
       (fiberActualDurations (commitWith [] (pairEntries pairs))) = pairs /\
     commitDurationOf (commitWith [] (pairEntries pairs)) = None /\
     reportedDurationMs (commitWith [] (pairEntries pairs)) == 0) /\
  fold_left (fun sum pair => sum + snd pair)
    (normalizePairEntries (fun n => n)
       (fiberActualDurations actualOnlyCommit)) 0 == 5 /\
  commitDurationOf actualOnlyCommit = None /\
  reportedDurationMs actualOnlyCommit == 0 /\
  fold_left (fun sum pair => sum + snd pair)
    (normalizePairEntries (fun n => n)
       (fiberActualDurations actualOnlyFlatCommit)) 0 == 5 /\
  reportedDurationMs actualOnlyFlatCommit == 7.
Proof.
  split; [|repeat split].
  intros pairs.
  assert (E : commitDurationOf (commitWith [] (pairEntries pairs)) = None).
  { unfold commitDurationOf. cbn [commitWith duration actualDuration
      commitDuration fiberSelfDurations fiberActualDurations pickNumber
      normalizePairEntries fold_left].
    now rewrite sumNumericArray_pairs. }
  split; [apply normalizePairEntries_pairs|]. split; [exact E|].
  unfold reportedDurationMs. rewrite E. apply round_zero.
Qed.

End AnalysisProperties.

(** ** Edit-log decoder: the string table *)

Section StringTable.
Import JS Coll CommitTree.

Lemma Qlt_bool_ge (x y : Q) : y <= x -> Qlt_bool x y = false.
Proof.
  intros H. destruct (Qlt_bool x y) eqn:E; [|reflexivity].
  apply Qlt_bool_iff in E. lra.
Qed.

Lemma arrayIndex_nat (q : Q) (n : nat) :
  q == inject_Z (Z.of_nat n) -> arrayIndex q = Some n.
Proof.
  intros H. rewrite (arrayIndex_proper _ _ H). unfold arrayIndex.
  rewrite Qred_inject_Z. simpl.
  destruct (Z.leb_spec 0 (Z.of_nat n)); [|lia]. now rewrite Nat2Z.id.
Qed.

Lemma opAt_nth (operations : list Q) (q : Q) (n : nat) :
  q == inject_Z (Z.of_nat n) ->
  opAt operations (Fin q)
  = match nth_error operations n with Some v => Fin v | None => NaN end.
Proof. intros H. unfold opAt. now rewrite (arrayIndex_nat _ _ H). Qed.

Lemma inject_nat_add (n m : nat) :
  inject_Z (Z.of_nat (n + m)) == inject_Z (Z.of_nat n) + inject_Z (Z.of_nat m).
Proof. rewrite Nat2Z.inj_add, inject_Z_plus. reflexivity. Qed.

Lemma opAt_app (pre body : list Q) (q : Q) (j : nat) :
  q == inject_Z (Z.of_nat (length pre)) + inject_Z (Z.of_nat j) ->
  opAt (pre ++ body) (Fin q)
  = match nth_error body j with Some v => Fin v | None => NaN end.
Proof.
  intros H. rewrite (opAt_nth _ _ (length pre + j)).
  - rewrite nth_error_app2 by lia.
    now replace (length pre + j - length pre)%nat with j by lia.
  - now rewrite inject_nat_add.
Qed.

Lemma codePointsOf_single (c : Z) (rest : jsstring) :
  isHighSurrogate c = false ->
  codePointsOf (c :: rest) = c :: codePointsOf rest.
Proof. intros H. cbn [codePointsOf]. now rewrite H. Qed.

Lemma codePointsOf_pair (hi lo : Z) (rest : jsstring) :
  isHighSurrogate hi = true -> isLowSurrogate lo = true ->
  codePointsOf (hi :: lo :: rest)
  = (65536 + (hi - 55296) * 1024 + (lo - 56320))%Z :: codePointsOf rest.
Proof. intros H H'. cbn [codePointsOf]. now rewrite H, H'. Qed.

Lemma fromCodePoint_inject (c : Z) :
  fromCodePoint (inject_Z c)
  = if Z.leb 0 c && Z.leb c 1114111 then
      if Z.leb c 65535 then Some [c]
      else Some [(55296 + Z.shiftr (c - 65536) 10)%Z;
                 (56320 + Z.land (c - 65536) 1023)%Z]
    else None.
Proof. unfold fromCodePoint. now rewrite Qred_inject_Z. Qed.

Lemma fromCodePoint_scalar (c : Z) :
  scalarValue c ->
  exists u, fromCodePoint (inject_Z c) = Some u /\
            forall rest, codePointsOf (u ++ rest) = c :: codePointsOf rest.
Proof.
  intros [Hr Hs]. rewrite fromCodePoint_inject.
  destruct (Z.leb_spec 0 c); [|lia].
  destruct (Z.leb_spec c 1114111); [|lia]. cbn [andb].
  destruct (Z.leb_spec c 65535).
  - eexists. split; [reflexivity|]. intros rest.
    apply codePointsOf_single. unfold isHighSurrogate.
    destruct (Z.leb_spec 55296 c); [|reflexivity].
    destruct (Z.leb_spec c 56319); [lia|reflexivity].
  - eexists. split; [reflexivity|]. intros rest.
    assert (Z.shiftr (c - 65536) 10 = ((c - 65536) / 1024)%Z) as ->.
    { now rewrite Z.shiftr_div_pow2 by lia. }
    assert (Z.land (c - 65536) 1023 = ((c - 65536) mod 1024)%Z) as ->.
    { change 1023%Z with (Z.ones 10). now rewrite Z.land_ones by lia. }
    pose proof (Z.div_mod (c - 65536) 1024 ltac:(lia)) as Hdm.
    pose proof (Z.mod_pos_bound (c - 65536) 1024 ltac:(lia)) as Hm.
    assert (0 <= (c - 65536) / 1024 <= 1023)%Z as Hd.
    { split; [apply Z.div_pos; lia|].
      apply Z.lt_succ_r, Z.div_lt_upper_bound; lia. }
    revert Hdm Hm Hd.
    generalize ((c - 65536) / 1024)%Z, ((c - 65536) mod 1024)%Z.
    intros d m Hdm Hm Hd.
    change ([(55296 + d)%Z; (56320 + m)%Z] ++ rest)
      with ((55296 + d)%Z :: (56320 + m)%Z :: rest).
    rewrite codePointsOf_pair.
    + f_equal. lia.
    + unfold isHighSurrogate. apply andb_true_iff.
      split; apply Z.leb_le; lia.
    + unfold isLowSurrogate. apply andb_true_iff.
      split; apply Z.leb_le; lia.
Qed.

Lemma decodeChars_code_points (pre post : list Q) :
  forall rest done0,
    Forall scalarValue rest ->
    exists s,
      decodeChars (pre ++ map inject_Z (done0 ++ rest) ++ post)
        (inject_Z (Z.of_nat (length pre))) (Z.of_nat (length done0))
        (length rest) = Some s /\
      codePointsOf s = rest.
Proof.
  induction rest as [|c rest IH]; intros done0 Hall.
  - exists []. split; reflexivity.
  - inversion Hall as [|? ? Hc Hrest]; subst.
    destruct (fromCodePoint_scalar c Hc) as (u & Hu & Hcp).
    destruct (IH (done0 ++ [c]) Hrest) as (s & Hs & Es).
    rewrite <- app_assoc in Hs. cbn [app] in Hs.
    rewrite length_app in Hs. cbn [length] in Hs.
    replace (Z.of_nat (length done0 + 1)) with (Z.of_nat (length done0) + 1)%Z
      in Hs by lia.
    exists (u ++ s). split; [|now rewrite Hcp, Es].
    cbn [length decodeChars].
    rewrite (opAt_app pre _ _ (length done0)) by reflexivity.
    rewrite nth_error_app1
      by (rewrite length_map, length_app; simpl; lia).
    rewrite nth_error_map, nth_error_app2 by lia.
    rewrite Nat.sub_diag. cbn [nth_error option_map].
    now rewrite Hu, Hs.
Qed.

Lemma decodeChars_proper (operations : list Q) (start start' : Q) :
  start == start' ->
  forall count k,
    decodeChars operations start k count
    = decodeChars operations start' k count.
Proof.
  intros E. induction count as [|count IH]; intros k; [reflexivity|].
  cbn [decodeChars].
  rewrite (opAt_proper operations (start + inject_Z k) (start' + inject_Z k))
    by (rewrite E; reflexivity).
  now rewrite IH.
Qed.

Lemma decode_code_points_at (pre post : list Q) (cps : list Z) (start : Q) :
  Forall scalarValue cps ->
  start == inject_Z (Z.of_nat (length pre)) ->
  exists s,
    decodeStringFromOperations (pre ++ map inject_Z cps ++ post)
      start (inject_Z (Z.of_nat (length cps))) = Some s /\
    codePointsOf s = cps.
Proof.
  intros Hall E. unfold decodeStringFromOperations.
  destruct cps as [|c cps].
  - exists []. split; reflexivity.
  - destruct (Qle_bool (inject_Z (Z.of_nat (length (c :: cps)))) 0) eqn:E0.
    + apply Qle_bool_iff in E0. unfold Qle in E0. simpl in E0. lia.
    + rewrite Qceiling_Z, Nat2Z.id, (decodeChars_proper _ _ _ E).
      exact (decodeChars_code_points pre post (c :: cps) [] Hall).
Qed.

Lemma encodeTable_length (strs : list (list Z)) :
  (length strs <= length (encodeTable strs))%nat.
Proof.
  induction strs as [|s strs IH]; [apply Nat.le_refl|].
  unfold encodeTable in *. cbn [map concat length].
  rewrite length_app. cbn [encodeString length]. lia.
Qed.

Lemma readStringTable_encoded (post : list Q) (stringTableEnd : Q) :
  forall strs pre fuel i table,
    Forall (Forall scalarValue) strs ->
    i == inject_Z (Z.of_nat (length pre)) ->
    stringTableEnd == i + inject_Z (Z.of_nat (length (encodeTable strs))) ->
    (length strs <= fuel)%nat ->
    exists i' table',
      readStringTable fuel (pre ++ encodeTable strs ++ post)
        stringTableEnd i table
      = TableRead i' (table ++ table') /\
      i' == stringTableEnd /\
      map (option_map codePointsOf) table' = map Some strs.
Proof.
  induction strs as [|s strs IH]; intros pre fuel i table Hall Ei Eend Hfuel.
  - exists i, []. rewrite app_nil_r.
    change (inject_Z (Z.of_nat (length (encodeTable [])))) with 0 in Eend.
    assert (Qlt_bool i stringTableEnd = false) as Hlt.
    { apply Qlt_bool_ge. rewrite Eend. lra. }
    destruct fuel; cbn [readStringTable]; rewrite Hlt.
    + repeat split. rewrite Eend. lra.
    + repeat split. rewrite Eend. lra.
  - inversion Hall as [|? ? Hs Hstrs]; subst.
    destruct fuel as [|fuel]; [simpl in Hfuel; lia|].
    assert (encodeTable (s :: strs)
            = inject_Z (Z.of_nat (length s))
              :: map inject_Z s ++ encodeTable strs) as Eenc by reflexivity.
    assert (0 <= inject_Z (Z.of_nat (length (encodeTable strs)))) as Hpos.
    { change 0 with (inject_Z (Z.of_nat 0)). apply inject_nat_le. lia. }
    assert (0 <= inject_Z (Z.of_nat (length s))) as Hposs.
    { change 0 with (inject_Z (Z.of_nat 0)). apply inject_nat_le. lia. }
    assert (inject_Z (Z.of_nat (length (encodeTable (s :: strs))))
            == 1 + inject_Z (Z.of_nat (length s))
               + inject_Z (Z.of_nat (length (encodeTable strs)))) as Elen.
    { rewrite Eenc. cbn [length]. rewrite length_app, length_map.
      rewrite inject_nat_succ, inject_nat_add. lra. }
    cbn [readStringTable].
    assert (Qlt_bool i stringTableEnd = true) as Hlt.
    { apply Qlt_bool_iff. rewrite Eend, Elen. lra. }
    rewrite Hlt.
    rewrite (opAt_app pre _ i 0) by (rewrite Ei; nat_lits; lra).
    rewrite Eenc. cbn [app nth_error].
    assert (Qlt_bool (inject_Z (Z.of_nat (length s))) 0 = false) as Hneg.
    { apply Qlt_bool_ge. lra. }
    rewrite Hneg.
    assert (Qlt_bool
              (inject_Z (Z.of_nat (length
                 (pre ++ inject_Z (Z.of_nat (length s))
                         :: (map inject_Z s ++ encodeTable strs) ++ post))))
              (i + 1 + inject_Z (Z.of_nat (length s))) = false) as Hfit.
    { apply Qlt_bool_ge.
      rewrite length_app. cbn [length]. rewrite !length_app, length_map.
      rewrite inject_nat_add, inject_nat_succ, !inject_nat_add, Ei.
      assert (0 <= inject_Z (Z.of_nat (length post))) as Hpost.
      { change 0 with (inject_Z (Z.of_nat 0)). apply inject_nat_le. lia. }
      lra. }
    rewrite Hfit. cbn [orb].
    assert (pre ++ inject_Z (Z.of_nat (length s))
                   :: (map inject_Z s ++ encodeTable strs) ++ post
            = (pre ++ [inject_Z (Z.of_nat (length s))])
                ++ map inject_Z s ++ (encodeTable strs ++ post)) as Eops.
    { rewrite <- !app_assoc. reflexivity. }
    rewrite Eops.
    destruct (decode_code_points_at (pre ++ [inject_Z (Z.of_nat (length s))])
                (encodeTable strs ++ post) s (i + 1) Hs) as (d & Hd & Ed).
    { rewrite length_app, inject_nat_add, Ei. nat_lits; lra. }
    rewrite Hd.
    assert ((pre ++ [inject_Z (Z.of_nat (length s))])
              ++ map inject_Z s ++ (encodeTable strs ++ post)
            = (pre ++ encodeString s) ++ encodeTable strs ++ post) as Eops2.
    { unfold encodeString. rewrite <- !app_assoc. reflexivity. }
    rewrite Eops2.
    destruct (IH (pre ++ encodeString s) fuel
                (i + 1 + inject_Z (Z.of_nat (length s)))
                (table ++ [Some d]) Hstrs) as (i' & table' & Hr & Ei' & Et).
    { unfold encodeString. rewrite length_app. cbn [length].
      rewrite length_map, inject_nat_add, inject_nat_succ, Ei. lra. }
    { rewrite Eend, Elen. lra. }
    { simpl in Hfuel. lia. }
    exists i', (Some d :: table'). rewrite Hr, <- app_assoc.
    repeat split; [exact Ei'|]. cbn [map option_map]. now rewrite Ed, Et.
Qed.

Lemma tableAt_decoded (table' : list (option jsstring))
    (strs : list (list Z)) (q : Q) (k : nat) :
  map (option_map codePointsOf) table' = map Some strs ->
  q == inject_Z (Z.of_nat k) ->
  option_map codePointsOf (tableAt (None :: table') (Fin q)) = stringOf strs k.
Proof.
  intros Et Eq. unfold tableAt. rewrite (arrayIndex_nat _ _ Eq).
  destruct k as [|j]; [reflexivity|]. cbn [nth_error stringOf].
  assert (nth_error (map (option_map codePointsOf) table') j
          = nth_error (map Some strs) j) as En by now rewrite Et.
  rewrite !nth_error_map in En.
  destruct (nth_error table' j) as [o|]; destruct (nth_error strs j) as [x|];
    cbn [option_map] in *; try discriminate; [|reflexivity].
  now injection En as En.
Qed.

Lemma applyAdd_names operations table i t ws id0 ty :
  opAt operations (Fin (i + 1)) = Fin id0 ->
  opAt operations (Fin (i + 2)) = Fin ty ->
  Qeq_bool ty ELEMENT_TYPE_ROOT = false ->
  let st := applyAdd operations table i t ws in
  cursor st = Fin (i + 3 + 1 + 1 + 1 + 1 + 1) /\
  warnings st = ws /\
  rootID (tree st) = rootID t /\
  exists n, mapGet Qeq_bool id0 (nodes (tree st)) = Some n /\
            displayName n
            = tableAt table (opAt operations (Fin (i + 3 + 1 + 1))) /\
            key n
            = tableAt table (opAt operations (Fin (i + 3 + 1 + 1 + 1))).
Proof.
  intros Hid Hty Hroot. unfold applyAdd. rewrite Hid, Hty.
  cbn [nseq]. rewrite Hroot. cbn [cursor warnings tree rootID nodes].
  repeat split. eexists. split.
  - rewrite mapGet_mapSet.
    assert (Qeq_bool id0 id0 = true) as -> by (apply Qeq_bool_iff; reflexivity).
    reflexivity.
  - split; reflexivity.
Qed.

(** X1.  [decodeStringFromOperations] reads back the code points that a
    record holds: for Unicode scalar values stored from [startIndex] on, the
    decoded string has exactly these code points, whatever surrounds them in
    the record. *)
Theorem decode_reads_code_points (pre post : list Q) (cps : list Z) :
  Forall scalarValue cps ->
  exists s,
    decodeStringFromOperations (pre ++ map inject_Z cps ++ post)
      (inject_Z (Z.of_nat (length pre))) (inject_Z (Z.of_nat (length cps)))
    = Some s /\
    codePointsOf s = cps.
Proof.
  intros Hall. apply decode_code_points_at; [exact Hall|reflexivity].
Qed.

Lemma decode_reads_code_points_witness :
  exists s,
    decodeStringFromOperations
      ([1; 1; 3] ++ map inject_Z [72; 128512; 105]%Z ++ [])
      (inject_Z (Z.of_nat 3)) (inject_Z (Z.of_nat 3)) = Some s /\
    codePointsOf s = [72; 128512; 105]%Z.
Proof.
  apply (decode_reads_code_points [1; 1; 3] [] [72; 128512; 105]%Z).
  repeat constructor; unfold scalarValue; lia.
Defined.

(** X2.  A record made of a header, a well-formed string table and one
    add of a node that is not a root is decoded without diagnostics, and
    the added node carries the strings that its string ids denote in the
    table: id [k] is the [k]-th string, id [0] and ids past the table are
    [null]. *)
Theorem add_resolves_string_ids (t : Tree) (ws : list Warning)
    (strs : list (list Z)) (r root id0 ty parent owner np : Q)
    (k keyId : nat) :
  Forall (Forall scalarValue) strs ->
  Qeq_bool ty ELEMENT_TYPE_ROOT = false ->
  exists t',
    applyOperationsToCommitTree t
      ([r; root; inject_Z (Z.of_nat (length (encodeTable strs)))]
       ++ encodeTable strs
       ++ [TREE_OPERATION_ADD; id0; ty; parent; owner;
           inject_Z (Z.of_nat k); inject_Z (Z.of_nat keyId); np]) ws
    = Returned t' ws /\
    exists n,
      mapGet Qeq_bool id0 (nodes t') = Some n /\
      option_map codePointsOf (displayName n) = stringOf strs k /\
      option_map codePointsOf (key n) = stringOf strs keyId.
Proof.
  intros Hall Hroot.
  set (size := inject_Z (Z.of_nat (length (encodeTable strs)))).
  set (body := [TREE_OPERATION_ADD; id0; ty; parent; owner;
                inject_Z (Z.of_nat k); inject_Z (Z.of_nat keyId); np]).
  set (ops := [r; root; size] ++ encodeTable strs ++ body).
  assert (length ops = (3 + length (encodeTable strs) + 8)%nat) as Elen.
  { unfold ops. rewrite !length_app. simpl. lia. }
  assert (inject_Z (Z.of_nat (length ops)) == 3 + size + 8) as Elq.
  { rewrite Elen, !inject_nat_add. unfold size. nat_lits; lra. }
  assert (0 <= size) as Hsize.
  { unfold size. change 0 with (inject_Z (Z.of_nat 0)).
    apply inject_nat_le. lia. }
  unfold applyOperationsToCommitTree.
  destruct (Nat.ltb_spec (length ops) 3) as [Hlt|_]; [lia|].
  rewrite (opAt_nth ops 2 2) by reflexivity.
  change (nth_error ops 2) with (Some size). cbv beta iota.
  assert (Qlt_bool size 0 = false) as -> by (apply Qlt_bool_ge; lra).
  destruct (readStringTable_encoded body
              (Qmin (inject_Z (Z.of_nat (length ops))) (3 + size))
              strs [r; root; size] (length ops) 3 [None] Hall)
    as (i' & table' & Hr & Ei' & Et).
  { reflexivity. }
  { fold size. apply Q.min_r. rewrite Elq. lra. }
  { pose proof (encodeTable_length strs). lia. }
  fold ops in Hr. rewrite Hr. cbn [app].
  assert (i' == 3 + size) as Ei.
  { rewrite Ei'. apply Q.min_r. rewrite Elq. lra. }
  assert (forall q j, q == i' + inject_Z (Z.of_nat j) ->
            opAt ops (Fin q)
            = match nth_error body j with
              | Some v => Fin v | None => NaN end) as Hat.
  { intros q j Eq. unfold ops. rewrite app_assoc. apply opAt_app.
    rewrite length_app, inject_nat_add, Eq, Ei. unfold size. nat_lits; lra. }
  assert (2 <= length ops)%nat as Hfuel by lia.
  revert Hfuel. generalize (length ops) at 1 2.
  intros [|[|fuel]] Hfuel; try lia. clear Hfuel.
  cbn [mainLoop cursor tree warnings].
  assert (Qlt_bool i' (inject_Z (Z.of_nat (length ops))) = true) as ->.
  { apply Qlt_bool_iff. rewrite Elq, Ei. lra. }
  rewrite step_add
    by (rewrite (Hat i' O) by (nat_lits; lra); reflexivity).
  destruct (applyAdd_names ops (None :: table') i' t ws id0 ty)
    as (Hc & Hw & _ & n & Hn & Hdn & Hkey); [| |exact Hroot|].
  { apply (Hat _ 1%nat). nat_lits; lra. }
  { apply (Hat _ 2%nat). nat_lits; lra. }
  destruct (applyAdd ops (None :: table') i' t ws) as [c t' ws'].
  cbn [cursor warnings tree] in *. subst c ws'.
  exists t'. split.
  - assert (Qlt_bool (i' + 3 + 1 + 1 + 1 + 1 + 1)
              (inject_Z (Z.of_nat (length ops))) = false) as Hend.
    { apply Qlt_bool_ge. rewrite Elq, Ei. lra. }
    destruct fuel; cbn [mainLoop cursor tree warnings]; now rewrite Hend.
  - exists n. split; [exact Hn|]. rewrite Hdn, Hkey.
    rewrite (Hat _ 5%nat) by (nat_lits; lra).
    rewrite (Hat _ 6%nat) by (nat_lits; lra).
    cbn [body nth_error].
    split; apply tableAt_decoded; try exact Et; reflexivity.
Qed.

Lemma add_resolves_string_ids_witness :
  exists t',
    applyOperationsToCommitTree parentAlone
      ([1; 1; inject_Z (Z.of_nat (length (encodeTable [[65; 128512]%Z])))]
       ++ encodeTable [[65; 128512]%Z]
       ++ [TREE_OPERATION_ADD; 2; 5; 1; 0;
           inject_Z (Z.of_nat 1); inject_Z (Z.of_nat 0); 0]) []
    = Returned t' [] /\
    exists n,
      mapGet Qeq_bool 2 (nodes t') = Some n /\
      option_map codePointsOf (displayName n)
      = stringOf [[65; 128512]%Z] 1 /\
      option_map codePointsOf (key n) = stringOf [[65; 128512]%Z] 0.
Proof.
  apply (add_resolves_string_ids parentAlone [] [[65; 128512]%Z]
           1 1 2 5 1 0 0 1 0).
  - repeat constructor; unfold scalarValue; lia.
  - reflexivity.
Defined.

End StringTable.

(** ** Edit-log decoder: faults, ignored operations and the root *)

Section DecoderInvariants.
Import JS Coll CommitTree.

Lemma codePoint_inject (z : Z) :
  (0 <= z <= 1114111)%Z -> codePoint (inject_Z z).
Proof. intros H. exists z. split; [reflexivity|exact H]. Qed.

Lemma fromCodePoint_valid (v : Q) :
  codePoint v -> exists u, fromCodePoint v = Some u.
Proof.
  intros (z & E & Hz).
  assert (fromCodePoint v = fromCodePoint (inject_Z z)) as ->.
  { unfold fromCodePoint. now rewrite (Qred_complete _ _ E). }
  rewrite fromCodePoint_inject.
  destruct (Z.leb_spec 0 z); [|lia].
  destruct (Z.leb_spec z 1114111); [|lia]. cbn [andb].
  destruct (Z.leb z 65535); eexists; reflexivity.
Qed.

Lemma opAt_from_third (operations : list Q) (q v : Q) :
  Forall codePoint (skipn 3 operations) ->
  3 <= q -> opAt operations (Fin q) = Fin v -> codePoint v.
Proof.
  intros Hall Hq Hv. unfold opAt in Hv.
  destruct (arrayIndex q) as [n|] eqn:En; [|discriminate].
  destruct (nth_error operations n) as [w|] eqn:Ew; [|discriminate].
  injection Hv as ->. apply arrayIndex_spec in En.
  assert (3 <= n)%nat as Hn.
  { rewrite En in Hq. change 3 with (inject_Z 3) in Hq.
    rewrite <- Zle_Qle in Hq. lia. }
  rewrite Forall_forall in Hall. apply Hall.
  apply nth_error_In with (n := (n - 3)%nat).
  rewrite nth_error_skipn. now replace (3 + (n - 3))%nat with n by lia.
Qed.

Lemma decodeChars_valid (operations : list Q) (start : Q) :
  Forall codePoint (skipn 3 operations) -> 3 <= start ->
  forall count k, (0 <= k)%Z ->
    exists s, decodeChars operations start k count = Some s.
Proof.
  intros Hall Hstart. induction count as [|count IH]; intros k Hk.
  - exists []. reflexivity.
  - cbn [decodeChars].
    destruct (IH (k + 1)%Z ltac:(lia)) as [rest Hrest]. rewrite Hrest.
    destruct (opAt operations (Fin (start + inject_Z k))) as [v|] eqn:Ev;
      [|now exists rest].
    destruct (fromCodePoint_valid v) as [u Hu].
    + apply (opAt_from_third operations (start + inject_Z k)); trivial.
      assert (0 <= inject_Z k) by (change 0 with (inject_Z 0);
                                   now rewrite <- Zle_Qle).
      lra.
    + rewrite Hu. now exists (u ++ rest).
Qed.

Lemma readStringTable_valid (operations : list Q) (stringTableEnd : Q) :
  Forall codePoint (skipn 3 operations) ->
  forall fuel i table, 3 <= i ->
    readStringTable fuel operations stringTableEnd i table
    <> TableRangeError.
Proof.
  intros Hall. induction fuel as [|fuel IH]; intros i table Hi;
    cbn [readStringTable];
    destruct (Qlt_bool i stringTableEnd); try discriminate.
  destruct (opAt operations (Fin i)) as [len|]; [|discriminate].
  destruct (Qlt_bool len 0) eqn:Eneg; [discriminate|].
  cbn [orb]. destruct (Qlt_bool _ (i + 1 + len)); [discriminate|].
  assert (0 <= len) as Hlen.
  { destruct (Qlt_le_dec len 0) as [Hl|Hl]; [|exact Hl].
    apply Qlt_bool_iff in Hl. congruence. }
  unfold decodeStringFromOperations.
  destruct (Qle_bool len 0).
  - apply IH. lra.
  - destruct (decodeChars_valid operations (i + 1) Hall ltac:(lra)
                (Z.to_nat (Qceiling len)) 0%Z ltac:(lia)) as [s Hs].
    rewrite Hs. apply IH. lra.
Qed.

Lemma mainLoop_no_fault (operations : list Q)
    (table : list (option jsstring)) :
  forall fuel st, mainLoop fuel operations table st <> RangeError.
Proof.
  induction fuel as [|fuel IH]; intros st; cbn [mainLoop];
    destruct (cursor st) as [i|]; try discriminate;
    destruct (Qlt_bool i _); try discriminate.
  apply IH.
Qed.

(** X3.  The only fault of the decoder is the [RangeError] of
    [String.fromCodePoint]: a record whose elements after the three header
    elements are all integers in [0, 0x10FFFF] is decoded to the end, on
    every tree. *)
Theorem decoder_returns_on_code_points (t : Tree) (operations : list Q)
    (ws : list Warning) :
  Forall codePoint (skipn 3 operations) ->
  exists t' ws',
    applyOperationsToCommitTree t operations ws = Returned t' ws'.
Proof.
  intros Hall.
  destruct (applyOperations_ends t operations ws) as [Hfault|Hret];
    [exfalso|exact Hret].
  revert Hfault. unfold applyOperationsToCommitTree.
  destruct (Nat.ltb (length operations) 3); [discriminate|].
  destruct (opAt operations (Fin 2)) as [size|]; [|discriminate].
  destruct (Qlt_bool size 0); [discriminate|].
  destruct (readStringTable _ _ _ 3 [None]) as [i table| | |] eqn:Er;
    try discriminate.
  - apply mainLoop_no_fault.
  - exfalso. revert Er. apply readStringTable_valid; [exact Hall|lra].
Qed.

Lemma decoder_returns_on_code_points_witness :
  exists t' ws',
    applyOperationsToCommitTree emptyTree recordWithString []
    = Returned t' ws'.
Proof.
  apply (decoder_returns_on_code_points emptyTree recordWithString []).
  unfold recordWithString. cbn [skipn].
  repeat constructor;
    match goal with
    | |- codePoint (?z # 1) => apply (codePoint_inject z); lia
    end.
Defined.

(** *** Ignored operations *)

Lemma Qeq_bool_left (v c k : Q) : v == c -> Qeq_bool v k = Qeq_bool c k.
Proof.
  intros E. destruct (Qeq_bool c k) eqn:Ec.
  - apply Qeq_bool_iff. apply Qeq_bool_iff in Ec. now rewrite E.
  - destruct (Qeq_bool v k) eqn:Ev; [|reflexivity].
    apply Qeq_bool_iff in Ev. rewrite E in Ev.
    apply Qeq_bool_iff in Ev. congruence.
Qed.

(** X4.  The operations that the decoder does not interpret (subtree mode,
    errors and warnings, the suspense operations, activity slices) change
    neither the tree nor the diagnostics. *)
Theorem ignored_operations_keep_tree (operations : list Q)
    (table : list (option jsstring)) (i c : Q) (t : Tree)
    (ws : list Warning) :
  In c ignoredOperations ->
  nseq (opAt operations (Fin i)) (Fin c) = true ->
  tree (step operations table i t ws) = t /\
  warnings (step operations table i t ws) = ws.
Proof.
  intros Hin Hop. unfold step.
  destruct (opAt operations (Fin i)) as [v|]; [|discriminate].
  cbn [nseq] in *. apply Qeq_bool_iff in Hop.
  rewrite !(Qeq_bool_left v c _ Hop).
  unfold ignoredOperations in Hin. cbn [In] in Hin.
  repeat (destruct Hin as [<-|Hin]; [split; reflexivity|]).
  destruct Hin.
Qed.

Lemma ignored_operations_keep_tree_witness :
  tree (step recordWithString [None; Some [65%Z]] 5 parentWithChild [])
  = parentWithChild /\
  warnings (step recordWithString [None; Some [65%Z]] 5 parentWithChild [])
  = [].
Proof.
  apply (ignored_operations_keep_tree recordWithString
           [None; Some [65%Z]] 5 TREE_OPERATION_APPLIED_ACTIVITY_SLICE_CHANGE).
  - unfold ignoredOperations. simpl. tauto.
  - reflexivity.
Defined.

(** *** The root of the tree *)

Lemma step_rootID (operations : list Q) (table : list (option jsstring))
    (i : Q) (t : Tree) (ws : list Warning) :
  rootID (tree (step operations table i t ws)) = rootID t \/
  rootAddIn operations (rootID (tree (step operations table i t ws))).
Proof.
  unfold step.
  destruct (nseq (opAt operations (Fin i)) (Fin TREE_OPERATION_ADD)) eqn:Eadd.
  - unfold applyAdd.
    destruct (opAt operations (Fin (i + 1))) as [id0|] eqn:Eid;
      [|now left].
    destruct (nseq (opAt operations (Fin (i + 2))) (Fin ELEMENT_TYPE_ROOT))
      eqn:Eroot; [|now left].
    right. exists i. cbn [tree rootID]. repeat split; assumption.
  - left.
    repeat match goal with
    | |- context [if ?c then _ else _] => destruct c
    end; try reflexivity.
    + unfold applyRemove.
      destruct (opAt operations (Fin (i + 1))) as [len|]; [|reflexivity].
      destruct (Qlt_bool len 0); [reflexivity|].
      now destruct (removeLoop _ _ _ _).
    + unfold applyReorder.
      destruct (opAt operations (Fin (i + 2))) as [num|]; [|reflexivity].
      destruct (Qlt_bool num 0); [reflexivity|].
      now destruct (reorderRead _ _ _ _).
Qed.

Lemma mainLoop_rootID (operations : list Q)
    (table : list (option jsstring)) (r0 : Q) :
  forall fuel st t' ws',
    mainLoop fuel operations table st = Returned t' ws' ->
    rootID (tree st) = r0 \/ rootAddIn operations (rootID (tree st)) ->
    rootID t' = r0 \/ rootAddIn operations (rootID t').
Proof.
  induction fuel as [|fuel IH]; intros st t' ws' H Hinv; cbn [mainLoop] in H;
    destruct (cursor st) as [i|];
    try (injection H as <- _; exact Hinv);
    destruct (Qlt_bool i _);
    try (injection H as <- _; exact Hinv);
    try discriminate.
  apply (IH _ _ _ H). cbn [tree].
  destruct (step_rootID operations table i (tree st) (warnings st))
    as [E|E]; [|now right].
  rewrite E. exact Hinv.
Qed.

(** X5.  The root id of the tree changes only through the add of a root:
    after a record is applied, the root id is the one before or the id of
    a root add that the record holds. *)
Theorem root_changes_only_by_root_add (t : Tree) (operations : list Q)
    (ws : list Warning) (t' : Tree) (ws' : list Warning) :
  applyOperationsToCommitTree t operations ws = Returned t' ws' ->
  rootID t' = rootID t \/ rootAddIn operations (rootID t').
Proof.
  unfold applyOperationsToCommitTree.
  destruct (Nat.ltb (length operations) 3).
  { intros H. injection H as <- _. now left. }
  destruct (opAt operations (Fin 2)) as [size|].
  2:{ intros H. injection H as <- _. now left. }
  destruct (Qlt_bool size 0).
  { intros H. injection H as <- _. now left. }
  destruct (readStringTable _ _ _ 3 [None]) as [i table| | |];
    try discriminate.
  - intros H. apply (mainLoop_rootID _ _ _ _ _ _ _ H). now left.
  - intros H. injection H as <- _. now left.
Qed.

Lemma root_changes_only_by_root_add_witness :
  exists t' ws',
    applyOperationsToCommitTree emptyTree threeChildrenRecord []
    = Returned t' ws' /\
    (rootID t' = rootID emptyTree \/
     rootAddIn threeChildrenRecord (rootID t')).
Proof.
  eexists. eexists. split; [vm_compute; reflexivity|].
  apply (root_changes_only_by_root_add emptyTree threeChildrenRecord []
           _ []).
  vm_compute. reflexivity.
Defined.

End DecoderInvariants.

(** ** Edit-log decoder: what remove, reorder and add do to the tree *)

Section TreeEdits.
Import JS Coll CommitTree.

Lemma setChildren_twice (c c' : list Q) (n : Node) :
  setChildren c (setChildren c' n) = setChildren c n.
Proof. reflexivity. Qed.

Lemma setChildren_same (n : Node) : setChildren (children n) n = n.
Proof. now destruct n. Qed.

Lemma withoutChild_in (x c : Q) (cs : list Q) :
  In c (withoutChild x cs) <-> In c cs /\ Qeq_bool c x = false.
Proof.
  unfold withoutChild. rewrite filter_In.
  now destruct (Qeq_bool c x); simpl; intuition.
Qed.

(** The nodes of [m'] are nodes of [m] that kept every field but their
    children; the nodes under the ids [ids] are gone, the others lost at
    most listed ids from their children. *)
Lemma removeLoop_spec (operations : list Q) :
  forall count i m,
    let m' := snd (removeLoop operations count i m) in
    let ids := idsRead operations count i in
    (forall x, setHas Qeq_bool x ids = true -> mapGet Qeq_bool x m' = None) /\
    (forall x, mapGet Qeq_bool x m = None -> mapGet Qeq_bool x m' = None) /\
    (forall x n,
       setHas Qeq_bool x ids = false -> mapGet Qeq_bool x m = Some n ->
       exists n',
         mapGet Qeq_bool x m' = Some n' /\
         n' = setChildren (children n') n /\
         (forall c, In c (children n') -> In c (children n)) /\
         (forall c, In c (children n) -> setHas Qeq_bool c ids = false ->
                    In c (children n'))).
Proof.
  induction count as [|count IH]; intros i m; cbn [removeLoop idsRead].
  - cbn [snd]. split; [discriminate|]. split; [trivial|].
    intros x n _ Hx. exists n. rewrite setChildren_same. auto.
  - destruct (Qlt_bool i _).
    2:{ cbn [snd]. split; [discriminate|]. split; [trivial|].
        intros x n _ Hx. exists n. rewrite setChildren_same. auto. }
    destruct (opAt operations (Fin i)) as [id0|]; [|apply IH].
    destruct (mapGet Qeq_bool id0 m) as [node|] eqn:Enode.
    + set (m1 := mapDelete Qeq_bool id0
                   (detachFrom (parentID node) id0 m)).
      destruct (IH (i + 1) m1) as (H1 & H2 & H3).
      assert (forall x, mapGet Qeq_bool x m1
                = if Qeq_bool x id0 then None
                  else if Qeq_bool x (parentID node)
                  then match mapGet Qeq_bool x m with
                       | Some n =>
                           Some (setChildren
                                   (withoutChild id0 (children n)) n)
                       | None => None
                       end
                  else mapGet Qeq_bool x m) as Hm1.
      { intros x. unfold m1, detachFrom.
        now rewrite mapGet_mapDelete, mapGet_updateNode. }
      split; [|split].
      * intros x Hx. rewrite setHas_cons in Hx.
        destruct (Qeq_bool x id0) eqn:Ex.
        -- apply H2. now rewrite Hm1, Ex.
        -- now apply H1.
      * intros x Hx. apply H2. rewrite Hm1, Hx.
        now destruct (Qeq_bool x id0), (Qeq_bool x (parentID node)).
      * intros x n Hx Hn. rewrite setHas_cons in Hx.
        apply orb_false_iff in Hx as [Ex Hx].
        assert (exists n1, mapGet Qeq_bool x m1 = Some n1 /\
                  n1 = setChildren (children n1) n /\
                  (forall c, In c (children n1) -> In c (children n)) /\
                  (forall c, In c (children n) -> Qeq_bool c id0 = false ->
                             In c (children n1))) as (n1 & Hn1 & E1 & S1 & K1).
        { rewrite Hm1, Ex, Hn. destruct (Qeq_bool x (parentID node)).
          - eexists. split; [reflexivity|]. cbn [setChildren children].
            split; [reflexivity|].
            split.
            + intros c Hc. apply withoutChild_in in Hc. tauto.
            + intros c Hc Hne. apply withoutChild_in. tauto.
          - exists n. rewrite setChildren_same. auto. }
        destruct (H3 x n1 Hx Hn1) as (n' & Hn' & E' & S' & K').
        exists n'. split; [exact Hn'|]. split.
        { rewrite E', E1. reflexivity. }
        split; [auto|].
        intros c Hc Hnot. rewrite setHas_cons in Hnot.
        apply orb_false_iff in Hnot as [Ec Hnot]. auto.
    + destruct (IH (i + 1) m) as (H1 & H2 & H3).
      split; [|split; [exact H2|]].
      * intros x Hx. rewrite setHas_cons in Hx.
        destruct (Qeq_bool x id0) eqn:Ex; [|now apply H1].
        apply H2. apply Qeq_bool_iff in Ex.
        now rewrite (mapGet_proper x id0 m Ex).
      * intros x n Hx Hn. rewrite setHas_cons in Hx.
        apply orb_false_iff in Hx as [Ex Hx].
        destruct (H3 x n Hx Hn) as (n' & Hn' & E' & S' & K').
        exists n'. repeat split; auto.
        intros c Hc Hnot. rewrite setHas_cons in Hnot.
        apply orb_false_iff in Hnot as [Ec Hnot]. auto.
Qed.

(** X6.  [TREE_OPERATION_REMOVE] deletes exactly the nodes whose ids it
    lists and never a descendant of theirs: a listed id is gone, no node
    appears, and a node that is not listed stays with all its fields, its
    children list having lost listed ids at most. *)
Theorem remove_deletes_listed_only (operations : list Q) (i len : Q)
    (t : Tree) (ws : list Warning) :
  opAt operations (Fin (i + 1)) = Fin len ->
  Qlt_bool len 0 = false ->
  let st := applyRemove operations i t ws in
  let ids := idsRead operations (Z.to_nat (Qceiling len)) (i + 2) in
  warnings st = ws /\
  (forall x, setHas Qeq_bool x ids = true ->
             mapGet Qeq_bool x (nodes (tree st)) = None) /\
  (forall x, mapGet Qeq_bool x (nodes t) = None ->
             mapGet Qeq_bool x (nodes (tree st)) = None) /\
  (forall x n,
     setHas Qeq_bool x ids = false -> mapGet Qeq_bool x (nodes t) = Some n ->
     exists n',
       mapGet Qeq_bool x (nodes (tree st)) = Some n' /\
       n' = setChildren (children n') n /\
       (forall c, In c (children n') -> In c (children n)) /\
       (forall c, In c (children n) -> setHas Qeq_bool c ids = false ->
                  In c (children n'))).
Proof.
  intros Hlen Hneg. unfold applyRemove. rewrite Hlen, Hneg.
  pose proof (removeLoop_spec operations (Z.to_nat (Qceiling len)) (i + 2)
                (nodes t)) as Hspec.
  destruct (removeLoop operations (Z.to_nat (Qceiling len)) (i + 2)
              (nodes t)) as [i' m'].
  cbn [snd] in Hspec. cbn [warnings tree nodes].
  split; [reflexivity|exact Hspec].
Qed.

Lemma remove_deletes_listed_only_witness :
  let st := applyRemove removeRecord 3 smallTree [] in
  let ids := idsRead removeRecord (Z.to_nat (Qceiling 1)) (3 + 2) in
  warnings st = [] /\
  (forall x, setHas Qeq_bool x ids = true ->
             mapGet Qeq_bool x (nodes (tree st)) = None) /\
  (forall x, mapGet Qeq_bool x (nodes smallTree) = None ->
             mapGet Qeq_bool x (nodes (tree st)) = None) /\
  (forall x n,
     setHas Qeq_bool x ids = false ->
     mapGet Qeq_bool x (nodes smallTree) = Some n ->
     exists n',
       mapGet Qeq_bool x (nodes (tree st)) = Some n' /\
       n' = setChildren (children n') n /\
       (forall c, In c (children n') -> In c (children n)) /\
       (forall c, In c (children n) -> setHas Qeq_bool c ids = false ->
                  In c (children n'))).
Proof.
  apply (remove_deletes_listed_only removeRecord 3 1 smallTree []);
    reflexivity.
Defined.

(** *** Reorder *)

Lemma reorderRead_ids (operations : list Q) :
  forall count i acc,
    snd (reorderRead operations count i acc)
    = acc ++ idsRead operations count i.
Proof.
  induction count as [|count IH]; intros i acc;
    cbn [reorderRead idsRead]; [now rewrite app_nil_r|].
  destruct (Qlt_bool i _); [|now rewrite app_nil_r].
  destruct (opAt operations (Fin i)) as [c|]; rewrite IH; [|reflexivity].
  now rewrite <- app_assoc.
Qed.

Lemma mapGet_setParents (id0 : Q) :
  forall cs m x,
    mapGet Qeq_bool x
      (fold_left (fun m childID => updateNode childID (setParentID id0) m)
         cs m)
    = match mapGet Qeq_bool x m with
      | Some n =>
          Some (if setHas Qeq_bool x cs then setParentID id0 n else n)
      | None => None
      end.
Proof.
  induction cs as [|c cs IH]; intros m x; cbn [fold_left].
  - now destruct (mapGet Qeq_bool x m).
  - rewrite IH, mapGet_updateNode, setHas_cons.
    destruct (Qeq_bool x c); cbn [orb]; [|reflexivity].
    destruct (mapGet Qeq_bool x m) as [n|]; [|reflexivity].
    now destruct (setHas Qeq_bool x cs).
Qed.

(** X7.  [TREE_OPERATION_REORDER_CHILDREN] on a node of the tree replaces
    its children list by the listed ids and points the listed nodes to it;
    it adds and removes no node and leaves every other field, and every
    node that is neither the target nor listed, as it was. *)
Theorem reorder_sets_children (operations : list Q) (i id0 num : Q)
    (t : Tree) (ws : list Warning) (target : Node) :
  opAt operations (Fin (i + 1)) = Fin id0 ->
  opAt operations (Fin (i + 2)) = Fin num ->
  Qlt_bool num 0 = false ->
  mapGet Qeq_bool id0 (nodes t) = Some target ->
  let st := applyReorder operations i t ws in
  let ids := idsRead operations (Z.to_nat (Qceiling num)) (i + 3) in
  warnings st = ws /\ rootID (tree st) = rootID t /\
  forall x,
    mapGet Qeq_bool x (nodes (tree st))
    = match mapGet Qeq_bool x (nodes t) with
      | Some n =>
          let n1 := if Qeq_bool x id0 then setChildren ids n else n in
          Some (if setHas Qeq_bool x ids then setParentID id0 n1 else n1)
      | None => None
      end.
Proof.
  intros Hid Hnum Hneg Htarget. unfold applyReorder.
  rewrite Hid, Hnum, Hneg.
  pose proof (reorderRead_ids operations (Z.to_nat (Qceiling num)) (i + 3) [])
    as Hids.
  destruct (reorderRead operations (Z.to_nat (Qceiling num)) (i + 3) [])
    as [i' newChildren].
  cbn [snd app] in Hids. subst newChildren.
  cbn [getNode warnings tree rootID nodes]. rewrite Htarget.
  repeat split. intros x.
  rewrite mapGet_setParents, mapGet_updateNode.
  destruct (Qeq_bool x id0); [|reflexivity].
  now destruct (mapGet Qeq_bool x (nodes t)).
Qed.

Lemma reorder_sets_children_witness :
  let st := applyReorder reorderRecord 3 smallTree [] in
  let ids := idsRead reorderRecord (Z.to_nat (Qceiling 2)) (3 + 3) in
  warnings st = [] /\ rootID (tree st) = rootID smallTree /\
  forall x,
    mapGet Qeq_bool x (nodes (tree st))
    = match mapGet Qeq_bool x (nodes smallTree) with
      | Some n =>
          let n1 := if Qeq_bool x 1 then setChildren ids n else n in
          Some (if setHas Qeq_bool x ids then setParentID 1 n1 else n1)
      | None => None
      end.
Proof.
  apply (reorder_sets_children reorderRecord 3 1 2 smallTree []
           (plainNode 1 0 [2; 3]));
    reflexivity.
Defined.

(** *** Add of a node that is already in the tree *)

(** X8.  [TREE_OPERATION_ADD] for a node that is already in the tree moves
    it: the node leaves the children list of its old parent, is listed
    once more by the new parent unless it was listed there already, gets
    the new parent id, and keeps its children and its tree base
    duration. *)
Theorem add_moves_node (operations : list Q)
    (table : list (option jsstring)) (i id0 ty p : Q) (t : Tree)
    (ws : list Warning) (e : Node) (co cp : list Q) :
  opAt operations (Fin (i + 1)) = Fin id0 ->
  opAt operations (Fin (i + 2)) = Fin ty ->
  Qeq_bool ty ELEMENT_TYPE_ROOT = false ->
  opAt operations (Fin (i + 3)) = Fin p ->
  mapGet Qeq_bool id0 (nodes t) = Some e ->
  Qeq_bool (parentID e) p = false ->
  Qeq_bool (parentID e) id0 = false ->
  Qeq_bool p id0 = false ->
  childrenOf (parentID e) t = Some co ->
  childrenOf p t = Some cp ->
  let st := applyAdd operations table i t ws in
  childrenOf (parentID e) (tree st) = Some (withoutChild id0 co) /\
  childrenOf p (tree st)
  = Some (if setHas Qeq_bool id0 cp then cp else cp ++ [id0]) /\
  exists n,
    mapGet Qeq_bool id0 (nodes (tree st)) = Some n /\
    parentID n = p /\ children n = children e /\
    treeBaseDuration n = treeBaseDuration e.
Proof.
  intros Hid Hty Hroot Hp He Hop Hoi Hpi Hco Hcp.
  unfold childrenOf in *.
  destruct (mapGet Qeq_bool (parentID e) (nodes t)) as [on|] eqn:Eon;
    [|discriminate].
  destruct (mapGet Qeq_bool p (nodes t)) as [pn|] eqn:Epn; [|discriminate].
  injection Hco as <-. injection Hcp as <-.
  assert (Qeq_bool p (parentID e) = false) as Hpo
    by now rewrite Qeq_bool_comm.
  assert (Qeq_bool id0 (parentID e) = false) as Hio
    by now rewrite Qeq_bool_comm.
  assert (Qeq_bool id0 p = false) as Hip by now rewrite Qeq_bool_comm.
  unfold applyAdd. rewrite Hid, Hty, Hp. cbn [nseq]. rewrite Hroot, He.
  cbn [getNode tree nodes]. unfold detachFrom.
  rewrite mapGet_updateNode, Hpo, Epn.
  destruct (setHas Qeq_bool id0 (children pn)) eqn:Ehas.
  - rewrite !mapGet_mapSet, !mapGet_updateNode, Hoi, Hpi, Hpo, Hio, Eon, Epn,
      He, ?Qeq_bool_refl.
    cbn [setChildren children]. rewrite ?Qeq_bool_refl.
    split; [reflexivity|]. split; [reflexivity|].
    eexists. split; [reflexivity|]. now cbn.
  - rewrite !mapGet_mapSet, !mapGet_updateNode, Hoi, Hpi, Hop, Hpo, Hio, Hip.
    rewrite ?mapGet_updateNode, ?Qeq_bool_refl, ?Hpo, ?Hio, ?Eon, ?Epn, ?He.
    cbn [setChildren children]. rewrite ?Qeq_bool_refl.
    split; [reflexivity|]. split; [reflexivity|].
    eexists. split; [reflexivity|]. now cbn.
Qed.

Lemma add_moves_node_witness :
  let st := applyAdd moveRecord [None] 3 smallTree [] in
  childrenOf 2 (tree st) = Some (withoutChild 4 [4]) /\
  childrenOf 3 (tree st)
  = Some (if setHas Qeq_bool 4 [] then [] else [] ++ [4]) /\
  exists n,
    mapGet Qeq_bool 4 (nodes (tree st)) = Some n /\
    parentID n = 3 /\ children n = children (plainNode 4 2 []) /\
    treeBaseDuration n = treeBaseDuration (plainNode 4 2 []).
Proof.
  apply (add_moves_node moveRecord [None] 3 4 5 3 smallTree []
           (plainNode 4 2 []) [4] []);
    reflexivity.
Defined.

End TreeEdits.

(** ** The initial commit tree ([buildInitialCommitTree]) *)

Section InitialTree.
Import JS Coll CommitTree Flamegraph Analyze.

Lemma mapHas_proper {V : Type} (x x' : Q) (m : list (Q * V)) :
  x == x' -> mapHas Qeq_bool x m = mapHas Qeq_bool x' m.
Proof. intros E. unfold mapHas. now rewrite (mapGet_proper x x' m E). Qed.

Lemma In_mapHas {V : Type} (k : Q) (v : V) (m : list (Q * V)) :
  In (k, v) m -> mapHas Qeq_bool k m = true.
Proof.
  unfold mapHas. induction m as [|[k' v'] m IH]; [intros []|].
  cbn [mapGet]. intros [E|Hin].
  - injection E as -> ->. now rewrite Qeq_bool_refl.
  - destruct (Qeq_bool k' k); [reflexivity|now apply IH].
Qed.

Lemma mapSet_entries {V : Type} (P : Q * V -> Prop) (k : Q) (v : V)
    (m : list (Q * V)) :
  Forall P m -> (forall k', Qeq_bool k' k = true -> P (k', v)) ->
  Forall P (mapSet Qeq_bool k v m).
Proof.
  intros Hm Hv. induction Hm as [|[k' v'] m Hkv Hm IH]; cbn [mapSet].
  - constructor; [|constructor]. apply Hv, Qeq_bool_refl.
  - destruct (Qeq_bool k' k) eqn:E; constructor; auto.
Qed.

Lemma updateNode_entries (P : Q * Node -> Prop) (k : Q) (f : Node -> Node)
    (m : list (Q * Node)) :
  Forall P m -> (forall k' n, P (k', n) -> P (k', f n)) ->
  Forall P (updateNode k f m).
Proof.
  intros Hm Hf. induction Hm as [|[k' n] m Hkv Hm IH]; cbn [updateNode].
  - constructor.
  - destruct (Qeq_bool k' k); constructor; auto.
Qed.

Lemma updateNode_nil (k : Q) (f : Node -> Node) (m : list (Q * Node)) :
  updateNode k f m = [] -> m = [].
Proof.
  destruct m as [|[k' n] m]; [reflexivity|]. cbn [updateNode].
  destruct (Qeq_bool k' k); discriminate.
Qed.

(** One round of the loop that sets the parent ids: the children of the
    node under [p], as they are in [m], are pointed to [p]. *)
Lemma setParents_round (p : Q) (m : list (Q * Node)) :
  let m' :=
    match mapGet Qeq_bool p m with
    | Some node =>
        fold_left (fun m childID => updateNode childID (setParentID p) m)
          (children node) m
    | None => m
    end in
  (forall x,
     mapGet Qeq_bool x m'
     = match mapGet Qeq_bool x m with
       | Some n =>
           Some (if match mapGet Qeq_bool p m with
                    | Some node => setHas Qeq_bool x (children node)
                    | None => false
                    end
                 then setParentID p n else n)
       | None => None
       end) /\
  (Forall (fun kv => id (snd kv) == fst kv) m ->
   Forall (fun kv => id (snd kv) == fst kv) m') /\
  (m' = [] -> m = []).
Proof.
  cbv zeta. destruct (mapGet Qeq_bool p m) as [node|].
  - split; [intros x; apply mapGet_setParents|].
    generalize (children node). intros cs. revert m.
    induction cs as [|c cs IH]; intros m; cbn [fold_left]; [now split|].
    destruct (IH (updateNode c (setParentID p) m)) as [H1 H2]. split.
    + intros Hm. apply H1. apply updateNode_entries; [exact Hm|].
      intros k' n Hn. exact Hn.
    + intros E. apply (updateNode_nil c (setParentID p)). now apply H2.
  - split; [|now split]. intros x. now destruct (mapGet Qeq_bool x m).
Qed.

Lemma setParents_rounds :
  forall (ps : list Q) (m : list (Q * Node)),
    (forall c n, mapGet Qeq_bool c m = Some n ->
       parentID n = 0 \/
       exists pn, mapGet Qeq_bool (parentID n) m = Some pn /\
                  setHas Qeq_bool c (children pn) = true) ->
    Forall (fun kv => id (snd kv) == fst kv) m ->
    let m' :=
      fold_left
        (fun m fiberId =>
           match mapGet Qeq_bool fiberId m with
           | Some node =>
               fold_left
                 (fun m childID => updateNode childID (setParentID fiberId) m)
                 (children node) m
           | None => m
           end)
        ps m in
    (forall c n, mapGet Qeq_bool c m' = Some n ->
       parentID n = 0 \/
       exists pn, mapGet Qeq_bool (parentID n) m' = Some pn /\
                  setHas Qeq_bool c (children pn) = true) /\
    Forall (fun kv => id (snd kv) == fst kv) m' /\
    (forall x, mapHas Qeq_bool x m' = mapHas Qeq_bool x m) /\
    (m' = [] -> m = []).
Proof.
  induction ps as [|p ps IH]; intros m Hinv Hid; cbn [fold_left].
  - repeat split; auto.
  - destruct (setParents_round p m) as (Hget & Hid' & Hnil).
    cbv zeta in Hget, Hid', Hnil.
    set (m1 := match mapGet Qeq_bool p m with
               | Some node =>
                   fold_left
                     (fun m childID => updateNode childID (setParentID p) m)
                     (children node) m
               | None => m
               end) in *.
    assert (forall x, mapHas Qeq_bool x m1 = mapHas Qeq_bool x m) as Hhas.
    { intros x. unfold mapHas. rewrite Hget.
      now destruct (mapGet Qeq_bool x m). }
    destruct (IH m1) as (H1 & H2 & H3 & H4); [|now apply Hid'|].
    + intros c n1 Hn1. rewrite Hget in Hn1.
      destruct (mapGet Qeq_bool c m) as [n|] eqn:En; [|discriminate].
      injection Hn1 as <-.
      destruct (mapGet Qeq_bool p m) as [pn|] eqn:Epn.
      * destruct (setHas Qeq_bool c (children pn)) eqn:Ec.
        -- right. cbn [setParentID parentID]. rewrite Hget, Epn.
           eexists. split; [reflexivity|].
           now destruct (setHas Qeq_bool p (children pn)).
        -- destruct (Hinv c n En) as [H0|(pn0 & Hp0 & Hc0)]; [now left|].
           right. rewrite Hget, Hp0. eexists. split; [reflexivity|].
           now destruct (setHas Qeq_bool (parentID n) (children pn)).
      * destruct (Hinv c n En) as [H0|(pn0 & Hp0 & Hc0)]; [now left|].
        right. rewrite Hget, Hp0. eexists. split; [reflexivity|exact Hc0].
    + repeat split; auto.
      intros x. now rewrite H3, Hhas.
Qed.

Lemma snapshot_nodes (baseDurations : list (Q * Q)) :
  forall (snaps : list (Q * SnapshotNode)) (m : list (Q * Node)),
    let m' :=
      fold_left
        (fun m '(fiberId, sn) =>
           mapSet Qeq_bool fiberId
             {| id := fiberId;
                parentID := 0;
                children :=
                  match snChildren sn with Some c => c | None => [] end;
                displayName :=
                  getSnapshotDisplayName (snDisplayName sn)
                    (snHocDisplayNames sn);
                hocDisplayNames := snHocDisplayNames sn;
                key := snKey sn;
                type := snType sn;
                compiledWithForget := snCompiledWithForget sn;
                treeBaseDuration := msOf baseDurations fiberId |}
             m)
        snaps m in
    (Forall (fun kv => id (snd kv) == fst kv /\ parentID (snd kv) = 0) m ->
     Forall (fun kv => id (snd kv) == fst kv /\ parentID (snd kv) = 0) m') /\
    (forall x, mapHas Qeq_bool x m = true \/
               setHas Qeq_bool x (map fst snaps) = true ->
               mapHas Qeq_bool x m' = true).
Proof.
  induction snaps as [|[k sn] snaps IH]; intros m; cbn [fold_left].
  - split; [trivial|]. intros x [H|H]; [exact H|discriminate].
  - match goal with
    | |- context [fold_left _ snaps ?m1] => destruct (IH m1) as [H1 H2]
    end.
    split.
    + intros Hm. apply H1. apply mapSet_entries; [exact Hm|].
      intros k' E. cbn [snd fst id parentID]. split; [|reflexivity].
      symmetry. now apply Qeq_bool_iff.
    + intros x Hx. apply H2. rewrite mapHas_mapSet.
      cbn [map fst] in Hx. rewrite setHas_cons in Hx.
      destruct Hx as [Hx|Hx]; [left; now rewrite Hx, orb_true_r|].
      apply orb_true_iff in Hx as [Hx|Hx]; [left; now rewrite Hx|now right].
Qed.

(** X9.  The initial commit tree of a root is well formed: every snapshot
    has a node, every node carries the id that it is stored under, the
    parent id of a node is 0 or the id of a node of the tree that lists it
    among its children, and the root id names a node of the tree unless
    the tree is empty. *)
Theorem initial_tree_well_formed (root : Root) :
  let t := buildInitialCommitTree root in
  (forall k sn, In (k, sn) (snapshots root) ->
                mapHas Qeq_bool k (nodes t) = true) /\
  (forall c n, mapGet Qeq_bool c (nodes t) = Some n ->
     id n == c /\
     (parentID n = 0 \/
      exists pn, mapGet Qeq_bool (parentID n) (nodes t) = Some pn /\
                 setHas Qeq_bool c (children pn) = true)) /\
  (nodes t <> [] -> mapHas Qeq_bool (rootID t) (nodes t) = true).
Proof.
  cbv zeta. unfold buildInitialCommitTree. cbv zeta.
  set (baseDurations := toPairMap (fun n => n) (initialTreeBaseDurations root)).
  destruct (snapshot_nodes baseDurations (snapshots root) []) as [S1 S2].
  cbv zeta in S1, S2.
  match type of S2 with
  | context [fold_left ?F (snapshots root) []] =>
      set (nodes0 := fold_left F (snapshots root) []) in *
  end.
  specialize (S1 (Forall_nil _)).
  destruct (setParents_rounds (map fst nodes0) nodes0)
    as (P1 & P2 & P3 & P4).
  { intros c n Hn. left. destruct (mapGet_in c nodes0 n Hn) as (e & Hin & _).
    rewrite Forall_forall in S1. apply (S1 (e, n) Hin). }
  { apply Forall_forall. intros kv Hkv. rewrite Forall_forall in S1.
    apply (S1 kv Hkv). }
  cbv zeta in P1, P2, P3, P4.
  match type of P2 with
  | Forall _ ?m1 => set (nodes1 := m1) in *
  end.
  cbn [nodes rootID].
  split; [|split].
  - intros k sn Hin. rewrite P3. apply S2. right.
    apply setHas_in. exact (in_map fst _ _ Hin).
  - intros c n Hn. split; [|exact (P1 c n Hn)].
    destruct (mapGet_in c nodes1 n Hn) as (e & Hin & E).
    rewrite Forall_forall in P2. specialize (P2 (e, n) Hin).
    cbn [fst snd] in P2. apply Qeq_bool_iff in E. now rewrite P2.
  - intros Hne.
    assert (forall kv, In kv nodes1 ->
              mapHas Qeq_bool (id (snd kv)) nodes1 = true) as Hid.
    { intros [k n] Hin. rewrite Forall_forall in P2.
      rewrite (mapHas_proper (id n) k) by exact (P2 (k, n) Hin).
      exact (In_mapHas k n nodes1 Hin). }
    assert (forall (p q : Q * Node -> bool),
              mapHas Qeq_bool
                match
                  match find p nodes1 with
                  | Some kv => Some (id (snd kv))
                  | None =>
                      match find q nodes1 with
                      | Some kv => Some (id (snd kv))
                      | None => None
                      end
                  end, nodes1
                with
                | Some r, _ => r
                | None, (firstKey, _) :: _ => firstKey
                | None, [] => 0
                end nodes1 = true) as Hfind.
    { intros p q.
      destruct (find p nodes1) as [kv|] eqn:Ef;
        [exact (Hid kv (proj1 (find_some _ _ Ef)))|].
      destruct (find q nodes1) as [kv|] eqn:Ef';
        [exact (Hid kv (proj1 (find_some _ _ Ef')))|].
      destruct nodes1 as [|[k n] rest]; [contradiction|].
      unfold mapHas. cbn [mapGet]. now rewrite Qeq_bool_refl. }
    destruct (exportRootID root) as [r|]; [|apply Hfind].
    destruct (mapHas Qeq_bool r nodes1) eqn:Er; [exact Er|apply Hfind].
Qed.

End InitialTree.

(** ** Commit flamegraph: the structure of the result *)

Section FlamegraphStructure.
Import JS Coll CommitTree Flamegraph Analyze.

Lemma buildCommitFlamegraph_tables localeCompare t rootName fallback maps fg :
  buildCommitFlamegraph localeCompare t rootName fallback maps = Some fg ->
  exists included depth0 memo,
    includeRendered (nodes t) (renderedFibersOf maps) [rootFiberIdOf t]
    = Some included /\
    depthLoop (S (length (concat (map snd (childrenTable t included))))) 
      (childrenTable t included) [rootFiberIdOf t] [(rootFiberIdOf t, O)]
    = Some depth0 /\
    rootFiberId fg = rootFiberIdOf t /\
    flameNodes fg
    = jsSort byDepthThenId
        (map (makeNode t fallback rootName maps (renderedFibersOf maps)
                (parentTable t included) (childrenTable t included)
                (fillDepths (rootFiberIdOf t) included depth0) memo)
           included) /\
    renderedComponents fg
    = jsSort (bySubtreeThenSelf localeCompare)
        (map (makeRendered fallback rootName maps (flameNodes fg))
           (renderedFibersOf maps)).
Proof.
  unfold buildCommitFlamegraph, parentTable, childrenTable. cbv zeta.
  destruct (includeRendered _ _ _) as [included|]; [|discriminate].
  destruct (linkParents _ _ _ _) as [parentBy children1] eqn:Elink.
  cbn [fst snd].
  destruct (depthLoop _ _ _ _) as [depth0|] eqn:Edepth; [|discriminate].
  destruct (computeAll _ _ _ _) as [memo|]; [|discriminate].
  intros H. injection H as <-.
  exists included, depth0, memo.
  cbn [rootFiberId flameNodes renderedComponents]. rewrite Elink.
  cbn [fst snd]. repeat split. exact Edepth.
Qed.

(** *** The included fibers *)

Lemma setHas_exists (x : Q) (s : list Q) :
  setHas Qeq_bool x s = true <-> exists y, In y s /\ x == y.
Proof.
  unfold setHas. rewrite existsb_exists.
  split; intros (y & Hy & E); exists y; (split; [exact Hy|]);
    now apply Qeq_bool_iff.
Qed.

Lemma setHas_setOfList (x : Q) (l : list Q) :
  setHas Qeq_bool x (setOfList Qeq_bool l) = setHas Qeq_bool x l.
Proof.
  unfold setOfList.
  assert (forall s, setHas Qeq_bool x
                      (fold_left (fun s y => setAdd Qeq_bool y s) l s)
                    = setHas Qeq_bool x s || setHas Qeq_bool x l) as G.
  { induction l as [|y l IH]; intros s; cbn [fold_left].
    - now rewrite orb_false_r.
    - rewrite IH, setHas_setAdd, setHas_cons. now rewrite orb_assoc. }
  now rewrite G.
Qed.

Lemma setHas_app (x : Q) (a b : list Q) :
  setHas Qeq_bool x (a ++ b) = setHas Qeq_bool x a || setHas Qeq_bool x b.
Proof. apply existsb_app. Qed.

Lemma mapHas_keys {V : Type} (x : Q) (m : list (Q * V)) :
  mapHas Qeq_bool x m = setHas Qeq_bool x (map fst m).
Proof.
  unfold mapHas. induction m as [|[k v] m IH]; [reflexivity|].
  cbn [mapGet map fst]. rewrite setHas_cons, (Qeq_bool_comm x k).
  now destruct (Qeq_bool k x).
Qed.

Lemma reported_rendered (maps : CommitMaps) (f : Q) :
  setHas Qeq_bool f (renderedFibersOf maps) = reported maps f.
Proof.
  unfold renderedFibersOf, reported.
  now rewrite setHas_setOfList, !setHas_app, !mapHas_keys, orb_assoc.
Qed.

Lemma ancestorsLoop_mono (nodesByID : list (Q * Node)) :
  forall fuel cursor0 seen included r,
    ancestorsLoop fuel nodesByID cursor0 seen included = Some r ->
    forall x, setHas Qeq_bool x included = true ->
              setHas Qeq_bool x r = true.
Proof.
  induction fuel as [|fuel IH]; intros cursor0 seen included r H x Hx;
    cbn [ancestorsLoop] in H; [discriminate|].
  destruct (mapGet Qeq_bool cursor0 nodesByID) as [node|];
    [|now injection H as <-].
  destruct (Qeq_bool (parentID node) 0 || setHas Qeq_bool (parentID node) seen);
    [now injection H as <-|].
  apply (IH _ _ _ _ H). rewrite setHas_setAdd, Hx. reflexivity.
Qed.

Lemma includeRendered_covers (nodesByID : list (Q * Node)) :
  forall renderedFibers included r,
    includeRendered nodesByID renderedFibers included = Some r ->
    forall x,
      setHas Qeq_bool x included = true \/
      setHas Qeq_bool x renderedFibers = true ->
      setHas Qeq_bool x r = true.
Proof.
  induction renderedFibers as [|f rest IH]; intros included r H x Hx;
    cbn [includeRendered] in H.
  - injection H as <-. destruct Hx as [Hx|Hx]; [exact Hx|discriminate].
  - destruct (ancestorsLoop _ _ _ _ _) as [included'|] eqn:Ea;
      [|discriminate].
    apply (IH _ _ H).
    rewrite setHas_cons in Hx.
    destruct Hx as [Hx|Hx];
      [left|apply orb_true_iff in Hx as [Hx|Hx]; [left|now right]];
      apply (ancestorsLoop_mono _ _ _ _ _ _ Ea);
      rewrite setHas_setAdd, ?Hx, ?orb_true_r; reflexivity.
Qed.

Lemma included_hasNode localeCompare t rootName fallback maps fg included
    depth0 memo (f : Q) :
  flameNodes fg
  = jsSort byDepthThenId
      (map (makeNode t fallback rootName maps (renderedFibersOf maps)
              (parentTable t included) (childrenTable t included)
              (fillDepths (rootFiberIdOf t) included depth0) memo)
         included) ->
  renderedComponents fg
  = jsSort (bySubtreeThenSelf localeCompare)
      (map (makeRendered fallback rootName maps (flameNodes fg))
         (renderedFibersOf maps)) ->
  setHas Qeq_bool f included = true ->
  exists f',
    In f' included /\ f == f' /\
    In (makeNode t fallback rootName maps (renderedFibersOf maps)
          (parentTable t included) (childrenTable t included)
          (fillDepths (rootFiberIdOf t) included depth0) memo f')
       (flameNodes fg).
Proof.
  intros Enodes _ Hf. apply setHas_exists in Hf as (f' & Hin & E).
  exists f'. split; [exact Hin|]. split; [exact E|].
  rewrite Enodes. apply (Permutation_in _ (jsSort_perm _ _)).
  now apply in_map.
Qed.

(** X10.  The flamegraph of a commit has a node for its root and for every
    fiber that has an entry in the commit's actual durations, self
    durations or change descriptions, and marks each of the latter as
    rendered. *)
Theorem flamegraph_covers_reported_fibers localeCompare t rootName fallback
    maps fg :
  buildCommitFlamegraph localeCompare t rootName fallback maps = Some fg ->
  hasNode fg (rootFiberId fg) /\
  forall f, reported maps f = true ->
    exists n, In n (flameNodes fg) /\ fiberId n == f /\ didRender n = true.
Proof.
  intros H.
  destruct (buildCommitFlamegraph_tables _ _ _ _ _ _ H)
    as (included & depth0 & memo & Einc & _ & Eroot & Enodes & Erc).
  split.
  - destruct (included_hasNode localeCompare t rootName fallback maps fg
                included depth0 memo (rootFiberIdOf t) Enodes Erc)
      as (f' & _ & E & Hin).
    + apply (includeRendered_covers _ _ _ _ Einc). left.
      rewrite setHas_cons, Qeq_bool_refl. reflexivity.
    + eexists. split; [exact Hin|]. rewrite Eroot.
      unfold makeNode. cbn [fiberId]. symmetry. exact E.
  - intros f Hf. rewrite <- reported_rendered in Hf.
    destruct (included_hasNode localeCompare t rootName fallback maps fg
                included depth0 memo f Enodes Erc)
      as (f' & _ & E & Hin).
    + apply (includeRendered_covers _ _ _ _ Einc). now right.
    + eexists. split; [exact Hin|]. unfold makeNode.
      cbn [fiberId didRender]. split; [symmetry; exact E|].
      rewrite <- (setHas_proper f f') by now apply Qeq_bool_iff.
      now rewrite Hf.
Qed.

Lemma flamegraph_covers_reported_fibers_witness :
  exists fg,
    smallFlamegraph = Some fg /\
    hasNode fg (rootFiberId fg) /\
    forall f, reported smallMaps f = true ->
      exists n, In n (flameNodes fg) /\ fiberId n == f /\ didRender n = true.
Proof.
  destruct smallFlamegraph as [fg|] eqn:E;
    [|exfalso; vm_compute in E; discriminate].
  exists fg. split; [reflexivity|].
  exact (flamegraph_covers_reported_fibers tieAll smallTree rootLiteral []
           smallMaps fg E).
Defined.

(** *** Each fiber once *)

Lemma Permutation_count {A : Type} (p : A -> bool) (l l' : list A) :
  Permutation l l' -> length (filter p l) = length (filter p l').
Proof.
  induction 1 as [|x l l' _ IH|x y l|l l' l'' _ IH1 _ IH2]; cbn [filter].
  - reflexivity.
  - destruct (p x); cbn [length]; now rewrite IH.
  - now destruct (p x), (p y).
  - now rewrite IH1.
Qed.

Lemma filter_absent (x : Q) (s : list Q) :
  setHas Qeq_bool x s = false -> filter (Qeq_bool x) s = [].
Proof.
  induction s as [|y s IH]; [reflexivity|].
  rewrite setHas_cons. intros H. apply orb_false_iff in H as [E H].
  cbn [filter]. rewrite E. now apply IH.
Qed.

Lemma atMostOnce_setAdd (y : Q) (s : list Q) :
  atMostOnce s -> atMostOnce (setAdd Qeq_bool y s).
Proof.
  intros Hs. unfold setAdd.
  destruct (setHas Qeq_bool y s) eqn:Ey; [exact Hs|].
  intros x. rewrite filter_app, length_app. cbn [filter].
  destruct (Qeq_bool x y) eqn:Exy; cbn [length].
  - rewrite filter_absent; [cbn [length]; lia|].
    now rewrite (setHas_proper x y).
  - specialize (Hs x). lia.
Qed.

Lemma ancestorsLoop_atMostOnce (nodesByID : list (Q * Node)) :
  forall fuel cursor0 seen included r,
    ancestorsLoop fuel nodesByID cursor0 seen included = Some r ->
    atMostOnce included -> atMostOnce r.
Proof.
  induction fuel as [|fuel IH]; intros cursor0 seen included r H Hinc;
    cbn [ancestorsLoop] in H; [discriminate|].
  destruct (mapGet Qeq_bool cursor0 nodesByID) as [node|];
    [|now injection H as <-].
  destruct (Qeq_bool (parentID node) 0 || setHas Qeq_bool (parentID node) seen);
    [now injection H as <-|].
  apply (IH _ _ _ _ H). now apply atMostOnce_setAdd.
Qed.

Lemma includeRendered_atMostOnce (nodesByID : list (Q * Node)) :
  forall renderedFibers included r,
    includeRendered nodesByID renderedFibers included = Some r ->
    atMostOnce included -> atMostOnce r.
Proof.
  induction renderedFibers as [|f rest IH]; intros included r H Hinc;
    cbn [includeRendered] in H; [now injection H as <-|].
  destruct (ancestorsLoop _ _ _ _ _) as [included'|] eqn:Ea; [|discriminate].
  apply (IH _ _ H). apply (ancestorsLoop_atMostOnce _ _ _ _ _ _ Ea).
  now apply atMostOnce_setAdd.
Qed.

(** X11.  No fiber has two nodes in a flamegraph: the fiber ids of the
    nodes are pairwise different. *)
Theorem flamegraph_nodes_distinct localeCompare t rootName fallback maps fg :
  buildCommitFlamegraph localeCompare t rootName fallback maps = Some fg ->
  atMostOnce (map fiberId (flameNodes fg)).
Proof.
  intros H.
  destruct (buildCommitFlamegraph_tables _ _ _ _ _ _ H)
    as (included & depth0 & memo & Einc & _ & _ & Enodes & _).
  assert (atMostOnce included) as Hinc.
  { apply (includeRendered_atMostOnce _ _ _ _ Einc).
    intros x. cbn [filter]. destruct (Qeq_bool x _); cbn [length]; lia. }
  intros x. rewrite Enodes.
  rewrite <- (Permutation_count (Qeq_bool x) _ _
                (Permutation_map fiberId (jsSort_perm byDepthThenId _))).
  rewrite map_map. unfold makeNode. cbn [fiberId]. rewrite map_id.
  apply Hinc.
Qed.

Lemma flamegraph_nodes_distinct_witness :
  exists fg,
    smallFlamegraph = Some fg /\
    atMostOnce (map fiberId (flameNodes fg)).
Proof.
  destruct smallFlamegraph as [fg|] eqn:E;
    [|exfalso; vm_compute in E; discriminate].
  exists fg. split; [reflexivity|].
  exact (flamegraph_nodes_distinct tieAll smallTree rootLiteral []
           smallMaps fg E).
Defined.

(** *** Order and depth *)

Lemma byDepthThenId_total (a b : FlamegraphNode) :
  byDepthThenId a b <= 0 \/ byDepthThenId b a <= 0.
Proof.
  unfold byDepthThenId. rewrite (Nat.eqb_sym (depth b)).
  destruct (Nat.eqb (depth a) (depth b)).
  - destruct (Qlt_le_dec (fiberId a) (fiberId b)); [left|right]; lra.
  - destruct (Nat.le_ge_cases (depth a) (depth b)) as [Hle|Hle];
      apply inject_nat_le in Hle; [left|right]; lra.
Qed.

Lemma byDepthThenId_before (a b : FlamegraphNode) :
  before byDepthThenId a b -> depthThenId a b.
Proof.
  unfold before, byDepthThenId, depthThenId.
  destruct (Nat.eqb_spec (depth a) (depth b)) as [E|E]; intros H.
  - right. split; [exact E|lra].
  - left.
    assert (inject_Z (Z.of_nat (depth a)) <= inject_Z (Z.of_nat (depth b)))
      as Hle by lra.
    rewrite <- Zle_Qle in Hle. lia.
Qed.

(** Every depth in the table is 0 for the root and at least 1 for another
    fiber, and the root has a depth. *)
Lemma visitChildren_depths (root : Q) (parentDepth : nat) :
  forall childIDs queue depthBy,
    mapHas Qeq_bool root depthBy = true ->
    (forall k d, mapGet Qeq_bool k depthBy = Some d ->
                 if Qeq_bool k root then d = O else (1 <= d)%nat) ->
    let r := visitChildren parentDepth childIDs queue depthBy in
    mapHas Qeq_bool root (snd r) = true /\
    (forall k d, mapGet Qeq_bool k (snd r) = Some d ->
                 if Qeq_bool k root then d = O else (1 <= d)%nat).
Proof.
  induction childIDs as [|c rest IH]; intros queue depthBy Hroot Hok;
    cbn [visitChildren]; [now split|].
  destruct (mapHas Qeq_bool c depthBy) eqn:Ec; [now apply IH|].
  apply IH.
  - now rewrite mapHas_mapSet, Hroot, orb_true_r.
  - intros k d. rewrite mapGet_mapSet.
    destruct (Qeq_bool k c) eqn:Ekc; [|apply Hok].
    intros Hd. injection Hd as <-.
    destruct (Qeq_bool k root) eqn:Ekr; [|lia].
    apply Qeq_bool_iff in Ekc, Ekr.
    rewrite (mapHas_proper c root) in Ec by (rewrite <- Ekc; exact Ekr).
    congruence.
Qed.

Lemma depthLoop_depths (root : Q) (childrenBy : list (Q * list Q)) :
  forall fuel queue depthBy r,
    depthLoop fuel childrenBy queue depthBy = Some r ->
    mapHas Qeq_bool root depthBy = true ->
    (forall k d, mapGet Qeq_bool k depthBy = Some d ->
                 if Qeq_bool k root then d = O else (1 <= d)%nat) ->
    mapHas Qeq_bool root r = true /\
    (forall k d, mapGet Qeq_bool k r = Some d ->
                 if Qeq_bool k root then d = O else (1 <= d)%nat).
Proof.
  induction fuel as [|fuel IH]; intros queue depthBy r H Hroot Hok;
    destruct queue as [|parent queue']; cbn [depthLoop] in H;
    try discriminate; try (injection H as <-; now split).
  pose proof (visitChildren_depths root
                match mapGet Qeq_bool parent depthBy with
                | Some d => d | None => O end
                (childrenIn childrenBy parent) queue' depthBy Hroot Hok)
    as Hv.
  destruct (visitChildren _ _ _ _) as [queue'' depthBy'].
  cbn [snd] in Hv. destruct Hv as [Hroot' Hok'].
  exact (IH _ _ _ H Hroot' Hok').
Qed.

Lemma fillDepths_depths (root : Q) :
  forall included depthBy,
    mapHas Qeq_bool root depthBy = true ->
    (forall k d, mapGet Qeq_bool k depthBy = Some d ->
                 if Qeq_bool k root then d = O else (1 <= d)%nat) ->
    (forall k d, mapGet Qeq_bool k (fillDepths root included depthBy)
                 = Some d ->
                 if Qeq_bool k root then d = O else (1 <= d)%nat) /\
    (forall f, mapHas Qeq_bool f depthBy = true \/
               setHas Qeq_bool f included = true ->
               mapHas Qeq_bool f (fillDepths root included depthBy) = true).
Proof.
  unfold fillDepths.
  induction included as [|c rest IH]; intros depthBy Hroot Hok;
    cbn [fold_left].
  - split; [exact Hok|]. intros f [Hf|Hf]; [exact Hf|discriminate].
  - destruct (mapHas Qeq_bool c depthBy) eqn:Ec.
    + destruct (IH depthBy Hroot Hok) as [Hok' Hcov].
      split; [exact Hok'|]. intros f Hf. apply Hcov.
      rewrite setHas_cons in Hf.
      destruct Hf as [Hf|Hf]; [now left|].
      apply orb_true_iff in Hf as [Hf|Hf]; [left|now right].
      apply Qeq_bool_iff in Hf. now rewrite (mapHas_proper f c).
    + destruct (IH (mapSet Qeq_bool c
                      (if Qeq_bool c root then O else 1%nat) depthBy))
        as [Hok' Hcov].
      * now rewrite mapHas_mapSet, Hroot, orb_true_r.
      * intros k d. rewrite mapGet_mapSet.
        destruct (Qeq_bool k c) eqn:Ekc; [|apply Hok].
        intros Hd. injection Hd as <-.
        apply Qeq_bool_iff in Ekc.
        rewrite (Qeq_bool_left k c root Ekc).
        destruct (Qeq_bool c root); [reflexivity|lia].
      * split; [exact Hok'|]. intros f Hf. apply Hcov.
        rewrite mapHas_mapSet. rewrite setHas_cons in Hf.
        destruct Hf as [Hf|Hf]; [left; now rewrite Hf, orb_true_r|].
        apply orb_true_iff in Hf as [Hf|Hf]; [left; now rewrite Hf|now right].
Qed.

(** X12.  The nodes of a flamegraph are listed by depth, and within one
    depth by fiber id; the root has depth 0 and every other node a depth
    of at least 1. *)
Theorem flamegraph_nodes_by_depth localeCompare t rootName fallback maps fg :
  buildCommitFlamegraph localeCompare t rootName fallback maps = Some fg ->
  Sorted depthThenId (flameNodes fg) /\
  forall n, In n (flameNodes fg) ->
    (fiberId n == rootFiberId fg -> depth n = O) /\
    (~ fiberId n == rootFiberId fg -> (1 <= depth n)%nat).
Proof.
  intros H.
  destruct (buildCommitFlamegraph_tables _ _ _ _ _ _ H)
    as (included & depth0 & memo & Einc & Edepth & Eroot & Enodes & _).
  split.
  - rewrite Enodes.
    apply (Sorted_weaken (before byDepthThenId));
      [exact byDepthThenId_before|].
    apply jsSort_sorted. exact byDepthThenId_total.
  - intros n Hn. rewrite Enodes in Hn.
    apply (Permutation_in _ (Permutation_sym (jsSort_perm _ _))) in Hn.
    apply in_map_iff in Hn as (f & <- & Hf).
    destruct (depthLoop_depths (rootFiberIdOf t) _ _ _ _ _ Edepth)
      as [Hroot0 Hok0].
    { unfold mapHas. cbn [mapGet]. now rewrite Qeq_bool_refl. }
    { intros k d. cbn [mapGet].
      destruct (Qeq_bool (rootFiberIdOf t) k) eqn:E; [|discriminate].
      intros Hd. injection Hd as <-.
      rewrite Qeq_bool_comm in E. now rewrite E. }
    destruct (fillDepths_depths (rootFiberIdOf t) included depth0
                Hroot0 Hok0) as [Hok Hcov].
    specialize (Hcov f (or_intror (setHas_in f included Hf))).
    unfold mapHas in Hcov. unfold makeNode. cbn [fiberId depth].
    rewrite Eroot.
    destruct (mapGet Qeq_bool f _) as [d|] eqn:Ed; [|discriminate].
    specialize (Hok f d Ed).
    split; intros E.
    + apply Qeq_bool_iff in E. now rewrite E in Hok.
    + destruct (Qeq_bool f (rootFiberIdOf t)) eqn:E'; [|exact Hok].
      apply Qeq_bool_iff in E'. contradiction.
Qed.

Lemma flamegraph_nodes_by_depth_witness :
  exists fg,
    smallFlamegraph = Some fg /\
    Sorted depthThenId (flameNodes fg) /\
    forall n, In n (flameNodes fg) ->
      (fiberId n == rootFiberId fg -> depth n = O) /\
      (~ fiberId n == rootFiberId fg -> (1 <= depth n)%nat).
Proof.
  destruct smallFlamegraph as [fg|] eqn:E;
    [|exfalso; vm_compute in E; discriminate].
  exists fg. split; [reflexivity|].
  exact (flamegraph_nodes_by_depth tieAll smallTree rootLiteral []
           smallMaps fg E).
Defined.

End FlamegraphStructure.

(** ** Commit flamegraph: parents, children and rendered components *)

Section FlamegraphLinks.
Import JS Coll CommitTree Flamegraph Analyze.

Lemma parentOf_proper nodesByID root included (f f' : Q) :
  f == f' ->
  parentOf nodesByID root included f = parentOf nodesByID root included f'.
Proof.
  intros E. unfold parentOf.
  now rewrite (Qeq_bool_left f f' root E), (mapGet_proper f f' nodesByID E).
Qed.

Lemma fold_parents {C : Type} (step : list (Q * Q) * C -> Q -> list (Q * Q) * C)
    (parent : Q -> Q) :
  (forall pb cb c,
     fst (step (pb, cb) c) = mapSet Qeq_bool c (parent c) pb) ->
  (forall f f', f == f' -> parent f = parent f') ->
  forall l acc f,
    mapGet Qeq_bool f (fst (fold_left step l acc))
    = if setHas Qeq_bool f l then Some (parent f)
      else mapGet Qeq_bool f (fst acc).
Proof.
  intros Hstep Hproper.
  induction l as [|c l IH]; intros [pb cb] f; cbn [fold_left];
    [reflexivity|].
  rewrite IH, Hstep, mapGet_mapSet, setHas_cons.
  destruct (setHas Qeq_bool f l); [now rewrite orb_true_r|].
  rewrite orb_false_r. destruct (Qeq_bool f c) eqn:E; [|reflexivity].
  apply Qeq_bool_iff in E. now rewrite (Hproper f c E).
Qed.

Lemma parentTable_spec (t : Tree) (included : list Q) (f : Q) :
  setHas Qeq_bool f included = true ->
  mapGet Qeq_bool f (parentTable t included)
  = Some (parentOf (nodes t) (rootFiberIdOf t) included f).
Proof.
  intros Hf. unfold parentTable, linkParents.
  rewrite (fold_parents _
             (parentOf (nodes t) (rootFiberIdOf t) included)).
  - now rewrite Hf.
  - intros pb cb c. cbv zeta.
    destruct (Qeq_bool _ 0); [reflexivity|].
    now destruct (setHas Qeq_bool c _).
  - apply parentOf_proper.
Qed.

(** X13.  A flamegraph is closed under its links: the root has the parent
    id 0, the parent of every other node is a node of the flamegraph, and
    so is every child that a node lists. *)
Theorem flamegraph_links_closed localeCompare t rootName fallback maps fg :
  buildCommitFlamegraph localeCompare t rootName fallback maps = Some fg ->
  forall n, In n (flameNodes fg) ->
    (fiberId n == rootFiberId fg -> parentFiberId n = 0) /\
    (~ fiberId n == rootFiberId fg -> hasNode fg (parentFiberId n)) /\
    (forall c, In c (childrenFiberIds n) -> hasNode fg c).
Proof.
  intros H n Hn.
  destruct (buildCommitFlamegraph_tables _ _ _ _ _ _ H)
    as (included & depth0 & memo & Einc & _ & Eroot & Enodes & Erc).
  assert (forall x, setHas Qeq_bool x included = true -> hasNode fg x)
    as Hhas.
  { intros x Hx.
    destruct (included_hasNode localeCompare t rootName fallback maps fg
                included depth0 memo x Enodes Erc Hx) as (x' & _ & E & Hin).
    eexists. split; [exact Hin|]. unfold makeNode. cbn [fiberId].
    symmetry. exact E. }
  assert (setHas Qeq_bool (rootFiberIdOf t) included = true) as Hroot.
  { apply (includeRendered_covers _ _ _ _ Einc). left.
    rewrite setHas_cons, Qeq_bool_refl. reflexivity. }
  rewrite Enodes in Hn.
  apply (Permutation_in _ (Permutation_sym (jsSort_perm _ _))) in Hn.
  apply in_map_iff in Hn as (f & <- & Hf).
  unfold makeNode. cbn [fiberId parentFiberId childrenFiberIds].
  rewrite Eroot, (parentTable_spec t included f (setHas_in f included Hf)).
  unfold parentOf. split; [|split].
  - intros E. apply Qeq_bool_iff in E. now rewrite E.
  - intros E. destruct (Qeq_bool f (rootFiberIdOf t)) eqn:E'.
    { apply Qeq_bool_iff in E'. contradiction. }
    destruct (mapGet Qeq_bool f (nodes t)) as [node|]; [|now apply Hhas].
    destruct (setHas Qeq_bool (parentID node) included) eqn:Ep;
      now apply Hhas.
  - intros c Hc. apply Hhas.
    pose proof (children_within (nodes t) (rootFiberIdOf t) included f)
      as Hw.
    unfold allWithin in Hw. rewrite Forall_forall in Hw. now apply Hw.
Qed.

Lemma flamegraph_links_closed_witness :
  exists fg n,
    smallFlamegraph = Some fg /\ nodeOf (Some fg) 4 = Some n /\
    (fiberId n == rootFiberId fg -> parentFiberId n = 0) /\
    (~ fiberId n == rootFiberId fg -> hasNode fg (parentFiberId n)) /\
    (forall c, In c (childrenFiberIds n) -> hasNode fg c).
Proof.
  destruct smallFlamegraph as [fg|] eqn:E;
    [|exfalso; vm_compute in E; discriminate].
  assert (exists n, nodeOf (Some fg) 4 = Some n) as [n En].
  { pose proof E as E2. vm_compute in E2. injection E2 as <-.
    eexists. vm_compute. reflexivity. }
  exists fg, n. split; [reflexivity|]. split; [exact En|].
  apply (flamegraph_links_closed tieAll smallTree rootLiteral [] smallMaps
           fg E n).
  exact (proj1 (find_some _ _ En)).
Defined.

(** *** The parent of the tree is kept *)

(** Every included fiber other than the root and the fiber at the cursor
    has its tree parent in the included set, unless that parent is 0. *)
Lemma ancestorsLoop_closed (nodesByID : list (Q * Node)) (root : Q) :
  forall fuel cursor0 seen included r,
    ancestorsLoop fuel nodesByID cursor0 seen included = Some r ->
    (forall x, setHas Qeq_bool x seen = true ->
               setHas Qeq_bool x included = true) ->
    (forall x node,
       setHas Qeq_bool x included = true ->
       Qeq_bool x root = false -> Qeq_bool x cursor0 = false ->
       mapGet Qeq_bool x nodesByID = Some node ->
       Qeq_bool (parentID node) 0 = false ->
       setHas Qeq_bool (parentID node) included = true) ->
    forall x node,
      setHas Qeq_bool x r = true -> Qeq_bool x root = false ->
      mapGet Qeq_bool x nodesByID = Some node ->
      Qeq_bool (parentID node) 0 = false ->
      setHas Qeq_bool (parentID node) r = true.
Proof.
  induction fuel as [|fuel IH]; intros cursor0 seen included r H Hseen Hinv;
    cbn [ancestorsLoop] in H; [discriminate|].
  destruct (mapGet Qeq_bool cursor0 nodesByID) as [cnode|] eqn:Ec.
  - destruct (Qeq_bool (parentID cnode) 0) eqn:Ezero; cbn [orb] in H.
    { injection H as <-. intros x node Hx Hr Hn Hp.
      destruct (Qeq_bool x cursor0) eqn:Exc; [|now apply (Hinv x node)].
      apply Qeq_bool_iff in Exc.
      rewrite (mapGet_proper x cursor0 nodesByID Exc), Ec in Hn.
      injection Hn as <-. congruence. }
    destruct (setHas Qeq_bool (parentID cnode) seen) eqn:Eseen.
    { injection H as <-. intros x node Hx Hr Hn Hp.
      destruct (Qeq_bool x cursor0) eqn:Exc; [|now apply (Hinv x node)].
      apply Qeq_bool_iff in Exc.
      rewrite (mapGet_proper x cursor0 nodesByID Exc), Ec in Hn.
      injection Hn as <-. now apply Hseen. }
    apply (IH _ _ _ _ H).
    + intros x. rewrite !setHas_setAdd. intros Hx.
      apply orb_true_iff in Hx as [Hx|Hx];
        [now rewrite (Hseen x Hx)|now rewrite Hx, orb_true_r].
    + intros x node. rewrite !setHas_setAdd. intros Hx Hr Hxp Hn Hp.
      apply orb_true_iff in Hx as [Hx|Hx]; [|congruence].
      destruct (Qeq_bool x cursor0) eqn:Exc.
      * apply Qeq_bool_iff in Exc.
        rewrite (mapGet_proper x cursor0 nodesByID Exc), Ec in Hn.
        injection Hn as <-. now rewrite Qeq_bool_refl, orb_true_r.
      * now rewrite (Hinv x node Hx Hr Exc Hn Hp).
  - injection H as <-. intros x node Hx Hr Hn Hp.
    destruct (Qeq_bool x cursor0) eqn:Exc; [|now apply (Hinv x node)].
    apply Qeq_bool_iff in Exc.
    rewrite (mapGet_proper x cursor0 nodesByID Exc), Ec in Hn. discriminate.
Qed.

Lemma includeRendered_closed (nodesByID : list (Q * Node)) (root : Q) :
  forall renderedFibers included r,
    includeRendered nodesByID renderedFibers included = Some r ->
    (forall x node,
       setHas Qeq_bool x included = true -> Qeq_bool x root = false ->
       mapGet Qeq_bool x nodesByID = Some node ->
       Qeq_bool (parentID node) 0 = false ->
       setHas Qeq_bool (parentID node) included = true) ->
    forall x node,
      setHas Qeq_bool x r = true -> Qeq_bool x root = false ->
      mapGet Qeq_bool x nodesByID = Some node ->
      Qeq_bool (parentID node) 0 = false ->
      setHas Qeq_bool (parentID node) r = true.
Proof.
  induction renderedFibers as [|f rest IH]; intros included r H Hinv;
    cbn [includeRendered] in H; [now injection H as <-|].
  destruct (ancestorsLoop _ _ _ _ _) as [included'|] eqn:Ea; [|discriminate].
  apply (IH _ _ H).
  apply (ancestorsLoop_closed nodesByID root _ _ _ _ _ Ea).
  - intros x. rewrite setHas_cons, setHas_setAdd. cbn [setHas existsb].
    rewrite orb_false_r. intros ->. apply orb_true_r.
  - intros x node. rewrite !setHas_setAdd. intros Hx Hr Hxf Hn Hp.
    apply orb_true_iff in Hx as [Hx|Hx]; [|congruence].
    now rewrite (Hinv x node Hx Hr Hn Hp).
Qed.

(** X14.  The flamegraph keeps the parent of the commit tree: a node other
    than the root whose fiber is in the tree with a parent id other than 0
    has that parent id, and the parent is a node of the flamegraph (the
    walk from a rendered fiber includes all its ancestors). *)
Theorem flamegraph_keeps_tree_parent localeCompare t rootName fallback maps
    fg :
  buildCommitFlamegraph localeCompare t rootName fallback maps = Some fg ->
  forall n node,
    In n (flameNodes fg) -> ~ fiberId n == rootFiberId fg ->
    mapGet Qeq_bool (fiberId n) (nodes t) = Some node ->
    ~ parentID node == 0 ->
    parentFiberId n = parentID node /\ hasNode fg (parentID node).
Proof.
  intros H n node Hn Hroot Hnode Hp.
  destruct (buildCommitFlamegraph_tables _ _ _ _ _ _ H)
    as (included & depth0 & memo & Einc & _ & Eroot & Enodes & Erc).
  rewrite Eroot in Hroot. rewrite Enodes in Hn.
  apply (Permutation_in _ (Permutation_sym (jsSort_perm _ _))) in Hn.
  apply in_map_iff in Hn as (f & <- & Hf).
  unfold makeNode in *. cbn [fiberId parentFiberId] in *.
  assert (Qeq_bool f (rootFiberIdOf t) = false) as Er.
  { destruct (Qeq_bool f (rootFiberIdOf t)) eqn:E; [|reflexivity].
    apply Qeq_bool_iff in E. contradiction. }
  assert (Qeq_bool (parentID node) 0 = false) as Ep.
  { destruct (Qeq_bool (parentID node) 0) eqn:E; [|reflexivity].
    apply Qeq_bool_iff in E. contradiction. }
  assert (setHas Qeq_bool (parentID node) included = true) as Hin.
  { apply (includeRendered_closed (nodes t) (rootFiberIdOf t) _ _ _ Einc)
      with (x := f); trivial; [|now apply setHas_in].
    intros x node' Hx Hxr. rewrite setHas_cons in Hx.
    cbn [setHas existsb] in Hx. rewrite orb_false_r in Hx. congruence. }
  split.
  - rewrite (parentTable_spec t included f (setHas_in f included Hf)).
    unfold parentOf. now rewrite Er, Hnode, Hin.
  - destruct (included_hasNode localeCompare t rootName fallback maps fg
                included depth0 memo (parentID node) Enodes Erc Hin)
      as (x' & _ & E & Hin').
    eexists. split; [exact Hin'|]. unfold makeNode. cbn [fiberId].
    symmetry. exact E.
Qed.

Lemma flamegraph_keeps_tree_parent_witness :
  exists fg n,
    smallFlamegraph = Some fg /\ nodeOf (Some fg) 4 = Some n /\
    parentFiberId n = parentID (plainNode 4 2 []) /\
    hasNode fg (parentID (plainNode 4 2 [])).
Proof.
  destruct smallFlamegraph as [fg|] eqn:E;
    [|exfalso; vm_compute in E; discriminate].
  assert (exists n, nodeOf (Some fg) 4 = Some n) as [n En].
  { pose proof E as E2. vm_compute in E2. injection E2 as <-.
    eexists. vm_compute. reflexivity. }
  exists fg, n. split; [reflexivity|]. split; [exact En|].
  pose proof (proj1 (find_some _ _ En)) as Hin.
  apply (flamegraph_keeps_tree_parent tieAll smallTree rootLiteral []
           smallMaps fg E n (plainNode 4 2 []) Hin).
  - pose proof E as E2. vm_compute in E2. injection E2 as <-.
    vm_compute in En. injection En as <-.
    cbn [fiberId rootFiberId]. intros Heq. discriminate Heq.
  - pose proof E as E2. vm_compute in E2. injection E2 as <-.
    vm_compute in En. injection En as <-. reflexivity.
  - cbn [plainNode parentID]. intros Heq. discriminate Heq.
Defined.

(** *** Rendered components *)

Lemma bySubtreeThenSelf_before localeCompare (a b : RenderedComponent) :
  before (bySubtreeThenSelf localeCompare) a b -> bySubtreeDescending a b.
Proof.
  unfold before, bySubtreeThenSelf, bySubtreeDescending.
  destruct (Qeq_bool (rcSubtreeMs b) (rcSubtreeMs a)) eqn:E; cbn [negb].
  - intros _. apply Qeq_bool_iff in E. lra.
  - intros H. lra.
Qed.

Lemma bySubtreeThenSelf_total (localeCompare : Name -> Name -> Q) :
  (forall a b, localeCompare a b <= 0 \/ localeCompare b a <= 0) ->
  forall a b,
    bySubtreeThenSelf localeCompare a b <= 0 \/
    bySubtreeThenSelf localeCompare b a <= 0.
Proof.
  intros Htotal a b. unfold bySubtreeThenSelf.
  rewrite (Qeq_bool_comm (rcSubtreeMs a)), (Qeq_bool_comm (rcSelfMs a)).
  destruct (Qeq_bool (rcSubtreeMs b) (rcSubtreeMs a)); cbn [negb].
  2:{ destruct (Qlt_le_dec (rcSubtreeMs a) (rcSubtreeMs b));
        [right|left]; lra. }
  destruct (Qeq_bool (rcSelfMs b) (rcSelfMs a)); cbn [negb].
  2:{ destruct (Qlt_le_dec (rcSelfMs a) (rcSelfMs b)); [right|left]; lra. }
  apply Htotal.
Qed.

(** X15.  [renderedComponents] has one entry for each rendered fiber of
    the commit; every entry repeats the name, the durations and the render
    reason of a node of the flamegraph that is marked as rendered; and
    for a locale comparison that is total the entries are listed by
    subtree time, descending. *)
Theorem rendered_components_follow_nodes localeCompare t rootName fallback
    maps fg :
  buildCommitFlamegraph localeCompare t rootName fallback maps = Some fg ->
  length (renderedComponents fg) = length (renderedFibersOf maps) /\
  (forall rc, In rc (renderedComponents fg) ->
     exists n,
       In n (flameNodes fg) /\ didRender n = true /\
       rcFiberId rc = fiberId n /\ rcName rc = name n /\
       rcSelfMs rc = selfMs n /\ rcSubtreeMs rc = subtreeMs n /\
       rcComputedSubtreeMs rc = computedSubtreeMs n /\
       rcWhyRendered rc = whyRendered n) /\
  ((forall a b, localeCompare a b <= 0 \/ localeCompare b a <= 0) ->
   Sorted bySubtreeDescending (renderedComponents fg)).
Proof.
  intros H.
  destruct (buildCommitFlamegraph_tables _ _ _ _ _ _ H)
    as (included & depth0 & memo & Einc & _ & Eroot & Enodes & Erc).
  split; [|split].
  - now rewrite Erc, jsSort_length, length_map.
  - intros rc Hrc. rewrite Erc in Hrc.
    apply (Permutation_in _ (Permutation_sym (jsSort_perm _ _))) in Hrc.
    apply in_map_iff in Hrc as (f & <- & Hf).
    destruct (included_hasNode localeCompare t rootName fallback maps fg
                included depth0 memo f Enodes Erc) as (f' & Hf' & E & Hin).
    { apply (includeRendered_covers _ _ _ _ Einc). right.
      now apply setHas_in. }
    unfold makeRendered.
    destruct (find (fun n => Qeq_bool (fiberId n) f) (rev (flameNodes fg)))
      as [n|] eqn:Efind.
    + apply find_some in Efind as [Hn En]. apply in_rev in Hn.
      exists n. split; [exact Hn|].
      split; [|cbn; repeat split].
      rewrite Enodes in Hn.
      apply (Permutation_in _ (Permutation_sym (jsSort_perm _ _))) in Hn.
      apply in_map_iff in Hn as (g & <- & Hg).
      unfold makeNode in *. cbn [fiberId didRender] in *.
      rewrite (setHas_proper g f) by exact En.
      now rewrite (setHas_in f _ Hf).
    + exfalso.
      pose proof (find_none _ _ Efind _ (proj1 (in_rev _ _) Hin)) as Hnone.
      unfold makeNode in Hnone. cbn [fiberId] in Hnone.
      rewrite Qeq_bool_comm in Hnone.
      apply Qeq_bool_iff in E. congruence.
  - intros Htotal. rewrite Erc.
    apply (Sorted_weaken (before (bySubtreeThenSelf localeCompare)));
      [apply bySubtreeThenSelf_before|].
    apply jsSort_sorted. now apply bySubtreeThenSelf_total.
Qed.

Lemma rendered_components_follow_nodes_witness :
  exists fg,
    smallFlamegraph = Some fg /\
    length (renderedComponents fg) = length (renderedFibersOf smallMaps) /\
    (forall rc, In rc (renderedComponents fg) ->
       exists n,
         In n (flameNodes fg) /\ didRender n = true /\
         rcFiberId rc = fiberId n /\ rcName rc = name n /\
         rcSelfMs rc = selfMs n /\ rcSubtreeMs rc = subtreeMs n /\
         rcComputedSubtreeMs rc = computedSubtreeMs n /\
         rcWhyRendered rc = whyRendered n) /\
    ((forall a b : Name, tieAll a b <= 0 \/ tieAll b a <= 0) ->
     Sorted bySubtreeDescending (renderedComponents fg)).
Proof.
  destruct smallFlamegraph as [fg|] eqn:E;
    [|exfalso; vm_compute in E; discriminate].
  exists fg. split; [reflexivity|].
  exact (rendered_components_follow_nodes tieAll smallTree rootLiteral []
           smallMaps fg E).
Defined.

End FlamegraphLinks.

(** ** Rounding, median, percentile and cadence: ranges *)

Section NumericRanges.
Import JS Cadence.

(** *** Median and percentile *)

Lemma sorted_nth_le (l : list Q) :
  Sorted Qle l ->
  forall i j, (i <= j)%nat -> (j < length l)%nat ->
    nth i l 0 <= nth j l 0.
Proof.
  intros Hs. apply Sorted_StronglySorted in Hs;
    [|intros a b c; apply Qle_trans].
  induction Hs as [|a l Hs IH Hall]; intros i j Hij Hj;
    [simpl in Hj; lia|].
  destruct j as [|j]; [replace i with O by lia; simpl; lra|].
  destruct i as [|i]; cbn [nth].
  - rewrite Forall_forall in Hall. apply Hall, nth_In.
    simpl in Hj. lia.
  - apply IH; simpl in Hj; lia.
Qed.

Lemma sorted_values (values : list Q) (i : nat) :
  (i < length values)%nat ->
  In (nth i (jsSort ascending values) 0) values.
Proof.
  intros Hi.
  apply (Permutation_in _ (Permutation_sym (jsSort_perm ascending values))).
  apply nth_In. now rewrite jsSort_length.
Qed.

Lemma median_bounds (values : list Q) :
  values <> [] ->
  exists m lo hi,
    median values = Some m /\ In lo values /\ In hi values /\
    lo <= m /\ m <= hi /\
    (Nat.odd (length values) = true -> m = lo).
Proof.
  intros Hne. destruct values as [|x l]; [congruence|].
  unfold median.
  set (values := x :: l). set (s := jsSort ascending values).
  assert (length s = length values) as Hlen by apply jsSort_length.
  assert (0 < length values)%nat as Hpos by (simpl; lia).
  assert (Nat.div (length s) 2 < length s)%nat as Hmid
    by (apply Nat.div_lt; lia).
  pose proof (Nat.div_mod_eq (length s) 2) as Hdm.
  pose proof (jsSort_ascending_sorted values) as Hs. fold s in Hs.
  destruct (Nat.eqb_spec (Nat.modulo (length s) 2) 0) as [E|E].
  - exists ((nth (Nat.div (length s) 2 - 1) s 0
             + nth (Nat.div (length s) 2) s 0) / 2),
      (nth (Nat.div (length s) 2 - 1) s 0),
      (nth (Nat.div (length s) 2) s 0).
    split; [reflexivity|].
    split; [apply sorted_values; lia|].
    split; [apply sorted_values; lia|].
    pose proof (sorted_nth_le s Hs (Nat.div (length s) 2 - 1)
                  (Nat.div (length s) 2) ltac:(lia) Hmid) as Hle.
    split; [|split].
    + apply Qle_shift_div_l; lra.
    + apply Qle_shift_div_r; lra.
    + intros Hodd. exfalso. rewrite <- Hlen, Nat.odd_spec in Hodd.
      destruct Hodd as [k Hk]. lia.
  - exists (nth (Nat.div (length s) 2) s 0),
      (nth (Nat.div (length s) 2) s 0),
      (nth (Nat.div (length s) 2) s 0).
    split; [reflexivity|].
    split; [apply sorted_values; lia|].
    split; [apply sorted_values; lia|].
    split; [lra|]. split; [lra|reflexivity].
Qed.



(** X18.  A percentile of a list that is not empty is one of its
    elements: the largest one for [p >= 100], the smallest one for
    [p <= 0]. *)
Theorem percentile_is_element (values : list Q) (p : Q) :
  values <> [] ->
  exists v,
    percentile values p = Some v /\ In v values /\
    (100 <= p -> forall x, In x values -> x <= v) /\
    (p <= 0 -> forall x, In x values -> v <= x).
Proof.
  intros Hne. destruct values as [|x0 l]; [congruence|].
  unfold percentile.
  set (values := x0 :: l). set (s := jsSort ascending values).
  assert (length s = length values) as Hlen by apply jsSort_length.
  assert (0 < length s)%nat as Hpos by (rewrite Hlen; simpl; lia).
  pose proof (jsSort_ascending_sorted values) as Hs. fold s in Hs.
  set (len := Z.of_nat (length s)).
  set (c := Qceiling (p / 100 * inject_Z len)).
  set (idx := Z.to_nat (Z.min (len - 1) (Z.max 0 (c - 1)))).
  assert (idx < length s)%nat as Hidx by (unfold idx, len; lia).
  assert (forall x, In x values -> exists i, (i < length s)%nat /\
                                             nth i s 0 = x) as Hnth.
  { intros x Hx.
    apply (Permutation_in _ (jsSort_perm ascending values)) in Hx.
    fold s in Hx. destruct (In_nth s x 0 Hx) as (i & Hi & E). eauto. }
  assert (0 < inject_Z len) as Hlenq.
  { change 0 with (inject_Z 0). rewrite <- Zlt_Qlt. unfold len. lia. }
  exists (nth idx s 0). split; [reflexivity|].
  split; [apply sorted_values; lia|]. split.
  - intros Hp y Hy. destruct (Hnth y Hy) as (i & Hi & <-).
    apply (sorted_nth_le s Hs); [|exact Hidx].
    assert (len <= c)%Z as Hc.
    { assert (inject_Z len <= p / 100 * inject_Z len) as Hq.
      { assert (1 <= p / 100) as H1 by (apply Qle_shift_div_l; lra).
        assert (1 * inject_Z len <= p / 100 * inject_Z len) as H2
          by (apply Qmult_le_compat_r; lra).
        lra. }
      apply Qceiling_resp_le in Hq. now rewrite Qceiling_Z in Hq. }
    unfold idx, len in *. lia.
  - intros Hp y Hy. destruct (Hnth y Hy) as (i & Hi & <-).
    apply (sorted_nth_le s Hs); [|exact Hi].
    assert (c <= 0)%Z as Hc.
    { assert (p / 100 * inject_Z len <= inject_Z 0) as Hq.
      { assert (p / 100 <= 0) as H1 by (apply Qle_shift_div_r; lra).
        assert (p / 100 * inject_Z len <= 0 * inject_Z len) as H2
          by (apply Qmult_le_compat_r; lra).
        change (inject_Z 0) with 0. lra. }
      apply Qceiling_resp_le in Hq. now rewrite Qceiling_Z in Hq. }
    unfold idx. lia.
Qed.

Lemma percentile_is_element_witness :
  exists v,
    percentile [3; 1; 2; 10] 95 = Some v /\ In v [3; 1; 2; 10] /\
    (100 <= 95 -> forall x, In x [3; 1; 2; 10] -> x <= v) /\
    (95 <= 0 -> forall x, In x [3; 1; 2; 10] -> v <= x).
Proof. apply (percentile_is_element [3; 1; 2; 10] 95). discriminate. Defined.

Lemma percentile_values (values : list Q) (p : Q) :
  values <> [] -> exists v, percentile values p = Some v.
Proof.
  destruct values as [|x l]; [congruence|]. intros _.
  eexists. reflexivity.
Qed.

Lemma median_le_percentile (values : list Q) (p m v : Q) :
  50 < p -> median values = Some m -> percentile values p = Some v ->
  m <= v.
Proof.
  intros Hp. destruct values as [|x0 l]; [discriminate|].
  unfold median, percentile.
  set (values := x0 :: l). set (s := jsSort ascending values).
  assert (length s = length values) as Hlen by apply jsSort_length.
  assert (0 < length s)%nat as Hpos by (rewrite Hlen; simpl; lia).
  pose proof (jsSort_ascending_sorted values) as Hs. fold s in Hs.
  set (len := Z.of_nat (length s)).
  set (c := Qceiling (p / 100 * inject_Z len)).
  set (idx := Z.to_nat (Z.min (len - 1) (Z.max 0 (c - 1)))).
  set (mid := Nat.div (length s) 2).
  assert (idx < length s)%nat as Hidx by (unfold idx, len; lia).
  assert (mid < length s)%nat as Hmid by (apply Nat.div_lt; lia).
  pose proof (Nat.div_mod_eq (length s) 2) as Hdm. fold mid in Hdm.
  pose proof (Nat.mod_upper_bound (length s) 2 ltac:(lia)) as Hmod.
  assert (mid <= idx)%nat as Hle.
  { assert (0 < inject_Z len) as Hlenq.
    { change 0 with (inject_Z 0). rewrite <- Zlt_Qlt. unfold len. lia. }
    assert (inject_Z (Z.of_nat mid) * 2 <= inject_Z len) as H1.
    { change 2 with (inject_Z 2). rewrite <- inject_Z_mult, <- Zle_Qle.
      unfold len. lia. }
    assert (inject_Z len * (1 # 2) < p / 100 * inject_Z len) as H2.
    { rewrite (Qmult_comm (inject_Z len)).
      apply Qmult_lt_compat_r; [exact Hlenq|].
      apply Qlt_shift_div_l; lra. }
    pose proof (Qle_ceiling (p / 100 * inject_Z len)) as H3. fold c in H3.
    assert (inject_Z (Z.of_nat mid) < inject_Z c) as H4 by lra.
    rewrite <- Zlt_Qlt in H4. unfold idx, len. lia. }
  pose proof (sorted_nth_le s Hs mid idx Hle Hidx) as Hmi.
  destruct (Nat.eqb (Nat.modulo (length s) 2) 0);
    intros Hm Hv; injection Hm as <-; injection Hv as <-.
  - pose proof (sorted_nth_le s Hs (mid - 1) mid ltac:(lia) Hmid) as Hmm.
    apply Qle_shift_div_r; lra.
  - exact Hmi.
Qed.

(** *** Cadence summary *)

Lemma consecutiveDeltas_nonneg (l : list Q) :
  Sorted Qle l -> Forall (fun d => 0 <= d) (consecutiveDeltas l).
Proof.
  induction 1 as [|a l Hs IH Hhd]; [constructor|].
  destruct l as [|b l]; [constructor|].
  change (consecutiveDeltas (a :: b :: l))
    with ((b - a) :: consecutiveDeltas (b :: l)).
  constructor; [|exact IH].
  inversion Hhd; subst. lra.
Qed.

(** X19.  The cadence summary of at least four timestamps, in any order,
    reports their number, a median delta that is not negative and a
    regularity between 0 and 1. *)
Theorem cadence_summary_ranges (timestampsMs : list Q) :
  (4 <= length timestampsMs)%nat ->
  samples (summarizeCadence timestampsMs) = length timestampsMs /\
  exists m r,
    medianDeltaMs (summarizeCadence timestampsMs) = Some m /\ 0 <= m /\
    regularity (summarizeCadence timestampsMs) = Some r /\ 0 <= r <= 1.
Proof.
  intros Hlen. unfold summarizeCadence.
  destruct (Nat.ltb_spec (length timestampsMs) 4) as [Hlt|_]; [lia|].
  cbn [samples medianDeltaMs regularity].
  split; [apply jsSort_length|].
  set (deltas := consecutiveDeltas (jsSort ascending timestampsMs)).
  assert (length deltas = pred (length timestampsMs)) as Hd.
  { unfold deltas. now rewrite consecutiveDeltas_length, jsSort_length. }
  assert (Forall (fun d => 0 <= d) deltas) as Hpos.
  { apply consecutiveDeltas_nonneg, jsSort_ascending_sorted. }
  eexists. eexists. split; [reflexivity|]. split.
  - apply round_nonneg.
    destruct deltas as [|d0 ds] eqn:Edeltas; [simpl in Hd; lia|].
    destruct (median_bounds (d0 :: ds))
      as (m & lo & hi & Em & Hlo & _ & Hle & _); [discriminate|].
    rewrite Em. cbn [orZero].
    rewrite Forall_forall in Hpos. specialize (Hpos lo Hlo). lra.
  - split; [reflexivity|].
    unfold regularityOf.
    destruct deltas as [|d0 ds] eqn:Edeltas; [simpl in Hd; lia|].
    set (m := median (d0 :: ds)).
    set (k := length (filter (isRegular m) (d0 :: ds))).
    set (n := length (d0 :: ds)).
    assert (k <= n)%nat as Hk by apply filter_length_le.
    assert (0 < n)%nat as Hn by (unfold n; simpl; lia).
    assert (0 < inject_Z (Z.of_nat n)) as Hnq.
    { change 0 with (inject_Z 0). rewrite <- Zlt_Qlt. lia. }
    assert (0 <= inject_Z (Z.of_nat k)) as Hkq.
    { change 0 with (inject_Z 0). rewrite <- Zle_Qle. lia. }
    assert (inject_Z (Z.of_nat k) <= inject_Z (Z.of_nat n)) as Hkn.
    { rewrite <- Zle_Qle. lia. }
    split.
    + apply round_nonneg. apply Qle_shift_div_l; lra.
    + apply Qle_trans with (round 1 3).
      * apply round_monotone. apply Qle_shift_div_r; lra.
      * rewrite (round_integer 1 3 1) by reflexivity.
        change (inject_Z 1) with 1. lra.
Qed.

Lemma cadence_summary_ranges_witness :
  samples (summarizeCadence [30; 0; 20; 10]) = length [30; 0; 20; 10] /\
  exists m r,
    medianDeltaMs (summarizeCadence [30; 0; 20; 10]) = Some m /\ 0 <= m /\
    regularity (summarizeCadence [30; 0; 20; 10]) = Some r /\ 0 <= r <= 1.
Proof. apply (cadence_summary_ranges [30; 0; 20; 10]). simpl. lia. Defined.

End NumericRanges.

(** ** Sparse maps of the export *)

Section PairEncodings.
Import JS Coll CommitTree Flamegraph Analyze.

(** X20.  The two encodings of a sparse map are read alike:
    [normalizePairEntries] returns the same pairs for the array of pairs
    [[k1, v1], [k2, v2], ...] and for the flat array [k1, v1, k2, v2, ...],
    and it drops a last number of the flat array that has no partner. *)
Theorem pair_encodings_agree (pairs : list (Q * Q)) :
  normalizePairEntries (fun n => n) (pairEntries pairs) = pairs /\
  normalizePairEntries (fun n => n) (flatEntries pairs) = pairs /\
  forall n,
    normalizePairEntries (fun n => n) (flatEntries pairs ++ [NumberEntry n])
    = pairs.
Proof.
  split; [apply normalizePairEntries_pairs|].
  unfold flatEntries.
  split; [|intros n]; induction pairs as [|[k v] rest IH];
    try reflexivity;
    cbn [map concat app fst snd normalizePairEntries]; now rewrite IH.
Qed.

Lemma mapGet_app {V : Type} (k : Q) (a b : list (Q * V)) :
  mapGet Qeq_bool k (a ++ b)
  = match mapGet Qeq_bool k a with
    | Some v => Some v
    | None => mapGet Qeq_bool k b
    end.
Proof.
  induction a as [|[k' v] a IH]; [reflexivity|]. cbn [app mapGet].
  now destruct (Qeq_bool k' k).
Qed.

Lemma mapGet_fold_mapSet {V : Type} (k : Q) :
  forall (pairs m : list (Q * V)),
    mapGet Qeq_bool k
      (fold_left (fun m kv => mapSet Qeq_bool (fst kv) (snd kv) m) pairs m)
    = match mapGet Qeq_bool k (rev pairs) with
      | Some v => Some v
      | None => mapGet Qeq_bool k m
      end.
Proof.
  induction pairs as [|[k' v] pairs IH]; intros m; [reflexivity|].
  cbn [fold_left rev fst snd]. rewrite IH, mapGet_app, mapGet_mapSet.
  cbn [mapGet]. rewrite (Qeq_bool_comm k' k).
  destruct (mapGet Qeq_bool k (rev pairs)); [reflexivity|].
  now destruct (Qeq_bool k k').
Qed.

Lemma keys_mapSet {V : Type} (k : Q) (v : V) (m : list (Q * V)) :
  map fst (mapSet Qeq_bool k v m) = setAdd Qeq_bool k (map fst m).
Proof.
  unfold setAdd. induction m as [|[k' v'] m IH]; [reflexivity|].
  cbn [mapSet map fst]. rewrite setHas_cons, (Qeq_bool_comm k k').
  destruct (Qeq_bool k' k); [reflexivity|]. cbn [orb map fst].
  rewrite IH. now destruct (setHas Qeq_bool k (map fst m)).
Qed.

(** X21.  [toPairMap] keeps one value for each key, the one of the last
    pair with that key: a key that occurs twice in the export does not get
    the sum of its values. *)
Theorem toPairMap_last_wins {V : Type} (ofNumber : Q -> V)
    (value : list (Entry V)) :
  atMostOnce (map fst (toPairMap ofNumber value)) /\
  forall k,
    mapGet Qeq_bool k (toPairMap ofNumber value)
    = mapGet Qeq_bool k (rev (normalizePairEntries ofNumber value)).
Proof.
  unfold toPairMap, mapOfPairs. split.
  - assert (forall pairs (m : list (Q * V)),
              atMostOnce (map fst m) ->
              atMostOnce
                (map fst
                   (fold_left
                      (fun m kv => mapSet Qeq_bool (fst kv) (snd kv) m)
                      pairs m))) as G.
    { induction pairs as [|kv pairs IH]; intros m Hm; [exact Hm|].
      cbn [fold_left]. apply IH. rewrite keys_mapSet.
      now apply atMostOnce_setAdd. }
    apply G. intros x. cbn. lia.
  - intros k. rewrite mapGet_fold_mapSet.
    now destruct (mapGet Qeq_bool k _).
Qed.

End PairEncodings.

(** ** Export analysis: the totals of the report *)

Section ReportTotals.
Import JS Coll CommitTree Flamegraph Analyze.
Variable localeCompare : Name -> Name -> Q.
Variable numberToString : Q -> jsstring.
Local Abbreviation sameName := (nameEqb numberToString).

Lemma analyzeRoots_invariant (I : Acc -> Prop) :
  (forall rootName fallback ops commitIndex commit commitTree acc
          commitTree' acc',
     analyzeCommit localeCompare numberToString rootName fallback ops
       commitIndex commit commitTree acc = Finished (commitTree', acc') ->
     I acc -> I acc') ->
  forall roots acc acc',
    analyzeRoots localeCompare numberToString roots acc
    = Finished acc' -> I acc -> I acc'.
Proof.
  intros Hstep.
  assert (forall rootName fallback operationsByCommit cs commitIndex
                 commitTree acc acc',
            analyzeCommits localeCompare numberToString rootName fallback
              operationsByCommit commitIndex cs commitTree acc
            = Finished acc' ->
            I acc -> I acc') as Hcommits.
  { intros rootName fallback operationsByCommit.
    induction cs as [|c rest IH]; intros commitIndex commitTree acc acc';
      [|destruct c as [commit|]]; cbn [analyzeCommits].
    - intros H Hacc. now injection H as <-.
    - destruct (analyzeCommit _ _ _ _ _ _ _ _ _) as [[t1 acc1]| |] eqn:E;
        try discriminate.
      intros H Hacc. apply (IH _ _ _ _ H).
      exact (Hstep _ _ _ _ _ _ _ _ _ E Hacc).
    - apply IH. }
  induction roots as [|root rest IH]; intros acc acc'; cbn [analyzeRoots].
  - intros H Hacc. now injection H as <-.
  - destruct (analyzeCommits _ _ _ _ _ _ _ _ _) as [acc1| |] eqn:E;
      try discriminate.
    intros H Hacc. apply (IH _ _ H). exact (Hcommits _ _ _ _ _ _ _ _ E Hacc).
Qed.

(** What one commit adds to the accumulators, before its samples. *)
Lemma analyzeCommit_result rootName fallback ops commitIndex commit
    commitTree acc commitTree' acc' :
  analyzeCommit localeCompare numberToString rootName fallback ops
    commitIndex commit commitTree acc = Finished (commitTree', acc') ->
  exists acc1 ts ce,
    acc' = fold_left (addSample numberToString ts)
             (renderedComponents (ceFlamegraph ce)) acc1 /\
    hotspotMap acc1 = hotspotMap acc /\
    commitCount acc1 = S (commitCount acc) /\
    componentRenderSamples acc1 = componentRenderSamples acc /\
    commitFlamegraphs acc1 = commitFlamegraphs acc ++ [ce] /\
    commitTimestampsMs acc1 = commitTimestampsMs acc ++ [ts] /\
    (commitDurationsMs acc1 = commitDurationsMs acc \/
     exists d, 0 < d /\
               commitDurationsMs acc1 = commitDurationsMs acc ++ [d]).
Proof.
  unfold analyzeCommit.
  destruct (match ops with
            | Some operations0 =>
                applyOperationsToCommitTree commitTree operations0
                  (warningSet acc)
            | None => Returned commitTree (warningSet acc)
            end) as [t1 ws1| |] eqn:Eops; try discriminate.
  destruct (buildCommitFlamegraph _ _ _ _ _) as [fg|]; [|discriminate].
  intros H. injection H as _ <-.
  set (ts := match pickNumber [timestamp commit; commitTime commit;
                               startTime commit] with
             | Some ts => ts
             | None => inject_Z (Z.of_nat commitIndex)
             end).
  eexists.
  exists ts, {| ceRootID := rootID t1; ceCommitIndex := commitIndex;
                ceTimestampMs := round ts 2;
                ceDurationMs := reportedDurationMs commit;
                ceFlamegraph := fg |}.
  split; [reflexivity|].
  cbn [hotspotMap commitCount componentRenderSamples commitFlamegraphs
       commitTimestampsMs commitDurationsMs warningSet ceFlamegraph].
  repeat split.
  destruct (commitDurationOf commit) as [d|]; [|now left].
  destruct (Qlt_bool 0 d) eqn:Ed; [|now left].
  right. exists d. split; [now apply Qlt_bool_iff|reflexivity].
Qed.

Lemma addSamples_fields ts rcs :
  forall acc,
    let r := fold_left (addSample numberToString ts) rcs acc in
    commitDurationsMs r = commitDurationsMs acc /\
    commitTimestampsMs r = commitTimestampsMs acc /\
    commitFlamegraphs r = commitFlamegraphs acc /\
    warningSet r = warningSet acc /\
    commitCount r = commitCount acc /\
    componentRenderSamples r
    = (componentRenderSamples acc + length rcs)%nat.
Proof.
  induction rcs as [|rc rcs IH]; intros acc; cbn [fold_left length].
  - repeat split. lia.
  - destruct (IH (addSample numberToString ts acc rc))
      as (H1 & H2 & H3 & H4 & H5 & H6).
    rewrite H1, H2, H3, H4, H5, H6. unfold addSample.
    cbn [commitDurationsMs commitTimestampsMs commitFlamegraphs warningSet
         commitCount componentRenderSamples].
    repeat split. lia.
Qed.

(** *** Aggregates by name *)

Lemma jsstringEqb_eq (a b : jsstring) : jsstringEqb a b = true <-> a = b.
Proof.
  unfold jsstringEqb. destruct (list_eq_dec Z.eq_dec a b);
    split; congruence.
Qed.

Lemma nameEqb_eq (a b : Name) :
  sameName a b = true
  <-> nameString numberToString a = nameString numberToString b.
Proof. apply jsstringEqb_eq. Qed.

Lemma nameEqb_sym (a b : Name) : sameName a b = sameName b a.
Proof.
  destruct (sameName a b) eqn:E, (sameName b a) eqn:E'; try reflexivity.
  - apply nameEqb_eq in E. symmetry in E. apply nameEqb_eq in E.
    congruence.
  - apply nameEqb_eq in E'. symmetry in E'. apply nameEqb_eq in E'.
    congruence.
Qed.

Lemma nameEqb_trans (a b c : Name) :
  sameName a b = true -> sameName b c = true -> sameName a c = true.
Proof.
  rewrite !nameEqb_eq. congruence.
Qed.

Lemma names_mapSet {V : Type} (k : Name) (v : V) (m : list (Name * V)) :
  namesOnce numberToString (map fst m) ->
  namesOnce numberToString (map fst (mapSet sameName k v m)).
Proof.
  intros Hm.
  assert (map fst (mapSet sameName k v m)
          = if existsb (fun k' => sameName k' k) (map fst m)
            then map fst m else map fst m ++ [k]) as ->.
  { clear Hm. induction m as [|[k' v'] m IH]; [reflexivity|].
    cbn [mapSet map fst existsb].
    destruct (sameName k' k); [reflexivity|]. cbn [orb map fst].
    rewrite IH. now destruct (existsb _ (map fst m)). }
  destruct (existsb (fun k' => sameName k' k) (map fst m)) eqn:E;
    [exact Hm|].
  intros x. rewrite filter_app, length_app. cbn [filter].
  destruct (sameName x k) eqn:Exk; cbn [length]; [|specialize (Hm x); lia].
  assert (filter (sameName x) (map fst m) = []) as ->; [|cbn; lia].
  induction (map fst m) as [|k' l IH]; [reflexivity|].
  cbn [existsb] in E. apply orb_false_iff in E as [E1 E2].
  cbn [filter]. destruct (sameName x k') eqn:Exk'.
  - rewrite nameEqb_sym in Exk'.
    now rewrite (nameEqb_trans k' x k Exk' Exk) in E1.
  - apply IH; [|exact E2]. intros y. specialize (Hm y). cbn [filter] in Hm.
    destruct (sameName y k'); cbn [length] in Hm; lia.
Qed.

Lemma upsert_Forall {V : Type} (P : Name * V -> Prop) (k : Name)
    (f : option V -> V) (m : list (Name * V)) :
  Forall P m ->
  (forall k' a, P (k', a) -> P (k', f (Some a))) ->
  P (k, f None) ->
  Forall P (mapSet sameName k (f (mapGet sameName k m)) m).
Proof.
  intros Hm Hsome Hnone.
  induction Hm as [|[k' a] m Ha Hm IH]; cbn [mapGet mapSet].
  - now repeat constructor.
  - destruct (sameName k' k); constructor; auto.
Qed.

Lemma upsert_sum {V : Type} (g : V -> nat) (k : Name) (f : option V -> V)
    (m : list (Name * V)) :
  (forall a, g (f (Some a)) = S (g a)) -> g (f None) = 1%nat ->
  list_sum (map (fun kv => g (snd kv))
              (mapSet sameName k (f (mapGet sameName k m)) m))
  = S (list_sum (map (fun kv => g (snd kv)) m)).
Proof.
  intros Hsome Hnone.
  assert (forall a l, list_sum (a :: l) = (a + list_sum l)%nat) as Hc
    by reflexivity.
  induction m as [|[k' a] m IH]; cbn [mapGet mapSet map snd].
  - rewrite Hc, Hnone. reflexivity.
  - destruct (sameName k' k); cbn [map snd]; rewrite !Hc.
    + now rewrite Hsome.
    + rewrite IH. lia.
Qed.

(** The aggregate that [addSample] stores, as a function of the one that
    it finds. *)
Lemma addSample_upsert ts acc rc :
  exists f : option Aggregate -> Aggregate,
    hotspotMap (addSample numberToString ts acc rc)
    = mapSet sameName (rcName rc)
        (f (mapGet sameName (rcName rc) (hotspotMap acc))) (hotspotMap acc) /\
    (forall a, aggCount (f (Some a)) = S (aggCount a) /\
               aggName (f (Some a)) = aggName a) /\
    aggCount (f None) = 1%nat /\ aggName (f None) = rcName rc.
Proof.
  exists (fun o =>
    let aggregate :=
      match o with
      | Some a => a
      | None =>
          {| aggName := rcName rc; aggCount := O; aggTotalMs := 0;
             aggTotalSelfMs := 0; aggTotalSubtreeMs := 0; aggMaxSelfMs := 0;
             aggMaxSubtreeMs := 0; aggReasonCounts := [] |}
      end in
    {| aggName := aggName aggregate;
       aggCount := S (aggCount aggregate);
       aggTotalMs :=
         aggTotalMs aggregate
         + (if Qlt_bool 0 (rcSelfMs rc) then rcSelfMs rc else rcSubtreeMs rc);
       aggTotalSelfMs := aggTotalSelfMs aggregate + rcSelfMs rc;
       aggTotalSubtreeMs := aggTotalSubtreeMs aggregate + rcSubtreeMs rc;
       aggMaxSelfMs := Qmax (aggMaxSelfMs aggregate) (rcSelfMs rc);
       aggMaxSubtreeMs := Qmax (aggMaxSubtreeMs aggregate) (rcSubtreeMs rc);
       aggReasonCounts :=
         match rcWhyRendered rc with
         | Some reasonSummary => bump reasonSummary (aggReasonCounts aggregate)
         | None => aggReasonCounts aggregate
         end |}).
  repeat split.
Qed.

(** The aggregates are stored under their names, each with at least one
    sample, and no name has two aggregates. *)
Lemma addSamples_aggregates ts rcs :
  forall acc,
    let r := fold_left (addSample numberToString ts) rcs acc in
    (namesOnce numberToString (map fst (hotspotMap acc)) ->
     namesOnce numberToString (map fst (hotspotMap r))) /\
    (Forall (fun kv => aggName (snd kv) = fst kv /\
                       (1 <= aggCount (snd kv))%nat) (hotspotMap acc) ->
     Forall (fun kv => aggName (snd kv) = fst kv /\
                       (1 <= aggCount (snd kv))%nat) (hotspotMap r)) /\
    list_sum (map (fun kv => aggCount (snd kv)) (hotspotMap r))
    = (list_sum (map (fun kv => aggCount (snd kv)) (hotspotMap acc))
       + length rcs)%nat.
Proof.
  induction rcs as [|rc rcs IH]; intros acc; cbn [fold_left length].
  - repeat split; auto.
  - destruct (IH (addSample numberToString ts acc rc)) as (H1 & H2 & H3).
    destruct (addSample_upsert ts acc rc) as (f & Ef & Hsome & Hn1 & Hn2).
    split; [|split].
    + intros Hacc. apply H1. rewrite Ef. now apply names_mapSet.
    + intros Hacc. apply H2. rewrite Ef.
      apply upsert_Forall; [exact Hacc| |].
      * intros k' a [Ha1 Ha2]. destruct (Hsome a) as [Hc Hname].
        cbn [fst snd] in *. rewrite Hc, Hname. split; [exact Ha1|lia].
      * cbn [fst snd]. rewrite Hn1, Hn2. split; [reflexivity|lia].
    + rewrite H3, Ef, (upsert_sum aggCount); [lia| |exact Hn1].
      intros a. apply Hsome.
Qed.



Lemma count_firstn {A : Type} (p : A -> bool) (n : nat) (l : list A) :
  (length (filter p (firstn n l)) <= length (filter p l))%nat.
Proof.
  rewrite <- (firstn_skipn n l) at 2. rewrite filter_app, length_app. lia.
Qed.




Lemma analyzeRoots_aggregates roots acc :
  analyzeRoots localeCompare numberToString roots emptyAcc = Finished acc ->
  namesOnce numberToString (map fst (hotspotMap acc)) /\
  Forall (fun kv => aggName (snd kv) = fst kv /\
                    (1 <= aggCount (snd kv))%nat) (hotspotMap acc).
Proof.
  intros H.
  apply (analyzeRoots_invariant
           (fun acc =>
              namesOnce numberToString (map fst (hotspotMap acc)) /\
              Forall (fun kv => aggName (snd kv) = fst kv /\
                                (1 <= aggCount (snd kv))%nat)
                (hotspotMap acc)))
    with (roots := roots) (acc := emptyAcc); [|exact H|].
  - clear. intros rootName fallback ops commitIndex commit commitTree acc
      commitTree' acc' Hc (K1 & K2).
    destruct (analyzeCommit_result _ _ _ _ _ _ _ _ _ Hc)
      as (acc1 & ts & ce & -> & Ehot & _).
    destruct (addSamples_aggregates ts (renderedComponents (ceFlamegraph ce))
                acc1) as (G1 & G2 & _).
    rewrite Ehot in G1, G2. split; auto.
  - split; [intros x; cbn; lia|constructor].
Qed.

Lemma namesOnce_NoDup (names : list Name) :
  namesOnce numberToString names ->
  NoDup (map (nameString numberToString) names).
Proof.
  induction names as [|a rest IH]; intros H; cbn [map]; constructor.
  - intros Hin. apply in_map_iff in Hin as (b & Eb & Hb).
    specialize (H a). cbn [filter] in H.
    assert (sameName a a = true) as Haa by now apply nameEqb_eq.
    rewrite Haa in H. cbn [length] in H.
    assert (In b (filter (sameName a) rest)) as Hf.
    { apply filter_In. split; [exact Hb|]. now apply nameEqb_eq. }
    destruct (filter (sameName a) rest); [contradiction|].
    cbn [length] in H. lia.
  - apply IH. intros x. specialize (H x). cbn [filter] in H.
    destruct (sameName x a); cbn [length] in H; lia.
Qed.

(** X23.  The hotspots of a report group the samples by component name:
    no name, as a string, is listed twice (a display name that spells the
    fallback name of another fiber shares its hotspot), and every hotspot
    counts at least one sample. *)
Theorem hotspots_grouped_by_name dataForRoots report :
  analyzeReactDevtoolsExport localeCompare numberToString dataForRoots
  = Finished report ->
  NoDup (map (fun h => nameString numberToString (hsName h))
           (hotspots report)) /\
  Forall (fun h => (1 <= hsCount h)%nat) (hotspots report).
Proof.
  intros H. destruct (analyze_report _ _ _ _ H) as (acc & Hacc & ->).
  destruct (analyzeRoots_aggregates _ _ Hacc) as (K1 & K2).
  cbn [reportOf hotspots]. unfold hotspotsOf, slice0.
  set (all := map (fun kv => toHotspot (snd kv)) (hotspotMap acc)).
  assert (map hsName all = map fst (hotspotMap acc)) as Enames.
  { unfold all. rewrite map_map. apply map_ext_in. intros kv Hkv.
    rewrite Forall_forall in K2. apply (K2 kv Hkv). }
  split.
  - rewrite <- (map_map hsName (nameString numberToString)).
    apply namesOnce_NoDup.
    intros x. rewrite <- firstn_map.
    eapply Nat.le_trans; [apply count_firstn|].
    rewrite <- (Permutation_count (sameName x) _ _
                  (Permutation_map hsName (jsSort_perm byTotalThenCount all))).
    rewrite Enames. apply K1.
  - apply Forall_forall. intros h Hh.
    assert (In h (jsSort byTotalThenCount all)) as Hh'.
    { rewrite <- (firstn_skipn 25). apply in_or_app. now left. }
    clear Hh. rename Hh' into Hh.
    apply (Permutation_in _ (Permutation_sym (jsSort_perm _ _))) in Hh.
    unfold all in Hh. apply in_map_iff in Hh as (kv & <- & Hkv).
    rewrite Forall_forall in K2. apply (K2 kv Hkv).
Qed.

(** *** Commit statistics of the report *)

Lemma analyzeRoots_durations roots acc :
  analyzeRoots localeCompare numberToString roots emptyAcc = Finished acc ->
  Forall (fun d => 0 < d) (commitDurationsMs acc).
Proof.
  intros H.
  apply (analyzeRoots_invariant
           (fun acc => Forall (fun d => 0 < d) (commitDurationsMs acc)))
    with (roots := roots) (acc := emptyAcc); [|exact H|].
  - clear. intros rootName fallback ops commitIndex commit commitTree acc
      commitTree' acc' Hc D2.
    destruct (analyzeCommit_result _ _ _ _ _ _ _ _ _ Hc)
      as (acc1 & ts & ce & -> & _ & _ & _ & _ & _ & Edur).
    destruct (addSamples_fields ts (renderedComponents (ceFlamegraph ce))
                acc1) as (F1 & _).
    rewrite F1.
    destruct Edur as [->|(d & Hd & ->)]; [exact D2|].
    apply Forall_app. split; [exact D2|]. now repeat constructor.
  - constructor.
Qed.

(** X24.  The commit statistics of a report are ordered: [avgCommitMs],
    the median of the positive commit durations, is not negative and not
    above [p95CommitMs]. *)
Theorem report_statistics_ordered dataForRoots report :
  analyzeReactDevtoolsExport localeCompare numberToString dataForRoots
  = Finished report ->
  0 <= avgCommitMs report /\ avgCommitMs report <= p95CommitMs report.
Proof.
  intros H. destruct (analyze_report _ _ _ _ H) as (acc & Hacc & ->).
  pose proof (analyzeRoots_durations _ _ Hacc) as D2.
  cbn [reportOf avgCommitMs p95CommitMs].
  destruct (commitDurationsMs acc) as [|d ds] eqn:Eds.
  - cbn [median percentile]. split; [apply round_nonneg|]; lra.
  - destruct (median_bounds (d :: ds))
      as (m & lo & hi & Em & Hlo & _ & Hle & _); [discriminate|].
    destruct (percentile_values (d :: ds) 95) as (v & Ev); [discriminate|].
    rewrite Em, Ev. split.
    + apply round_nonneg. rewrite Forall_forall in D2.
      specialize (D2 lo Hlo). lra.
    + apply round_monotone.
      apply (median_le_percentile (d :: ds) 95); [lra|exact Em|exact Ev].
Qed.

End ReportTotals.

Section ReportTotalsExamples.
Import JS Coll CommitTree Flamegraph Analyze.


Lemma hotspots_grouped_by_name_witness :
  exists report,
    analyzeReactDevtoolsExport tieAll decimalString sharedNameExport
    = Finished report /\
    NoDup (map (fun h => nameString decimalString (hsName h))
             (hotspots report)) /\
    Forall (fun h => (1 <= hsCount h)%nat) (hotspots report).
Proof.
  destruct (analyzeReactDevtoolsExport tieAll decimalString
              sharedNameExport)
    as [report| |] eqn:E; [|vm_compute in E; discriminate E ..].
  exists report. split; [reflexivity|].
  exact (hotspots_grouped_by_name tieAll decimalString sharedNameExport
           report E).
Defined.

(** The fibers 2 and 3 of [sharedNameExport] have the same name, one as a
    display name and one as a fallback: they share one hotspot. *)
Example shared_name_one_hotspot :
  match analyzeReactDevtoolsExport tieAll decimalString sharedNameExport with
  | Finished report =>
      map (fun h => (nameString decimalString (hsName h), hsCount h))
        (hotspots report)
      = [(rootLiteral ++ fiberMark ++ [51%Z], 2%nat)]
  | _ => False
  end.
Proof. vm_compute. reflexivity. Qed.

Lemma report_statistics_ordered_witness :
  exists report,
    analyzeReactDevtoolsExport tieAll decimalString threeChildrenExport
    = Finished report /\
    0 <= avgCommitMs report /\ avgCommitMs report <= p95CommitMs report.
Proof.
  destruct (analyzeReactDevtoolsExport tieAll decimalString threeChildrenExport)
    as [report| |] eqn:E; [|vm_compute in E; discriminate E ..].
  exists report. split; [reflexivity|].
  exact (report_statistics_ordered tieAll decimalString threeChildrenExport
           report E).
Defined.

End ReportTotalsExamples.

(** ** Report comparator: the top lists and the verdict *)

Section CompareProperties.
Import JS Coll Compare.

Lemma filter_map_none {A B : Type} (p : B -> bool) (f : A -> B)
    (l : list A) :
  (forall x, p (f x) = false) -> filter p (map f l) = [].
Proof.
  intros H. induction l as [|x l IH]; [reflexivity|].
  cbn [map filter]. now rewrite H.
Qed.

(** X25.  Comparing a report with itself finds nothing: the verdict is
    mixed and both top lists are empty. *)
Theorem compare_with_itself (r : Report) :
  verdict (compareReports r r) = mixed /\
  topImprovements (compareReports r r) = [] /\
  topRegressions (compareReports r r) = [].
Proof.
  split; [|split].
  - rewrite verdict_unfold. cbv zeta.
    unfold primaryDecreased, primaryIncreased.
    rewrite (Qlt_bool_eq_false _ _ (Qeq_refl (primary r r r))).
    cbn [andb orb]. now destruct (isTrue (cadenceLikelyIntervalChurn r)).
  - unfold compareReports, hotspotDiffs, slice0.
    cbn [topImprovements].
    destruct (hasDurationSignal r r); rewrite filter_map_none;
      try reflexivity; intros nm; cbn [deltaMs countDelta].
    + apply Qlt_bool_eq_false. apply (round_integer 0). ring.
    + apply Qlt_bool_eq_false. ring.
  - unfold compareReports, hotspotDiffs, slice0.
    cbn [topRegressions].
    destruct (hasDurationSignal r r); rewrite filter_map_none;
      try reflexivity; intros nm; cbn [deltaMs countDelta].
    + apply Qlt_bool_eq_false. symmetry. apply (round_integer 0). ring.
    + apply Qlt_bool_eq_false. ring.
Qed.

(** *** Top lists *)

Lemma Sorted_firstn {A : Type} (R : A -> A -> Prop) (n : nat) (l : list A) :
  Sorted R l -> Sorted R (firstn n l).
Proof.
  intros Hs. revert n.
  induction Hs as [|a l Hs IH Hhd]; intros [|n]; cbn [firstn];
    try constructor.
  - apply IH.
  - destruct Hhd as [|b l Hab]; [destruct n; constructor|].
    destruct n; constructor. exact Hab.
Qed.

(** What [slice(0, n)] of a sorted selection is. *)
Lemma top_list {A : Type} (cmp : A -> A -> Q) (p : A -> bool) (n : nat)
    (l : list A) :
  (forall a b, cmp a b <= 0 \/ cmp b a <= 0) ->
  let top := slice0 n (jsSort cmp (filter p l)) in
  (length top <= n)%nat /\
  (forall d, In d top -> In d l /\ p d = true) /\
  Sorted (before cmp) top.
Proof.
  intros Htotal. cbv zeta. unfold slice0. split; [|split].
  - apply firstn_le_length.
  - intros d Hd.
    assert (In d (jsSort cmp (filter p l))) as Hd'.
    { rewrite <- (firstn_skipn n). apply in_or_app. now left. }
    apply (Permutation_in _ (Permutation_sym (jsSort_perm _ _))) in Hd'.
    now apply filter_In in Hd'.
  - apply Sorted_firstn. now apply jsSort_sorted.
Qed.

Lemma setOfList_incl (l : list string) :
  incl (setOfList String.eqb l) l.
Proof.
  unfold setOfList.
  assert (forall s, incl s l ->
            forall l', incl l' l ->
              incl (fold_left (fun s x => setAdd String.eqb x s) l' s) l)
    as G.
  { intros s Hs l'. revert s Hs.
    induction l' as [|x l' IH]; intros s Hs Hl'; [exact Hs|].
    cbn [fold_left]. apply IH.
    - unfold setAdd. destruct (setHas String.eqb x s); [exact Hs|].
      apply incl_app; [exact Hs|]. intros y [<-|[]]. apply Hl'. now left.
    - intros y Hy. apply Hl'. now right. }
  apply G; [intros x []|apply incl_refl].
Qed.

Lemma hotspotMap_keys (r : Report) :
  incl (map fst (hotspotMap r)) (map name (hotspots r)).
Proof.
  unfold hotspotMap.
  assert (forall hs m,
            incl (map fst m) (map name (hotspots r)) ->
            incl hs (hotspots r) ->
            incl (map fst
                    (fold_left (fun m h => mapSet String.eqb (name h) h m)
                       hs m))
                 (map name (hotspots r))) as G.
  { induction hs as [|h hs IH]; intros m Hm Hhs; [exact Hm|].
    cbn [fold_left]. apply IH; [|intros y Hy; apply Hhs; now right].
    clear IH. induction m as [|[k v] m IHm]; cbn [mapSet map fst].
    - intros y [<-|[]]. apply in_map, Hhs. now left.
    - destruct (String.eqb k (name h)); cbn [map fst].
      + exact Hm.
      + intros y [<-|Hy]; [apply Hm; now left|].
        apply IHm; [|exact Hy]. intros z Hz. apply Hm. now right. }
  apply G; [intros x []|apply incl_refl].
Qed.

(** X26.  Each top list of a comparison has at most ten entries, all of
    hotspots that one of the two reports names; the improvements have a
    negative delta and come most negative first, the regressions have a
    positive delta and come largest first, so that no hotspot is in both
    lists. *)
Theorem top_lists_ranked (before after : Report) :
  let c := compareReports before after in
  ((length (topImprovements c) <= 10)%nat /\
   (forall d, In d (topImprovements c) ->
      metricOf c d < 0 /\ In (diffName d) (hotspotNames before after)) /\
   Sorted (fun a b => metricOf c a <= metricOf c b) (topImprovements c)) /\
  ((length (topRegressions c) <= 10)%nat /\
   (forall d, In d (topRegressions c) ->
      0 < metricOf c d /\ In (diffName d) (hotspotNames before after)) /\
   Sorted (fun a b => metricOf c b <= metricOf c a) (topRegressions c)).
Proof.
  cbv zeta.
  assert (forall d, In d (hotspotDiffs before after) ->
            In (diffName d) (hotspotNames before after)) as Hnames.
  { intros d Hd. unfold hotspotDiffs in Hd.
    apply in_map_iff in Hd as (nm & <- & Hnm). cbn [diffName].
    apply setOfList_incl in Hnm. unfold hotspotNames.
    apply in_app_or in Hnm as [Hnm|Hnm]; apply in_or_app;
      [left|right]; now apply hotspotMap_keys. }
  unfold metricOf, compareReports.
  cbn [comparedUsing topImprovements topRegressions].
  destruct (hasDurationSignal before after); split.
  - destruct (top_list (fun a b => deltaMs a - deltaMs b)
                (fun d => Qlt_bool (deltaMs d) 0) 10
                (hotspotDiffs before after)) as (H1 & H2 & H3).
    { intros a b. destruct (Qlt_le_dec (deltaMs a) (deltaMs b));
        [left|right]; lra. }
    split; [exact H1|]. split.
    + intros d Hd. destruct (H2 d Hd) as [Hin Hp].
      split; [now apply Qlt_bool_iff|now apply Hnames].
    + refine (Sorted_weaken _ _ _ _ H3).
      intros a b H. unfold Statements.before in H. lra.
  - destruct (top_list (fun a b => deltaMs b - deltaMs a)
                (fun d => Qlt_bool 0 (deltaMs d)) 10
                (hotspotDiffs before after)) as (H1 & H2 & H3).
    { intros a b. destruct (Qlt_le_dec (deltaMs a) (deltaMs b));
        [right|left]; lra. }
    split; [exact H1|]. split.
    + intros d Hd. destruct (H2 d Hd) as [Hin Hp].
      split; [now apply Qlt_bool_iff|now apply Hnames].
    + refine (Sorted_weaken _ _ _ _ H3).
      intros a b H. unfold Statements.before in H. lra.
  - destruct (top_list (fun a b => countDelta a - countDelta b)
                (fun d => Qlt_bool (countDelta d) 0) 10
                (hotspotDiffs before after)) as (H1 & H2 & H3).
    { intros a b. destruct (Qlt_le_dec (countDelta a) (countDelta b));
        [left|right]; lra. }
    split; [exact H1|]. split.
    + intros d Hd. destruct (H2 d Hd) as [Hin Hp].
      split; [now apply Qlt_bool_iff|now apply Hnames].
    + refine (Sorted_weaken _ _ _ _ H3).
      intros a b H. unfold Statements.before in H. lra.
  - destruct (top_list (fun a b => countDelta b - countDelta a)
                (fun d => Qlt_bool 0 (countDelta d)) 10
                (hotspotDiffs before after)) as (H1 & H2 & H3).
    { intros a b. destruct (Qlt_le_dec (countDelta a) (countDelta b));
        [right|left]; lra. }
    split; [exact H1|]. split.
    + intros d Hd. destruct (H2 d Hd) as [Hin Hp].
      split; [now apply Qlt_bool_iff|now apply Hnames].
    + refine (Sorted_weaken _ _ _ _ H3).
      intros a b H. unfold Statements.before in H. lra.
Qed.

(** *** Verdict of the reverse comparison *)

Lemma primary_swap (a b r : Report) : primary b a r = primary a b r.
Proof.
  unfold primary, hasDurationSignal. now rewrite orb_comm.
Qed.

(** X27.  A change that is judged improved is judged regressed when the
    two reports are exchanged. *)
Theorem improved_reverse_is_regressed (before after : Report) :
  verdict (compareReports before after) = improved ->
  verdict (compareReports after before) = regressed.
Proof.
  rewrite !verdict_unfold. cbv zeta.
  unfold primaryDecreased, primaryIncreased.
  rewrite !(primary_swap after before).
  destruct (Qlt_bool (primary after before after)
              (primary after before before)) eqn:E.
  - intros _. rewrite (Qlt_bool_asym _ _ E). reflexivity.
  - cbn [andb].
    destruct (Qlt_bool _ _ || _); discriminate.
Qed.

Lemma improved_reverse_is_regressed_witness :
  verdict (compareReports fastChurning slowQuiet) = regressed.
Proof.
  apply (improved_reverse_is_regressed slowQuiet fastChurning).
  reflexivity.
Defined.

(** *** Percentages *)

(** X28.  [pctDelta] is 0 for a baseline of 0, without dividing.  For a
    positive baseline it has the sign of the change: negative exactly when
    the value went down, positive exactly when it went up.  For a negative
    baseline the sign is reversed. *)
Theorem pctDelta_sign_of_change (b a : Q) :
  (b == 0 -> pctDelta b a = 0) /\
  (0 < b -> (pctDelta b a < 0 <-> a < b) /\ (0 < pctDelta b a <-> b < a)) /\
  (b < 0 -> (pctDelta b a < 0 <-> b < a) /\ (0 < pctDelta b a <-> a < b)).
Proof.
  assert (Hsign : forall k x : Q, 0 < k ->
            (x * k < 0 <-> x < 0) /\ (0 < x * k <-> 0 < x)).
  { intros k x Hk. split; split; intros H.
    - destruct (Qlt_le_dec x 0) as [Hl|Hl]; [exact Hl|exfalso].
      assert (0 <= x * k) by (apply Qmult_le_0_compat; lra). lra.
    - assert (0 < (- x) * k) by (apply Qmult_lt_0_compat; lra).
      assert ((- x) * k == - (x * k)) as E by ring. lra.
    - destruct (Qlt_le_dec 0 x) as [Hl|Hl]; [exact Hl|exfalso].
      assert (0 <= (- x) * k) by (apply Qmult_le_0_compat; lra).
      assert ((- x) * k == - (x * k)) as E by ring. lra.
    - apply Qmult_lt_0_compat; lra. }
  unfold pctDelta. split; [|split].
  - intros E. apply Qeq_bool_iff in E. now rewrite E.
  - intros Hb. destruct (Qeq_bool b 0) eqn:E0.
    { apply Qeq_bool_iff in E0. lra. }
    assert (0 < / b) as Hinv by now apply Qinv_lt_0_compat.
    assert ((a - b) / b * 100 == (a - b) * (100 * / b)) as ->
      by (field; lra).
    assert (0 < 100 * / b) as Hk by (apply Qmult_lt_0_compat; lra).
    destruct (Hsign (100 * / b) (a - b) Hk) as [H1 H2].
    split; [rewrite H1|rewrite H2]; split; intros H; lra.
  - intros Hb. destruct (Qeq_bool b 0) eqn:E0.
    { apply Qeq_bool_iff in E0. lra. }
    assert (0 < / - b) as Hinv by (apply Qinv_lt_0_compat; lra).
    assert ((a - b) / b * 100 == (b - a) * (100 * / - b)) as ->
      by (field; lra).
    assert (0 < 100 * / - b) as Hk by (apply Qmult_lt_0_compat; lra).
    destruct (Hsign (100 * / - b) (b - a) Hk) as [H1 H2].
    split; [rewrite H1|rewrite H2]; split; intros H; lra.
Qed.

End CompareProperties.

(** ** Brace matching *)

Section BraceMatching.
Import CommitTree Braces.

Lemma stepChar_return (char : Z) (next : option Z) (st : Scanner) :
  stepChar char next st = Return -> char = closeBrace /\ depth st = 1%Z.
Proof.
  unfold stepChar.
  repeat match goal with
  | |- context [if ?c then _ else _] =>
      lazymatch c with
      | Z.eqb char closeBrace => fail
      | Z.eqb (depth _) 0 => fail
      | _ => destruct c; try discriminate
      end
  end.
  destruct (Z.eqb_spec char closeBrace) as [E|E]; [|discriminate].
  cbn [depth setDepth].
  destruct (Z.eqb_spec (depth st - 1) 0); [|discriminate].
  intros _. split; [exact E|lia].
Qed.

Lemma scan_result :
  forall n source i st,
    (length source <= n)%nat ->
    scan source i st = (-1)%Z \/
    exists j,
      scan source i st = Z.of_nat (i + j) /\
      nth_error source j = Some closeBrace /\
      (depth st <> 1%Z -> (0 < j)%nat).
Proof.
  induction n as [|n IH]; intros [|char rest] i st Hlen; cbn [scan];
    try (now left).
  cbn [length] in Hlen.
  destruct (stepChar char (hd_error rest) st) as [|[|] st'] eqn:E.
  - right. exists O. apply stepChar_return in E as [-> Hd].
    rewrite Nat.add_0_r. repeat split. intros H. contradiction.
  - destruct rest as [|c rest']; [now left|]. cbn [length] in Hlen.
    destruct (IH rest' (S (S i)) st' ltac:(lia)) as [H|(k & H & Hk & _)];
      [now left|].
    right. exists (S (S k)). rewrite H.
    split; [f_equal; lia|]. split; [exact Hk|lia].
  - destruct (IH rest (S i) st' ltac:(lia)) as [H|(k & H & Hk & _)];
      [now left|].
    right. exists (S k). rewrite H.
    split; [f_equal; lia|]. split; [exact Hk|lia].
Qed.

(** X29.  [findMatchingBrace] answers -1 or the index of a closing brace
    after the start index: -1 for a start index outside the source, and
    never the start index itself or an index before it, so that for a
    start index that is not negative the caller's test
    [closeBraceIndex <= openBraceIndex] means that no match was found. *)
Theorem findMatchingBrace_result (source : jsstring) (openBraceIndex : Z) :
  let r := findMatchingBrace source openBraceIndex in
  ((openBraceIndex < 0 \/ Z.of_nat (length source) <= openBraceIndex)%Z ->
   r = (-1)%Z) /\
  (r = (-1)%Z \/
   ((openBraceIndex < r < Z.of_nat (length source))%Z /\
    nth_error source (Z.to_nat r) = Some closeBrace)) /\
  ((0 <= openBraceIndex)%Z ->
   (bracedBody source openBraceIndex = None <-> r = (-1)%Z)).
Proof.
  cbv zeta.
  assert (findMatchingBrace source openBraceIndex = (-1)%Z \/
          ((openBraceIndex < findMatchingBrace source openBraceIndex
            < Z.of_nat (length source))%Z /\
           nth_error source
             (Z.to_nat (findMatchingBrace source openBraceIndex))
           = Some closeBrace)) as Hres.
  { unfold findMatchingBrace.
    destruct (Z.ltb_spec openBraceIndex 0) as [|Hlo]; [now left|].
    destruct (Z.leb_spec (Z.of_nat (length source)) openBraceIndex)
      as [|Hhi]; [now left|].
    cbn [orb].
    set (k := Z.to_nat openBraceIndex).
    destruct (scan_result (length (skipn k source)) (skipn k source) k
                initial (Nat.le_refl _)) as [H|(j & H & Hj & Hpos)];
      [now left|].
    right. rewrite H.
    assert (nth_error source (k + j) = Some closeBrace) as Hn
      by now rewrite <- nth_error_skipn.
    assert (k + j < length source)%nat as Hlt.
    { apply nth_error_Some. rewrite Hn. discriminate. }
    specialize (Hpos ltac:(discriminate)).
    rewrite Nat2Z.id. split; [unfold k in *; lia|exact Hn]. }
  split; [|split].
  - unfold findMatchingBrace. intros [H|H].
    + destruct (Z.ltb_spec openBraceIndex 0); [reflexivity|lia].
    + destruct (Z.leb_spec (Z.of_nat (length source)) openBraceIndex);
        [now rewrite orb_true_r|lia].
  - exact Hres.
  - intros Hnonneg. unfold bracedBody.
    destruct (Z.leb_spec (findMatchingBrace source openBraceIndex)
                openBraceIndex) as [Hle|Hgt].
    + split; [intros _|reflexivity].
      destruct Hres as [H|[H _]]; [exact H|lia].
    + split; [discriminate|]. intros H. lia.
Qed.

(** *** The scanner on balanced text *)

Lemma stepChar_plain (c : Z) (next : option Z) (d : Z) :
  plain c -> stepChar c next (codeAt d) = Continue false (codeAt d).
Proof.
  intros (H1 & H2 & H3 & H4 & H5 & H6). unfold stepChar, codeAt.
  cbn [inLineComment inBlockComment inSingle inDouble inTemplate setDepth
       initial].
  destruct (Z.eqb_spec c slash); [contradiction|]. cbn [andb].
  destruct (Z.eqb_spec c singleQuote); [contradiction|].
  destruct (Z.eqb_spec c doubleQuote); [contradiction|].
  destruct (Z.eqb_spec c backtick); [contradiction|].
  destruct (Z.eqb_spec c openBrace); [contradiction|].
  destruct (Z.eqb_spec c closeBrace); [contradiction|].
  reflexivity.
Qed.

Lemma stepChar_open (next : option Z) (d : Z) :
  stepChar openBrace next (codeAt d) = Continue false (codeAt (d + 1)).
Proof. reflexivity. Qed.

Lemma stepChar_close (next : option Z) (d : Z) :
  stepChar closeBrace next (codeAt d)
  = if Z.eqb (d - 1) 0 then Return else Continue false (codeAt (d - 1)).
Proof. reflexivity. Qed.

Lemma stepChar_quote (q : Z) (next : option Z) (d : Z) :
  quote q ->
  stepChar q next (codeAt d) = Continue false (inString q d false).
Proof. intros [->|[->| ->]]; reflexivity. Qed.

Lemma stepChar_in_string (q c : Z) (next : option Z) (d : Z) :
  quote q -> c <> q -> c <> backslash ->
  stepChar c next (inString q d false) = Continue false (inString q d false).
Proof.
  intros Hq Hc Hb. unfold stepChar.
  destruct Hq as [->|[->| ->]];
    cbn [inString inLineComment inBlockComment inSingle inDouble inTemplate
         escaped setEscaped setInSingle setInDouble setInTemplate codeAt
         setDepth initial Z.eqb singleQuote doubleQuote backtick Pos.eqb
         negb andb];
    destruct (Z.eqb_spec c backslash); try contradiction;
    match goal with
    | |- context [Z.eqb c ?x] => destruct (Z.eqb_spec c x); try contradiction
    end; reflexivity.
Qed.

Lemma stepChar_backslash (q : Z) (next : option Z) (d : Z) :
  quote q ->
  stepChar backslash next (inString q d false)
  = Continue false (inString q d true).
Proof. intros [->|[->| ->]]; reflexivity. Qed.

Lemma stepChar_escaped (q c : Z) (next : option Z) (d : Z) :
  quote q ->
  stepChar c next (inString q d true) = Continue false (inString q d false).
Proof. intros [->|[->| ->]]; reflexivity. Qed.

Lemma stepChar_end_of_string (q : Z) (next : option Z) (d : Z) :
  quote q ->
  stepChar q next (inString q d false) = Continue false (codeAt d).
Proof. intros [->|[->| ->]]; reflexivity. Qed.

Lemma scan_string (q : Z) (d : Z) (tail : jsstring) :
  quote q ->
  forall s, StringBody q s ->
    forall i,
      scan (s ++ q :: tail) i (inString q d false)
      = scan tail (i + length s + 1) (codeAt d).
Proof.
  intros Hq. induction 1 as [|c s Hc Hb Hs IH|c s Hs IH]; intros i.
  - cbn [app scan length]. rewrite (stepChar_end_of_string q _ d Hq).
    f_equal. lia.
  - cbn [app scan length].
    rewrite (stepChar_in_string q c _ d Hq Hc Hb), IH. f_equal. lia.
  - cbn [app scan length]. rewrite (stepChar_backslash q _ d Hq).
    cbn [scan]. rewrite (stepChar_escaped q c _ d Hq), IH. f_equal. lia.
Qed.

Lemma scan_line_comment (d : Z) (tail : jsstring) :
  forall s, Forall (fun c => c <> newline) s ->
    forall i,
      scan (s ++ newline :: tail) i (setInLineComment true (codeAt d))
      = scan tail (i + length s + 1) (codeAt d).
Proof.
  induction 1 as [|c s Hc Hs IH]; intros i; cbn [app scan length].
  - cbn. f_equal. lia.
  - assert (stepChar c (hd_error (s ++ newline :: tail))
              (setInLineComment true (codeAt d))
            = Continue false (setInLineComment true (codeAt d))) as ->.
    { unfold stepChar. cbn [inLineComment setInLineComment].
      destruct (Z.eqb_spec c newline); [contradiction|reflexivity]. }
    rewrite IH. f_equal. lia.
Qed.

Lemma scan_block_comment (d : Z) (tail : jsstring) :
  forall s, Forall (fun c => c <> star) s ->
    forall i,
      scan (s ++ star :: slash :: tail) i
        (setInBlockComment true (codeAt d))
      = scan tail (i + length s + 2) (codeAt d).
Proof.
  induction 1 as [|c s Hc Hs IH]; intros i; cbn [app scan length].
  - cbn. f_equal. lia.
  - assert (stepChar c (hd_error (s ++ star :: slash :: tail))
              (setInBlockComment true (codeAt d))
            = Continue false (setInBlockComment true (codeAt d))) as ->.
    { unfold stepChar.
      cbn [inLineComment inBlockComment setInBlockComment codeAt setDepth
           initial].
      destruct (Z.eqb_spec c star); [contradiction|reflexivity]. }
    rewrite IH. f_equal. lia.
Qed.

Lemma scan_balanced (body : jsstring) :
  Balanced body ->
  forall d i tail,
    (1 <= d)%Z ->
    scan (body ++ tail) i (codeAt d)
    = scan tail (i + length body) (codeAt d).
Proof.
  induction 1 as [|c rest Hc Hrest IH|inner rest Hinner IHi Hrest IHr
                  |q s rest Hq Hs Hrest IH|s rest Hs Hrest IH
                  |s rest Hs Hrest IH]; intros d i tail Hd.
  - cbn [app length]. f_equal. lia.
  - cbn [app scan length]. rewrite (stepChar_plain c _ d Hc), IH by exact Hd.
    f_equal. lia.
  - cbn [app scan length]. rewrite stepChar_open, <- app_assoc.
    rewrite IHi by lia. cbn [app scan]. rewrite stepChar_close.
    destruct (Z.eqb_spec (d + 1 - 1) 0) as [E|_]; [lia|].
    replace (d + 1 - 1)%Z with d by lia. rewrite IHr by exact Hd.
    f_equal. rewrite length_app. cbn [length]. lia.
  - cbn [app scan length]. rewrite (stepChar_quote q _ d Hq), <- app_assoc.
    cbn [app]. rewrite (scan_string q d _ Hq s Hs), IH by exact Hd.
    f_equal. rewrite length_app. cbn [length]. lia.
  - cbn [app scan length].
    assert (stepChar slash (hd_error (slash :: (s ++ newline :: rest) ++ tail))
              (codeAt d)
            = Continue true (setInLineComment true (codeAt d))) as ->
      by reflexivity.
    rewrite <- app_assoc. cbn [app].
    rewrite (scan_line_comment d _ s Hs), IH by exact Hd.
    f_equal. rewrite length_app. cbn [length]. lia.
  - cbn [app scan length].
    assert (stepChar slash
              (hd_error (star :: (s ++ star :: slash :: rest) ++ tail))
              (codeAt d)
            = Continue true (setInBlockComment true (codeAt d))) as ->
      by reflexivity.
    rewrite <- app_assoc. cbn [app].
    rewrite (scan_block_comment d _ s Hs), IH by exact Hd.
    f_equal. rewrite length_app. cbn [length]. lia.
Qed.

(** X30.  For an opening brace followed by a text whose braces match and
    by a closing brace, [findMatchingBrace] answers the index of that
    closing brace, whatever comes before and after, and the caller gets
    exactly the text between the two; braces inside string literals,
    template literals and comments of the text are not counted. *)
Theorem findMatchingBrace_balanced (pre body post : jsstring) :
  Balanced body ->
  let source := pre ++ openBrace :: body ++ closeBrace :: post in
  let openBraceIndex := Z.of_nat (length pre) in
  findMatchingBrace source openBraceIndex
  = Z.of_nat (length pre + 1 + length body) /\
  bracedBody source openBraceIndex = Some body.
Proof.
  intros Hbody. cbv zeta.
  assert (findMatchingBrace (pre ++ openBrace :: body ++ closeBrace :: post)
            (Z.of_nat (length pre))
          = Z.of_nat (length pre + 1 + length body)) as Hfind.
  { unfold findMatchingBrace.
    destruct (Z.ltb_spec (Z.of_nat (length pre)) 0) as [|_]; [lia|].
    destruct (Z.leb_spec
                (Z.of_nat
                   (length (pre ++ openBrace :: body ++ closeBrace :: post)))
                (Z.of_nat (length pre))) as [Hle|_].
    { rewrite length_app in Hle. cbn [length] in Hle. lia. }
    cbn [orb]. rewrite Nat2Z.id.
    rewrite skipn_app, skipn_all, Nat.sub_diag. cbn [app skipn scan].
    change initial with (codeAt 0). rewrite stepChar_open.
    rewrite (scan_balanced body Hbody) by lia.
    cbn [scan]. rewrite stepChar_close. cbn [Z.add Z.sub Z.eqb Z.opp
      Z.pos_sub]. f_equal. lia. }
  split; [exact Hfind|].
  unfold bracedBody. rewrite Hfind.
  destruct (Z.leb_spec (Z.of_nat (length pre + 1 + length body))
              (Z.of_nat (length pre))) as [Hle|_]; [lia|].
  unfold slice. f_equal.
  replace (Z.to_nat (Z.of_nat (length pre) + 1)) with (length pre + 1)%nat
    by lia.
  replace (Z.to_nat (Z.of_nat (length pre + 1 + length body)
                     - (Z.of_nat (length pre) + 1)))
    with (length body) by lia.
  replace (pre ++ openBrace :: body ++ closeBrace :: post)
    with ((pre ++ [openBrace]) ++ body ++ closeBrace :: post)
    by (rewrite <- app_assoc; reflexivity).
  rewrite skipn_app.
  replace (length pre + 1)%nat with (length (pre ++ [openBrace]))
    by (rewrite length_app; reflexivity).
  rewrite skipn_all, Nat.sub_diag. cbn [app skipn].
  rewrite firstn_app, firstn_all, Nat.sub_diag. cbn [firstn].
  apply app_nil_r.
Qed.

Lemma findMatchingBrace_balanced_witness :
  findMatchingBrace sampleSource 3 = 33%Z /\
  bracedBody sampleSource 3 = Some sampleBody.
Proof.
  apply (findMatchingBrace_balanced [102; 40; 41]%Z sampleBody []).
  unfold sampleBody.
  repeat first
    [ apply B_nil
    | apply B_plain;
        [unfold plain, openBrace, closeBrace, singleQuote, doubleQuote,
           backtick, slash; repeat split; discriminate|]
    | apply (B_braces
               [32; 114; 101; 116; 117; 114; 110; 32; 34; 125; 34; 32]%Z)
    | apply (B_string 34 [125]%Z);
        [right; left; reflexivity
        |apply SB_char; [discriminate|discriminate|apply SB_nil]|]
    | apply (B_lineComment [32; 123]%Z);
        [repeat constructor; discriminate|] ].
Defined.

End BraceMatching.

(** ** Export analysis: the ranking of the hotspots *)

Section HotspotRanking.
Import JS Coll CommitTree Flamegraph Analyze.
Variable localeCompare : Name -> Name -> Q.
Variable numberToString : Q -> jsstring.
Local Abbreviation sameName := (nameEqb numberToString).
Local Abbreviation stringOf := (nameString numberToString).





(** *** The aggregates and the samples *)







End HotspotRanking.

Section HotspotRankingExamples.
Import JS Coll CommitTree Flamegraph Analyze.


(** Thirty components are sampled and 25 hotspots are reported, from the
    one with the largest total, fiber 31, down to fiber 7; the five
    components with the smallest totals are left out. *)
Example thirty_names_25_hotspots :
  match analyzeReactDevtoolsExport tieAll decimalString
          (manyNamesExport 30) with
  | Finished report =>
      length (samplesOf (commitList report)) = 30%nat /\
      map (hotspotName decimalString) (hotspots report)
      = map (fun i => [(64 + Z.of_nat i)%Z]) (rev (seq 7 25)) /\
      map hsCount (hotspots report) = repeat 1%nat 25
  | _ => False
  end.
Proof. vm_compute. repeat split. Qed.

End HotspotRankingExamples.

(** ** The cadence detector in binary64 *)

(** *** Rounding to the format *)

Section FloatFacts.
Import PrimFloat SpecFloat FloatOps FloatAxioms.
Open Scope Z_scope.

Lemma digits2_bounds (p : positive) :
  2 ^ (Z.pos (digits2_pos p) - 1) <= Z.pos p < 2 ^ Z.pos (digits2_pos p).
Proof.
  induction p as [p IH|p IH|]; cbn [digits2_pos].
  - rewrite Pos2Z.inj_succ, Z.pow_succ_r by lia.
    replace (Z.succ (Z.pos (digits2_pos p)) - 1)
      with (Z.succ (Z.pos (digits2_pos p) - 1)) by lia.
    rewrite Z.pow_succ_r by lia. lia.
  - rewrite Pos2Z.inj_succ, Z.pow_succ_r by lia.
    replace (Z.succ (Z.pos (digits2_pos p)) - 1)
      with (Z.succ (Z.pos (digits2_pos p) - 1)) by lia.
    rewrite Z.pow_succ_r by lia. lia.
  - cbn. lia.
Qed.

Lemma shr_1_m (mrs : shr_record) :
  0 <= shr_m mrs -> shr_m (shr_1 mrs) = Z.div2 (shr_m mrs).
Proof.
  destruct mrs as [m r s]. cbn [shr_m]. intros H.
  destruct m as [|[p|p|]|p]; try reflexivity; lia.
Qed.

Lemma iter_shr_m (n : positive) :
  forall mrs, 0 <= shr_m mrs ->
    shr_m (iter_pos shr_1 n mrs) = shr_m mrs / 2 ^ Z.pos n.
Proof.
  induction n as [n IH|n IH|]; intros mrs H; cbn [iter_pos].
  - assert (H1 : 0 <= shr_m (shr_1 mrs)).
    { rewrite shr_1_m by exact H. rewrite Z.div2_div.
      apply Z.div_pos; lia. }
    assert (H2 : 0 <= shr_m (iter_pos shr_1 n (shr_1 mrs))).
    { rewrite IH by exact H1. apply Z.div_pos; [exact H1|].
      apply Z.pow_pos_nonneg; lia. }
    rewrite IH by exact H2. rewrite IH by exact H1.
    rewrite shr_1_m by exact H. rewrite Z.div2_div.
    rewrite !Z.div_div by (try apply Z.pow_pos_nonneg; lia).
    f_equal. rewrite Pos2Z.inj_xI.
    replace (2 * Z.pos n + 1) with (1 + Z.pos n + Z.pos n) by lia.
    rewrite !Z.pow_add_r by lia. lia.
  - assert (H2 : 0 <= shr_m (iter_pos shr_1 n mrs)).
    { rewrite IH by exact H. apply Z.div_pos; [exact H|].
      apply Z.pow_pos_nonneg; lia. }
    rewrite IH by exact H2. rewrite IH by exact H.
    rewrite !Z.div_div by (try apply Z.pow_pos_nonneg; lia).
    f_equal. rewrite <- Z.pow_add_r by lia. f_equal. lia.
  - rewrite shr_1_m by exact H. now rewrite Z.div2_div.
Qed.

Lemma shr_record_of_loc_m (m : Z) (l : location) :
  shr_m (shr_record_of_loc m l) = m.
Proof. destruct l as [|[]]; reflexivity. Qed.

(** Shifting to the format keeps a mantissa that is not negative so. *)
Lemma shr_fexp_nonneg (m e : Z) (l : location) :
  0 <= m -> 0 <= shr_m (fst (shr_fexp prec emax m e l)).
Proof.
  intros H. unfold shr_fexp, shr.
  destruct (fexp prec emax (Zdigits2 m + e) - e) as [|n|n]; cbn [fst];
    rewrite ?iter_shr_m; rewrite ?shr_record_of_loc_m; try exact H.
  apply Z.div_pos; [exact H|]. apply Z.pow_pos_nonneg; lia.
Qed.

(** Above the smallest exponent, shifting to the format keeps a positive
    mantissa positive. *)
Lemma shr_fexp_pos (m : positive) (e : Z) (l : location) :
  -1074 <= e ->
  0 < shr_m (fst (shr_fexp prec emax (Z.pos m) e l)) /\
  -1074 <= snd (shr_fexp prec emax (Z.pos m) e l).
Proof.
  intros He. unfold shr_fexp, shr. cbn [Zdigits2].
  pose proof (digits2_bounds m) as [Hlo _].
  set (d := Z.pos (digits2_pos m)) in *.
  unfold fexp, SpecFloat.emin, prec, emax in *.
  destruct (Z.max (d + e - 53) (3 - 1024 - 53) - e) as [|n|n] eqn:En;
    cbn [fst snd]; rewrite ?iter_shr_m; rewrite ?shr_record_of_loc_m;
    try lia.
  split; [|lia].
  apply Z.div_str_pos. split; [apply Z.pow_pos_nonneg; lia|].
  eapply Z.le_trans; [|exact Hlo].
  apply Z.pow_le_mono_r; lia.
Qed.

Lemma round_nearest_even_pos (m : Z) (l : location) :
  0 < m -> 0 < round_nearest_even m l.
Proof.
  intros H. destruct l as [|[]]; cbn [round_nearest_even]; try lia.
  destruct (Z.even m); lia.
Qed.

Lemma round_nearest_even_nonneg (m : Z) (l : location) :
  0 <= m -> 0 <= round_nearest_even m l.
Proof.
  intros H. destruct l as [|[]]; cbn [round_nearest_even]; try lia.
  destruct (Z.even m); lia.
Qed.

Lemma binary_round_aux_signed (s : bool) (m e : Z) (l : location) :
  0 <= m -> signed s (binary_round_aux prec emax s m e l).
Proof.
  intros H. unfold binary_round_aux.
  pose proof (shr_fexp_nonneg m e l H) as H1.
  destruct (shr_fexp prec emax m e l) as [mrs1 e1]. cbn [fst] in H1.
  pose proof (shr_fexp_nonneg _ e1 loc_Exact
                (round_nearest_even_nonneg _ (loc_of_shr_record mrs1) H1))
    as H2.
  destruct (shr_fexp prec emax _ e1 loc_Exact) as [mrs2 e2].
  cbn [fst] in H2.
  destruct (shr_m mrs2) as [|p|p]; [now left| |lia].
  destruct (e2 <=? emax - prec); right; [right; eauto|now left].
Qed.

Lemma binary_round_aux_nonzero (s : bool) (m : positive) (e : Z)
    (l : location) :
  -1074 <= e -> signedNonzero s (binary_round_aux prec emax s (Z.pos m) e l).
Proof.
  intros He. unfold binary_round_aux.
  pose proof (shr_fexp_pos m e l He) as [H1 He1].
  destruct (shr_fexp prec emax (Z.pos m) e l) as [mrs1 e1].
  cbn [fst snd] in H1, He1.
  pose proof (round_nearest_even_pos _ (loc_of_shr_record mrs1) H1) as Hr.
  destruct (round_nearest_even (shr_m mrs1) (loc_of_shr_record mrs1))
    as [|r|r]; try lia.
  pose proof (shr_fexp_pos r e1 loc_Exact He1) as [H2 _].
  destruct (shr_fexp prec emax (Z.pos r) e1 loc_Exact) as [mrs2 e2].
  cbn [fst] in H2.
  destruct (shr_m mrs2) as [|p|p]; try lia.
  destruct (e2 <=? emax - prec); [right; eauto|now left].
Qed.

Lemma binary_round_nonzero (s : bool) (m : positive) (e : Z) :
  -1074 <= e -> signedNonzero s (binary_round prec emax s m e).
Proof.
  intros He. unfold binary_round, shl_align.
  destruct (fexp prec emax (Z.pos (digits2_pos m) + e) - e) eqn:E;
    try (now apply binary_round_aux_nonzero).
  apply binary_round_aux_nonzero.
  unfold fexp, SpecFloat.emin, prec, emax in *. lia.
Qed.

End FloatFacts.

(** *** The order of the numbers *)

Section FloatOrder.
Import PrimFloat SpecFloat FloatOps FloatAxioms.
Open Scope Z_scope.

Lemma shl_align_fst (m : positive) (e ez : Z) :
  ez <= e -> Z.pos (fst (shl_align m e ez)) = Z.pos m * 2 ^ (e - ez).
Proof.
  intros H. unfold shl_align.
  destruct (ez - e) as [|d|d] eqn:E; cbn [fst]; try lia.
  - replace (e - ez) with 0 by lia. lia.
  - replace (e - ez) with (Z.pos d) by lia.
    change (Pos.iter xO m d) with (shift_pos d m).
    rewrite shift_pos_correct. rewrite Zpower_pos_nat, Zpower_nat_Z.
    rewrite positive_nat_Z. apply Z.mul_comm.
Qed.

Lemma bounded_inv (m : positive) (e : Z) :
  bounded prec emax m e = true ->
  -1074 <= e /\ Z.pos (digits2_pos m) <= 53 /\
  (e = -1074 \/ Z.pos (digits2_pos m) = 53).
Proof.
  unfold bounded, canonical_mantissa, fexp, SpecFloat.emin, prec, emax.
  intros H. apply andb_true_iff in H as [H _]. apply Z.eqb_eq in H. lia.
Qed.

(** The order of two numbers of the format is the order of their
    mantissas at the smaller exponent. *)
Lemma compare_aligned (m1 m2 : positive) (e1 e2 : Z) :
  bounded prec emax m1 e1 = true -> bounded prec emax m2 e2 = true ->
  (Z.pos m1 * 2 ^ (e1 - Z.min e1 e2) ?= Z.pos m2 * 2 ^ (e2 - Z.min e1 e2))
  = match e1 ?= e2 with
    | Lt => Lt
    | Gt => Gt
    | Eq => Pos.compare_cont Eq m1 m2
    end.
Proof.
  intros H1 H2.
  destruct (bounded_inv m1 e1 H1) as (Ha1 & Hb1 & Hc1).
  destruct (bounded_inv m2 e2 H2) as (Ha2 & Hb2 & Hc2).
  pose proof (digits2_bounds m1) as [Hl1 Hu1].
  pose proof (digits2_bounds m2) as [Hl2 Hu2].
  assert (Hp : forall d, d <= 53 -> 2 ^ d <= 2 ^ 53).
  { intros d Hd. destruct (Z.le_gt_cases 0 d).
    - apply Z.pow_le_mono_r; lia.
    - rewrite Z.pow_neg_r by lia. lia. }
  destruct (Z.compare_spec e1 e2) as [E|E|E].
  - subst e2. rewrite Z.min_id, Z.sub_diag, !Z.mul_1_r. reflexivity.
  - rewrite Z.min_l by lia. rewrite Z.sub_diag, Z.mul_1_r.
    apply Z.compare_lt_iff.
    assert (2 <= 2 ^ (e2 - e1)).
    { change 2 with (2 ^ 1) at 1. apply Z.pow_le_mono_r; lia. }
    assert (Z.pos (digits2_pos m2) = 53) as E2 by lia.
    rewrite E2 in Hl2. change (2 ^ (53 - 1)) with 4503599627370496 in Hl2.
    pose proof (Hp _ Hb1) as Hp1.
    change (2 ^ 53) with 9007199254740992 in Hp1. nia.
  - rewrite Z.min_r by lia. rewrite Z.sub_diag, Z.mul_1_r.
    apply Z.compare_gt_iff.
    assert (2 <= 2 ^ (e1 - e2)).
    { change 2 with (2 ^ 1) at 1. apply Z.pow_le_mono_r; lia. }
    assert (Z.pos (digits2_pos m1) = 53) as E1 by lia.
    rewrite E1 in Hl1. change (2 ^ (53 - 1)) with 4503599627370496 in Hl1.
    pose proof (Hp _ Hb2) as Hp2.
    change (2 ^ 53) with 9007199254740992 in Hp2. nia.
Qed.

Lemma SFcompare_finite (s1 s2 : bool) (m1 m2 : positive) (e1 e2 : Z) :
  bounded prec emax m1 e1 = true -> bounded prec emax m2 e2 = true ->
  SFcompare (S754_finite s1 m1 e1) (S754_finite s2 m2 e2)
  = Some (alignedValue s1 m1 e1 (Z.min e1 e2)
          ?= alignedValue s2 m2 e2 (Z.min e1 e2)).
Proof.
  intros H1 H2. pose proof (compare_aligned m1 m2 e1 e2 H1 H2) as Hc.
  unfold alignedValue. cbn [SFcompare].
  assert (0 < 2 ^ (e1 - Z.min e1 e2)) by (apply Z.pow_pos_nonneg; lia).
  assert (0 < 2 ^ (e2 - Z.min e1 e2)) by (apply Z.pow_pos_nonneg; lia).
  set (a := Z.pos m1 * 2 ^ (e1 - Z.min e1 e2)) in *.
  set (b := Z.pos m2 * 2 ^ (e2 - Z.min e1 e2)) in *.
  assert (0 < a) by (unfold a; nia).
  assert (0 < b) by (unfold b; nia).
  destruct s1, s2; cbn [cond_Zopp]; f_equal.
  - rewrite Z.compare_opp, (Z.compare_antisym a b), Hc.
    now destruct (e1 ?= e2).
  - symmetry. apply Z.compare_lt_iff. lia.
  - symmetry. apply Z.compare_gt_iff. lia.
  - now rewrite Hc.
Qed.

Lemma binary_normalize_sign (d ez : Z) :
  -1074 <= ez ->
  let r := binary_normalize prec emax d ez false in
  SFltb (S754_zero false) r = (0 <? d) /\
  SFltb r (S754_zero false) = (d <? 0) /\
  r <> S754_nan.
Proof.
  intros He r. unfold r, binary_normalize.
  destruct d as [|p|p].
  - repeat split. discriminate.
  - destruct (binary_round_nonzero false p ez He) as [->|(m & e & ->)];
      repeat split; discriminate.
  - destruct (binary_round_nonzero true p ez He) as [->|(m & e & ->)];
      repeat split; discriminate.
Qed.

Lemma SFsub_finite (sx sy : bool) (mx my : positive) (ex ey : Z) :
  bounded prec emax mx ex = true -> bounded prec emax my ey = true ->
  let x := S754_finite sx mx ex in
  let y := S754_finite sy my ey in
  SFltb (S754_zero false) (SFsub prec emax x y) = SFltb y x /\
  SFltb (SFsub prec emax x y) (S754_zero false) = SFltb x y /\
  SFsub prec emax x y <> S754_nan.
Proof.
  intros Hx Hy x y.
  destruct (bounded_inv mx ex Hx) as (Hex & _).
  destruct (bounded_inv my ey Hy) as (Hey & _).
  unfold x, y. cbn [SFsub].
  rewrite !shl_align_fst by lia.
  destruct (binary_normalize_sign
              (cond_Zopp sx (Z.pos mx * 2 ^ (ex - Z.min ex ey))
               - cond_Zopp sy (Z.pos my * 2 ^ (ey - Z.min ex ey)))
              (Z.min ex ey)) as (H1 & H2 & H3); [lia|].
  cbv zeta in H1, H2, H3. rewrite H1, H2.
  unfold SFltb.
  rewrite (SFcompare_finite sx sy mx my ex ey Hx Hy).
  rewrite (SFcompare_finite sy sx my mx ey ex Hy Hx).
  rewrite (Z.min_comm ey ex). unfold alignedValue.
  set (a := cond_Zopp sx _). set (b := cond_Zopp sy _).
  split; [|split; [|exact H3]].
  - destruct (Z.compare_spec b a), (Z.ltb_spec 0 (a - b));
      try reflexivity; lia.
  - destruct (Z.compare_spec a b), (Z.ltb_spec (a - b) 0);
      try reflexivity; lia.
Qed.

(** The sign of a difference of two numbers is their order, for all
    numbers but [NaN]. *)
Lemma SFsub_sign (x y : spec_float) :
  valid_binary x = true -> valid_binary y = true ->
  x <> S754_nan -> y <> S754_nan ->
  SFltb (S754_zero false) (SFsub prec emax x y) = SFltb y x /\
  SFltb (SFsub prec emax x y) (S754_zero false) = SFltb x y.
Proof.
  intros Hx Hy Nx Ny.
  destruct x as [sx|sx| |sx mx ex], y as [sy|sy| |sy my ey];
    try congruence;
    try (destruct sx, sy; split; reflexivity);
    try (destruct sx; split; reflexivity);
    try (destruct sy; split; reflexivity).
  destruct (SFsub_finite sx sy mx my ex ey Hx Hy) as (H1 & H2 & _).
  now split.
Qed.

End FloatOrder.

Section FloatNumbers.
Import PrimFloat SpecFloat FloatOps FloatAxioms Binary64.
Open Scope float_scope.

Lemma SFcompare_refl (x : spec_float) :
  x <> S754_nan -> SFcompare x x = Some Eq.
Proof.
  destruct x as [s|s| |s m e]; try congruence; intros _; cbn [SFcompare].
  - reflexivity.
  - now destruct s.
  - rewrite Z.compare_refl.
    change (Pos.compare_cont Eq m m) with (Pos.compare m m).
    rewrite Pos.compare_refl. now destruct s.
Qed.

Lemma is_nan_spec (x : float) : is_nan x = true <-> Prim2SF x = S754_nan.
Proof.
  unfold is_nan. rewrite eqb_spec. unfold SFeqb.
  destruct (Prim2SF x) as [s|s| |s m e] eqn:E.
  - cbn. split; discriminate.
  - rewrite SFcompare_refl by discriminate. split; discriminate.
  - cbn. split; reflexivity.
  - rewrite SFcompare_refl by discriminate. split; discriminate.
Qed.

Lemma number_spec (x : float) : number x <-> Prim2SF x <> S754_nan.
Proof.
  unfold number. rewrite <- is_nan_spec. destruct (is_nan x); split;
    congruence.
Qed.

(** The sign of a difference is the order of the two numbers. *)
Lemma sub_sign (x y : float) :
  number x -> number y ->
  (0 <? x - y) = (y <? x) /\ (x - y <? 0) = (x <? y).
Proof.
  intros Hx Hy. apply number_spec in Hx, Hy.
  rewrite !ltb_spec, sub_spec.
  change (Prim2SF 0) with (S754_zero false).
  apply SFsub_sign; auto using Prim2SF_valid.
Qed.

Lemma SFcompare_antisym (x y : spec_float) :
  SFcompare y x = option_map CompOpp (SFcompare x y).
Proof.
  destruct x as [s|s| |s m e], y as [s'|s'| |s' m' e']; cbn;
    try reflexivity;
    try (destruct s; reflexivity); try (destruct s'; reflexivity);
    try (destruct s, s'; reflexivity).
  rewrite (Z.compare_antisym e e').
  change (Pos.compare_cont Eq m' m) with (Pos.compare m' m).
  change (Pos.compare_cont Eq m m') with (Pos.compare m m').
  rewrite (Pos.compare_antisym m m').
  destruct s, s', (e ?= e')%Z, (m ?= m')%positive; reflexivity.
Qed.

Lemma not_ltb_leb (x y : float) :
  number x -> number y -> (y <? x) = false -> (x <=? y) = true.
Proof.
  intros Hx Hy. apply number_spec in Hx, Hy.
  rewrite ltb_spec, leb_spec. unfold SFltb, SFleb.
  rewrite (SFcompare_antisym (Prim2SF x) (Prim2SF y)).
  destruct (Prim2SF x) as [s|s| |s m e], (Prim2SF y) as [s'|s'| |s' m' e'];
    try congruence;
    destruct (SFcompare _ _) as [[]|] eqn:E; cbn; try congruence;
    cbn in E; try discriminate E;
    try (destruct s; discriminate E); try (destruct s'; discriminate E);
    try (destruct s, s'; discriminate E).
Qed.

Lemma ltb_leb (x y : float) : (x <? y) = true -> (x <=? y) = true.
Proof.
  rewrite ltb_spec, leb_spec. unfold SFltb, SFleb.
  now destruct (SFcompare _ _) as [[]|].
Qed.

Lemma leb_not_ltb (x y : float) : (x <=? y) = true -> (y <? x) = false.
Proof.
  rewrite ltb_spec, leb_spec. unfold SFltb, SFleb.
  rewrite (SFcompare_antisym (Prim2SF x) (Prim2SF y)).
  now destruct (SFcompare _ _) as [[]|].
Qed.

Lemma leb_numbers (x y : float) :
  (x <=? y) = true -> number x /\ number y.
Proof.
  rewrite leb_spec, !number_spec. unfold SFleb.
  destruct (Prim2SF x), (Prim2SF y); cbn; try discriminate;
    intros _; split; discriminate.
Qed.

End FloatNumbers.

Section FloatSums.
Import PrimFloat SpecFloat FloatOps FloatAxioms Binary64.
Open Scope float_scope.

Lemma is_finite_spec (x : float) :
  isFinite x = true ->
  (exists s, Prim2SF x = S754_zero s) \/
  (exists s m e, Prim2SF x = S754_finite s m e).
Proof.
  unfold isFinite, is_finite, is_infinity. intros H.
  apply negb_true_iff, orb_false_iff in H as [Hn Hi].
  assert (Prim2SF x <> S754_nan) as Hn'.
  { intros E. apply is_nan_spec in E. congruence. }
  rewrite eqb_spec, abs_spec in Hi.
  change (Prim2SF infinity) with (S754_infinity false) in Hi.
  destruct (Prim2SF x) as [s|s| |s m e]; try congruence; eauto.
  discriminate Hi.
Qed.

Lemma finite_number (x : float) : isFinite x = true -> number x.
Proof.
  intros H. apply number_spec.
  destruct (is_finite_spec x H) as [[s ->]|(s & m & e & ->)]; discriminate.
Qed.

(** The difference of two finite numbers is a number. *)
Lemma sub_finite_number (x y : float) :
  isFinite x = true -> isFinite y = true -> number (x - y).
Proof.
  intros Hx Hy. apply number_spec. rewrite sub_spec.
  pose proof (Prim2SF_valid x) as Vx. pose proof (Prim2SF_valid y) as Vy.
  destruct (is_finite_spec x Hx) as [[sx Ex]|(sx & mx & ex & Ex)],
           (is_finite_spec y Hy) as [[sy Ey]|(sy & my & ey & Ey)];
    rewrite Ex, Ey in *.
  - destruct sx, sy; discriminate.
  - discriminate.
  - discriminate.
  - apply (SFsub_finite sx sy mx my ex ey Vx Vy).
Qed.

(** A later timestamp minus an earlier one is not negative. *)
Lemma delta_nonneg (a b : float) :
  isFinite a = true -> isFinite b = true -> (a <=? b) = true ->
  (0 <=? b - a) = true.
Proof.
  intros Ha Hb Hab.
  pose proof (sub_finite_number b a Hb Ha) as Hn.
  destruct (sub_sign b a (finite_number b Hb) (finite_number a Ha))
    as [_ Hs].
  apply not_ltb_leb; [reflexivity|exact Hn|].
  rewrite Hs. now apply leb_not_ltb.
Qed.

(** A number that is not negative: a zero, a positive number or
    [+Infinity]. *)
Lemma nonneg_spec (x : float) :
  (0 <=? x) = true ->
  (exists s, Prim2SF x = S754_zero s) \/
  signedNonzero false (Prim2SF x).
Proof.
  rewrite leb_spec. change (Prim2SF 0) with (S754_zero false).
  unfold SFleb, signedNonzero.
  destruct (Prim2SF x) as [s|s| |s m e]; cbn; try discriminate; eauto.
  - destruct s; [discriminate|]. intros _. right. now left.
  - destruct s; [discriminate|]. intros _. right. right. eauto.
Qed.

Lemma SFdiv_core_nonneg (m1 m2 : positive) (e1 e2 : Z) :
  (0 <= fst (fst (SFdiv_core_binary prec emax (Z.pos m1) e1 (Z.pos m2) e2)))%Z.
Proof.
  unfold SFdiv_core_binary.
  set (s := (e1 - e2 - _)%Z).
  set (m' := match s with Z.pos _ => Z.shiftl (Z.pos m1) s
                         | 0%Z => Z.pos m1 | Z.neg _ => 0%Z end).
  assert (0 <= m')%Z as Hm.
  { unfold m'. destruct s; try lia. apply Z.shiftl_nonneg. lia. }
  pose proof (Z.div_pos m' (Z.pos m2) Hm ltac:(lia)) as Hq.
  unfold Z.div in Hq.
  destruct (Z.div_eucl m' (Z.pos m2)) as [q r]. exact Hq.
Qed.

(** The mean of two numbers that are not negative is a number. *)
Lemma mean_number (a b : float) :
  (0 <=? a) = true -> (0 <=? b) = true -> number ((a + b) / 2).
Proof.
  intros Ha Hb. apply number_spec. rewrite div_spec, add_spec.
  change (Prim2SF 2) with (S754_finite false 4503599627370496 (-51)).
  pose proof (Prim2SF_valid a) as Va. pose proof (Prim2SF_valid b) as Vb.
  assert (Hsum : (exists s, SF64add (Prim2SF a) (Prim2SF b) = S754_zero s)
                 \/ signedNonzero false
                      (SF64add (Prim2SF a) (Prim2SF b))).
  { destruct (nonneg_spec a Ha) as [[sa Ea]|[Ea|(ma & ea & Ea)]],
             (nonneg_spec b Hb) as [[sb Eb]|[Eb|(mb & eb & Eb)]];
      rewrite Ea, Eb in *; unfold SF64add; cbn [SFadd].
    - left. destruct sa, sb; eauto.
    - right. now left.
    - right. right. eauto.
    - right. now left.
    - right. now left.
    - right. now left.
    - right. right. eauto.
    - right. now left.
    - right.
      destruct (bounded_inv ma ea Va) as (Hea & _).
      destruct (bounded_inv mb eb Vb) as (Heb & _).
      cbn [cond_Zopp]. unfold binary_normalize.
      rewrite <- Pos2Z.inj_add.
      apply binary_round_nonzero. lia. }
  unfold SF64div.
  destruct Hsum as [[s ->]|[->|(m & e & ->)]]; cbn [SFdiv]; try discriminate.
  pose proof (SFdiv_core_nonneg m 4503599627370496 e (-51)) as Hq.
  destruct (SFdiv_core_binary _ _ _ _ _ _) as [[q e'] l]. cbn [fst] in Hq.
  destruct (binary_round_aux_signed (xorb false false) q e' l Hq)
    as [->|[->|(m' & e'' & ->)]]; discriminate.
Qed.

End FloatSums.

(** The order of the numbers, through their ranks. *)
Section FloatRank.
Import PrimFloat SpecFloat FloatOps FloatAxioms Binary64.
Open Scope Z_scope.

Lemma rank_finite_bound (s : bool) (m : positive) (e : Z) :
  bounded prec emax m e = true ->
  - 2 ^ 2100 < rank (S754_finite s m e) < 2 ^ 2100 /\
  (if s then rank (S754_finite s m e) < 0
   else 0 < rank (S754_finite s m e)).
Proof.
  intros H. destruct (bounded_inv m e H) as (He & Hd & _).
  assert (e <= 971) as Hmax.
  { unfold bounded, prec, emax in H. apply andb_true_iff in H as [_ H].
    apply Z.leb_le in H. lia. }
  pose proof (digits2_bounds m) as [_ Hu].
  assert (Z.pos m < 2 ^ 53) as Hm.
  { eapply Z.lt_le_trans; [exact Hu|]. apply Z.pow_le_mono_r; lia. }
  assert (0 < 2 ^ (e + 1074)) as Hp by (apply Z.pow_pos_nonneg; lia).
  assert (2 ^ (e + 1074) <= 2 ^ 2045) as Hq
    by (apply Z.pow_le_mono_r; lia).
  assert (2 ^ 53 * 2 ^ 2045 < 2 ^ 2100) as Hc.
  { rewrite <- Z.pow_add_r by lia. apply Z.pow_lt_mono_r; lia. }
  assert (Z.pos m * 2 ^ (e + 1074) < 2 ^ 2100) as Hb.
  { revert Hm Hp Hq Hc.
    generalize (2 ^ 53) (2 ^ 2045) (2 ^ 2100) (2 ^ (e + 1074)).
    intros A B C P Hm Hp Hq Hc. nia. }
  assert (0 < Z.pos m * 2 ^ (e + 1074)) as Hpos by (apply Z.mul_pos_pos; lia).
  cbn [rank]. revert Hb Hpos.
  generalize (2 ^ 2100) (Z.pos m * 2 ^ (e + 1074)). intros C R Hb Hpos.
  destruct s; cbn [cond_Zopp]; lia.
Qed.

(** The comparison of two numbers is the comparison of their ranks. *)
Lemma SFcompare_rank (x y : spec_float) :
  valid_binary x = true -> valid_binary y = true ->
  x <> S754_nan -> y <> S754_nan ->
  SFcompare x y = Some (rank x ?= rank y).
Proof.
  intros Vx Vy Nx Ny.
  assert (0 < 2 ^ 2100) as HB by (apply Z.pow_pos_nonneg; lia).
  destruct x as [sx|sx| |sx mx ex], y as [sy|sy| |sy my ey];
    try congruence; cbn [SFcompare];
    try pose proof (rank_finite_bound sx mx ex Vx) as [Bx Sx];
    try pose proof (rank_finite_bound sy my ey Vy) as [By Sy].
  - reflexivity.
  - cbn [rank]. f_equal. symmetry.
    destruct sy; cbn [cond_Zopp];
      [apply Z.compare_gt_iff|apply Z.compare_lt_iff]; lia.
  - f_equal. symmetry. change (rank (S754_zero sx)) with 0.
    destruct sy; [apply Z.compare_gt_iff|apply Z.compare_lt_iff]; lia.
  - cbn [rank]. f_equal. symmetry.
    destruct sx; cbn [cond_Zopp];
      [apply Z.compare_lt_iff|apply Z.compare_gt_iff]; lia.
  - cbn [rank]. f_equal. symmetry.
    destruct sx, sy; cbn [cond_Zopp];
      first [apply Z.compare_eq_iff|apply Z.compare_lt_iff
            |apply Z.compare_gt_iff]; lia.
  - f_equal. symmetry. change (rank (S754_infinity sx))
      with (cond_Zopp sx (2 ^ 2100)).
    destruct sx; cbn [cond_Zopp];
      [apply Z.compare_lt_iff|apply Z.compare_gt_iff]; lia.
  - f_equal. symmetry. change (rank (S754_zero sy)) with 0.
    destruct sx; [apply Z.compare_lt_iff|apply Z.compare_gt_iff]; lia.
  - f_equal. symmetry. change (rank (S754_infinity sy))
      with (cond_Zopp sy (2 ^ 2100)).
    destruct sy; cbn [cond_Zopp];
      [apply Z.compare_gt_iff|apply Z.compare_lt_iff]; lia.
  - change (SFcompare (S754_finite sx mx ex) (S754_finite sy my ey)
            = Some (rank (S754_finite sx mx ex)
                    ?= rank (S754_finite sy my ey))).
    rewrite (SFcompare_finite sx sy mx my ex ey Vx Vy). f_equal.
    destruct (bounded_inv mx ex Vx) as (Hex & _).
    destruct (bounded_inv my ey Vy) as (Hey & _).
    set (ez := Z.min ex ey).
    assert (0 < 2 ^ (ez + 1074)) as Hk
      by (apply Z.pow_pos_nonneg; unfold ez; lia).
    rewrite (Zmult_compare_compat_r _ _ (2 ^ (ez + 1074)))
      by (apply Z.lt_gt; exact Hk).
    assert (Hscale : forall s m e, ez <= e ->
              alignedValue s m e ez * 2 ^ (ez + 1074)
              = rank (S754_finite s m e)).
    { intros s m e He. unfold alignedValue. cbn [rank].
      replace (e + 1074) with ((e - ez) + (ez + 1074)) by lia.
      rewrite (Z.pow_add_r 2 (e - ez) (ez + 1074)) by (unfold ez; lia).
      destruct s; cbn [cond_Zopp]; lia. }
    rewrite !Hscale by (unfold ez; lia). reflexivity.
Qed.

Lemma leb_rank (x y : float) :
  number x -> number y ->
  (x <=? y)%float = (rank (Prim2SF x) <=? rank (Prim2SF y)).
Proof.
  intros Hx Hy. apply number_spec in Hx, Hy.
  rewrite leb_spec. unfold SFleb.
  rewrite (SFcompare_rank _ _ (Prim2SF_valid x) (Prim2SF_valid y) Hx Hy).
  unfold Z.leb. now destruct (_ ?= _).
Qed.

Lemma ltb_rank (x y : float) :
  number x -> number y ->
  (x <? y)%float = (rank (Prim2SF x) <? rank (Prim2SF y)).
Proof.
  intros Hx Hy. apply number_spec in Hx, Hy.
  rewrite ltb_spec. unfold SFltb.
  rewrite (SFcompare_rank _ _ (Prim2SF_valid x) (Prim2SF_valid y) Hx Hy).
  unfold Z.ltb. now destruct (_ ?= _).
Qed.

Lemma leb_nan (x y : float) : is_nan x = true -> (x <=? y)%float = false.
Proof.
  intros H. apply is_nan_spec in H. rewrite leb_spec, H. reflexivity.
Qed.

(** The product of a number and a finite number other than 0 is a
    number. *)
Lemma mul_number (x c : float) (s : bool) (m : positive) (e : Z) :
  Prim2SF c = S754_finite s m e -> number x -> number (x * c)%float.
Proof.
  intros Ec Hx. apply number_spec in Hx. apply number_spec.
  rewrite mul_spec, Ec. unfold SF64mul.
  destruct (Prim2SF x) as [sx|sx| |sx mx ex]; try congruence;
    cbn [SFmul]; try discriminate.
  destruct (binary_round_aux_signed (xorb sx s) (Z.pos (mx * m)) (ex + e)
              loc_Exact ltac:(lia)) as [->|[->|(m' & e' & ->)]];
    discriminate.
Qed.

(** A number is at most the larger of 40 and another number exactly when
    it is at most one of the two. *)
Lemma leb_mathMax (x b : float) :
  number b ->
  (x <=? mathMax 40 b)%float = (x <=? 40)%float || (x <=? b)%float.
Proof.
  intros Hb. unfold mathMax. rewrite Hb.
  change (is_nan 40) with false. cbn [orb].
  change (get_sign 40) with false.
  destruct (is_nan x) eqn:Hx.
  { rewrite !(fun y => leb_nan x y Hx).
    now destruct (40 <? b)%float, (b <? 40)%float. }
  assert (number 40%float) as H40 by reflexivity.
  rewrite (ltb_rank 40 b H40 Hb), (ltb_rank b 40 Hb H40).
  rewrite (leb_rank x 40 Hx H40), (leb_rank x b Hx Hb).
  destruct (Z.ltb_spec (rank (Prim2SF 40)) (rank (Prim2SF b)));
    [|destruct (Z.ltb_spec (rank (Prim2SF b)) (rank (Prim2SF 40)))];
    rewrite ?(leb_rank x b Hx Hb), ?(leb_rank x 40 Hx H40);
    destruct (Z.leb_spec (rank (Prim2SF x)) (rank (Prim2SF 40))),
             (Z.leb_spec (rank (Prim2SF x)) (rank (Prim2SF b)));
    try reflexivity; lia.
Qed.

End FloatRank.

(** The integers of binary64 and [Math.round]. *)
Section IntegersExact.
Import PrimFloat SpecFloat FloatOps FloatAxioms Binary64.
Open Scope Z_scope.

Lemma digits2_unique (m : positive) (k : Z) :
  2 ^ (k - 1) <= Z.pos m < 2 ^ k -> Z.pos (digits2_pos m) = k.
Proof.
  intros [Hl Hu]. pose proof (digits2_bounds m) as [Dl Du].
  set (d := Z.pos (digits2_pos m)) in *.
  assert (0 < d) as Hd by (unfold d; lia).
  assert (0 < k) as Hk.
  { destruct (Z.ltb_spec 0 k) as [|Hk]; [assumption|].
    assert (2 ^ k <= 2 ^ 0) by (destruct (Z.ltb_spec k 0);
      [rewrite Z.pow_neg_r by lia; cbn; lia|apply Z.pow_le_mono_r; lia]).
    cbn in *. lia. }
  assert (d - 1 < k) by (apply (Z.pow_lt_mono_r_iff 2); lia).
  assert (k - 1 < d) by (apply (Z.pow_lt_mono_r_iff 2); lia).
  lia.
Qed.

(** The integers below [2 ^ 53] are numbers of the format: the conversion
    does not round them. *)
Lemma binary_round_exact (s : bool) (p : positive) :
  Z.pos p < 2 ^ 53 ->
  exists m e,
    binary_round prec emax s p 0 = S754_finite s m e /\
    bounded prec emax m e = true /\
    -52 <= e <= 0 /\ Z.pos m * 2 ^ (e + 1074) = Z.pos p * 2 ^ 1074.
Proof.
  intros Hp. pose proof (digits2_bounds p) as [Dl Du].
  set (d := Z.pos (digits2_pos p)) in *.
  assert (0 < d) as Hd0 by (unfold d; lia).
  assert (d <= 53) as Hd.
  { assert (d - 1 < 53) by (apply (Z.pow_lt_mono_r_iff 2); lia). lia. }
  unfold binary_round.
  replace (fexp prec emax (Z.pos (digits2_pos p) + 0)) with (d - 53)
    by (unfold fexp, prec, SpecFloat.emin, emax; fold d; lia).
  pose proof (shl_align_fst p 0 (d - 53) ltac:(lia)) as Hm.
  assert (snd (shl_align p 0 (d - 53)) = d - 53) as He.
  { unfold shl_align. destruct (d - 53 - 0) eqn:E; cbn [snd]; lia. }
  destruct (shl_align p 0 (d - 53)) as [mz ez]. cbn [fst snd] in Hm, He.
  subst ez. replace (0 - (d - 53)) with (53 - d) in Hm by lia.
  assert (Z.pos (digits2_pos mz) = 53) as Hdz.
  { apply digits2_unique.
    assert (2 ^ (53 - 1) = 2 ^ (d - 1) * 2 ^ (53 - d)) as E1
      by (rewrite <- Z.pow_add_r by lia; f_equal; lia).
    assert (2 ^ 53 = 2 ^ d * 2 ^ (53 - d)) as E2
      by (rewrite <- Z.pow_add_r by lia; f_equal; lia).
    rewrite Hm, E1, E2.
    assert (0 < 2 ^ (53 - d)) by (apply Z.pow_pos_nonneg; lia).
    split; [apply Z.mul_le_mono_nonneg_r; [lia|exact Dl]
           |apply Z.mul_lt_mono_pos_r; [assumption|exact Du]]. }
  exists mz, (d - 53).
  assert (Hshr : shr_fexp prec emax (Z.pos mz) (d - 53) loc_Exact
                 = ({| shr_m := Z.pos mz; shr_r := false; shr_s := false |},
                    d - 53)).
  { unfold shr_fexp. cbn [Zdigits2]. rewrite Hdz.
    replace (fexp prec emax (53 + (d - 53)) - (d - 53)) with 0
      by (unfold fexp, prec, SpecFloat.emin, emax; lia).
    reflexivity. }
  split; [|split; [|split; [lia|]]].
  - unfold binary_round_aux. rewrite Hshr.
    cbn [shr_m loc_of_shr_record shr_r shr_s round_nearest_even].
    rewrite Hshr. cbn [shr_m].
    replace (d - 53 <=? emax - prec) with true; [reflexivity|].
    symmetry. apply Z.leb_le. unfold emax, prec. lia.
  - unfold bounded, canonical_mantissa. rewrite Hdz.
    apply andb_true_iff. split.
    + apply Z.eqb_eq. unfold fexp, prec, SpecFloat.emin, emax. lia.
    + apply Z.leb_le. unfold emax, prec. lia.
  - rewrite Hm. replace (d - 53 + 1074) with (1074 - (53 - d)) by lia.
    rewrite <- Z.mul_assoc, <- Z.pow_add_r by lia. f_equal. f_equal. lia.
Qed.

(** A number with a finite representation is finite. *)
Lemma finite_isFinite (x : float) (s : bool) (m : positive) (e : Z) :
  Prim2SF x = S754_finite s m e -> isFinite x = true.
Proof.
  intros E. unfold isFinite, is_finite, is_nan, is_infinity.
  rewrite !eqb_spec, abs_spec, E. unfold SFeqb.
  rewrite SFcompare_refl by discriminate.
  reflexivity.
Qed.

Lemma ofZ_exact (z : Z) :
  - 2 ^ 53 < z < 2 ^ 53 ->
  isFinite (ofZ z) = true /\ rank (Prim2SF (ofZ z)) = z * 2 ^ 1074.
Proof.
  intros Hz. unfold ofZ, binary_normalize.
  destruct z as [|p|p]; [split; reflexivity| |].
  - destruct (binary_round_exact false p ltac:(lia))
      as (m & e & -> & Hb & He & Hv).
    assert (Prim2SF (SF2Prim (S754_finite false m e))
            = S754_finite false m e) as E by now apply Prim2SF_SF2Prim.
    split; [exact (finite_isFinite _ _ _ _ E)|].
    rewrite E. exact Hv.
  - destruct (binary_round_exact true p ltac:(lia))
      as (m & e & -> & Hb & He & Hv).
    assert (Prim2SF (SF2Prim (S754_finite true m e))
            = S754_finite true m e) as E by now apply Prim2SF_SF2Prim.
    split; [exact (finite_isFinite _ _ _ _ E)|].
    rewrite E. cbn [rank cond_Zopp]. rewrite Hv. lia.
Qed.


(** [Math.round] gives the nearest integer, the larger one on a tie. *)
Lemma mathRound_spec (x : float) :
  isFinite x = true ->
  exists n, nearestInteger x n /\ integerValue (mathRound x) n.
Proof.
  intros Hfin. pose proof (Prim2SF_valid x) as Hv.
  assert (0 < 2 ^ 1074) as HK by (apply Z.pow_pos_nonneg; lia).
  unfold nearestInteger, integerValue, mathRound.
  destruct (is_finite_spec x Hfin) as [[s E]|(s & m & e & E)];
    rewrite E in *; cbv iota.
  { exists 0. rewrite E. cbn [rank]. repeat split; try assumption; lia. }
  cbn [valid_binary] in Hv.
  destruct (bounded_inv m e Hv) as (He & Hd & _).
  pose proof (digits2_bounds m) as [_ Hu].
  assert (Z.pos m < 2 ^ 53) as Hm.
  { eapply Z.lt_le_trans; [exact Hu|]. apply Z.pow_le_mono_r; lia. }
  destruct (Z.leb_spec 0 e) as [Hpos|Hneg].
  - exists (cond_Zopp s (Z.pos m * 2 ^ e)). rewrite E. cbn [rank].
    replace (cond_Zopp s (Z.pos m * 2 ^ (e + 1074)))
      with (cond_Zopp s (Z.pos m * 2 ^ e) * 2 ^ 1074)
      by (rewrite Z.pow_add_r by lia; destruct s; cbn [cond_Zopp]; lia).
    repeat split; try assumption; lia.
  - set (sm := if s then Z.neg m else Z.pos m).
    set (n := Z.shiftr (sm * 2 + 2 ^ (- e)) (- e + 1)).
    assert (rank (S754_finite s m e) = sm * 2 ^ (e + 1074)) as Hr
      by (cbn [rank]; unfold sm; destruct s; cbn [cond_Zopp]; lia).
    assert (- 2 ^ 53 < sm < 2 ^ 53) as Hsm by (unfold sm; destruct s; lia).
    assert (2 ^ 1074 = 2 ^ (- e) * 2 ^ (e + 1074)) as EK
      by (rewrite <- Z.pow_add_r by lia; f_equal; lia).
    assert (2 ^ (- e + 1) = 2 * 2 ^ (- e)) as ED
      by (rewrite Z.pow_add_r by lia; lia).
    assert (2 <= 2 ^ (- e)) as HP.
    { change 2 with (2 ^ 1) at 1. apply Z.pow_le_mono_r; lia. }
    assert (0 < 2 ^ (e + 1074)) as HQ by (apply Z.pow_pos_nonneg; lia).
    assert (2 ^ 53 = 2 * 2 ^ 52) as E53 by reflexivity.
    assert (0 < 2 ^ 52) as H52 by (apply Z.pow_pos_nonneg; lia).
    assert (Hn : 2 * 2 ^ (- e) * n <= sm * 2 + 2 ^ (- e)
                 < 2 * 2 ^ (- e) * (n + 1)).
    { unfold n. rewrite Z.shiftr_div_pow2 by lia. rewrite ED.
      split; [apply Z.mul_div_le; lia|].
      replace (sm * 2 + 2 ^ (- e)) with
        ((2 * 2 ^ (- e)) * ((sm * 2 + 2 ^ (- e)) / (2 * 2 ^ (- e)))
         + (sm * 2 + 2 ^ (- e)) mod (2 * 2 ^ (- e))) at 1
        by (symmetry; apply Z.div_mod; lia).
      pose proof (Z.mod_pos_bound (sm * 2 + 2 ^ (- e)) (2 * 2 ^ (- e))
                    ltac:(lia)). lia. }
    assert (Hbound : - 2 ^ 53 < n < 2 ^ 53).
    { revert Hn Hsm HP E53 H52.
      generalize (2 ^ 53) (2 ^ 52) (2 ^ (- e)). clearbody n sm.
      intros B C P Hn Hsm HP E53 H52. nia. }
    exists n. rewrite Hr. split.
    + rewrite EK. revert Hn HQ HP.
      generalize (2 ^ (- e)) (2 ^ (e + 1074)). clearbody n sm.
      intros P Q Hn HQ HP. nia.
    + fold sm. fold n. destruct (Z.eqb_spec n 0) as [->|Hnz].
      * destruct s; split; reflexivity.
      * apply ofZ_exact. exact Hbound.
Qed.

(** The literal [0.2] is the number of the format nearest to one fifth:
    [m * 2 ^ -55] with [|5 * m - 2 ^ 55| <= 5 / 2]. *)
Example oneFifth_nearest :
  exists m,
    Prim2SF oneFifth = S754_finite false m (-55) /\
    bounded prec emax m (-55) = true /\
    2 * Z.abs (5 * Z.pos m - 2 ^ 55) <= 5.
Proof.
  exists 7205759403792794%positive. repeat split. vm_compute. discriminate.
Qed.

End IntegersExact.

(** *** Sorting, deltas and median *)

Section SortFacts64.
Import Binary64.
Context {A : Type} (after : A -> A -> bool).

Lemma insertSorted64_perm (x : A) (l : list A) :
  Permutation (x :: l) (insertSorted after x l).
Proof.
  induction l as [|y l IH]; cbn [insertSorted]; [reflexivity|].
  destruct (after x y); [|reflexivity].
  rewrite perm_swap. now constructor.
Qed.

Lemma jsSort64_perm (l : list A) : Permutation l (jsSort after l).
Proof.
  induction l as [|x l IH]; cbn [jsSort]; [constructor|].
  rewrite <- insertSorted64_perm. now constructor.
Qed.

Lemma jsSort64_length (l : list A) : length (jsSort after l) = length l.
Proof. symmetry. apply Permutation_length, jsSort64_perm. Qed.

Variable le : A -> A -> Prop.
Variable ok : A -> Prop.
Hypothesis after_le : forall x y, ok x -> ok y -> after x y = true -> le y x.
Hypothesis before_le :
  forall x y, ok x -> ok y -> after x y = false -> le x y.

Lemma insertSorted64_sorted (x : A) (l : list A) :
  ok x -> Forall ok l -> Sorted le l -> Sorted le (insertSorted after x l).
Proof.
  intros Hx Hl Hs. induction Hs as [|y l Hs IH Hhd]; cbn [insertSorted].
  - repeat constructor.
  - apply Forall_cons_iff in Hl as [Hy Hl].
    destruct (after x y) eqn:E.
    + constructor; [now apply IH|].
      destruct l as [|z l]; cbn [insertSorted].
      * constructor. now apply after_le.
      * destruct (after x z); constructor.
        -- now inversion Hhd.
        -- now apply after_le.
    + constructor; [now constructor|]. constructor. now apply before_le.
Qed.

Lemma jsSort64_sorted (l : list A) :
  Forall ok l -> Sorted le (jsSort after l).
Proof.
  induction l as [|x l IH]; cbn [jsSort]; intros H; [constructor|].
  apply Forall_cons_iff in H as [Hx Hl].
  apply insertSorted64_sorted; [exact Hx| |now apply IH].
  rewrite Forall_forall in *. intros y Hy. apply Hl.
  apply (Permutation_in _ (Permutation_sym (jsSort64_perm l)) Hy).
Qed.

End SortFacts64.

(** A list has one arrangement in ascending order of a key, when its keys
    are pairwise distinct. *)
Section SortedArrangement.
Context {A : Type} (key : A -> Z).

Lemma sorted_arrangement_unique (l1 l2 : list A) :
  Sorted (fun x y => (key x <= key y)%Z) l1 ->
  Sorted (fun x y => (key x < key y)%Z) l2 ->
  Permutation l1 l2 -> l1 = l2.
Proof.
  intros H1 H2. apply Sorted_StronglySorted in H1; [|intros x y z; lia].
  apply Sorted_StronglySorted in H2; [|intros x y z; lia].
  revert l1 H1. induction H2 as [|b l2 H2 IH Hb]; intros l1 H1 Hp.
  - now apply Permutation_sym, Permutation_nil in Hp.
  - destruct H1 as [|a l1 H1 Ha].
    { now apply Permutation_nil_cons in Hp. }
    assert (In a (b :: l2)) as Hin1
      by (apply (Permutation_in _ Hp); now left).
    assert (In b (a :: l1)) as Hin2
      by (apply (Permutation_in _ (Permutation_sym Hp)); now left).
    rewrite Forall_forall in Ha, Hb.
    assert (a = b) as ->.
    { destruct Hin1 as [E|Hin1]; [now symmetry|].
      destruct Hin2 as [E|Hin2]; [exact E|].
      specialize (Ha _ Hin2). specialize (Hb _ Hin1). lia. }
    f_equal. apply IH; [exact H1|].
    exact (Permutation_cons_inv Hp).
Qed.

End SortedArrangement.

Section CadenceProperties.
Import PrimFloat SpecFloat FloatOps FloatAxioms Binary64.
Open Scope float_scope.

Lemma ascending_sorted (l : list float) :
  Forall number l -> Sorted le64 (jsSort ascending l).
Proof.
  apply jsSort64_sorted; unfold ascending, le64; intros x y Hx Hy.
  - destruct (sub_sign x y Hx Hy) as [-> _]. apply ltb_leb.
  - destruct (sub_sign x y Hx Hy) as [-> _]. now apply not_ltb_leb.
Qed.

Lemma consecutiveDeltas_length64 (l : list float) :
  length (consecutiveDeltas l) = pred (length l).
Proof.
  induction l as [|a [|b l] IH]; try reflexivity.
  change (consecutiveDeltas (a :: b :: l))
    with ((b - a) :: consecutiveDeltas (b :: l)).
  cbn [length pred] in *. now rewrite IH.
Qed.

Lemma consecutiveDeltas_nth (l : list float) (i : nat) :
  (i < length (consecutiveDeltas l))%nat ->
  nth i (consecutiveDeltas l) nan = nth (S i) l nan - nth i l nan.
Proof.
  revert i. induction l as [|a [|b l] IH]; intros i Hi;
    try (cbn in Hi; lia).
  change (consecutiveDeltas (a :: b :: l))
    with ((b - a) :: consecutiveDeltas (b :: l)) in *.
  destruct i as [|i]; [reflexivity|].
  cbn [length] in Hi. apply IH. lia.
Qed.

Lemma consecutiveDeltas64_nonneg (l : list float) :
  Forall (fun t => isFinite t = true) l -> Sorted le64 l ->
  Forall (fun d => (0 <=? d) = true) (consecutiveDeltas l).
Proof.
  induction l as [|a [|b l] IH]; intros Hf Hs; try constructor.
  - apply Forall_cons_iff in Hf as [Ha Hf].
    pose proof (proj1 (Forall_cons_iff _ _ _) Hf) as [Hb _].
    inversion Hs as [|? ? _ Hhd]. inversion Hhd. subst.
    now apply delta_nonneg.
  - apply IH.
    + now inversion Hf.
    + now inversion Hs.
Qed.

(** The median of numbers that are not negative. *)
Lemma median_spec (l : list float) :
  l <> [] -> Forall (fun d => (0 <=? d) = true) l ->
  exists m, median l = Some m /\ medianOf l m /\ number m.
Proof.
  intros Hl Hnn.
  assert (Hnum : Forall number l).
  { eapply Forall_impl; [|exact Hnn]. intros d Hd.
    now destruct (leb_numbers _ _ Hd). }
  set (s := jsSort ascending l).
  assert (Hperm : Permutation l s) by apply jsSort64_perm.
  assert (Hsorted : Sorted le64 s) by now apply ascending_sorted.
  assert (Hs : Forall (fun d => (0 <=? d) = true) s).
  { rewrite Forall_forall in *. intros d Hd. apply Hnn.
    apply (Permutation_in _ (Permutation_sym Hperm) Hd). }
  assert (Hlen : (0 < length s)%nat).
  { unfold s. rewrite jsSort64_length. destruct l; [congruence|cbn; lia]. }
  assert (Hnth : forall i, (i < length s)%nat -> (0 <=? nth i s nan) = true).
  { intros i Hi. rewrite Forall_forall in Hs. apply Hs. now apply nth_In. }
  unfold median. destruct l as [|x l']; [congruence|].
  fold s. pose proof (Nat.div_mod_eq (length s) 2) as Hdiv.
  pose proof (Nat.mod_upper_bound (length s) 2 ltac:(lia)) as Hmod.
  destruct (Nat.eqb (length s mod 2) 0) eqn:E.
  - apply Nat.eqb_eq in E.
    eexists. split; [reflexivity|]. split.
    + exists s. split; [exact Hperm|]. split; [exact Hsorted|].
      right. exists (length s / 2 - 1)%nat. split; [lia|].
      replace (S (length s / 2 - 1)) with (length s / 2)%nat by lia.
      reflexivity.
    + apply mean_number; apply Hnth; lia.
  - apply Nat.eqb_neq in E.
    eexists. split; [reflexivity|]. split.
    + exists s. split; [exact Hperm|]. split; [exact Hsorted|].
      left. exists (length s / 2)%nat. split; [lia|reflexivity].
    + assert ((0 <=? nth (length s / 2) s nan) = true) as H
        by (apply Hnth; lia).
      now destruct (leb_numbers _ _ H).
Qed.

Lemma eqb_zero_cases (m : float) :
  (m =? 0) = true -> m = zero \/ m = neg_zero.
Proof.
  rewrite eqb_spec. change (Prim2SF 0) with (S754_zero false).
  intros H. rewrite <- (SF2Prim_Prim2SF m).
  destruct (Prim2SF m) as [s|s| |s m' e]; try discriminate H.
  - destruct s; [now right|now left].
  - destruct s; discriminate H.
  - destruct s; discriminate H.
Qed.

Lemma abs_sub_neg_zero (d : float) : abs (d - neg_zero) = abs (d - 0).
Proof.
  apply Prim2SF_inj. rewrite !abs_spec, !sub_spec.
  change (Prim2SF neg_zero) with (S754_zero true).
  change (Prim2SF 0) with (S754_zero false).
  destruct (Prim2SF d) as [s|s| |s m e]; try reflexivity.
  now destruct s.
Qed.

Lemma within_max (m d : float) :
  number m ->
  withinTolerance m d = (abs (d - m) <=? mathMax 40 (m * oneFifth)).
Proof.
  intros Hm. unfold withinTolerance. symmetry. apply leb_mathMax.
  now apply (mul_number m oneFifth false 7205759403792794 (-55)).
Qed.

(** The test of the source, with [medianDeltaMs || 0], is the test with
    the median. *)
Lemma isRegular_within (m d : float) :
  number m -> isRegular (Some m) d = withinTolerance m d.
Proof.
  intros Hm. rewrite (within_max m d Hm). revert Hm.
  unfold number, isRegular, tolerance, orZero, truthy.
  intros ->. cbn [negb andb].
  destruct (m =? 0) eqn:E; cbn [negb]; [|reflexivity].
  destruct (eqb_zero_cases m E) as [-> | ->]; [reflexivity|].
  now rewrite abs_sub_neg_zero.
Qed.

Lemma regularityOf_spec (deltas : list float) (m : float) :
  deltas <> [] -> number m ->
  regularityOf deltas (Some m) = specRegularity deltas m.
Proof.
  intros Hd Hm. unfold regularityOf, specRegularity.
  destruct deltas as [|d ds]; [congruence|].
  do 4 f_equal. apply filter_ext. intros x. now apply isRegular_within.
Qed.

Lemma leb_700_truthy (m : float) :
  (700 <=? m) = true -> truthy (Some m) = true.
Proof.
  intros H. unfold truthy.
  destruct (leb_numbers _ _ H) as [_ Hm]. unfold number in Hm.
  rewrite Hm. cbn [negb andb]. apply negb_true_iff.
  revert H. rewrite leb_spec, eqb_spec.
  change (Prim2SF 700) with (S754_finite false 6157265115545600 (-43)).
  change (Prim2SF 0) with (S754_zero false).
  destruct (Prim2SF m) as [s|s| |s m' e]; cbn; try discriminate;
    try reflexivity; destruct s; try reflexivity; discriminate.
Qed.

(** Sorted numbers have ascending ranks. *)
Lemma le64_sorted_ranks (l : list float) :
  Sorted le64 l ->
  Sorted (fun x y => (rank (Prim2SF x) <= rank (Prim2SF y))%Z) l.
Proof.
  induction 1 as [|a l Hs IH Hd]; constructor; [exact IH|].
  destruct Hd as [|b l Hab]; constructor.
  destruct (leb_numbers a b Hab) as [Ha Hb].
  unfold le64 in Hab. rewrite (leb_rank a b Ha Hb) in Hab.
  now apply Z.leb_le.
Qed.

(** A positive difference is a step up in rank. *)
Lemma step_up (a b : float) :
  number a -> number b -> b - a = 1000 ->
  (rank (Prim2SF a) < rank (Prim2SF b))%Z.
Proof.
  intros Ha Hb E. destruct (sub_sign b a Hb Ha) as [Hs _].
  rewrite E in Hs. rewrite (ltb_rank a b Ha Hb) in Hs.
  now apply Z.ltb_lt.
Qed.

(** Numbers whose consecutive differences are 1000 are in the order in
    which the sort puts them. *)
Lemma steps_sorted (ts s : list float) :
  Forall (fun t => isFinite t = true) ts ->
  Permutation ts s ->
  (forall i, (S i < length s)%nat -> nth (S i) s nan - nth i s nan = 1000) ->
  jsSort ascending ts = s.
Proof.
  intros Hfin Hperm Hstep.
  assert (Hnum : Forall number ts).
  { eapply Forall_impl; [|exact Hfin]. intros t. apply finite_number. }
  apply (sorted_arrangement_unique (fun x => rank (Prim2SF x))).
  - apply le64_sorted_ranks. now apply ascending_sorted.
  - assert (Hs : Forall number s).
    { rewrite Forall_forall in *. intros t Ht. apply Hnum.
      apply (Permutation_in _ (Permutation_sym Hperm) Ht). }
    clear Hperm Hfin Hnum.
    induction s as [|a [|b s] IH]; [constructor|repeat constructor|].
    apply Forall_cons_iff in Hs as [Ha Hs]. constructor.
    + apply IH; [|exact Hs]. intros i Hi. apply (Hstep (S i)).
      cbn [length] in *. lia.
    + constructor. apply Forall_cons_iff in Hs as [Hb _].
      apply (step_up a b Ha Hb). apply (Hstep 0%nat). cbn [length]. lia.
  - apply Permutation_trans with ts;
      [apply Permutation_sym, jsSort64_perm|exact Hperm].
Qed.

(** The consecutive differences, when each is 1000. *)
Lemma steps_deltas (s : list float) :
  (forall i, (S i < length s)%nat -> nth (S i) s nan - nth i s nan = 1000) ->
  consecutiveDeltas s = repeat 1000 (pred (length s)).
Proof.
  induction s as [|a [|b s] IH]; intros Hstep; [reflexivity|reflexivity|].
  change (consecutiveDeltas (a :: b :: s))
    with ((b - a) :: consecutiveDeltas (b :: s)).
  rewrite IH.
  - change (repeat 1000 (pred (length (a :: b :: s))))
      with (1000 :: repeat 1000 (pred (length (b :: s)))).
    f_equal. apply (Hstep 0%nat). cbn [length]. lia.
  - intros i Hi. apply (Hstep (S i)). cbn [length] in *. lia.
Qed.

End CadenceProperties.

Section CadenceDetector.
Import PrimFloat SpecFloat FloatOps FloatAxioms Binary64.
Open Scope float_scope.

(** C4.  On timestamps that are finite numbers, in binary64 arithmetic,
    the cadence detector sorts the timestamps in ascending order, takes
    the differences of consecutive ones and their median, reports the
    share of the deltas within [max(40, 0.2 * median)] of the median as
    regularity, and flags periodic churn exactly when there are at least 3
    deltas, the median lies in [700, 1300] and the regularity is at least
    0.5; the median and the regularity are reported rounded to 2 and to 3
    digits.  Fewer than 4 timestamps give no median, no regularity and no
    flag.  Ten timestamps that, put in some order, lie exactly 1000
    apart each from the one before, give the median 1000, the regularity 1
    and the flag. *)
Theorem C4_cadence_detector :
  (forall ts : list float,
     Forall (fun t => isFinite t = true) ts ->
     let sorted := jsSort ascending ts in
     let deltas := consecutiveDeltas sorted in
     let r := summarizeCadence ts in
     Permutation ts sorted /\ Sorted le64 sorted /\
     length deltas = pred (length ts) /\
     (forall i, (i < length deltas)%nat ->
        nth i deltas nan = nth (S i) sorted nan - nth i sorted nan) /\
     samples r = length ts /\
     if Nat.ltb (length ts) 4 then
       medianDeltaMs r = None /\ regularity r = None /\
       likelyIntervalChurn r = false
     else
       exists m,
         medianOf deltas m /\
         medianDeltaMs r = Some (round m 2) /\
         regularity r = Some (round (specRegularity deltas m) 3) /\
         (likelyIntervalChurn r = true <->
          (3 <= length deltas)%nat /\ le64 700 m /\ le64 m 1300 /\
          le64 0.5 (specRegularity deltas m))) /\
  (forall ts arranged : list float,
     Forall (fun t => isFinite t = true) ts ->
     length ts = 10%nat -> Permutation ts arranged ->
     (forall i, (i < 9)%nat ->
        nth (S i) arranged nan - nth i arranged nan = 1000) ->
     summarizeCadence ts
     = {| samples := 10; medianDeltaMs := Some 1000;
          regularity := Some 1; likelyIntervalChurn := true |}).
Proof.
  split.
  - intros ts Hfin sorted deltas r.
    assert (Hperm : Permutation ts sorted) by apply jsSort64_perm.
    assert (Hsorted : Sorted le64 sorted).
    { apply ascending_sorted. eapply Forall_impl; [|exact Hfin].
      intros t. apply finite_number. }
    assert (Hfin' : Forall (fun t => isFinite t = true) sorted).
    { rewrite Forall_forall in *. intros t Ht. apply Hfin.
      apply (Permutation_in _ (Permutation_sym Hperm) Ht). }
    assert (Hlen : length deltas = pred (length ts)).
    { unfold deltas, sorted.
      now rewrite consecutiveDeltas_length64, jsSort64_length. }
    split; [exact Hperm|]. split; [exact Hsorted|].
    split; [exact Hlen|].
    split; [intros i Hi; now apply consecutiveDeltas_nth|].
    unfold r, summarizeCadence.
    destruct (Nat.ltb (length ts) 4) eqn:E4; cbn [samples medianDeltaMs
      regularity likelyIntervalChurn]; [repeat split|].
    apply Nat.ltb_ge in E4. fold sorted. fold deltas.
    split; [unfold sorted; apply jsSort64_length|].
    assert (Hne : deltas <> []).
    { intros E. rewrite E in Hlen. cbn in Hlen. lia. }
    destruct (median_spec deltas Hne
                (consecutiveDeltas64_nonneg sorted Hfin' Hsorted))
      as (m & Em & Hmed & Hnum).
    exists m. rewrite Em. cbn [orZeroIfNull].
    rewrite (regularityOf_spec deltas m Hne Hnum).
    split; [exact Hmed|]. split; [reflexivity|]. split; [reflexivity|].
    unfold le64. rewrite !andb_true_iff, Nat.leb_le. split.
    + intros ((((_ & H1) & H2) & H3) & H4). auto.
    + intros (H4 & H1 & H2 & H3). repeat split; auto.
      now apply leb_700_truthy.
  - intros ts arranged Hfin Hlen Hperm Hstep.
    assert (Hlen' : length arranged = 10%nat)
      by (now rewrite <- (Permutation_length Hperm)).
    assert (Hstep' : forall i, (S i < length arranged)%nat ->
              nth (S i) arranged nan - nth i arranged nan = 1000).
    { intros i Hi. apply Hstep. lia. }
    unfold summarizeCadence.
    rewrite (steps_sorted ts arranged Hfin Hperm Hstep').
    rewrite (steps_deltas arranged Hstep'), Hlen', Hlen. reflexivity.
Qed.

Lemma C4_cadence_detector_witness :
  Forall (fun t => isFinite t = true) tenTicks /\
  Permutation tenTicks tenTicksAscending /\
  Sorted le64 (jsSort ascending tenTicks) /\
  (exists m,
     medianOf (consecutiveDeltas (jsSort ascending tenTicks)) m /\
     medianDeltaMs (summarizeCadence tenTicks) = Some (round m 2)) /\
  summarizeCadence tenTicks
  = {| samples := 10; medianDeltaMs := Some 1000;
       regularity := Some 1; likelyIntervalChurn := true |}.
Proof.
  assert (Hfin : Forall (fun t => isFinite t = true) tenTicks)
    by (repeat constructor).
  assert (Hperm : Permutation tenTicks tenTicksAscending).
  { change tenTicksAscending with (jsSort ascending tenTicks).
    apply jsSort64_perm. }
  split; [exact Hfin|]. split; [exact Hperm|].
  destruct (proj1 C4_cadence_detector tenTicks Hfin)
    as (_ & Hsorted & _ & _ & _ & Hm).
  split; [exact Hsorted|].
  split.
  - change (Nat.ltb (length tenTicks) 4) with false in Hm.
    destruct Hm as (m & Hmed & Hround & _). exists m. now split.
  - apply (proj2 C4_cadence_detector tenTicks tenTicksAscending Hfin
             eq_refl Hperm).
    intros i Hi.
    do 9 (destruct i as [|i]; [reflexivity|]). lia.
Defined.

(** The input of binary64 on which rounding decides: the two middle deltas
    are 1300 and 1300.0000000000002, their mean is rounded to 1300, and
    the churn is flagged. *)
Example median_rounded_to_bound :
  summarizeCadence [100; 0x1.5e00000000001p+10; 2700; 4000; 5301]%float
  = {| samples := 5; medianDeltaMs := Some 1300;
       regularity := Some 1; likelyIntervalChurn := true |}.
Proof. reflexivity. Qed.

(** [round] in binary64: 2.675 to 2 digits is 2.68 and 1.005 is 1, as the
    products with 100 are 267.5 and 100.49999999999999; a tie goes to the
    larger integer; a negative number above -0.005 gives [-0]; what is not
    finite gives 0. *)
Example round_binary64 :
  round 0x1.5666666666666p+1 2 = 0x1.570a3d70a3d71p+1 /\
  round 0x1.0147ae147ae14p+0 2 = 1 /\
  round (-0x1.34a428f5c28f6p+10) 2 = (-0x1.34a3d70a3d70ap+10) /\
  round 0x1.5555555555555p-1 3 = 0x1.55810624dd2f2p-1 /\
  round (-0x1.0624dd2f1a9fcp-10) 2 = neg_zero /\
  round infinity 2 = 0 /\ round nan 2 = 0.
Proof. repeat split; reflexivity. Qed.

(** X16.  [round(num, digits)] in binary64: for a finite [num] whose
    product with [10 ** digits] is finite, the result is the quotient by
    [10 ** digits] of an integer, the one nearest to that product as
    binary64 has it, the larger one on a tie.  So [round(2.675, 2)] is
    2.68: the product is 267.5. *)
Theorem round_nearest_integer (num : float) (digits : nat) :
  isFinite num = true ->
  isFinite (num * ofZ (10 ^ Z.of_nat digits)) = true ->
  exists (n : Z) (r : float),
    nearestInteger (num * ofZ (10 ^ Z.of_nat digits)) n /\
    integerValue r n /\
    round num digits = r / ofZ (10 ^ Z.of_nat digits).
Proof.
  intros Hnum Hprod.
  destruct (mathRound_spec _ Hprod) as (n & Hn & Hint).
  exists n, (mathRound (num * ofZ (10 ^ Z.of_nat digits))).
  split; [exact Hn|]. split; [exact Hint|].
  unfold round. now rewrite Hnum.
Qed.

Lemma round_nearest_integer_witness :
  exists (n : Z) (r : float),
    nearestInteger (0x1.5666666666666p+1 * ofZ (10 ^ Z.of_nat 2)) n /\
    integerValue r n /\
    round 0x1.5666666666666p+1 2 = r / ofZ (10 ^ Z.of_nat 2).
Proof.
  apply (round_nearest_integer 0x1.5666666666666p+1 2); reflexivity.
Defined.

End CadenceDetector.
